(** * Relay: query subtraction and the pending query tracker

    A shallow embedding of [subtractRelayQuery] and of
    [RelayPendingQueryTracker], with the properties their specification
    states about them. *)

From Stdlib Require Import List ZArith String Ascii Bool Lia Arith.
Import ListNotations.

Local Open Scope string_scope.
Local Open Scope list_scope.
Local Open Scope nat_scope.

Set Implicit Arguments.
Set Warnings "-register-all".

(** ** Call values

    A JavaScript number is a double.  The numbers of the model are [NaN],
    the two infinities and the integers: [Integer z] is the number whose
    value is [z], for [z] a double, as every integer below [2 ^ 53] in
    absolute value is.  Fractions and the negative zero are left out. *)

Inductive Number : Type :=
| NaN
| Infinity (negative : bool)
| Integer (z : Z).

(** The values carried by the arguments of a field or of a root: JavaScript
    primitives and arrays of them.  A string is a sequence of code units
    below 256. *)

Inductive Value : Type :=
| VUndefined
| VNull
| VBool (b : bool)
| VNum (n : Number)
| VStr (s : string)
| VArr (l : list Value).

Record Call : Type := mkCall { name : string; value : Value }.

(** [a == b] on two numbers as [areEqual] has it: [NaN] is equal to
    itself. *)
Definition sameNumber (a b : Number) : bool :=
  match a, b with
  | NaN, NaN => true
  | Infinity x, Infinity y => Bool.eqb x y
  | Integer x, Integer y => Z.eqb x y
  | _, _ => false
  end.

(** [fbjs/lib/areEqual]: deep equality by value.  On the values above it is
    structural equality ([undefined] and [null] differ). *)

Fixpoint areEqual (a b : Value) {struct a} : bool :=
  match a, b with
  | VUndefined, VUndefined => true
  | VNull, VNull => true
  | VBool x, VBool y => Bool.eqb x y
  | VNum x, VNum y => sameNumber x y
  | VStr x, VStr y => String.eqb x y
  | VArr l, VArr m =>
      (fix all2 (l : list Value) (m : list Value) {struct l} : bool :=
         match l, m with
         | [], [] => true
         | x :: l', y :: m' => areEqual x y && all2 l' m'
         | _, _ => false
         end) l m
  | _, _ => false
  end.

Definition areEqualCall (a b : Call) : bool :=
  String.eqb (name a) (name b) && areEqual (value a) (value b).

(** [areEqual] on two possibly missing identifying arguments. *)
Definition areEqualArg (a b : option Call) : bool :=
  match a, b with
  | None, None => true
  | Some x, Some y => areEqualCall x y
  | _, _ => false
  end.

(** ** String conversion and [parseInt]

    [canSubtractField] compares [parseInt('' + value, 10)] of two counts. *)

Definition digit_of_Z (d : Z) : ascii :=
  ascii_of_nat (48 + Z.to_nat d).

(** Decimal digits of a positive number, most significant first; [fuel]
    bounds the number of digits. *)
Fixpoint digits_of (fuel : nat) (z : Z) (acc : string) : string :=
  match fuel with
  | O => acc
  | S fuel' =>
      let acc' := String (digit_of_Z (z mod 10)) acc in
      if (z / 10 =? 0)%Z then acc' else digits_of fuel' (z / 10)%Z acc'
  end.

Definition string_of_Z (z : Z) : string :=
  match z with
  | Z0 => "0"
  | Zpos _ => digits_of (S (Z.to_nat (Z.log2 z))) z ""
  | Zneg _ => String "-" (digits_of (S (Z.to_nat (Z.log2 (- z)))) (- z)%Z "")
  end.

(** The double nearest to the natural number [n]: [n] rounded to 53
    significant bits, a tie going to the even one. *)
Definition nearestDouble (n : Z) : Z :=
  let e := (Z.log2 n - 52)%Z in
  if (e <=? 0)%Z then n
  else
    let q := Z.shiftr n e in
    let r := (n - Z.shiftl q e)%Z in
    let half := Z.shiftl 1 (e - 1) in
    Z.shiftl (if (half <? r)%Z || ((r =? half)%Z && Z.odd q)
              then q + 1 else q)%Z e.

(** The number for an integer: the nearest double, and an infinity from
    [2 ^ 1024] on. *)
Definition numberOf (z : Z) : Number :=
  let r := nearestDouble (Z.abs z) in
  if (2 ^ 1024 <=? r)%Z then Infinity (z <? 0)%Z
  else Integer (if (z <? 0)%Z then - r else r).

(** [Number::toString] looks for the decimal with the fewest significant
    digits that reads back as the number, and the one nearest to it when
    there are several, the even one at a tie.  [shortestAt j z] is that
    decimal among the multiples of [10 ^ j], or of a lower power of ten
    when none reads back as [z]. *)
Fixpoint shortestAt (j : nat) (z : Z) : Z :=
  let unit := (10 ^ Z.of_nat j)%Z in
  let lo := (z / unit * unit)%Z in
  let hi := (lo + unit)%Z in
  if (nearestDouble lo =? z)%Z then
    if (nearestDouble hi =? z)%Z then
      if (z - lo <? hi - z)%Z then lo
      else if (hi - z <? z - lo)%Z then hi
      else if Z.even (z / unit) then lo else hi
    else lo
  else if (nearestDouble hi =? z)%Z then hi
  else match j with
       | O => z
       | S j' => shortestAt j' z
       end.

(** Below [2 ^ 53] the neighbours of an integer are numbers, and no
    shorter decimal reads back as it. *)
Definition shortest (z : Z) : Z :=
  if (z <? 2 ^ 53)%Z then z
  else shortestAt (String.length (string_of_Z z) - 1) z.

(** The digits without the zeros at the end. *)
Fixpoint dropZeros (s : string) : string :=
  match s with
  | String c s' =>
      match dropZeros s' with
      | EmptyString =>
          if Ascii.eqb c "0" then EmptyString else String c EmptyString
      | r => String c r
      end
  | EmptyString => EmptyString
  end.

(** The exponential notation of the decimal [d]: [1e+21],
    [1.2345e+25]. *)
Definition exponential (d : Z) : string :=
  let digits := string_of_Z d in
  let e := string_of_Z (Z.of_nat (String.length digits - 1)) in
  match dropZeros digits with
  | String c EmptyString => String c ("e+" ++ e)
  | String c rest => String c ("." ++ rest ++ "e+" ++ e)
  | EmptyString => digits
  end.

(** A positive integer, printed: in full below [10 ^ 21], in exponential
    notation from there on. *)
Definition positiveToString (z : Z) : string :=
  let d := shortest z in
  if (d <? 10 ^ 21)%Z then string_of_Z d else exponential d.

(** [Number::toString]. *)
Definition numberToString (n : Number) : string :=
  match n with
  | NaN => "NaN"
  | Infinity false => "Infinity"
  | Infinity true => "-Infinity"
  | Integer Z0 => "0"
  | Integer (Zpos p) => positiveToString (Zpos p)
  | Integer (Zneg p) => String "-" (positiveToString (Zpos p))
  end.

Fixpoint join (sep : string) (l : list string) : string :=
  match l with
  | [] => ""
  | [s] => s
  | s :: l' => (s ++ sep ++ join sep l')%string
  end.

(** ['' + value]: JavaScript's [ToString]. *)
Fixpoint toString (v : Value) : string :=
  match v with
  | VUndefined => "undefined"
  | VNull => "null"
  | VBool true => "true"
  | VBool false => "false"
  | VNum n => numberToString n
  | VStr s => s
  | VArr l =>
      join ","
        (map (fun x => match x with
                       | VUndefined | VNull => ""
                       | _ => toString x
                       end) l)
  end.

(** The white space and the line terminators below 256: TAB, LF, VT, FF,
    CR, SP and NBSP. *)
Definition isWhiteSpace (c : ascii) : bool :=
  let n := nat_of_ascii c in
  (n =? 9) || (n =? 10) || (n =? 11) || (n =? 12) || (n =? 13) || (n =? 32)
  || (n =? 160).

Definition digitValue (c : ascii) : option Z :=
  let n := nat_of_ascii c in
  if (48 <=? n) && (n <=? 57) then Some (Z.of_nat (n - 48)) else None.

Fixpoint trimLeft (s : string) : string :=
  match s with
  | String c s' => if isWhiteSpace c then trimLeft s' else s
  | EmptyString => s
  end.

(** The longest prefix of decimal digits, read as a number; [None] when
    there is no digit. *)
Fixpoint readDigits (s : string) (acc : option Z) : option Z :=
  match s with
  | String c s' =>
      match digitValue c with
      | Some d =>
          readDigits s' (Some (match acc with
                               | Some a => 10 * a + d
                               | None => d
                               end)%Z)
      | None => acc
      end
  | EmptyString => acc
  end.

(** The number for the digits read, with their sign; [NaN] when there is
    no digit. *)
Definition numberOfDigits (negative : bool) (digits : option Z) : Number :=
  match digits with
  | Some n => numberOf (if negative then - n else n)
  | None => NaN
  end.

(** [parseInt(s, 10)]. *)
Definition parseInt (s : string) : Number :=
  match trimLeft s with
  | String "-" s' => numberOfDigits true (readDigits s' None)
  | String "+" s' => numberOfDigits false (readDigits s' None)
  | s' => numberOfDigits false (readDigits s' None)
  end.

(** [a <= b] on two numbers: false when either is [NaN]. *)
Definition numLe (a b : Number) : bool :=
  match a, b with
  | NaN, _ | _, NaN => false
  | Infinity true, _ => true
  | _, Infinity false => true
  | Infinity false, _ => false
  | _, Infinity true => false
  | Integer x, Integer y => (x <=? y)%Z
  end.

(** ** Query trees

    Modelled from the spec: the classes of [RelayQuery] (Root, Fragment and
    Field with its kinds Scalar, Plain and Range, section 3) are not among
    the sources.  A node is an object: [ref] is its identity, and [===] on
    two nodes compares their identities. *)

Inductive FieldKind : Type := Scalar | Plain | Range.

Record FieldInfo : Type := mkFieldInfo {
  schemaName : string;
  applicationName : string;
  calls : list Call;
  kind : FieldKind;
  requisite : bool;
  refQueryDependency : bool
}.

Inductive Node : Type :=
| Root (ref : nat) (fieldName : string) (identifyingArg : option Call)
       (children : list Node)
| Fragment (ref : nat) (children : list Node)
| Field (ref : nat) (info : FieldInfo) (children : list Node).

Definition getRef (n : Node) : nat :=
  match n with
  | Root r _ _ _ | Fragment r _ | Field r _ _ => r
  end.

Definition getChildren (n : Node) : list Node :=
  match n with
  | Root _ _ _ cs | Fragment _ cs | Field _ _ cs => cs
  end.

(** [a === b] on two nodes. *)
Definition same_ref (a b : Node) : bool := getRef a =? getRef b.

Definition isRoot (n : Node) : bool :=
  match n with Root _ _ _ _ => true | _ => false end.

Definition isField (n : Node) : bool :=
  match n with Field _ _ _ => true | _ => false end.

Definition canHaveSubselections (n : Node) : bool :=
  match n with
  | Field _ i _ => match kind i with Scalar => false | _ => true end
  | _ => true
  end.

Definition isConnection (n : Node) : bool :=
  match n with
  | Field _ i _ => match kind i with Range => true | _ => false end
  | _ => false
  end.

Definition isRequisite (n : Node) : bool :=
  match n with Field _ i _ => requisite i | _ => false end.

Definition isRefQueryDependency (n : Node) : bool :=
  match n with Field _ i _ => refQueryDependency i | _ => false end.

(** The node with other children and another identity: what [clone] builds. *)
Definition withChildren (r : nat) (n : Node) (cs : list Node) : Node :=
  match n with
  | Root _ f a _ => Root r f a cs
  | Fragment _ _ => Fragment r cs
  | Field _ i _ => Field r i cs
  end.

(** Modelled from the spec: [getField] of [RelayQuery] is not among the
    sources.  The matching field of [field] in [node] is the child field
    that denotes the same logical field, that is the one with its schema
    name (section 3); children are entered in a map in their order, so the
    last one with a name stands for it. *)
Definition getField (node : Node) (field : FieldInfo) : option Node :=
  fold_left
    (fun found child =>
       match child with
       | Field _ i _ =>
           if String.eqb (schemaName i) (schemaName field)
           then Some child else found
       | _ => found
       end)
    (getChildren node) None.

(** ** The transform monad

    A transform allocates the nodes it builds and can fail an [invariant]:
    a computation takes the next free identity and ends with a value and the
    next free identity, with a thrown invariant violation, or without fuel. *)

Inductive Outcome (A : Type) : Type :=
| Done (a : A) (next : nat)
| Throw (msg : string)
| OutOfFuel.

Arguments Throw {A} msg.
Arguments OutOfFuel {A}.

Definition M (A : Type) : Type := nat -> Outcome A.

Definition ret {A} (a : A) : M A := fun next => Done a next.

Definition bind {A B} (m : M A) (k : A -> M B) : M B :=
  fun next =>
    match m next with
    | Done a next' => k a next'
    | Throw msg => Throw msg
    | OutOfFuel => OutOfFuel
    end.

Definition invariant (cond : bool) (msg : string) : M unit :=
  fun next => if cond then Done tt next else Throw msg.

Definition fresh : M nat := fun next => Done next (S next).

Definition out_of_fuel {A} : M A := fun _ => OutOfFuel.

Declare Scope transform_scope.
Delimit Scope transform_scope with transform.
Notation "x <- m ;; k" := (bind m (fun x => k))
  (at level 61, m at next level, right associativity) : transform_scope.
Notation "' p <- m ;; k" := (bind m (fun x => let p := x in k))
  (at level 61, p pattern, m at next level, right associativity)
  : transform_scope.
Notation "m ;;; k" := (bind m (fun _ => k))
  (at level 61, right associativity) : transform_scope.
Local Open Scope transform_scope.

(** ** [RelayQuery.Node.clone]

    Modelled from the spec: [clone] is not among the sources.  Any
    transform produces a new node or reuses the original by reference
    (section 3); a node left without children is dropped. *)

Fixpoint cloneChildrenLoop (prevChildren : list Node)
    (nextChildren : list (option Node)) (children : list Node)
    (isSameChildren : bool) (prevIndex : nat) : list Node * bool :=
  match nextChildren with
  | [] => (children, isSameChildren)
  | None :: rest =>
      cloneChildrenLoop prevChildren rest children isSameChildren prevIndex
  | Some child :: rest =>
      if isSameChildren then
        cloneChildrenLoop prevChildren rest (children ++ [child])
          (match nth_error prevChildren prevIndex with
           | Some prev => same_ref child prev
           | None => false
           end)
          (S prevIndex)
      else
        cloneChildrenLoop prevChildren rest (children ++ [child]) false
          prevIndex
  end.

(** The new list of children, and whether it is the previous one. *)
Definition cloneChildren (prevChildren : list Node)
    (nextChildren : list (option Node)) : list Node * bool :=
  let '(children, isSameChildren) :=
    cloneChildrenLoop prevChildren nextChildren [] true 0 in
  if isSameChildren && (List.length children =? List.length prevChildren)
  then (prevChildren, true)
  else (children, false).

Definition clone (node : Node) (children : list (option Node))
  : M (option Node) :=
  if negb (canHaveSubselections node) then
    invariant (List.length children =? 0)
      "RelayQueryNode: Cannot add children to field" ;;;
    ret (Some node)
  else
    let '(nextChildren, same) := cloneChildren (getChildren node) children in
    if List.length nextChildren =? 0 then ret None
    else if same then ret (Some node)
    else
      r <- fresh ;;
      ret (Some (withChildren r node nextChildren)).

(** ** [subtractRelayQuery] *)

(** The state of a visit: [{isEmpty, subtrahend}]. *)
Record State : Type := mkState { isEmpty : bool; subtrahend : Node }.

Definition setEmpty (state : State) (b : bool) : State :=
  {| isEmpty := b; subtrahend := subtrahend state |}.

(** Determine if the subtree is effectively 'empty'; all non-metadata
    sub-fields have been removed. *)
Fixpoint isEmptyField (node : Node) : bool :=
  match node with
  | Field _ i cs =>
      match kind i with
      | Scalar =>
          requisite i && negb (refQueryDependency i)
          && String.eqb (applicationName i) (schemaName i)
      | _ => forallb isEmptyField cs
      end
  | Root _ _ _ cs | Fragment _ cs => forallb isEmptyField cs
  end.

(** Determine if the two queries have the same root field and identifying
    arg. *)
Definition canSubtractRoot (min sub : Node) : bool :=
  match min, sub with
  | Root _ minName minIdentifyingCall _, Root _ subName subIdentifyingCall _ =>
      String.eqb minName subName
      && areEqualArg minIdentifyingCall subIdentifyingCall
  | _, _ => false
  end.

(** The test of [minArgs.every] on the argument at index [ii]. *)
Definition canSubtractArg (subArgs : list Call) (minArg : Call) (ii : nat)
  : bool :=
  match nth_error subArgs ii with
  | None => false
  | Some subArg =>
      if negb (String.eqb (name minArg) (name subArg)) then false
      else if String.eqb (name minArg) "first"
              || String.eqb (name minArg) "last"
      then numLe (parseInt (toString (value minArg)))
                 (parseInt (toString (value subArg)))
      else areEqual (value minArg) (value subArg)
  end.

Fixpoint everyFrom {A} (f : A -> nat -> bool) (l : list A) (ii : nat) : bool :=
  match l with
  | [] => true
  | a :: l' => if f a ii then everyFrom f l' (S ii) else false
  end.

(** Determine if [minField] is a subset of the range specified by
    [subField] such that they can be subtracted. *)
Definition canSubtractField (minField subField : FieldInfo) : bool :=
  if negb (String.eqb (schemaName minField) (schemaName subField)) then false
  else
    let minArgs := calls minField in
    let subArgs := calls subField in
    if negb (List.length minArgs =? List.length subArgs) then false
    else everyFrom (canSubtractArg subArgs) minArgs 0.

(** Find all subfields that may overlap with the range rooted at [node]. *)
Definition getMatchingRangeFields (node : FieldInfo) (subtrahend : Node)
  : list Node :=
  filter
    (fun child =>
       match child with
       | Field _ i _ => canSubtractField node i
       | _ => false
       end)
    (getChildren subtrahend).

Section Subtractor.

(** [this.visit], one level down. *)
Variable visit : Node -> State -> M (option Node * State).

(** The callback of [node.getChildren().map] over the children. *)
Fixpoint subtractEach (children : list Node) (state : State)
  : M (list (option Node) * State) :=
  match children with
  | [] => ret ([], state)
  | child :: rest =>
      let childState := {| isEmpty := true;
                           subtrahend := subtrahend state |} in
      r <- visit child childState ;;
      let state' := setEmpty state (isEmpty state && isEmpty (snd r)) in
      rs <- subtractEach rest state' ;;
      ret (fst r :: fst rs, snd rs)
  end.

(** Subtracts any RelayQuery.Node that contains subfields. *)
Definition _subtractChildren (node : Node) (state : State)
  : M (option Node * State) :=
  rs <- subtractEach (getChildren node) state ;;
  diff <- clone node (fst rs) ;;
  ret (diff, snd rs).

Definition _subtractScalar (node : Node) (info : FieldInfo) (state : State)
  : M (option Node * State) :=
  let subField := getField (subtrahend state) info in
  match subField with
  | Some _ =>
      if negb (isRequisite node) then ret (None, state)
      else ret (Some node, setEmpty state (isEmptyField node))
  | None => ret (Some node, setEmpty state (isEmptyField node))
  end.

(** The loop of [_subtractConnection] over the matching ranges. *)
Fixpoint subtractRanges (subtrahendRanges : list Node) (diff : Node)
    (state : State) : M (option Node * State) :=
  match subtrahendRanges with
  | [] => ret (Some diff, state)
  | range :: rest =>
      let fieldState := {| isEmpty := true; subtrahend := range |} in
      r <- _subtractChildren diff fieldState ;;
      let state' := setEmpty state (isEmpty (snd r)) in
      match fst r with
      | None => ret (None, state')
      | Some diff' => subtractRanges rest diff' state'
      end
  end.

Definition _subtractConnection (node : Node) (info : FieldInfo)
    (state : State) : M (option Node * State) :=
  let subtrahendRanges := getMatchingRangeFields info (subtrahend state) in
  match subtrahendRanges with
  | [] => ret (Some node, setEmpty state (isEmptyField node))
  | _ => subtractRanges subtrahendRanges node state
  end.

(** Subtract a non-scalar/range field. *)
Definition _subtractField (node : Node) (info : FieldInfo) (state : State)
  : M (option Node * State) :=
  match getField (subtrahend state) info with
  | None => ret (Some node, setEmpty state (isEmptyField node))
  | Some subField =>
      let fieldState := {| isEmpty := true; subtrahend := subField |} in
      r <- _subtractChildren node fieldState ;;
      ret (fst r, setEmpty state (isEmpty (snd r)))
  end.

Definition visitRoot (node : Node) (state : State)
  : M (option Node * State) :=
  invariant (isRoot (subtrahend state))
    "subtractRelayQuery(): Cannot subtract a non-root node from a root." ;;;
  if negb (canSubtractRoot node (subtrahend state)) then
    ret (Some node, setEmpty state false)
  else _subtractChildren node state.

Definition visitFragment (node : Node) (state : State)
  : M (option Node * State) :=
  _subtractChildren node state.

Definition visitField (node : Node) (info : FieldInfo) (state : State)
  : M (option Node * State) :=
  r <- (if negb (canHaveSubselections node) then
          _subtractScalar node info state
        else if isConnection node then
          _subtractConnection node info state
        else _subtractField node info state) ;;
  match fst r with
  | Some diff =>
      if isRequisite diff || negb (isEmpty (snd r))
      then ret (Some diff, snd r)
      else ret (None, snd r)
  | None => ret (None, snd r)
  end.

End Subtractor.

(** Modelled from the spec: [RelayQueryTransform] and [RelayQueryVisitor]
    are not among the sources.  [visit] is the dispatch on the class of the
    node, to [visitRoot], [visitFragment] or [visitField].  The recursion
    goes through the trees that [clone] returns, so it is bounded by [fuel],
    one unit per level of the tree. *)
Fixpoint visit (fuel : nat) (node : Node) (state : State)
  : M (option Node * State) :=
  match fuel with
  | O => out_of_fuel
  | S fuel' =>
      match node with
      | Field _ info _ => visitField (visit fuel') node info state
      | Fragment _ _ => visitFragment (visit fuel') node state
      | Root _ _ _ _ => visitRoot (visit fuel') node state
      end
  end.

(** The number of levels of a tree. *)
Fixpoint height (node : Node) : nat :=
  match node with
  | Root _ _ _ cs | Fragment _ cs | Field _ _ cs =>
      S (list_max (map height cs))
  end.

(** [subtractRelayQuery(minuend, subtrahend)] returns a new query that
    matches the structure of [minuend], minus any fields which also occur in
    [subtrahend].  Returns null if all fields can be subtracted, [minuend]
    if no fields can be subtracted, and a new query otherwise. *)
Definition subtractRelayQuery (minuend subtrahend : Node) : M (option Node) :=
  let state := {| isEmpty := true; subtrahend := subtrahend |} in
  r <- visit (height minuend) minuend state ;;
  if negb (isEmpty (snd r)) then
    invariant (match fst r with Some diff => isRoot diff | None => false end)
      "subtractRelayQuery(): Expected a subtracted query root." ;;;
    ret (fst r)
  else ret None.

(** The induction principle of [Value], through the lists of an array. *)
Section ValueInd.
Variable P : Value -> Prop.
Hypothesis Pundef : P VUndefined.
Hypothesis Pnull : P VNull.
Hypothesis Pbool : forall b, P (VBool b).
Hypothesis Pnum : forall n, P (VNum n).
Hypothesis Pstr : forall s, P (VStr s).
Hypothesis Parr : forall l, Forall P l -> P (VArr l).

Fixpoint Value_nested_ind (v : Value) : P v :=
  match v with
  | VUndefined => Pundef
  | VNull => Pnull
  | VBool b => Pbool b
  | VNum n => Pnum n
  | VStr s => Pstr s
  | VArr l =>
      Parr ((fix go (l : list Value) : Forall P l :=
               match l with
               | [] => Forall_nil P
               | x :: l' => Forall_cons x (Value_nested_ind x) (go l')
               end) l)
  end.
End ValueInd.

(** ** Vocabulary of the statements *)

(** What a computation establishes when it is run from [next]: [Q] of its
    value and of the next free identity.  It never runs out of fuel; a
    thrown invariant violation is accepted when [E] holds. *)
Definition wp {A} (E : Prop) (m : M A) (next : nat) (Q : A -> nat -> Prop)
  : Prop :=
  match m next with
  | Done a next' => Q a next'
  | Throw _ => E
  | OutOfFuel => False
  end.

(** [Embeds R l' l]: [l'] is [l] with some elements dropped and the others
    replaced by [R]-related ones, in the same order. *)
Inductive Embeds {A} (R : A -> A -> Prop) : list A -> list A -> Prop :=
| Embeds_nil : Embeds R [] []
| Embeds_drop c l' l : Embeds R l' l -> Embeds R l' (c :: l)
| Embeds_keep c' c l' l : R c' c -> Embeds R l' l -> Embeds R (c' :: l') (c :: l).

(** [Pruned d n]: [d] has the shape of [n] with subtrees removed: it is [n]
    itself, or a copy of [n] whose children are pruned children of [n], in
    their order. *)
Inductive Pruned : Node -> Node -> Prop :=
| Pruned_same n : Pruned n n
| Pruned_clone r n cs :
    Embeds Pruned cs (getChildren n) -> Pruned (withChildren r n cs) n.

(** The children that a list of visited children keeps. *)
Fixpoint somes {A} (l : list (option A)) : list A :=
  match l with
  | [] => []
  | Some a :: l' => a :: somes l'
  | None :: l' => somes l'
  end.

(** No root below the top of the tree. *)
Fixpoint noRootBelow (n : Node) : bool :=
  match n with
  | Root _ _ _ cs | Fragment _ cs | Field _ _ cs =>
      forallb (fun c => negb (isRoot c) && noRootBelow c) cs
  end.

(** Every identity in the tree is below [next]: the tree was allocated
    before. *)
Fixpoint allocated (next : nat) (n : Node) : bool :=
  match n with
  | Root r _ _ cs | Fragment r cs | Field r _ cs =>
      (r <? next) && forallb (allocated next) cs
  end.

(** What a visit of [n] from [next] establishes: it only allocates, it
    leaves the subtrahend of the state alone, and a node it returns is a
    pruned [n], [n] itself or a node allocated by the visit. *)
Definition visitPost (n : Node) (st : State) (next : nat)
    (r : option Node * State) (next' : nat) : Prop :=
  next <= next' /\
  subtrahend (snd r) = subtrahend st /\
  forall d, fst r = Some d ->
    Pruned d n /\ (d = n \/ (next <= getRef d /\ getRef d < next')).

(** A node that is visited without an invariant violation: it is not a root
    and has no root below.  Under [E] violations are accepted and there is
    no condition. *)
Definition okNode (E : Prop) (n : Node) : Prop :=
  E \/ (isRoot n = false /\ noRootBelow n = true).

(** The order of the numbers: [a] is at most [b], neither being [NaN]. *)
Definition atMost (a b : Number) : Prop :=
  match a, b with
  | Integer x, Integer y => (x <= y)%Z
  | Infinity true, (Infinity _ | Integer _) => True
  | (Infinity _ | Integer _), Infinity false => True
  | _, _ => False
  end.

(** The count that [canSubtractField] reads in a value. *)
Definition countOf (v : Value) : Number := parseInt (toString v).

(** The argument [subArg] of a sibling makes up for the argument [minArg]
    of the range: they have the same name, and either it is [first] or
    [last] and both values read as numbers, the sibling's at least the
    range's, or the values are equal. *)
Definition isCount (n : string) : bool :=
  String.eqb n "first" || String.eqb n "last".

Definition argCovers (minArg subArg : Call) : Prop :=
  name minArg = name subArg /\
  if isCount (name minArg) then
    atMost (countOf (value minArg)) (countOf (value subArg))
  else value minArg = value subArg.

(** The condition of the specification on the arguments, by name: every
    argument of the range that is not [first] or [last] has the same value
    in the sibling, and for [first] and [last] the count of the range is at
    most the count of the sibling. *)
Definition lookupArg (n : string) (args : list Call) : option Value :=
  option_map value (find (fun c => String.eqb (name c) n) args).

Definition argsCoverByName (minArgs subArgs : list Call) : Prop :=
  forall minArg, In minArg minArgs ->
    exists v, lookupArg (name minArg) subArgs = Some v /\
      if isCount (name minArg) then
        atMost (countOf (value minArg)) (countOf v)
      else value minArg = v.

(** A range field with the single argument [first: count]. *)
Definition firstRange (schema : string) (count : Z) : FieldInfo :=
  {| schemaName := schema; applicationName := schema;
     calls := [mkCall "first" (VNum (Integer count))]; kind := Range;
     requisite := false; refQueryDependency := false |}.

(** A requisite scalar field that has a matching field in [sub]. *)
Definition requisiteScalarIn (sub : Node) (c : Node) : bool :=
  match c with
  | Field _ i _ =>
      match kind i with
      | Scalar =>
          requisite i
          && match getField sub i with Some _ => true | None => false end
      | _ => false
      end
  | _ => false
  end.

(** Two nodes are fields with the same schema name. *)
Definition sameSchema (c c' : Node) : bool :=
  match c, c' with
  | Field _ i _, Field _ i' _ => String.eqb (schemaName i) (schemaName i')
  | _, _ => false
  end.

(** No two fields of the list have the same schema name. *)
Fixpoint distinctNames (cs : list Node) : bool :=
  match cs with
  | [] => true
  | c :: cs' => negb (existsb (sameSchema c) cs') && distinctNames cs'
  end.

(** A tree that its own subtraction covers: at every level the children
    are fields with distinct schema names; a scalar field that is requisite
    is an unaliased field that is no ref-query-dependency; the arguments of
    a range field cover themselves (its [first] and [last] read as
    numbers). *)
Fixpoint selfCovered (n : Node) : bool :=
  match n with
  | Root _ _ _ cs | Fragment _ cs | Field _ _ cs =>
      distinctNames cs
      && forallb
           (fun c =>
              match c with
              | Field _ i _ =>
                  match kind i with
                  | Scalar => negb (requisite i) || isEmptyField c
                  | Plain => selfCovered c
                  | Range => canSubtractField i i && selfCovered c
                  end
              | _ => false
              end) cs
  end.

(** The condition of [selfCovered] on one child. *)
Definition coveredChild (c : Node) : bool :=
  match c with
  | Field _ i _ =>
      match kind i with
      | Scalar => negb (requisite i) || isEmptyField c
      | Plain => selfCovered c
      | Range => canSubtractField i i && selfCovered c
      end
  | _ => false
  end.

(** No field of the tree is requisite. *)
Fixpoint noRequisite (n : Node) : bool :=
  match n with
  | Root _ _ _ cs | Fragment _ cs => forallb noRequisite cs
  | Field _ i cs => negb (requisite i) && forallb noRequisite cs
  end.

(** A scalar field without arguments or alias. *)
Definition scalarField (r : nat) (schema : string) (req : bool) : Node :=
  Field r {| schemaName := schema; applicationName := schema; calls := [];
             kind := Scalar; requisite := req;
             refQueryDependency := false |} [].

(** A plain composite field without arguments or alias. *)
Definition plainField (r : nat) (schema : string) (cs : list Node) : Node :=
  Field r {| schemaName := schema; applicationName := schema; calls := [];
             kind := Plain; requisite := false;
             refQueryDependency := false |} cs.

(** At every level of the tree, no two fields have the same schema name. *)
Fixpoint distinctBelow (n : Node) : bool :=
  match n with
  | Root _ _ _ cs | Fragment _ cs | Field _ _ cs =>
      distinctNames cs && forallb distinctBelow cs
  end.

(** The part of the subtrahend that the children of [c] are subtracted
    from, when [c] is subtracted from [scope]: the field that matches it.
    [None]: nothing matches, and nothing below [c] is covered. *)
Definition childScope (scope : option Node) (c : Node) : option Node :=
  match scope, c with
  | Some s, Field _ i _ =>
      match kind i with
      | Scalar => None
      | Plain => getField s i
      | Range => hd_error (getMatchingRangeFields i s)
      end
  | Some s, Fragment _ _ => Some s
  | Some s, Root _ _ _ _ => if canSubtractRoot c s then Some s else None
  | None, _ => None
  end.

(** The scalar field [i] is present in the scope. *)
Definition present (scope : option Node) (i : FieldInfo) : bool :=
  match scope with
  | Some s => match getField s i with Some _ => true | None => false end
  | None => false
  end.

(** Nothing that counts is left of [c] once [scope] is subtracted: every
    scalar field below [c] is a field present in the subtrahend that is not
    requisite, or a requisite field that is unaliased and no
    ref-query-dependency. *)
Fixpoint countsEmpty (scope : option Node) (c : Node) : bool :=
  match c with
  | Field _ i cs =>
      match kind i with
      | Scalar => (present scope i && negb (requisite i)) || isEmptyField c
      | _ => forallb (countsEmpty (childScope scope c)) cs
      end
  | Fragment _ cs | Root _ _ _ cs =>
      forallb (countsEmpty (childScope scope c)) cs
  end.

(** The induction principle of [Node], through the lists of children. *)
Section NodeInd.
Variable P : Node -> Prop.
Hypothesis Pnode : forall n, Forall P (getChildren n) -> P n.

Fixpoint Node_nested_ind (n : Node) : P n :=
  let go := fix go (l : list Node) : Forall P l :=
              match l with
              | [] => Forall_nil P
              | x :: l' => Forall_cons x (Node_nested_ind x) (go l')
              end in
  match n with
  | Root r f a cs => Pnode (Root r f a cs) (go cs)
  | Fragment r cs => Pnode (Fragment r cs) (go cs)
  | Field r i cs => Pnode (Field r i cs) (go cs)
  end.
End NodeInd.

(** What a visit leaves in its state: the emptiness [e], the subtrahend
    [sub]; and a visit that returns null leaves the state empty. *)
Definition emptyPost (e : bool) (sub : Node) (r : option Node * State)
  : Prop :=
  isEmpty (snd r) = e /\ subtrahend (snd r) = sub /\
  (fst r = None -> e = true).

(** The scalar fields of a tree, in order. *)
Fixpoint leafNodes (c : Node) : list Node :=
  match c with
  | Field _ i cs =>
      match kind i with
      | Scalar => [c]
      | _ => flat_map leafNodes cs
      end
  | Fragment _ cs | Root _ _ _ cs => flat_map leafNodes cs
  end.

(** The scalar fields of [c] that are not present in the subtrahend, in
    order. *)
Fixpoint uncoveredLeaves (scope : option Node) (c : Node) : list Node :=
  match c with
  | Field _ i cs =>
      match kind i with
      | Scalar => if present scope i then [] else [c]
      | _ => flat_map (uncoveredLeaves (childScope scope c)) cs
      end
  | Fragment _ cs | Root _ _ _ cs =>
      flat_map (uncoveredLeaves (childScope scope c)) cs
  end.

(** The scalar fields of [c] that are present in the subtrahend, in order. *)
Fixpoint coveredLeaves (scope : option Node) (c : Node) : list Node :=
  match c with
  | Field _ i cs =>
      match kind i with
      | Scalar => if present scope i then [c] else []
      | _ => flat_map (coveredLeaves (childScope scope c)) cs
      end
  | Fragment _ cs | Root _ _ _ cs =>
      flat_map (coveredLeaves (childScope scope c)) cs
  end.

(** Every node that can have children has one. *)
Fixpoint solid (c : Node) : bool :=
  match c with
  | Field _ i cs =>
      match kind i with
      | Scalar => true
      | _ => match cs with [] => false | _ => forallb solid cs end
      end
  | Fragment _ cs | Root _ _ _ cs =>
      match cs with [] => false | _ => forallb solid cs end
  end.

(** What the visit of the child [c] returned, [d], against the scope [s],
    when nothing of [c] is requisite: null exactly when every scalar field
    of [c] is present in [s], [c] itself exactly when none is, and
    otherwise a node allocated from [next0] on; the scalar fields of the
    node returned are the fields of [c] not present in [s]. *)
Definition childExact (s : Node) (next0 : nat) (c : Node) (d : option Node)
  : Prop :=
  (d = None <-> uncoveredLeaves (Some s) c = []) /\
  (d = Some c <-> coveredLeaves (Some s) c = []) /\
  (forall d', d = Some d' ->
     leafNodes d' = uncoveredLeaves (Some s) c /\
     (d' = c \/ next0 <= getRef d')).

(** The scalar fields of [c] that the subtraction of [s] leaves, in order.
    A scalar field is left unless it is present in the subtrahend and not
    requisite.  What is left below a field is what is left of its children
    once the field of the subtrahend that matches it is subtracted from
    them, and all of them when none matches; but a field that is not
    requisite and below which nothing that is left counts is dropped with
    all that is below it. *)
Fixpoint retainedLeaves (s c : Node) : list Node :=
  match c with
  | Field _ i cs =>
      match kind i with
      | Scalar => if present (Some s) i && negb (requisite i) then [] else [c]
      | _ =>
          let ls := match childScope (Some s) c with
                    | Some m => flat_map (retainedLeaves m) cs
                    | None => flat_map leafNodes cs
                    end in
          if requisite i || negb (forallb isEmptyField ls) then ls else []
      end
  | Fragment _ cs | Root _ _ _ cs =>
      match childScope (Some s) c with
      | Some m => flat_map (retainedLeaves m) cs
      | None => flat_map leafNodes cs
      end
  end.

(** What is left below [c] before [visitField] decides whether to keep
    it. *)
Definition leavesBelow (s c : Node) : list Node :=
  match childScope (Some s) c with
  | Some m => flat_map (retainedLeaves m) (getChildren c)
  | None => flat_map leafNodes (getChildren c)
  end.

(** What the visit of the child [c] returned, [d], against the scope [s]:
    the scalar fields of the node returned are the fields that the
    subtraction leaves of [c], and none is left when null is returned; the
    node returned is [c] itself or a node allocated from [next0] on, and,
    when every composite of [c] has a child, it is [c] itself exactly when
    every scalar field of [c] is left. *)
Definition childLeaves (s : Node) (next0 : nat) (c : Node) (d : option Node)
  : Prop :=
  (d = None -> retainedLeaves s c = []) /\
  (forall d', d = Some d' ->
     leafNodes d' = retainedLeaves s c /\ (d' = c \/ next0 <= getRef d')) /\
  (solid c = true -> (d = Some c <-> retainedLeaves s c = leafNodes c)).

(** What the subtraction of what is below [c] returned, [r], before
    [visitField] decides whether to keep it, [ls] being what is left below
    [c]. *)
Definition belowLeaves (next0 : nat) (c : Node) (ls : list Node)
    (r : option Node * State) : Prop :=
  isEmpty (snd r) = forallb isEmptyField ls /\
  (fst r = None -> ls = []) /\
  (forall d, fst r = Some d ->
     leafNodes d = ls /\ (d = c \/ next0 <= getRef d) /\
     isRequisite d = isRequisite c) /\
  (solid c = true -> (fst r = Some c <-> ls = leafNodes c)).

(** A requisite scalar field. *)
Definition requisiteScalar (c : Node) : bool :=
  match c with
  | Field _ i _ =>
      match kind i with
      | Scalar => requisite i
      | _ => false
      end
  | _ => false
  end.

(** [Keeps K R l' l]: [l'] is [l] with some elements dropped, none of them
    a [K], and the others replaced by [R]-related ones, in the same
    order. *)
Inductive Keeps {A} (K : A -> bool) (R : A -> A -> Prop)
  : list A -> list A -> Prop :=
| Keeps_nil : Keeps K R [] []
| Keeps_drop c l' l : K c = false -> Keeps K R l' l -> Keeps K R l' (c :: l)
| Keeps_keep c' c l' l :
    R c' c -> Keeps K R l' l -> Keeps K R (c' :: l') (c :: l).

(** [Retains d n]: [d] is [n] pruned, and the pruning never drops a
    requisite scalar field from a node that it keeps: [d] is [n] itself, or
    a copy of a node [n] that can have children, whose children are those
    of [n] retained in the same way, but for some that are dropped, none
    of them a requisite scalar field. *)
Inductive Retains : Node -> Node -> Prop :=
| Retains_same n : Retains n n
| Retains_clone r n cs :
    canHaveSubselections n = true ->
    Keeps requisiteScalar Retains cs (getChildren n) ->
    Retains (withChildren r n cs) n.

(** What a visit of [c] returns retains [c], and is [c] itself when [c] is
    a requisite scalar field. *)
Definition retainsPost (c : Node) (r : option Node * State) : Prop :=
  (forall d, fst r = Some d -> Retains d c) /\
  (requisiteScalar c = true -> fst r = Some c).

(** * [RelayPendingQueryTracker]

    The tracker and its pending fetches are objects that refer to each
    other: the state holds the pending fetches and the registries by
    reference, with what the tracker asked of its collaborators. *)

Definition QueryID : Type := nat.
Definition Error : Type := string.

(** [query.getID()]: the identifier that a root is given, one per object. *)
Definition getID (q : Node) : QueryID := getRef q.

Inductive FetchMode : Type := CLIENT | PRELOAD | REFETCH.

(** The [response] of the result of a fetch: an object, or something else. *)
Inductive Response : Type :=
| RObject (payload : nat)
| RNotObject.

(** [fbjs/lib/Deferred]: whether it is settled, and the calls of [resolve]
    and [reject] made on it, in order. *)
Inductive Settlement : Type :=
| Resolved
| Rejected (reason : Error).

Record Deferred : Type := mkDeferred {
  settled : bool;
  settlements : list Settlement
}.

Definition newDeferred : Deferred := {| settled := false; settlements := [] |}.

Definition resolve (d : Deferred) : Deferred :=
  {| settled := true; settlements := settlements d ++ [Resolved] |}.

Definition reject (d : Deferred) (reason : Error) : Deferred :=
  {| settled := true; settlements := settlements d ++ [Rejected reason] |}.

(** An entry of the registry: [{fetch, query}]. *)
Record Entry : Type := mkEntry { fetch : nat; query : Node }.

Record PendingFetch : Type := mkPendingFetch {
  _dependents : list nat;
  _forceIndex : option nat;
  _pendingDependencyMap : list (QueryID * nat);
  _pendingFetchMap : nat;
  _query : Node;
  _resolvedDeferred : Deferred;
  _resolvedSubtractedQuery : bool;
  _fetchedSubtractedQuery : bool;
  _errors : list Error;
  (** [_fetchSubtractedQueryPromise] has reactions that did not run yet *)
  awaiting : option Node
}.

(** A task of the task queue of the store: apply the response fetched for
    [taskQuery] on behalf of [taskFetch]. *)
Record Task : Type := mkTask {
  taskFetch : nat;
  taskQuery : Node;
  taskResponse : Response
}.

Record Tracker : Type := mkTracker {
  fetches : list PendingFetch;
  registries : list (list (QueryID * Entry));
  pendingFetchMap : nat;
  network : list Node;
  preloads : list QueryID;
  tasks : list Task;
  applied : list (Node * nat * option nat);
  warnings : list Error;
  nextRef : nat
}.

(** ** Objects used as maps, in the order of their keys *)

Fixpoint assocSet {V} (k : nat) (v : V) (m : list (nat * V))
  : list (nat * V) :=
  match m with
  | [] => [(k, v)]
  | (k', v') :: m' =>
      if k' =? k then (k, v) :: m' else (k', v') :: assocSet k v m'
  end.

Fixpoint assocDelete {V} (k : nat) (m : list (nat * V)) : list (nat * V) :=
  match m with
  | [] => []
  | (k', v') :: m' =>
      if k' =? k then assocDelete k m' else (k', v') :: assocDelete k m'
  end.

Fixpoint assocGet {V} (k : nat) (m : list (nat * V)) : option V :=
  match m with
  | [] => None
  | (k', v') :: m' => if k' =? k then Some v' else assocGet k m'
  end.

Definition hasItems {V} (map : list (nat * V)) : bool :=
  negb (List.length map =? 0).

(** The object at a reference, changed. *)
Fixpoint updateNth {A} (n : nat) (g : A -> A) (l : list A) : list A :=
  match l, n with
  | [], _ => []
  | a :: l', O => g a :: l'
  | a :: l', S n' => a :: updateNth n' g l'
  end.

Definition setFetches (st : Tracker) (fs : list PendingFetch) : Tracker :=
  {| fetches := fs; registries := registries st;
     pendingFetchMap := pendingFetchMap st; network := network st;
     preloads := preloads st; tasks := tasks st; applied := applied st;
     warnings := warnings st; nextRef := nextRef st |}.

Definition setRegistries (st : Tracker) (rs : list (list (QueryID * Entry)))
  : Tracker :=
  {| fetches := fetches st; registries := rs;
     pendingFetchMap := pendingFetchMap st; network := network st;
     preloads := preloads st; tasks := tasks st; applied := applied st;
     warnings := warnings st; nextRef := nextRef st |}.

Definition updateFetch (this : nat) (g : PendingFetch -> PendingFetch)
    (st : Tracker) : Tracker :=
  setFetches st (updateNth this g (fetches st)).

Definition updateRegistry (map : nat)
    (g : list (QueryID * Entry) -> list (QueryID * Entry)) (st : Tracker)
  : Tracker :=
  setRegistries st (updateNth map g (registries st)).

Definition getRegistry (map : nat) (st : Tracker) : list (QueryID * Entry) :=
  nth map (registries st) [].

(** ** The fields of a pending fetch, assigned *)

Definition setDependents (f : PendingFetch) (ds : list nat) : PendingFetch :=
  {| _dependents := ds; _forceIndex := _forceIndex f;
     _pendingDependencyMap := _pendingDependencyMap f;
     _pendingFetchMap := _pendingFetchMap f; _query := _query f;
     _resolvedDeferred := _resolvedDeferred f;
     _resolvedSubtractedQuery := _resolvedSubtractedQuery f;
     _fetchedSubtractedQuery := _fetchedSubtractedQuery f;
     _errors := _errors f; awaiting := awaiting f |}.

Definition setPendingDependencyMap (f : PendingFetch)
    (m : list (QueryID * nat)) : PendingFetch :=
  {| _dependents := _dependents f; _forceIndex := _forceIndex f;
     _pendingDependencyMap := m;
     _pendingFetchMap := _pendingFetchMap f; _query := _query f;
     _resolvedDeferred := _resolvedDeferred f;
     _resolvedSubtractedQuery := _resolvedSubtractedQuery f;
     _fetchedSubtractedQuery := _fetchedSubtractedQuery f;
     _errors := _errors f; awaiting := awaiting f |}.

Definition setResolvedDeferred (f : PendingFetch) (d : Deferred)
  : PendingFetch :=
  {| _dependents := _dependents f; _forceIndex := _forceIndex f;
     _pendingDependencyMap := _pendingDependencyMap f;
     _pendingFetchMap := _pendingFetchMap f; _query := _query f;
     _resolvedDeferred := d;
     _resolvedSubtractedQuery := _resolvedSubtractedQuery f;
     _fetchedSubtractedQuery := _fetchedSubtractedQuery f;
     _errors := _errors f; awaiting := awaiting f |}.

Definition setResolvedSubtractedQuery (f : PendingFetch) (b : bool)
  : PendingFetch :=
  {| _dependents := _dependents f; _forceIndex := _forceIndex f;
     _pendingDependencyMap := _pendingDependencyMap f;
     _pendingFetchMap := _pendingFetchMap f; _query := _query f;
     _resolvedDeferred := _resolvedDeferred f;
     _resolvedSubtractedQuery := b;
     _fetchedSubtractedQuery := _fetchedSubtractedQuery f;
     _errors := _errors f; awaiting := awaiting f |}.

Definition setFetchedSubtractedQuery (f : PendingFetch) (b : bool)
  : PendingFetch :=
  {| _dependents := _dependents f; _forceIndex := _forceIndex f;
     _pendingDependencyMap := _pendingDependencyMap f;
     _pendingFetchMap := _pendingFetchMap f; _query := _query f;
     _resolvedDeferred := _resolvedDeferred f;
     _resolvedSubtractedQuery := _resolvedSubtractedQuery f;
     _fetchedSubtractedQuery := b;
     _errors := _errors f; awaiting := awaiting f |}.

Definition setErrors (f : PendingFetch) (es : list Error) : PendingFetch :=
  {| _dependents := _dependents f; _forceIndex := _forceIndex f;
     _pendingDependencyMap := _pendingDependencyMap f;
     _pendingFetchMap := _pendingFetchMap f; _query := _query f;
     _resolvedDeferred := _resolvedDeferred f;
     _resolvedSubtractedQuery := _resolvedSubtractedQuery f;
     _fetchedSubtractedQuery := _fetchedSubtractedQuery f;
     _errors := es; awaiting := awaiting f |}.

Definition setAwaiting (f : PendingFetch) (a : option Node) : PendingFetch :=
  {| _dependents := _dependents f; _forceIndex := _forceIndex f;
     _pendingDependencyMap := _pendingDependencyMap f;
     _pendingFetchMap := _pendingFetchMap f; _query := _query f;
     _resolvedDeferred := _resolvedDeferred f;
     _resolvedSubtractedQuery := _resolvedSubtractedQuery f;
     _fetchedSubtractedQuery := _fetchedSubtractedQuery f;
     _errors := _errors f; awaiting := a |}.

(** ** [PendingFetch] *)

Definition _isSettled (f : PendingFetch) : bool :=
  (0 <? List.length (_errors f))
  || (_resolvedSubtractedQuery f && negb (hasItems (_pendingDependencyMap f))).

(** [_updateResolvedDeferred], on the object. *)
Definition updateResolvedDeferred (f : PendingFetch) : PendingFetch :=
  if _isSettled f && negb (settled (_resolvedDeferred f)) then
    match _errors f with
    | e :: _ => setResolvedDeferred f (reject (_resolvedDeferred f) e)
    | [] => setResolvedDeferred f (resolve (_resolvedDeferred f))
    end
  else f.

Definition _updateResolvedDeferred (this : nat) (st : Tracker) : Tracker :=
  updateFetch this updateResolvedDeferred st.

Definition _markDependencyAsResolved (this : nat) (dependencyQueryID : QueryID)
    (st : Tracker) : Tracker :=
  let st := updateFetch this
              (fun f => setPendingDependencyMap f
                          (assocDelete dependencyQueryID
                             (_pendingDependencyMap f))) st in
  _updateResolvedDeferred this st.

Definition _markDependencyAsRejected (this : nat) (dependencyQueryID : QueryID)
    (error : Error) (st : Tracker) : Tracker :=
  let st := updateFetch this
              (fun f => setPendingDependencyMap f
                          (assocDelete dependencyQueryID
                             (_pendingDependencyMap f))) st in
  let st := updateFetch this (fun f => setErrors f (_errors f ++ [error])) st in
  _updateResolvedDeferred this st.

(** [this._dependents.forEach(callback)]. *)
Definition forEachDependent (this : nat)
    (callback : nat -> Tracker -> Tracker) (st : Tracker) : Tracker :=
  match nth_error (fetches st) this with
  | Some f => fold_left (fun st dependent => callback dependent st)
                (_dependents f) st
  | None => st
  end.

(** [delete this._pendingFetchMap[queryID]], with the [queryID] of the
    query of [this]. *)
Definition deletePending (this : nat) (st : Tracker) : Tracker :=
  match nth_error (fetches st) this with
  | Some f =>
      updateRegistry (_pendingFetchMap f) (assocDelete (getID (_query f))) st
  | None => st
  end.

Definition queryIDOf (this : nat) (st : Tracker) : QueryID :=
  match nth_error (fetches st) this with
  | Some f => getID (_query f)
  | None => 0
  end.

Definition _markSubtractedQueryAsResolved (this : nat) (st : Tracker)
  : Tracker :=
  let queryID := queryIDOf this st in
  let st := deletePending this st in
  let st := updateFetch this (fun f => setResolvedSubtractedQuery f true) st in
  let st := _updateResolvedDeferred this st in
  forEachDependent this
    (fun dependent => _markDependencyAsResolved dependent queryID) st.

Definition warn (message : Error) (st : Tracker) : Tracker :=
  {| fetches := fetches st; registries := registries st;
     pendingFetchMap := pendingFetchMap st; network := network st;
     preloads := preloads st; tasks := tasks st; applied := applied st;
     warnings := warnings st ++ [message]; nextRef := nextRef st |}.

Definition _markAsRejected (this : nat) (error : Error) (st : Tracker)
  : Tracker :=
  let queryID := queryIDOf this st in
  let st := deletePending this st in
  let st := warn error st in
  let st := updateFetch this (fun f => setErrors f (_errors f ++ [error])) st in
  let st := _updateResolvedDeferred this st in
  forEachDependent this
    (fun dependent => _markDependencyAsRejected dependent queryID error) st.

Definition _addDependent (this : nat) (pendingFetch : nat) (st : Tracker)
  : Tracker :=
  updateFetch this (fun f => setDependents f (_dependents f ++ [pendingFetch]))
    st.

Definition _addPendingDependency (this : nat) (pendingFetch : nat)
    (st : Tracker) : Tracker :=
  let queryID := queryIDOf pendingFetch st in
  let st := updateFetch this
              (fun f => setPendingDependencyMap f
                          (assocSet queryID pendingFetch
                             (_pendingDependencyMap f))) st in
  _addDependent pendingFetch this st.

Definition enqueueTask (t : Task) (st : Tracker) : Tracker :=
  {| fetches := fetches st; registries := registries st;
     pendingFetchMap := pendingFetchMap st; network := network st;
     preloads := preloads st; tasks := tasks st ++ [t]; applied := applied st;
     warnings := warnings st; nextRef := nextRef st |}.

(** The reaction to the success of [_fetchSubtractedQueryPromise]. *)
Definition _handleSubtractedQuerySuccess (this : nat) (subtractedQuery : Node)
    (result : Response) (st : Tracker) : Tracker :=
  let st := updateFetch this (fun f => setFetchedSubtractedQuery f true) st in
  enqueueTask {| taskFetch := this; taskQuery := subtractedQuery;
                 taskResponse := result |} st.

(** The reaction to its failure. *)
Definition _handleSubtractedQueryFailure (this : nat) (subtractedQuery : Node)
    (error : Error) (st : Tracker) : Tracker :=
  _markAsRejected this error st.

(** [isResolvable]: [everyObject] over the pending dependencies. *)
Definition isResolvable (this : nat) (st : Tracker) : bool :=
  match nth_error (fetches st) this with
  | Some f =>
      if _fetchedSubtractedQuery f then
        forallb (fun kv =>
                   match nth_error (fetches st) (snd kv) with
                   | Some pendingDependency =>
                       _fetchedSubtractedQuery pendingDependency
                   | None => false
                   end) (_pendingDependencyMap f)
      else false
  | None => false
  end.

Definition getQuery (this : nat) (st : Tracker) : option Node :=
  option_map _query (nth_error (fetches st) this).

(** ** [RelayPendingQueryTracker] *)

Definition hasPendingQueries (st : Tracker) : bool :=
  hasItems (getRegistry (pendingFetchMap st) st).

(** Clears all pending query tracking.  Does not cancel the queries
    themselves: the tracker is given a new, empty registry. *)
Definition resetPending (st : Tracker) : Tracker :=
  {| fetches := fetches st; registries := registries st ++ [[]];
     pendingFetchMap := List.length (registries st); network := network st;
     preloads := preloads st; tasks := tasks st; applied := applied st;
     warnings := warnings st; nextRef := nextRef st |}.

(** A tracker, as its constructor leaves it. *)
Definition newTracker (next : nat) : Tracker :=
  {| fetches := []; registries := [[]]; pendingFetchMap := 0; network := [];
     preloads := []; tasks := []; applied := []; warnings := [];
     nextRef := next |}.

Inductive Res (A : Type) : Type :=
| Ok (a : A)
| Err (msg : Error).

Arguments Err {A} msg.

Definition setNextRef (st : Tracker) (next : nat) : Tracker :=
  {| fetches := fetches st; registries := registries st;
     pendingFetchMap := pendingFetchMap st; network := network st;
     preloads := preloads st; tasks := tasks st; applied := applied st;
     warnings := warnings st; nextRef := next |}.

Definition fetchRelayQuery (q : Node) (st : Tracker) : Tracker :=
  {| fetches := fetches st; registries := registries st;
     pendingFetchMap := pendingFetchMap st; network := network st ++ [q];
     preloads := preloads st; tasks := tasks st; applied := applied st;
     warnings := warnings st; nextRef := nextRef st |}.

Definition preloadGet (queryID : QueryID) (st : Tracker) : Tracker :=
  {| fetches := fetches st; registries := registries st;
     pendingFetchMap := pendingFetchMap st; network := network st;
     preloads := preloads st ++ [queryID]; tasks := tasks st;
     applied := applied st; warnings := warnings st; nextRef := nextRef st |}.

Definition handleQueryPayloadCall (q : Node) (payload : nat)
    (forceIndex : option nat) (st : Tracker) : Tracker :=
  {| fetches := fetches st; registries := registries st;
     pendingFetchMap := pendingFetchMap st; network := network st;
     preloads := preloads st; tasks := tasks st;
     applied := applied st ++ [(q, payload, forceIndex)];
     warnings := warnings st; nextRef := nextRef st |}.

Definition setTasks (st : Tracker) (ts : list Task) : Tracker :=
  {| fetches := fetches st; registries := registries st;
     pendingFetchMap := pendingFetchMap st; network := network st;
     preloads := preloads st; tasks := ts; applied := applied st;
     warnings := warnings st; nextRef := nextRef st |}.

(** [subtractedQuery !== query] does not hold. *)
Definition sameQuery (subtractedQuery : option Node) (q : Node) : bool :=
  match subtractedQuery with
  | Some d => same_ref d q
  | None => false
  end.

(** The object that the constructor of [PendingFetch] starts from, with
    the fields set before the pending queries are subtracted; it is the
    last of [fetches]. *)
Definition allocatePendingFetch (forceIndex : option nat) (q : Node)
    (st : Tracker) : Tracker :=
  setFetches st
    (fetches st ++
     [{| _dependents := []; _forceIndex := forceIndex;
         _pendingDependencyMap := [];
         _pendingFetchMap := pendingFetchMap st; _query := q;
         _resolvedDeferred := newDeferred;
         _resolvedSubtractedQuery := false;
         _fetchedSubtractedQuery := false;
         _errors := []; awaiting := None |}]).

(** What the constructor does once the subtracted query is known. *)
Definition finishPendingFetch (this : nat) (queryID : QueryID)
    (subtractedQuery : option Node) (st : Tracker) : Tracker :=
  let st := updateFetch this
              (fun f => setErrors
                          (setFetchedSubtractedQuery f
                             (match subtractedQuery with
                              | Some _ => false
                              | None => true
                              end)) []) st in
  match subtractedQuery with
  | Some sq =>
      let st := updateRegistry (pendingFetchMap st)
                  (assocSet queryID {| fetch := this; query := sq |}) st in
      updateFetch this (fun f => setAwaiting f (Some sq)) st
  | None => _markSubtractedQueryAsResolved this st
  end.

Section Collaborators.

(** [containsRelayQueryRootCall] is not among the sources: whether the root
    of the first query overlaps the root of the second. *)
Variable containsRelayQueryRootCall : Node -> Node -> bool.

(** [storeData.handleQueryPayload]: the error it throws, if it does. *)
Variable handleQueryPayload : Node -> nat -> option nat -> option Error.

(** [everyObject(this._pendingFetchMap, callback)] of [_subtractPending]:
    the callback returns false, and the walk stops, once [q] is null. *)
Fixpoint subtractPendingFrom (entries : list (QueryID * Entry)) (this : nat)
    (q : option Node) (st : Tracker) : Res (option Node * Tracker) :=
  match entries with
  | [] => Ok (q, st)
  | (_, pending) :: rest =>
      match q with
      | None => Ok (None, st)
      | Some q0 =>
          if containsRelayQueryRootCall (query pending) q0 then
            match subtractRelayQuery q0 (query pending) (nextRef st) with
            | Done subtractedQuery next' =>
                let st := setNextRef st next' in
                if negb (sameQuery subtractedQuery q0) then
                  subtractPendingFrom rest this subtractedQuery
                    (_addPendingDependency this (fetch pending) st)
                else subtractPendingFrom rest this (Some q0) st
            | Throw msg => Err msg
            | OutOfFuel => Err "out of fuel"
            end
          else subtractPendingFrom rest this (Some q0) st
      end
  end.

(** Subtracts all pending queries from the supplied [query] and returns
    the resulting difference.  The difference can be null if the entire
    query is pending. *)
Definition _subtractPending (this : nat) (q : Node) (st : Tracker)
  : Res (option Node * Tracker) :=
  match nth_error (fetches st) this with
  | Some f =>
      subtractPendingFrom (getRegistry (_pendingFetchMap f) st) this (Some q)
        st
  | None => Ok (Some q, st)
  end.

(** [new PendingFetch(params, {pendingFetchMap, ...})]; the new object is
    the last of [fetches]. *)
Definition newPendingFetch (fetchMode : FetchMode) (forceIndex : option nat)
    (q : Node) (st : Tracker) : Res (nat * Tracker) :=
  let queryID := getID q in
  let this := List.length (fetches st) in
  let st := allocatePendingFetch forceIndex q st in
  match
    match fetchMode with
    | PRELOAD => Ok (Some q, preloadGet queryID st)
    | _ =>
        match _subtractPending this q st with
        | Ok (Some subtractedQuery, st) =>
            Ok (Some subtractedQuery, fetchRelayQuery subtractedQuery st)
        | Ok (None, st) => Ok (None, st)
        | Err msg => Err msg
        end
    end
  with
  | Err msg => Err msg
  | Ok (subtractedQuery, st) =>
      Ok (this, finishPendingFetch this queryID subtractedQuery st)
  end.

(** Used by [GraphQLQueryRunner] to enqueue new queries. *)
Definition add (fetchMode : FetchMode) (forceIndex : option nat) (q : Node)
    (st : Tracker) : Res (nat * Tracker) :=
  newPendingFetch fetchMode forceIndex q st.

(** The task enqueued by [_handleSubtractedQuerySuccess], run, and the
    reaction to its outcome. *)
Definition runTask (t : Task) (st : Tracker) : Tracker :=
  match taskResponse t with
  | RObject payload =>
      let forceIndex :=
        match nth_error (fetches st) (taskFetch t) with
        | Some f => _forceIndex f
        | None => None
        end in
      let st := handleQueryPayloadCall (taskQuery t) payload forceIndex st in
      match handleQueryPayload (taskQuery t) payload forceIndex with
      | None => _markSubtractedQueryAsResolved (taskFetch t) st
      | Some error => _markAsRejected (taskFetch t) error st
      end
  | RNotObject =>
      _markAsRejected (taskFetch t)
        "RelayPendingQueryTracker: Expected response to be an object" st
  end.

(** What happens to a tracker, one event at a time: a query is enqueued,
    the tracking is reset, the promise of the subtracted query of a pending
    fetch is fulfilled or rejected, the first task of the queue runs. *)
Inductive step : Tracker -> Tracker -> Prop :=
| step_add fetchMode forceIndex q st this st' :
    isRoot q = true ->
    add fetchMode forceIndex q st = Ok (this, st') ->
    step st st'
| step_reset st :
    step st (resetPending st)
| step_fulfilled this f sq result st :
    nth_error (fetches st) this = Some f -> awaiting f = Some sq ->
    step st (_handleSubtractedQuerySuccess this sq result
               (updateFetch this (fun f => setAwaiting f None) st))
| step_rejected this f sq error st :
    nth_error (fetches st) this = Some f -> awaiting f = Some sq ->
    step st (_handleSubtractedQueryFailure this sq error
               (updateFetch this (fun f => setAwaiting f None) st))
| step_task t ts st :
    tasks st = t :: ts ->
    step st (runTask t (setTasks st ts)).

Inductive reachable (next : nat) : Tracker -> Prop :=
| reachable_new : reachable next (newTracker next)
| reachable_step st st' :
    reachable next st -> step st st' -> reachable next st'.

End Collaborators.

(** ** Vocabulary of the statements on pending fetches *)

(** What a tracker holds besides its pending fetches. *)
Definition besidesFetches (st : Tracker) :=
  (registries st, pendingFetchMap st, network st, preloads st, tasks st,
   applied st, warnings st, nextRef st).

(** The walk of [_subtractPending] over the entries of the registry, from
    the remainder [q] and the next free identity: an entry whose query
    overlaps the remainder is subtracted from it; when that removes
    something the entry's fetch is recorded as a dependency and the walk
    goes on with what is left; the walk stops once nothing is left.  The
    walk ends with a remainder, a next free identity and the dependencies
    recorded, in order. *)
Inductive Walk (overlaps : Node -> Node -> bool)
  : list (QueryID * Entry) -> option Node -> nat ->
    option Node -> nat -> list nat -> Prop :=
| Walk_end q next :
    Walk overlaps [] q next q next []
| Walk_stop k pending rest next :
    Walk overlaps ((k, pending) :: rest) None next None next []
| Walk_skip k pending rest q next remainder next' deps :
    overlaps (query pending) q = false ->
    Walk overlaps rest (Some q) next remainder next' deps ->
    Walk overlaps ((k, pending) :: rest) (Some q) next remainder next' deps
| Walk_unchanged k pending rest q next left next1 remainder next' deps :
    overlaps (query pending) q = true ->
    subtractRelayQuery q (query pending) next = Done left next1 ->
    sameQuery left q = true ->
    Walk overlaps rest (Some q) next1 remainder next' deps ->
    Walk overlaps ((k, pending) :: rest) (Some q) next remainder next' deps
| Walk_removed k pending rest q next left next1 remainder next' deps :
    overlaps (query pending) q = true ->
    subtractRelayQuery q (query pending) next = Done left next1 ->
    sameQuery left q = false ->
    Walk overlaps rest left next1 remainder next' deps ->
    Walk overlaps ((k, pending) :: rest) (Some q) next remainder next'
      (fetch pending :: deps).

(** The future of a pending fetch never fired twice, and what it fired
    with: a resolution when its own query is resolved and no dependency is
    pending, a rejection with the first recorded error. *)
Definition firedOnce (f : PendingFetch) : Prop :=
  match settlements (_resolvedDeferred f) with
  | [] => settled (_resolvedDeferred f) = false
  | [Resolved] =>
      settled (_resolvedDeferred f) = true /\
      _resolvedSubtractedQuery f = true /\ _pendingDependencyMap f = []
  | [Rejected e] =>
      settled (_resolvedDeferred f) = true /\ hd_error (_errors f) = Some e
  | _ => False
  end.

(** The future fired exactly when the pending fetch is settled. *)
Definition settledOnce (f : PendingFetch) : Prop :=
  firedOnce f /\ settled (_resolvedDeferred f) = _isSettled f.

(** A pending fetch under construction. *)
Definition unsettled (f : PendingFetch) : Prop :=
  _resolvedDeferred f = newDeferred /\ _resolvedSubtractedQuery f = false /\
  _errors f = [].

(** The pending fetch [this] is under construction, the futures of the
    others fired as they should. *)
Definition underConstruction (this : nat) (st : Tracker) : Prop :=
  (forall n f, nth_error (fetches st) n = Some f -> settledOnce f) /\
  (exists f, nth_error (fetches st) this = Some f /\ unsettled f).

(** ** Sample trackers *)

Definition sampleOverlaps : Node -> Node -> bool := fun _ _ => true.

Definition sampleStore : Node -> nat -> option nat -> option Error :=
  fun _ _ _ => None.

Definition sampleQuery : Node :=
  Root 0 "user" (Some (mkCall "id" (VNum (Integer 1))))
    [scalarField 1 "name" false; scalarField 2 "id" true].

Definition sampleQuery' : Node :=
  Root 3 "user" (Some (mkCall "id" (VNum (Integer 1))))
    [scalarField 4 "name" false; scalarField 5 "email" false].

Definition trackerOf (r : Res (nat * Tracker)) (otherwise : Tracker)
  : Tracker :=
  match r with
  | Ok (_, st) => st
  | Err _ => otherwise
  end.

(** A tracker with [sampleQuery] enqueued. *)
Definition sampleTracker : Tracker :=
  trackerOf (add sampleOverlaps CLIENT None sampleQuery (newTracker 10))
    (newTracker 10).

Definition sampleFetch : PendingFetch :=
  {| _dependents := []; _forceIndex := None; _pendingDependencyMap := [];
     _pendingFetchMap := 0; _query := sampleQuery;
     _resolvedDeferred := newDeferred; _resolvedSubtractedQuery := false;
     _fetchedSubtractedQuery := false; _errors := [];
     awaiting := Some sampleQuery |}.

(** The same, with [sampleQuery'] enqueued after it. *)
Definition sampleTracker' : Tracker :=
  trackerOf (add sampleOverlaps CLIENT None sampleQuery' sampleTracker)
    sampleTracker.

(** A property of every pending fetch of the tracker. *)
Definition allFetches (P : PendingFetch -> Prop) (st : Tracker) : Prop :=
  forall n f, nth_error (fetches st) n = Some f -> P f.

(** A field of every pending fetch that an operation leaves alone. *)
Definition keepsField {X} (proj : PendingFetch -> X)
    (op : Tracker -> Tracker) : Prop :=
  forall st n,
    option_map proj (nth_error (fetches (op st)) n)
    = option_map proj (nth_error (fetches st) n).


(** * Vocabulary of the further properties *)

(** The argument is a count: it is named [first] or [last], and
    [canSubtractField] reads its value with [parseInt]. *)
Definition readsAsNumber (c : Call) : Prop :=
  isCount (name c) = true -> countOf (value c) <> NaN.

(** A scalar field that counts for nothing: requisite, no
    ref-query-dependency, and not aliased. *)
Definition bookkeeping (n : Node) : Prop :=
  match n with
  | Field _ i _ =>
      requisite i = true /\ refQueryDependency i = false /\
      applicationName i = schemaName i
  | _ => False
  end.

(** What a visit tells of the node it returns: [isEmpty] is whether that
    node is empty, and true when nothing is returned. *)
Definition tellsEmpty (r : option Node * State) : Prop :=
  isEmpty (snd r)
  = match fst r with Some d => isEmptyField d | None => true end.

(** What the subtraction relies on in the children of a node that it
    visits: none is a root or has a root below, and there are at most [h]
    levels. *)
Definition childrenBelow (h : nat) (n : Node) : Prop :=
  forall c, In c (getChildren n) ->
    isRoot c = false /\ noRootBelow c = true /\ height c <= h.

(** What a visit of [c] from [next] establishes besides [visitPost]. *)
Definition tellsPost (c : Node) (st : State) (next : nat)
    (r : option Node * State) (next' : nat) : Prop :=
  visitPost c st next r next' /\ tellsEmpty r /\
  forall d, fst r = Some d -> allocated next' d = true.

(** The child [d] that a visit kept is the child visited or a node
    allocated from [next] on. *)
Definition keptOrNew (next : nat) (c : Node) (d : option Node) : Prop :=
  forall d', d = Some d' -> Pruned d' c /\ (d' = c \/ next <= getRef d').

(** [l'] is [l] with elements appended. *)
Definition extends {A} (l l' : list A) : Prop := exists t, l' = l ++ t.

(** What can become of a pending fetch: it keeps its query, its force
    index and its registry; dependents and errors are appended; the flags
    are not reset; what its future fired with stays; pending dependencies
    are only removed. *)
Definition grows (f f' : PendingFetch) : Prop :=
  _query f' = _query f /\ _forceIndex f' = _forceIndex f /\
  _pendingFetchMap f' = _pendingFetchMap f /\
  extends (_dependents f) (_dependents f') /\
  extends (_errors f) (_errors f') /\
  (_resolvedSubtractedQuery f = true -> _resolvedSubtractedQuery f' = true) /\
  (_fetchedSubtractedQuery f = true -> _fetchedSubtractedQuery f' = true) /\
  extends (settlements (_resolvedDeferred f))
    (settlements (_resolvedDeferred f')) /\
  (forall k, assocGet k (_pendingDependencyMap f') = None \/
             assocGet k (_pendingDependencyMap f')
             = assocGet k (_pendingDependencyMap f)) /\
  (forall k d, In (k, d) (_pendingDependencyMap f') ->
               In (k, d) (_pendingDependencyMap f)).

(** Each of the first [n] pending fetches of [st] is a pending fetch of
    [st'], at the same reference, grown. *)
Definition growsOn (n : nat) (st st' : Tracker) : Prop :=
  forall x fx, x < n -> nth_error (fetches st) x = Some fx ->
    exists fx', nth_error (fetches st') x = Some fx' /\ grows fx fx'.

Section Runs.

Variable containsRelayQueryRootCall : Node -> Node -> bool.
Variable handleQueryPayload : Node -> nat -> option nat -> option Error.

(** Any number of events, one after the other. *)
Inductive steps : Tracker -> Tracker -> Prop :=
| steps_refl st : steps st st
| steps_step st st' st'' :
    steps st st' ->
    step containsRelayQueryRootCall handleQueryPayload st' st'' ->
    steps st st''.

End Runs.

(** What the constructor of a pending fetch asks of its collaborators once
    the pending queries are subtracted: the preloaded result, or the fetch
    of what is left of the query, if anything is. *)
Definition request (fetchMode : FetchMode) (queryID : QueryID)
    (remainder : option Node) (st : Tracker) : Tracker :=
  match fetchMode, remainder with
  | PRELOAD, _ => preloadGet queryID st
  | _, Some subtractedQuery => fetchRelayQuery subtractedQuery st
  | _, None => st
  end.

(** What a registry relies on in a pending fetch: its query, the registry
    it was created with, and whether its own query is resolved. *)
Definition ident (f : PendingFetch) : Node * nat * bool :=
  (_query f, _pendingFetchMap f, _resolvedSubtractedQuery f).

(** The entry [e] under the key [k] of the registry [m] is in order: its
    fetch is a pending fetch of the tracker that was created with this
    registry, whose query has the identifier [k] and is not resolved; the
    query of the entry is the query of the fetch, pruned. *)
Definition entryOk (st : Tracker) (m : nat) (k : QueryID) (e : Entry) : Prop :=
  exists fe, nth_error (fetches st) (fetch e) = Some fe /\
    getID (_query fe) = k /\ _pendingFetchMap fe = m /\
    _resolvedSubtractedQuery fe = false /\
    isRoot (_query fe) = true /\ Pruned (query e) (_query fe).

(** The registries are in order: the tracker and every pending fetch
    refer to a registry that exists; a registry has one entry under a key,
    and its entries are in order. *)
Definition registryOk (st : Tracker) : Prop :=
  pendingFetchMap st < List.length (registries st) /\
  (forall x fx, nth_error (fetches st) x = Some fx ->
     _pendingFetchMap fx < List.length (registries st)) /\
  forall m reg, nth_error (registries st) m = Some reg ->
    NoDup (map fst reg) /\ forall k e, In (k, e) reg -> entryOk st m k e.

(** The pending fetch that the constructor allocates. *)
Definition newFetch (forceIndex : option nat) (q : Node) (map : nat)
  : PendingFetch :=
  {| _dependents := []; _forceIndex := forceIndex;
     _pendingDependencyMap := []; _pendingFetchMap := map; _query := q;
     _resolvedDeferred := newDeferred; _resolvedSubtractedQuery := false;
     _fetchedSubtractedQuery := false; _errors := []; awaiting := None |}.

(** What was asked of the network is in order: each query sent is a root,
    and is the query of a pending fetch, pruned. *)
Definition networkOk (st : Tracker) : Prop :=
  forall sq, In sq (network st) ->
    isRoot sq = true /\
    exists x fx, nth_error (fetches st) x = Some fx /\ Pruned sq (_query fx).

(** The pending fetches of [st'] are those of [st], with the same [proj]. *)
Definition sameField {X} (proj : PendingFetch -> X) (st st' : Tracker) : Prop :=
  forall n, option_map proj (nth_error (fetches st') n)
            = option_map proj (nth_error (fetches st) n).

(** What the edges between pending fetches rely on: the dependents of a
    fetch and its query. *)
Definition shape (f : PendingFetch) : list nat * Node :=
  (_dependents f, _query f).

(** A dependent of a pending fetch is a pending fetch created after it. *)
Definition edgesOk (st : Tracker) : Prop :=
  forall d fd f, nth_error (fetches st) d = Some fd -> In f (_dependents fd) ->
    d < f /\ f < List.length (fetches st).

(** The fetches that a pending fetch depends on have queries with
    different identifiers. *)
Definition distinctDependencies (st : Tracker) : Prop :=
  forall f d d' fd fd',
    nth_error (fetches st) d = Some fd -> nth_error (fetches st) d' = Some fd' ->
    In f (_dependents fd) -> In f (_dependents fd') ->
    getID (_query fd) = getID (_query fd') -> d = d'.

(** A pending dependency is a pending fetch, under the identifier of its
    query, that has the fetch among its dependents. *)
Definition dependenciesOk (st : Tracker) : Prop :=
  forall f ff k d,
    nth_error (fetches st) f = Some ff ->
    In (k, d) (_pendingDependencyMap ff) ->
    exists fd, nth_error (fetches st) d = Some fd /\
               getID (_query fd) = k /\ In f (_dependents fd).

(** The future of the pending fetch is rejected. *)
Definition isRejected (f : PendingFetch) : Prop :=
  exists e, settlements (_resolvedDeferred f) = [Rejected e].

(** A fetch that depends on another one is waiting for it unless the
    query of the other one is resolved or its own future is rejected. *)
Definition edgeSafe (st : Tracker) : Prop :=
  forall d fd f ff,
    nth_error (fetches st) d = Some fd -> In f (_dependents fd) ->
    nth_error (fetches st) f = Some ff ->
    assocGet (getID (_query fd)) (_pendingDependencyMap ff) = Some d \/
    _resolvedSubtractedQuery fd = true \/ isRejected ff.

(** The edges between pending fetches are in order. *)
Definition graphOk (st : Tracker) : Prop :=
  edgesOk st /\ distinctDependencies st /\ dependenciesOk st /\ edgeSafe st.

(** The pending fetch [this] is under construction and walks over entries
    whose fetches are [all]: these are pending fetches created before
    [this], with queries of different identifiers, and [this] is a
    dependent of no other fetch. *)
Definition constructing (this : nat) (all : list nat) (st : Tracker) : Prop :=
  this < List.length (fetches st) /\
  (forall d, In d all ->
     d < this /\ exists fd, nth_error (fetches st) d = Some fd) /\
  (forall d d' fd fd',
     In d all -> In d' all ->
     nth_error (fetches st) d = Some fd ->
     nth_error (fetches st) d' = Some fd' ->
     getID (_query fd) = getID (_query fd') -> d = d') /\
  (forall x fx, nth_error (fetches st) x = Some fx ->
     In this (_dependents fx) -> In x all).

(** The pending fetch at [n] once [_addPendingDependency this d] is run,
    [fd] being the pending fetch at [d]. *)
Definition withDependency (this d : nat) (fd : PendingFetch) (n : nat)
    (fn : PendingFetch) : PendingFetch :=
  let fn1 :=
    if n =? this
    then setPendingDependencyMap fn
           (assocSet (getID (_query fd)) d (_pendingDependencyMap fn))
    else fn in
  if n =? d then setDependents fn1 (_dependents fn1 ++ [this]) else fn1.


(** ** Sample runs *)

(** What is left of [sampleQuery'] once [sampleQuery] is subtracted. *)
Definition sampleRemainder : Node :=
  Root 10 "user" (Some (mkCall "id" (VNum (Integer 1)))) [scalarField 5 "email" false].

(** [sampleTracker'], the response to the first fetch received. *)
Definition sampleFulfilled : Tracker :=
  _handleSubtractedQuerySuccess 0 sampleQuery (RObject 7)
    (updateFetch 0 (fun f => setAwaiting f None) sampleTracker').

(** The same, the response applied to the store. *)
Definition sampleResolved : Tracker :=
  runTask sampleStore
    {| taskFetch := 0; taskQuery := sampleQuery; taskResponse := RObject 7 |}
    (setTasks sampleFulfilled []).

(** The same, the response to the second fetch received and applied. *)
Definition sampleResolved' : Tracker :=
  runTask sampleStore
    {| taskFetch := 1; taskQuery := sampleRemainder;
       taskResponse := RObject 8 |}
    (setTasks
       (_handleSubtractedQuerySuccess 1 sampleRemainder (RObject 8)
          (updateFetch 1 (fun f => setAwaiting f None) sampleResolved)) []).

(** [sampleFulfilled], the response to the second fetch received too. *)
Definition sampleFulfilled' : Tracker :=
  _handleSubtractedQuerySuccess 1 sampleRemainder (RObject 8)
    (updateFetch 1 (fun f => setAwaiting f None) sampleFulfilled).

(** The response to the pending fetch [x] is in the task queue of the
    store. *)
Definition queued (st : Tracker) (x : nat) : Prop :=
  exists t, In t (tasks st) /\ taskFetch t = x.

(** The pending fetch [x] is in flight: the promise of its subtracted
    query is pending, or its response is queued. *)
Definition inFlight (st : Tracker) (x : nat) : Prop :=
  (exists f, nth_error (fetches st) x = Some f /\ awaiting f <> None) \/
  queued st x.

(** Where the pending fetches are on their way: a fetch whose promise is
    pending is not fetched; a fetch that is fetched is resolved, queued or
    failed, and a resolved one is fetched; the fetch of a task is fetched;
    a pending dependency and the fetch of an entry of a registry are in
    flight. *)
Definition lifecycleOk (st : Tracker) : Prop :=
  (forall x f, nth_error (fetches st) x = Some f ->
     (awaiting f <> None -> _fetchedSubtractedQuery f = false) /\
     (_fetchedSubtractedQuery f = true ->
      _resolvedSubtractedQuery f = true \/ queued st x \/ _errors f <> []) /\
     (_resolvedSubtractedQuery f = true -> _fetchedSubtractedQuery f = true)) /\
  (forall t, In t (tasks st) ->
     exists f, nth_error (fetches st) (taskFetch t) = Some f /\
               _fetchedSubtractedQuery f = true) /\
  (forall f ff k d, nth_error (fetches st) f = Some ff ->
     In (k, d) (_pendingDependencyMap ff) -> inFlight st d) /\
  (forall m reg k e, nth_error (registries st) m = Some reg ->
     In (k, e) reg -> inFlight st (fetch e)).

(** What marking the pending fetch [m] leaves: the tasks, the promises and
    what is fetched are as they were; no fetch has [m] as a pending
    dependency, and no registry an entry for [m]; what is left of the
    registries was there. *)
Definition marked (m : nat) (st st' : Tracker) : Prop :=
  tasks st' = tasks st /\
  sameField (fun f => (awaiting f, _fetchedSubtractedQuery f)) st st' /\
  growsOn (List.length (fetches st)) st st' /\
  (forall f ff' k d, nth_error (fetches st') f = Some ff' ->
     In (k, d) (_pendingDependencyMap ff') -> d <> m) /\
  (forall r reg k e, nth_error (registries st') r = Some reg ->
     In (k, e) reg ->
     fetch e <> m /\
     exists reg0, nth_error (registries st) r = Some reg0 /\ In (k, e) reg0) /\
  (forall x f', x <> m -> nth_error (fetches st') x = Some f' ->
     exists f, nth_error (fetches st) x = Some f /\
               _resolvedSubtractedQuery f' = _resolvedSubtractedQuery f).

(** The pending fetches are on their way, but for [m], which is about to
    be marked: its promise is settled or its task is taken off the queue,
    and it is still referred to. *)
Definition lifecycleBut (m : nat) (st : Tracker) : Prop :=
  (forall x f, nth_error (fetches st) x = Some f ->
     (awaiting f <> None -> _fetchedSubtractedQuery f = false) /\
     (x <> m -> _fetchedSubtractedQuery f = true ->
      _resolvedSubtractedQuery f = true \/ queued st x \/ _errors f <> []) /\
     (x <> m -> _resolvedSubtractedQuery f = true ->
      _fetchedSubtractedQuery f = true)) /\
  (forall t, In t (tasks st) ->
     exists f, nth_error (fetches st) (taskFetch t) = Some f /\
               _fetchedSubtractedQuery f = true) /\
  (forall f ff k d, nth_error (fetches st) f = Some ff ->
     In (k, d) (_pendingDependencyMap ff) -> d <> m -> inFlight st d) /\
  (forall r reg k e, nth_error (registries st) r = Some reg ->
     In (k, e) reg -> fetch e <> m -> inFlight st (fetch e)).

(** * Properties *)

Unset Implicit Arguments.

(** ** Values and arguments *)


Lemma sameNumber_eq (a b : Number) : sameNumber a b = true <-> a = b.
Proof.
  destruct a, b; simpl; try (split; [discriminate | congruence]); try tauto.
  - rewrite Bool.eqb_true_iff. split; congruence.
  - rewrite Z.eqb_eq. split; congruence.
Qed.

Lemma areEqual_eq (a b : Value) : areEqual a b = true <-> a = b.
Proof.
  revert b. induction a using Value_nested_ind; intros [] ; simpl;
    try (split; [discriminate | congruence]); try tauto.
  - rewrite Bool.eqb_true_iff. split; congruence.
  - rewrite sameNumber_eq. split; congruence.
  - rewrite String.eqb_eq. split; congruence.
  - rename l0 into m. revert m.
    induction H as [|x l Hx Hl IH]; intros [|y m];
      try (split; [discriminate | congruence]); try tauto.
    rewrite andb_true_iff, Hx, IH.
    split; [intros [-> E]; congruence | intros E; injection E; intros; subst; auto].
Qed.

Lemma areEqual_refl (a : Value) : areEqual a a = true.
Proof. now apply areEqual_eq. Qed.

Lemma areEqualArg_eq (a b : option Call) : areEqualArg a b = true <-> a = b.
Proof.
  destruct a as [[n v]|], b as [[n' v']|]; simpl;
    try (split; [discriminate | congruence]); try tauto.
  unfold areEqualCall; simpl.
  rewrite andb_true_iff, String.eqb_eq, areEqual_eq.
  split; [intros [-> ->]; reflexivity | intros E; injection E; auto].
Qed.

(** ** Rules of [wp] *)

Lemma wp_ret {A} E (a : A) next (Q : A -> nat -> Prop) :
  Q a next -> wp E (ret a) next Q.
Proof. intro H. exact H. Qed.

Lemma wp_bind {A B} E (m : M A) (k : A -> M B) next (Q : B -> nat -> Prop) :
  wp E m next (fun a next' => wp E (k a) next' Q) -> wp E (bind m k) next Q.
Proof.
  unfold wp, bind. destruct (m next); auto.
Qed.

Lemma wp_weaken {A} E (m : M A) next (Q Q' : A -> nat -> Prop) :
  (forall a next', Q a next' -> Q' a next') ->
  wp E m next Q -> wp E m next Q'.
Proof.
  unfold wp. intros HQ. destruct (m next); auto.
Qed.

Lemma wp_done {A} E (m : M A) next (Q : A -> nat -> Prop) a next' :
  m next = Done a next' -> wp E m next Q -> Q a next'.
Proof. unfold wp. intros ->. auto. Qed.

Lemma wp_no_throw {A} (m : M A) next (Q : A -> nat -> Prop) :
  wp False m next Q -> exists a next', m next = Done a next' /\ Q a next'.
Proof.
  unfold wp. destruct (m next); try tauto. eauto.
Qed.

Lemma wp_invariant E (cond : bool) msg next (Q : unit -> nat -> Prop) :
  (cond = true -> Q tt next) -> (cond = false -> E) ->
  wp E (invariant cond msg) next Q.
Proof.
  unfold wp, invariant. destruct cond; auto.
Qed.

Lemma wp_conj {A} E (m : M A) next (Q1 Q2 : A -> nat -> Prop) :
  wp E m next Q1 -> wp E m next Q2 ->
  wp E m next (fun a next' => Q1 a next' /\ Q2 a next').
Proof.
  unfold wp. destruct (m next); auto.
Qed.

(** ** Shape of the trees *)

Lemma Embeds_refl {A} (R : A -> A -> Prop) (l : list A) :
  (forall a, In a l -> R a a) -> Embeds R l l.
Proof.
  induction l; intros H; [apply Embeds_nil|].
  apply Embeds_keep; auto using in_eq, in_cons.
Qed.

Lemma Embeds_length {A} (R : A -> A -> Prop) l' l :
  Embeds R l' l -> List.length l' <= List.length l.
Proof. induction 1; simpl; lia. Qed.

Lemma Embeds_in {A} (R : A -> A -> Prop) l' l a' :
  Embeds R l' l -> In a' l' -> exists a, In a l /\ R a' a.
Proof.
  induction 1; simpl; intros Hin; try tauto.
  - destruct (IHEmbeds Hin) as (a & ? & ?). eauto.
  - destruct Hin as [<- | Hin]; eauto.
    destruct (IHEmbeds Hin) as (a & ? & ?). eauto.
Qed.

Lemma Embeds_trans {A} (R : A -> A -> Prop) l1 l2 l3 :
  (forall a b c, In c l3 -> R a b -> R b c -> R a c) ->
  Embeds R l1 l2 -> Embeds R l2 l3 -> Embeds R l1 l3.
Proof.
  intros HR H12 H23. revert l1 H12.
  induction H23; intros l1 H12.
  - exact H12.
  - apply Embeds_drop. apply IHEmbeds; [|assumption].
    intros x y z Hz. apply HR. now right.
  - assert (HR' : forall x y z, In z l -> R x y -> R y z -> R x z).
    { intros x y z Hz. apply HR. now right. }
    inversion H12; subst.
    + apply Embeds_drop. apply IHEmbeds; assumption.
    + apply Embeds_keep; [eapply HR; eauto using in_eq|].
      apply IHEmbeds; assumption.
Qed.

Lemma getChildren_withChildren r n cs : getChildren (withChildren r n cs) = cs.
Proof. destruct n; reflexivity. Qed.

Lemma getRef_withChildren r n cs : getRef (withChildren r n cs) = r.
Proof. destruct n; reflexivity. Qed.

Lemma withChildren_withChildren r r' n cs cs' :
  withChildren r' (withChildren r n cs) cs' = withChildren r' n cs'.
Proof. destruct n; reflexivity. Qed.

Lemma isRoot_withChildren r n cs : isRoot (withChildren r n cs) = isRoot n.
Proof. destruct n; reflexivity. Qed.

Lemma height_children n c : In c (getChildren n) -> height c < height n.
Proof.
  intros Hin.
  assert (H : height c <= list_max (map height (getChildren n))).
  { induction (getChildren n) as [|x l IH]; simpl in *; [tauto|].
    destruct Hin as [-> | Hin]; [lia | specialize (IH Hin); lia]. }
  destruct n; simpl in *; lia.
Qed.

Lemma Pruned_trans a b c : Pruned a b -> Pruned b c -> Pruned a c.
Proof.
  remember (height c) as h eqn:Hh.
  assert (Hle : height c <= h) by lia. clear Hh.
  revert a b c Hle. induction h as [|h IH]; intros a b c Hle Hab Hbc.
  - destruct c; simpl in Hle; lia.
  - inversion Hbc; subst; [exact Hab|].
    inversion Hab; subst; [exact Hbc|].
    rewrite withChildren_withChildren. constructor.
    rewrite getChildren_withChildren in H0.
    eapply Embeds_trans; [| exact H0 | exact H].
    intros x y z Hz. apply IH.
    apply height_children in Hz. lia.
Qed.

Lemma Pruned_isRoot d n : Pruned d n -> isRoot d = isRoot n.
Proof. destruct 1; auto using isRoot_withChildren. Qed.

Lemma list_max_Embeds l' l :
  Embeds (fun a b => a <= b) l' l -> list_max l' <= list_max l.
Proof. induction 1; simpl; lia. Qed.

Lemma Embeds_map {A B} (f : A -> B) (R : A -> A -> Prop) (S : B -> B -> Prop)
    l' l :
  (forall a' a, In a l -> R a' a -> S (f a') (f a)) ->
  Embeds R l' l -> Embeds S (map f l') (map f l).
Proof.
  intros H E. induction E; simpl.
  - apply Embeds_nil.
  - apply Embeds_drop; auto using in_cons.
  - apply Embeds_keep; auto using in_eq, in_cons.
Qed.

Lemma height_withChildren r n cs :
  height (withChildren r n cs) = S (list_max (map height cs)).
Proof. destruct n; reflexivity. Qed.

Lemma height_eq n : height n = S (list_max (map height (getChildren n))).
Proof. destruct n; reflexivity. Qed.

Lemma Pruned_height d n : Pruned d n -> height d <= height n.
Proof.
  remember (height n) as h eqn:Hh.
  assert (Hle : height n <= h) by lia. rewrite Hh. clear Hh.
  revert d n Hle. induction h as [|h IH]; intros d n Hle Hp.
  - destruct n; simpl in Hle; lia.
  - inversion Hp; subst; [lia|].
    rewrite height_withChildren, (height_eq n).
    apply le_n_S, list_max_Embeds.
    eapply Embeds_map; [| exact H].
    intros a' a Ha. apply IH. apply height_children in Ha. lia.
Qed.

(** ** [clone] *)

Lemma cloneChildrenLoop_fst prev next acc b i :
  fst (cloneChildrenLoop prev next acc b i) = acc ++ somes next.
Proof.
  revert acc b i. induction next as [|[c|] next IH]; intros acc b i; simpl.
  - now rewrite app_nil_r.
  - destruct b; rewrite IH, <- app_assoc; reflexivity.
  - apply IH.
Qed.

Lemma cloneChildren_cases prev next :
  cloneChildren prev next = (prev, true) \/
  cloneChildren prev next = (somes next, false).
Proof.
  unfold cloneChildren.
  pose proof (cloneChildrenLoop_fst prev next [] true 0) as H.
  destruct (cloneChildrenLoop prev next [] true 0) as [children same].
  simpl in H. subst children.
  destruct (same && (List.length (somes next) =? List.length prev)); auto.
Qed.

Lemma clone_cases n ds next :
  canHaveSubselections n = true ->
  (clone n ds next = Done None next /\
   (somes ds = [] \/ getChildren n = [])) \/
  (clone n ds next = Done (Some n) next /\
   cloneChildren (getChildren n) ds = (getChildren n, true)) \/
  (clone n ds next = Done (Some (withChildren next n (somes ds))) (S next) /\
   cloneChildren (getChildren n) ds = (somes ds, false) /\ somes ds <> []).
Proof.
  intros Hsub. unfold clone. rewrite Hsub. simpl.
  destruct (cloneChildren_cases (getChildren n) ds) as [-> | ->].
  - destruct (getChildren n) eqn:Hc; simpl; auto.
  - destruct (somes ds) eqn:Hs; simpl; auto.
    right. right. repeat split; auto. discriminate.
Qed.

(** ** The visit terminates and prunes *)

Lemma okNode_child E n c : okNode E n -> In c (getChildren n) -> okNode E c.
Proof.
  intros [He | [_ Hn]] Hin; [now left | right].
  assert (H : forallb (fun c => negb (isRoot c) && noRootBelow c)
                (getChildren n) = true) by (destruct n; exact Hn).
  rewrite forallb_forall in H. specialize (H c Hin).
  apply andb_true_iff in H. destruct H as [H1 H2].
  now apply negb_true_iff in H1.
Qed.

Lemma noRootBelow_eq n :
  noRootBelow n
  = forallb (fun c => negb (isRoot c) && noRootBelow c) (getChildren n).
Proof. destruct n; reflexivity. Qed.

Lemma Pruned_noRootBelow d n :
  Pruned d n -> noRootBelow n = true -> noRootBelow d = true.
Proof.
  remember (height n) as h eqn:Hh.
  assert (Hle : height n <= h) by lia. clear Hh.
  revert d n Hle. induction h as [|h IH]; intros d n Hle Hp Hn.
  - destruct n; simpl in Hle; lia.
  - inversion Hp; subst; [exact Hn|].
    rewrite noRootBelow_eq, getChildren_withChildren.
    rewrite noRootBelow_eq in Hn. rewrite forallb_forall in Hn.
    apply forallb_forall. intros c' Hc'.
    destruct (Embeds_in _ _ _ _ H Hc') as (c & Hc & Hpc).
    specialize (Hn c Hc). apply andb_true_iff in Hn. destruct Hn as [H1 H2].
    apply andb_true_iff. split.
    + now rewrite (Pruned_isRoot _ _ Hpc).
    + eapply IH; eauto. apply height_children in Hc. lia.
Qed.

Lemma okNode_Pruned E d n : Pruned d n -> okNode E n -> okNode E d.
Proof.
  intros Hp [He | [H1 H2]]; [now left | right]. split.
  - now rewrite (Pruned_isRoot _ _ Hp).
  - eapply Pruned_noRootBelow; eauto.
Qed.

Section VisitLevel.

Variable E : Prop.
Variable v : Node -> State -> M (option Node * State).
Variable h : nat.
Hypothesis Hv : forall c st next,
  okNode E c -> height c <= h -> wp E (v c st) next (visitPost c st next).

Lemma subtractEach_wp cs st next :
  (forall c, In c cs -> okNode E c /\ height c <= h) ->
  wp E (subtractEach v cs st) next
    (fun rs next' =>
       next <= next' /\ subtrahend (snd rs) = subtrahend st /\
       Embeds Pruned (somes (fst rs)) cs).
Proof.
  revert st next. induction cs as [|c cs IH]; intros st next Hcs; simpl.
  - apply wp_ret. simpl. split; [lia | split; [reflexivity | constructor]].
  - apply wp_bind.
    destruct (Hcs c (in_eq _ _)) as [Hok Hh].
    eapply wp_weaken; [| apply Hv; auto].
    intros [d st1] next1 (Hn1 & Hs1 & Hd). simpl in *.
    apply wp_bind.
    eapply wp_weaken; [| apply IH; auto using in_cons].
    intros [ds st2] next2 (Hn2 & Hs2 & Hds). simpl in *.
    apply wp_ret. simpl. split; [lia | split; [exact Hs2 |]].
    destruct d as [d|]; simpl.
    + apply Embeds_keep; auto. now apply Hd.
    + now apply Embeds_drop.
Qed.

Lemma _subtractChildren_wp n st next :
  canHaveSubselections n = true ->
  (forall c, In c (getChildren n) -> okNode E c) -> height n <= S h ->
  wp E (_subtractChildren v n st) next (visitPost n st next).
Proof.
  intros Hsub Hok Hh. unfold _subtractChildren.
  apply wp_bind.
  eapply wp_weaken; [| apply subtractEach_wp].
  - intros [ds st1] next1 (Hn1 & Hs1 & Hds). simpl in *.
    apply wp_bind. unfold wp at 1.
    destruct (clone_cases n ds next1 Hsub)
      as [[-> _] | [[-> _] | (-> & _ & _)]];
      apply wp_ret; unfold visitPost; simpl;
      (split; [lia | split; [exact Hs1 |]]); intros d Hd;
      try discriminate; injection Hd as <-.
    + split; [constructor | now left].
    + split; [now constructor |]. right.
      rewrite getRef_withChildren. lia.
  - intros c Hc. split; [now apply Hok|].
    apply height_children in Hc. lia.
Qed.

Lemma subtractRanges_wp ranges n diff st next0 next :
  canHaveSubselections n = true -> okNode E n -> height n <= S h ->
  Pruned diff n -> diff = n \/ (next0 <= getRef diff /\ getRef diff < next) ->
  next0 <= next ->
  wp E (subtractRanges v ranges diff st) next (visitPost n st next0).
Proof.
  intros Hsub Hok Hh. revert diff st next.
  induction ranges as [|range rest IH]; intros diff st next Hp Hfresh Hn;
    simpl.
  - apply wp_ret. unfold visitPost; simpl.
    split; [exact Hn | split; [reflexivity |]].
    intros d Hd. injection Hd as <-. split; [exact Hp | exact Hfresh].
  - apply wp_bind.
    assert (Hsubd : canHaveSubselections diff = true).
    { inversion Hp; subst; auto. destruct n; auto. }
    eapply wp_weaken; [| apply _subtractChildren_wp; auto].
    + intros [d st1] next1 (Hn1 & Hs1 & Hd). simpl in *.
      destruct d as [d|].
      * destruct (Hd d eq_refl) as [Hpd Hfd].
        refine (IH d (setEmpty st (isEmpty st1)) next1 _ _ _);
          [eapply Pruned_trans; eauto | | lia].
        destruct Hfd as [-> | Hfd]; [| right; lia].
        destruct Hfresh as [-> | Hfresh]; [now left | right; lia].
      * apply wp_ret. unfold visitPost; simpl.
        split; [lia | split; [reflexivity | discriminate]].
    + intros c Hc. eapply okNode_child; [| exact Hc].
      eapply okNode_Pruned; eauto.
    + apply Pruned_height in Hp. lia.
Qed.

End VisitLevel.

Lemma visitPost_same n st next b :
  visitPost n st next (Some n, setEmpty st b) next.
Proof.
  unfold visitPost; simpl. split; [lia | split; [reflexivity |]].
  intros d Hd. injection Hd as <-. split; [constructor | now left].
Qed.

Lemma visitPost_none n st st' next next' :
  next <= next' -> subtrahend st' = subtrahend st ->
  visitPost n st next (None, st') next'.
Proof.
  unfold visitPost; simpl. intros. split; [lia | split; [assumption |]].
  discriminate.
Qed.

Lemma visitPost_state n st st' next r next' b :
  visitPost n st' next r next' ->
  visitPost n st next (fst r, setEmpty st b) next'.
Proof.
  unfold visitPost; simpl. intros (H1 & _ & H3). auto.
Qed.

Lemma visitField_filter_wp E n st next (m : M (option Node * State)) :
  wp E m next (visitPost n st next) ->
  wp E (r <- m ;;
        match fst r with
        | Some diff =>
            if isRequisite diff || negb (isEmpty (snd r))
            then ret (Some diff, snd r)
            else ret (None, snd r)
        | None => ret (None, snd r)
        end) next (visitPost n st next).
Proof.
  intros Hm. apply wp_bind. eapply wp_weaken; [| exact Hm].
  intros [d st1] next1 Hpost. simpl.
  destruct d as [d|]; [destruct (isRequisite d || negb (isEmpty st1))|];
    apply wp_ret; try exact Hpost;
    destruct Hpost as (H1 & H2 & _); now apply visitPost_none.
Qed.

Lemma visit_wp E fuel n st next :
  okNode E n -> height n <= fuel ->
  wp E (visit fuel n st) next (visitPost n st next).
Proof.
  revert n st next. induction fuel as [|fuel IH]; intros n st next Hok Hh.
  - destruct n; simpl in Hh; lia.
  - destruct n as [r f a cs | r cs | r info cs]; simpl visit.
    + unfold visitRoot. apply wp_bind. apply wp_invariant.
      * intros Hroot.
        destruct (negb (canSubtractRoot (Root r f a cs) (subtrahend st))).
        -- apply wp_ret. apply visitPost_same.
        -- eapply _subtractChildren_wp; eauto using okNode_child.
      * intros _. destruct Hok as [He | [Hr _]]; [exact He | discriminate].
    + unfold visitFragment.
      eapply _subtractChildren_wp; eauto using okNode_child.
    + unfold visitField. apply visitField_filter_wp.
      destruct (canHaveSubselections (Field r info cs)) eqn:Hsub; simpl negb;
        cbv iota.
      * destruct (isConnection (Field r info cs)).
        -- unfold _subtractConnection.
           destruct (getMatchingRangeFields info (subtrahend st)) eqn:Hr.
           ++ apply wp_ret. apply visitPost_same.
           ++ eapply subtractRanges_wp; eauto. constructor.
        -- unfold _subtractField.
           destruct (getField (subtrahend st) info) as [subField|].
           ++ apply wp_bind.
              eapply wp_weaken;
                [| eapply _subtractChildren_wp with (h := fuel);
                   eauto using okNode_child].
              intros rr next1 Hpost. apply wp_ret.
              eapply visitPost_state; eauto.
           ++ apply wp_ret. apply visitPost_same.
      * unfold _subtractScalar.
        destruct (getField (subtrahend st) info);
          [destruct (negb (isRequisite (Field r info cs)))|];
          apply wp_ret; try apply visitPost_same.
        now apply visitPost_none.
Qed.

(** ** Printing and reading a count *)

Lemma digitValue_digit d :
  (0 <= d < 10)%Z -> digitValue (digit_of_Z d) = Some d.
Proof.
  intros H.
  assert (Hd : (d = 0 \/ d = 1 \/ d = 2 \/ d = 3 \/ d = 4 \/ d = 5 \/ d = 6
               \/ d = 7 \/ d = 8 \/ d = 9)%Z) by lia.
  repeat (destruct Hd as [-> | Hd]; [reflexivity|]). subst. reflexivity.
Qed.

Lemma digit_not_sign d :
  (0 <= d < 10)%Z ->
  isWhiteSpace (digit_of_Z d) = false /\
  digit_of_Z d <> "-"%char /\ digit_of_Z d <> "+"%char.
Proof.
  intros H.
  assert (Hd : (d = 0 \/ d = 1 \/ d = 2 \/ d = 3 \/ d = 4 \/ d = 5 \/ d = 6
               \/ d = 7 \/ d = 8 \/ d = 9)%Z) by lia.
  repeat (destruct Hd as [-> | Hd];
          [repeat split; try reflexivity; discriminate|]).
  subst. repeat split; try reflexivity; discriminate.
Qed.

Lemma readDigits_digit d s acc :
  (0 <= d < 10)%Z ->
  readDigits (String (digit_of_Z d) s) acc
  = readDigits s (Some (match acc with
                        | Some a => 10 * a + d
                        | None => d
                        end)%Z).
Proof.
  intros Hd. cbn [readDigits]. now rewrite digitValue_digit.
Qed.

Lemma digits_of_S fuel z acc :
  digits_of (S fuel) z acc
  = if (z / 10 =? 0)%Z then String (digit_of_Z (z mod 10)) acc
    else digits_of fuel (z / 10)%Z (String (digit_of_Z (z mod 10)) acc).
Proof. reflexivity. Qed.

Lemma readDigits_digits_of fuel z acc :
  (0 < z < 2 ^ Z.of_nat fuel)%Z ->
  readDigits (digits_of fuel z acc) None = readDigits acc (Some z).
Proof.
  revert z acc. induction fuel as [|fuel IH]; intros z acc Hz.
  - change (Z.of_nat 0) with 0%Z in Hz. rewrite Z.pow_0_r in Hz. lia.
  - rewrite digits_of_S.
    assert (Hmod : (0 <= z mod 10 < 10)%Z) by (apply Z.mod_pos_bound; lia).
    assert (Hdiv : (z = 10 * (z / 10) + z mod 10)%Z)
      by (apply Z.div_mod; lia).
    destruct (z / 10 =? 0)%Z eqn:Hq.
    + apply Z.eqb_eq in Hq. rewrite readDigits_digit by assumption.
      f_equal. f_equal. lia.
    + apply Z.eqb_neq in Hq.
      assert (Hpos : (0 <= z / 10)%Z) by (apply Z.div_pos; lia).
      rewrite IH.
      * rewrite readDigits_digit by assumption.
        f_equal. f_equal. lia.
      * split; [lia|].
        rewrite Nat2Z.inj_succ, Z.pow_succ_r in Hz by lia.
        apply Z.div_lt_upper_bound; lia.
Qed.

Lemma digits_of_head fuel z acc :
  fuel <> 0 ->
  exists d s, (0 <= d < 10)%Z /\ digits_of fuel z acc = String (digit_of_Z d) s.
Proof.
  revert z acc. induction fuel as [|fuel IH]; intros z acc Hf; [congruence|].
  rewrite digits_of_S.
  assert (Hmod : (0 <= z mod 10 < 10)%Z) by (apply Z.mod_pos_bound; lia).
  destruct (z / 10 =? 0)%Z; [eauto|].
  destruct fuel as [|fuel]; [cbn [digits_of]; eauto|].
  apply IH. discriminate.
Qed.

Lemma parseInt_digits s d :
  (0 <= d < 10)%Z ->
  parseInt (String (digit_of_Z d) s)
  = numberOfDigits false (readDigits (String (digit_of_Z d) s) None).
Proof.
  intros Hd. destruct (digit_not_sign d Hd) as (Hw & Hm & Hp).
  unfold parseInt. cbn [trimLeft]. rewrite Hw.
  destruct (digit_of_Z d) as [[] [] [] [] [] [] [] []]; try reflexivity;
    congruence.
Qed.

Lemma parseInt_minus s :
  parseInt (String "-" s) = numberOfDigits true (readDigits s None).
Proof. reflexivity. Qed.

Lemma log2_bound z :
  (0 < z)%Z -> (0 < z < 2 ^ Z.of_nat (S (Z.to_nat (Z.log2 z))))%Z.
Proof.
  intros Hz. split; [assumption|].
  rewrite Nat2Z.inj_succ, Z2Nat.id by apply Z.log2_nonneg.
  apply Z.log2_spec. assumption.
Qed.

Lemma readDigits_Some s a : readDigits s (Some a) <> None.
Proof.
  revert a. induction s as [|c s IH]; intros a; simpl; [discriminate|].
  destruct (digitValue c); [apply IH | discriminate].
Qed.

Lemma string_of_Z_head d :
  (0 <= d)%Z ->
  exists c s, (0 <= c < 10)%Z /\ string_of_Z d = String (digit_of_Z c) s.
Proof.
  intros Hd. destruct d as [|p|p]; [| | lia].
  - exists 0%Z, "". split; [lia | reflexivity].
  - unfold string_of_Z. apply digits_of_head. discriminate.
Qed.

Lemma readDigits_string_of_Z z :
  (0 <= z)%Z -> readDigits (string_of_Z z) None = Some z.
Proof.
  intros Hz. destruct z as [|p|p]; [reflexivity | | lia].
  unfold string_of_Z.
  now rewrite readDigits_digits_of by (apply log2_bound; lia).
Qed.

(** *** Numbers below [2 ^ 53] *)

Lemma nearestDouble_small z :
  (0 <= z < 2 ^ 53)%Z -> nearestDouble z = z.
Proof.
  intros Hz. unfold nearestDouble.
  assert (Hlog : (Z.log2 z < 53)%Z).
  { destruct (Z.eq_dec z 0) as [-> | Hne]; [reflexivity|].
    apply Z.log2_lt_pow2; lia. }
  destruct (Z.leb_spec (Z.log2 z - 52) 0); [reflexivity | lia].
Qed.

Lemma pow2_53_1024 : (2 ^ 53 < 2 ^ 1024)%Z.
Proof. apply Z.pow_lt_mono_r; lia. Qed.

Lemma numberOf_small z :
  (Z.abs z < 2 ^ 53)%Z -> numberOf z = Integer z.
Proof.
  intros Hz. unfold numberOf.
  rewrite nearestDouble_small by lia.
  pose proof pow2_53_1024.
  destruct (Z.leb_spec (2 ^ 1024) (Z.abs z)); [lia|].
  destruct (Z.ltb_spec z 0); f_equal; lia.
Qed.

Lemma numberOf_number z : numberOf z <> NaN.
Proof.
  unfold numberOf. destruct (2 ^ 1024 <=? _)%Z; discriminate.
Qed.

Lemma shortest_small z : (z < 2 ^ 53)%Z -> shortest z = z.
Proof.
  intros Hz. unfold shortest.
  destruct (Z.ltb_spec z (2 ^ 53)); [reflexivity | lia].
Qed.

Lemma pow2_53_10_21 : (2 ^ 53 < 10 ^ 21)%Z.
Proof. reflexivity. Qed.

(** A number below [2 ^ 53] is printed in decimal, and read back. *)
Lemma countOf_small z :
  (Z.abs z < 2 ^ 53)%Z -> countOf (VNum (Integer z)) = Integer z.
Proof.
  intros Hz. unfold countOf. cbn [toString].
  pose proof pow2_53_10_21 as Hp.
  destruct z as [|p|p]; [reflexivity | |]; cbn [numberToString];
    unfold positiveToString; rewrite shortest_small by lia;
    (destruct (Z.ltb_spec (Z.pos p) (10 ^ 21)); [| lia]).
  - destruct (string_of_Z_head (Z.pos p)) as (c & s & Hc & Hs); [lia|].
    rewrite Hs, parseInt_digits by assumption. rewrite <- Hs.
    rewrite readDigits_string_of_Z by lia.
    cbn [numberOfDigits]. now apply numberOf_small.
  - rewrite parseInt_minus, readDigits_string_of_Z by lia.
    cbn [numberOfDigits]. now apply numberOf_small.
Qed.

(** *** Every integer reads as a number *)

Lemma parseInt_digit_head c s :
  (0 <= c < 10)%Z -> parseInt (String (digit_of_Z c) s) <> NaN.
Proof.
  intros Hc. rewrite parseInt_digits by assumption.
  rewrite readDigits_digit by assumption.
  destruct (readDigits s (Some c)) eqn:Hr;
    [apply numberOf_number | now apply readDigits_Some in Hr].
Qed.

Lemma dropZeros_head c s :
  dropZeros (String c s) = "" \/ exists r, dropZeros (String c s) = String c r.
Proof.
  cbn [dropZeros]. destruct (dropZeros s); [| eauto].
  destruct (Ascii.eqb c "0"); eauto.
Qed.

Lemma exponential_head d :
  (0 <= d)%Z ->
  exists c s, (0 <= c < 10)%Z /\ exponential d = String (digit_of_Z c) s.
Proof.
  intros Hd. destruct (string_of_Z_head d Hd) as (c & s & Hc & Hs).
  unfold exponential. rewrite Hs.
  destruct (dropZeros_head (digit_of_Z c) s) as [-> | [r ->]]; [eauto|].
  destruct r; eauto.
Qed.

Lemma shortestAt_nonneg j z : (0 <= z)%Z -> (0 <= shortestAt j z)%Z.
Proof.
  intros Hz. induction j as [|j IH]; cbn [shortestAt];
    set (unit := (10 ^ Z.of_nat _)%Z);
    (assert (Hu : (0 < unit)%Z) by (apply Z.pow_pos_nonneg; lia));
    (assert (Hlo : (0 <= z / unit * unit)%Z)
       by (apply Z.mul_nonneg_nonneg; [apply Z.div_pos |]; lia));
    repeat match goal with
           | |- context [if ?b then _ else _] => destruct b
           end; lia.
Qed.

Lemma positiveToString_head z :
  (0 <= z)%Z ->
  exists c s, (0 <= c < 10)%Z /\ positiveToString z = String (digit_of_Z c) s.
Proof.
  intros Hz. unfold positiveToString.
  assert (Hd : (0 <= shortest z)%Z).
  { unfold shortest. destruct (z <? 2 ^ 53)%Z; [assumption|].
    now apply shortestAt_nonneg. }
  destruct (shortest z <? 10 ^ 21)%Z;
    [now apply string_of_Z_head | now apply exponential_head].
Qed.

Lemma countOf_integer z : countOf (VNum (Integer z)) <> NaN.
Proof.
  unfold countOf. cbn [toString].
  destruct z as [|p|p]; cbn [numberToString]; [discriminate | |].
  - destruct (positiveToString_head (Z.pos p)) as (c & s & Hc & ->); [lia|].
    now apply parseInt_digit_head.
  - rewrite parseInt_minus.
    destruct (positiveToString_head (Z.pos p)) as (c & s & Hc & ->); [lia|].
    rewrite readDigits_digit by assumption.
    destruct (readDigits s (Some c)) eqn:Hr;
      [apply numberOf_number | now apply readDigits_Some in Hr].
Qed.

(** *** The order of the numbers *)

Lemma numLe_atMost a b : numLe a b = true <-> atMost a b.
Proof.
  destruct a as [|[]|x], b as [|[]|y]; simpl;
    try (split; [discriminate | contradiction]); try tauto.
  apply Z.leb_le.
Qed.

Lemma atMost_trans a b c : atMost a b -> atMost b c -> atMost a c.
Proof.
  destruct a as [|[]|x], b as [|[]|y], c as [|[]|z]; simpl;
    try tauto; lia.
Qed.

Lemma atMost_refl a : atMost a a <-> a <> NaN.
Proof.
  destruct a as [|[]|x]; simpl;
    try (split; [discriminate | tauto]); try (split; [| lia]; congruence).
  tauto.
Qed.

(** ** Ranges: when a sibling covers a range *)

Lemma canSubtractArg_covers pre subArg subArgs minArg :
  canSubtractArg (pre ++ subArg :: subArgs) minArg (List.length pre) = true
  <-> argCovers minArg subArg.
Proof.
  unfold canSubtractArg, argCovers, isCount.
  rewrite nth_error_app2, Nat.sub_diag by lia. simpl nth_error. cbv iota.
  destruct (String.eqb_spec (name minArg) (name subArg)) as [Hn | Hn];
    simpl negb; cbv iota.
  - destruct (String.eqb (name minArg) "first"
              || String.eqb (name minArg) "last").
    + fold (countOf (value minArg)) (countOf (value subArg)).
      rewrite numLe_atMost. tauto.
    + rewrite areEqual_eq. tauto.
  - split; [discriminate | tauto].
Qed.

Lemma everyFrom_covers pre minArgs subArgs :
  List.length minArgs = List.length subArgs ->
  (everyFrom (canSubtractArg (pre ++ subArgs)) minArgs (List.length pre) = true
   <-> Forall2 argCovers minArgs subArgs).
Proof.
  revert pre subArgs.
  induction minArgs as [|a minArgs IH]; intros pre [|b subArgs] Hlen;
    simpl in Hlen; try discriminate.
  - simpl. split; [constructor | reflexivity].
  - cbn [everyFrom].
    specialize (IH (pre ++ [b]) subArgs).
    rewrite <- app_assoc, length_app in IH. simpl in IH.
    rewrite Nat.add_1_r in IH.
    destruct (canSubtractArg (pre ++ b :: subArgs) a (List.length pre))
      eqn:Ha.
    + apply canSubtractArg_covers in Ha. rewrite IH by lia.
      split; [intros; constructor; assumption | intros H; now inversion H].
    + split; [discriminate|]. intros H. inversion H; subst.
      apply (proj2 (canSubtractArg_covers pre b subArgs a)) in H3.
      congruence.
Qed.

Lemma canSubtractField_covers minField subField :
  canSubtractField minField subField = true
  <-> schemaName minField = schemaName subField /\
      Forall2 argCovers (calls minField) (calls subField).
Proof.
  unfold canSubtractField.
  destruct (String.eqb_spec (schemaName minField) (schemaName subField))
    as [Hs | Hs]; simpl negb; cbv iota; [| split; [discriminate | tauto]].
  destruct (Nat.eqb_spec (List.length (calls minField))
              (List.length (calls subField))) as [Hl | Hl];
    simpl negb; cbv iota.
  - rewrite (everyFrom_covers [] _ _ Hl). tauto.
  - split; [discriminate|]. intros [_ H].
    apply Forall2_length in H. contradiction.
Qed.

Lemma canSubtractField_first schema m n :
  (Z.abs m < 2 ^ 53)%Z -> (Z.abs n < 2 ^ 53)%Z ->
  canSubtractField (firstRange schema m) (firstRange schema n) = (m <=? n)%Z.
Proof.
  intros Hm Hn. unfold canSubtractField, firstRange; simpl.
  rewrite String.eqb_refl. simpl.
  unfold canSubtractArg; cbn [nth_error name value].
  rewrite String.eqb_refl. cbn [negb String.eqb Ascii.eqb Bool.eqb orb].
  fold (countOf (VNum (Integer m))) (countOf (VNum (Integer n))).
  rewrite !countOf_small by assumption.
  cbn [numLe]. now destruct (m <=? n)%Z.
Qed.

(** C2, as amended.  A field [subField] among the children of the
    subtrahend, with the schema name of the range [minField], is one of its
    matching range fields exactly when both have the same number of
    arguments and, position by position, the arguments have the same name
    and either the name is [first] or [last] and both values read as
    numbers, the count of the range at most the count of the sibling, or
    the values are equal.  A count is read by [parseInt('' + value, 10)]: an
    integer below [2 ^ 53] in absolute value reads as itself, so that a
    range asking for the first [m] is covered by one asking for the first
    [n] exactly when [m <= n]: the first 10 by the first 20, and not the
    first 20 by the first 10. *)
Theorem range_sibling_covers minField sub r subField cs :
  In (Field r subField cs) (getChildren sub) ->
  schemaName minField = schemaName subField ->
  (In (Field r subField cs) (getMatchingRangeFields minField sub)
   <-> Forall2 argCovers (calls minField) (calls subField))
  /\ (forall z, (Z.abs z < 2 ^ 53)%Z -> countOf (VNum (Integer z)) = Integer z)
  /\ (forall schema m n,
        (Z.abs m < 2 ^ 53)%Z -> (Z.abs n < 2 ^ 53)%Z ->
        canSubtractField (firstRange schema m) (firstRange schema n)
        = (m <=? n)%Z).
Proof.
  intros Hin Hs.
  split; [| split; [apply countOf_small | apply canSubtractField_first]].
  unfold getMatchingRangeFields. rewrite filter_In.
  rewrite canSubtractField_covers. tauto.
Qed.

Lemma range_sibling_covers_witness :
  let sub := Root 0 "viewer" None [Field 1 (firstRange "friends" 20) []] in
  In (Field 1 (firstRange "friends" 20) []) (getChildren sub) /\
  schemaName (firstRange "friends" 10) = schemaName (firstRange "friends" 20) /\
  In (Field 1 (firstRange "friends" 20) [])
    (getMatchingRangeFields (firstRange "friends" 10) sub) /\
  Forall2 argCovers (calls (firstRange "friends" 10))
    (calls (firstRange "friends" 20)) /\
  canSubtractField (firstRange "friends" 10) (firstRange "friends" 20) = true /\
  canSubtractField (firstRange "friends" 20) (firstRange "friends" 10) = false.
Proof.
  intros sub.
  assert (Hin : In (Field 1 (firstRange "friends" 20) []) (getChildren sub))
    by (simpl; auto).
  destruct (range_sibling_covers (firstRange "friends" 10) sub 1
              (firstRange "friends" 20) [] Hin eq_refl) as (Hiff & _ & Hle).
  assert (Hm : In (Field 1 (firstRange "friends" 20) [])
                 (getMatchingRangeFields (firstRange "friends" 10) sub))
    by (simpl; auto).
  split; [exact Hin | split; [reflexivity | split; [exact Hm | split]]].
  - exact (proj1 Hiff Hm).
  - split; [exact (Hle "friends" 10%Z 20%Z eq_refl eq_refl)
           | exact (Hle "friends" 20%Z 10%Z eq_refl eq_refl)].
Defined.

(** The reading of a count is [parseInt]'s: from [10 ^ 21] on a number is
    printed in exponential notation, and is read as its first digit;
    [NaN] and the infinities do not read as numbers. *)
Example range_count_in_exponential_notation :
  toString (VNum (Integer (10 ^ 21))) = "1e+21" /\
  countOf (VNum (Integer (10 ^ 21))) = Integer 1 /\
  canSubtractField (firstRange "friends" (10 ^ 21)) (firstRange "friends" 5)
  = true /\
  canSubtractField (firstRange "friends" 5) (firstRange "friends" (10 ^ 21))
  = false /\
  countOf (VNum NaN) = NaN /\ countOf (VNum (Infinity false)) = NaN.
Proof. vm_compute. repeat split. Qed.

(** C2, as stated, fails: the arguments are compared position by position.
    A sibling with the same arguments in another order has every argument
    other than [first] and [last] equal by value and the same count, and is
    not a matching range field. *)
Lemma range_covering_by_name_counterexample :
  let minField :=
    {| schemaName := "friends"; applicationName := "friends";
       calls := [mkCall "orderby" (VStr "name"); mkCall "first" (VNum (Integer 10))];
       kind := Range; requisite := false; refQueryDependency := false |} in
  let subField :=
    {| schemaName := "friends"; applicationName := "friends";
       calls := [mkCall "first" (VNum (Integer 10)); mkCall "orderby" (VStr "name")];
       kind := Range; requisite := false; refQueryDependency := false |} in
  let sub := Root 0 "viewer" None [Field 1 subField []] in
  In (Field 1 subField []) (getChildren sub) /\
  schemaName minField = schemaName subField /\
  argsCoverByName (calls minField) (calls subField) /\
  ~ In (Field 1 subField []) (getMatchingRangeFields minField sub).
Proof.
  simpl. split; [auto | split; [reflexivity | split]].
  - intros minArg [<- | [<- | []]]; simpl.
    + exists (VStr "name"). split; reflexivity.
    + exists (VNum (Integer 10)). split; [reflexivity|].
      vm_compute. discriminate.
  - vm_compute. tauto.
Qed.

Example range_first_10_from_20 :
  let name := Field 8 (mkFieldInfo "name" "name" [] Scalar false false) [] in
  let ten := Root 6 "viewer" None [Field 7 (firstRange "friends" 10) [name]] in
  let twenty :=
    Root 9 "viewer" None [Field 10 (firstRange "friends" 20) [name]] in
  subtractRelayQuery ten twenty 11 = Done None 11 /\
  subtractRelayQuery twenty ten 11 = Done (Some twenty) 11.
Proof. split; reflexivity. Qed.

(** ** Roots *)

(** C7.  Two roots whose field names differ, or whose identifying
    arguments are not equal by value: the subtraction returns the minuend
    itself, the same object, and allocates nothing. *)
Theorem subtract_distinct_roots_identity r1 f1 a1 cs1 r2 f2 a2 cs2 next :
  f1 <> f2 \/ a1 <> a2 ->
  subtractRelayQuery (Root r1 f1 a1 cs1) (Root r2 f2 a2 cs2) next
  = Done (Some (Root r1 f1 a1 cs1)) next.
Proof.
  intros Hdiff.
  assert (Hc : canSubtractRoot (Root r1 f1 a1 cs1) (Root r2 f2 a2 cs2)
               = false).
  { simpl. apply andb_false_iff. destruct Hdiff as [Hf | Ha].
    - left. now apply String.eqb_neq.
    - right. destruct (areEqualArg a1 a2) eqn:He; [|reflexivity].
      apply areEqualArg_eq in He. contradiction. }
  unfold subtractRelayQuery. cbn [height visit].
  unfold visitRoot, bind, invariant. cbn [subtrahend isRoot].
  rewrite Hc. reflexivity.
Qed.

Lemma subtract_distinct_roots_identity_witness :
  let q1 := Root 0 "user" (Some (mkCall "id" (VNum (Integer 1))))
              [Field 1 (mkFieldInfo "name" "name" [] Scalar false false) []] in
  let q2 := Root 2 "user" (Some (mkCall "id" (VNum (Integer 2))))
              [Field 3 (mkFieldInfo "name" "name" [] Scalar false false) []] in
  ("user" <> "user" \/
   Some (mkCall "id" (VNum (Integer 1))) <> Some (mkCall "id" (VNum (Integer 2)))) /\
  subtractRelayQuery q1 q2 4 = Done (Some q1) 4.
Proof.
  intros q1 q2.
  assert (H : "user" <> "user" \/
              Some (mkCall "id" (VNum (Integer 1))) <> Some (mkCall "id" (VNum (Integer 2))))
    by (right; discriminate).
  split; [exact H|].
  exact (subtract_distinct_roots_identity 0 "user" (Some (mkCall "id" (VNum (Integer 1))))
           [Field 1 (mkFieldInfo "name" "name" [] Scalar false false) []]
           2 "user" (Some (mkCall "id" (VNum (Integer 2))))
           [Field 3 (mkFieldInfo "name" "name" [] Scalar false false) []]
           4 H).
Defined.

(** ** Visits that allocate nothing *)

Lemma cloneChildrenLoop_same pre l :
  cloneChildrenLoop (pre ++ l) (map Some l) pre true (List.length pre)
  = (pre ++ l, true).
Proof.
  revert pre. induction l as [|c l IH]; intros pre; simpl.
  - now rewrite app_nil_r.
  - rewrite nth_error_app2, Nat.sub_diag by lia. simpl.
    unfold same_ref. rewrite Nat.eqb_refl.
    specialize (IH (pre ++ [c])).
    rewrite <- app_assoc, length_app, Nat.add_1_r in IH. exact IH.
Qed.

Lemma cloneChildren_same prev :
  cloneChildren prev (map Some prev) = (prev, true).
Proof.
  unfold cloneChildren.
  pose proof (cloneChildrenLoop_same [] prev) as H. simpl in H.
  rewrite H. simpl. now rewrite Nat.eqb_refl.
Qed.

Lemma somes_map_Some {A} (l : list A) : somes (map Some l) = l.
Proof. induction l; simpl; congruence. Qed.

Lemma somes_map_None {A} (l : list A) :
  somes (map (fun _ => @None A) l) = [].
Proof. induction l; simpl; congruence. Qed.

Lemma clone_same n next :
  canHaveSubselections n = true -> getChildren n <> [] ->
  clone n (map Some (getChildren n)) next = Done (Some n) next.
Proof.
  intros Hsub Hne. unfold clone. rewrite Hsub. simpl.
  rewrite cloneChildren_same.
  destruct (getChildren n); [congruence | reflexivity].
Qed.

Lemma clone_none n ds next :
  canHaveSubselections n = true -> somes ds = [] ->
  clone n ds next = Done None next.
Proof.
  intros Hsub Hs. unfold clone, cloneChildren. rewrite Hsub. simpl.
  pose proof (cloneChildrenLoop_fst (getChildren n) ds [] true 0) as Hf.
  destruct (cloneChildrenLoop (getChildren n) ds [] true 0) as [l b].
  simpl in Hf. rewrite Hs in Hf. subst l.
  destruct (getChildren n), b; reflexivity.
Qed.

(** When the visit of every child returns without allocating, so does the
    visit of the children: the state is empty when it was and every child
    left its state empty. *)
Lemma subtractEach_pure v sub (f : Node -> option Node) (e : Node -> bool)
    cs st next :
  subtrahend st = sub ->
  (forall c, In c cs ->
     v c {| isEmpty := true; subtrahend := sub |} next
     = Done (f c, {| isEmpty := e c; subtrahend := sub |}) next) ->
  subtractEach v cs st next
  = Done (map f cs, setEmpty st (isEmpty st && forallb e cs)) next.
Proof.
  revert st. induction cs as [|c cs IH]; intros st Hs Hv; simpl.
  - unfold ret, setEmpty. rewrite andb_true_r. now destruct st.
  - unfold bind. rewrite Hs, (Hv c (in_eq _ _)). simpl.
    rewrite IH; [| exact Hs | auto using in_cons].
    unfold ret, setEmpty. simpl. now rewrite andb_assoc.
Qed.

(** ** Requisite scalar fields *)

Lemma visit_requisite_scalar fuel c st next :
  requisiteScalarIn (subtrahend st) c = true ->
  visit (S fuel) c st next = Done (Some c, setEmpty st (isEmptyField c)) next.
Proof.
  destruct c as [| | r info cs]; try discriminate.
  unfold requisiteScalarIn. intros H.
  destruct (kind info) eqn:Hk; try discriminate.
  apply andb_true_iff in H. destruct H as [Hreq Hget].
  destruct (getField (subtrahend st) info) as [subField|] eqn:Hg;
    [clear Hget | discriminate].
  cbn [visit]. unfold visitField, bind.
  cbn [canHaveSubselections]. rewrite Hk. cbn [negb].
  unfold _subtractScalar. rewrite Hg. cbn [isRequisite]. rewrite Hreq.
  cbn [negb ret fst snd isRequisite]. rewrite Hreq. reflexivity.
Qed.

Lemma canSubtractRoot_same r1 r2 f a cs1 cs2 :
  canSubtractRoot (Root r1 f a cs1) (Root r2 f a cs2) = true.
Proof.
  simpl. rewrite String.eqb_refl. simpl. now apply areEqualArg_eq.
Qed.

Lemma list_max_pos {A} (g : A -> nat) c cs :
  In c cs -> 0 < g c -> exists h, list_max (map g cs) = S h.
Proof.
  intros Hin Hpos.
  assert (H : g c <= list_max (map g cs)).
  { induction cs as [|x l IH]; simpl in *; [tauto|].
    destruct Hin as [-> | Hin]; [lia | specialize (IH Hin); lia]. }
  destruct (list_max (map g cs)); [lia | eauto].
Qed.

Lemma height_pos n : 0 < height n.
Proof. destruct n; simpl; lia. Qed.

Lemma visit_S fuel n st :
  visit (S fuel) n st
  = match n with
    | Field _ info _ => visitField (visit fuel) n info st
    | Fragment _ _ => visitFragment (visit fuel) n st
    | Root _ _ _ _ => visitRoot (visit fuel) n st
    end.
Proof. reflexivity. Qed.

(** ** A visit that returns null leaves its state empty *)

Section NoneLevel.

Variable E : Prop.
Variable v : Node -> State -> M (option Node * State).
Variable h : nat.
Hypothesis Hv1 : forall c st next,
  okNode E c -> height c <= h -> wp E (v c st) next (visitPost c st next).
Hypothesis Hv2 : forall c st next,
  okNode E c -> height c <= h -> isEmpty st = true ->
  wp E (v c st) next (fun r _ => fst r = None -> isEmpty (snd r) = true).

Lemma subtractEach_none cs st next :
  (forall c, In c cs -> okNode E c /\ height c <= h) ->
  isEmpty st = true ->
  wp E (subtractEach v cs st) next
    (fun rs _ => somes (fst rs) = [] -> isEmpty (snd rs) = true).
Proof.
  revert st next. induction cs as [|c cs IH]; intros st next Hcs He; simpl.
  - apply wp_ret. auto.
  - destruct (Hcs c (in_eq _ _)) as [Hok Hh].
    apply wp_bind.
    eapply wp_weaken; [| apply Hv2; auto].
    intros [d st1] next1 Hd. simpl in *.
    destruct d as [d|].
    + apply wp_bind.
      eapply wp_weaken with (Q := fun _ _ => True).
      * intros [ds st2] next2 _. apply wp_ret. simpl. discriminate.
      * eapply wp_weaken; [| apply (subtractEach_wp E v h Hv1)].
        -- intros; exact I.
        -- intros c' Hc'. apply Hcs. now right.
    + apply wp_bind.
      eapply wp_weaken; [| apply IH].
      * intros [ds st2] next2 H2. apply wp_ret. exact H2.
      * intros c' Hc'. apply Hcs. now right.
      * simpl. rewrite He, Hd by reflexivity. reflexivity.
Qed.

Lemma _subtractChildren_none n st next :
  canHaveSubselections n = true ->
  (forall c, In c (getChildren n) -> okNode E c) -> height n <= S h ->
  isEmpty st = true ->
  wp E (_subtractChildren v n st) next
    (fun r _ => fst r = None -> isEmpty (snd r) = true).
Proof.
  intros Hsub Hok Hh He. unfold _subtractChildren.
  assert (Hcs : forall c, In c (getChildren n) -> okNode E c /\ height c <= h).
  { intros c Hc. split; [now apply Hok|].
    apply height_children in Hc. lia. }
  destruct (getChildren n) as [|c0 cs0] eqn:Hn.
  - simpl. unfold bind, ret, wp. simpl.
    rewrite (clone_none n [] next Hsub eq_refl). simpl. auto.
  - apply wp_bind.
    eapply wp_weaken; [| apply subtractEach_none; auto].
    intros [ds st1] next1 H1. simpl in *.
    apply wp_bind. unfold wp at 1.
    destruct (clone_cases n ds next1 Hsub)
      as [[-> Hnone] | [[-> _] | (-> & _ & _)]];
      apply wp_ret; simpl; try discriminate.
    intros _. destruct Hnone as [Hnone | Hnone]; [auto | congruence].
Qed.

Lemma subtractRanges_none ranges n diff st next :
  canHaveSubselections n = true -> okNode E n -> height n <= S h ->
  Pruned diff n ->
  wp E (subtractRanges v ranges diff st) next
    (fun r _ => fst r = None -> isEmpty (snd r) = true).
Proof.
  intros Hsub Hok Hh. revert diff st next.
  induction ranges as [|range rest IH]; intros diff st next Hp; simpl.
  - apply wp_ret. simpl. discriminate.
  - assert (Hsubd : canHaveSubselections diff = true).
    { inversion Hp; subst; auto. destruct n; auto. }
    assert (Hokd : forall c, In c (getChildren diff) -> okNode E c).
    { intros c Hc. eapply okNode_child; [| exact Hc].
      eapply okNode_Pruned; eauto. }
    assert (Hhd : height diff <= S h).
    { apply Pruned_height in Hp. lia. }
    apply wp_bind.
    eapply wp_weaken;
      [| apply wp_conj;
         [apply (_subtractChildren_wp E v h Hv1 diff
                   {| isEmpty := true; subtrahend := range |} next);
          assumption
         | apply (_subtractChildren_none diff
                    {| isEmpty := true; subtrahend := range |} next);
           auto]].
    intros [d st1] next1 [(_ & _ & Hd) Hnone]. simpl in *.
    destruct d as [d|].
    + apply IH. eapply Pruned_trans; [| exact Hp]. now apply Hd.
    + apply wp_ret. simpl. auto.
Qed.

End NoneLevel.

Lemma visit_none E fuel n st next :
  okNode E n -> height n <= fuel -> isEmpty st = true ->
  wp E (visit fuel n st) next
    (fun r _ => fst r = None -> isEmpty (snd r) = true).
Proof.
  revert n st next.
  induction fuel as [|fuel IH]; intros n st next Hok Hh He.
  - pose proof (height_pos n). lia.
  - assert (Hv1 : forall c st0 next0,
              okNode E c -> height c <= fuel ->
              wp E (visit fuel c st0) next0 (visitPost c st0 next0)).
    { intros. now apply visit_wp. }
    assert (Hkids : forall c, In c (getChildren n) -> okNode E c).
    { intros c Hc. eapply okNode_child; eauto. }
    rewrite visit_S. destruct n as [r f a cs | r cs | r info cs].
    + unfold visitRoot. apply wp_bind. apply wp_invariant.
      * intros Hroot.
        destruct (negb (canSubtractRoot (Root r f a cs) (subtrahend st))).
        -- apply wp_ret. simpl. discriminate.
        -- apply (_subtractChildren_none E (visit fuel) fuel Hv1 IH); auto.
      * intros _. destruct Hok as [He' | [Hr _]]; [exact He' | discriminate].
    + unfold visitFragment.
      apply (_subtractChildren_none E (visit fuel) fuel Hv1 IH); auto.
    + unfold visitField. apply wp_bind.
      eapply wp_weaken with
        (Q := fun r _ => fst r = None -> isEmpty (snd r) = true).
      * intros [d st1] next1 Hd. simpl in *.
        destruct d as [d|];
          [destruct (isRequisite d || negb (isEmpty st1)) eqn:Hf|];
          apply wp_ret; simpl; try discriminate; auto.
        intros _. apply orb_false_iff in Hf. destruct Hf as [_ Hf].
        now apply negb_false_iff in Hf.
      * destruct (canHaveSubselections (Field r info cs)) eqn:Hsub;
          cbn [negb].
        -- destruct (isConnection (Field r info cs)).
           ++ unfold _subtractConnection.
              destruct (getMatchingRangeFields info (subtrahend st)).
              ** apply wp_ret. simpl. discriminate.
              ** apply (subtractRanges_none E (visit fuel) fuel Hv1 IH)
                   with (n := Field r info cs); auto. constructor.
           ++ unfold _subtractField.
              destruct (getField (subtrahend st) info) as [subField|].
              ** apply wp_bind.
                 eapply wp_weaken;
                   [| apply (_subtractChildren_none E (visit fuel) fuel
                               Hv1 IH); auto].
                 intros rr next1 Hr. apply wp_ret. simpl. exact Hr.
              ** apply wp_ret. simpl. discriminate.
        -- unfold _subtractScalar.
           destruct (getField (subtrahend st) info);
             [destruct (negb (isRequisite (Field r info cs)))|];
             apply wp_ret; simpl; try discriminate; auto.
Qed.


(** The subtraction of two roots with the same field name and identifying
    argument is the subtraction of the children of the minuend. *)
Lemma subtractRelayQuery_roots rr rs f a children cs' next :
  subtractRelayQuery (Root rr f a children) (Root rs f a cs') next
  = (r <- _subtractChildren (visit (list_max (map height children)))
            (Root rr f a children)
            {| isEmpty := true; subtrahend := Root rs f a cs' |} ;;
     if negb (isEmpty (snd r)) then
       invariant (match fst r with Some diff => isRoot diff | None => false end)
         "subtractRelayQuery(): Expected a subtracted query root." ;;;
       ret (fst r)
     else ret None) next.
Proof.
  unfold subtractRelayQuery.
  change (height (Root rr f a children))
    with (S (list_max (map height children))).
  rewrite visit_S. unfold visitRoot.
  cbn [subtrahend isRoot]. rewrite canSubtractRoot_same.
  reflexivity.
Qed.

(** ** A query minus itself *)

Lemma getField_fold_other info cs acc :
  (forall c, In c cs ->
     match c with
     | Field _ i _ => String.eqb (schemaName i) (schemaName info) = false
     | _ => True
     end) ->
  fold_left
    (fun found child =>
       match child with
       | Field _ i _ =>
           if String.eqb (schemaName i) (schemaName info)
           then Some child else found
       | _ => found
       end) cs acc = acc.
Proof.
  revert acc. induction cs as [|c cs IH]; intros acc H; simpl; [reflexivity|].
  rewrite IH by (intros c' Hc'; apply H; now right).
  specialize (H c (in_eq _ _)). destruct c; auto. now rewrite H.
Qed.

Lemma sameSchema_false_other r info cs0 cs :
  existsb (sameSchema (Field r info cs0)) cs = false ->
  forall c, In c cs ->
    match c with
    | Field _ i _ => String.eqb (schemaName i) (schemaName info) = false
    | _ => True
    end.
Proof.
  intros Hex c Hin.
  destruct c as [| | r' i cs']; auto.
  destruct (String.eqb (schemaName i) (schemaName info)) eqn:He; auto.
  assert (Ht : existsb (sameSchema (Field r info cs0)) cs = true).
  { apply existsb_exists. exists (Field r' i cs'). split; [assumption|].
    simpl. now rewrite String.eqb_sym. }
  congruence.
Qed.

Lemma getField_unique p r info cs0 :
  distinctNames (getChildren p) = true ->
  In (Field r info cs0) (getChildren p) ->
  getField p info = Some (Field r info cs0).
Proof.
  unfold getField. generalize (@None Node) as acc.
  induction (getChildren p) as [|c cs IH]; intros acc Hd Hin;
    [contradiction|].
  simpl in Hd. apply andb_true_iff in Hd. destruct Hd as [Hc Hd].
  apply negb_true_iff in Hc. simpl.
  destruct Hin as [-> | Hin].
  - rewrite String.eqb_refl. apply getField_fold_other.
    eapply sameSchema_false_other; eauto.
  - now apply IH.
Qed.

Lemma canSubtractField_schema i i' :
  canSubtractField i i' = true ->
  String.eqb (schemaName i) (schemaName i') = true.
Proof.
  unfold canSubtractField.
  destruct (String.eqb (schemaName i) (schemaName i')); [auto | discriminate].
Qed.

Lemma filter_none {A} (g : A -> bool) l :
  (forall a, In a l -> g a = false) -> filter g l = [].
Proof.
  induction l as [|a l IH]; intros H; simpl; [reflexivity|].
  rewrite (H a (in_eq _ _)). auto using in_cons.
Qed.

Lemma getMatchingRangeFields_unique p r info cs0 :
  distinctNames (getChildren p) = true ->
  In (Field r info cs0) (getChildren p) ->
  canSubtractField info info = true ->
  getMatchingRangeFields info p = [Field r info cs0].
Proof.
  unfold getMatchingRangeFields.
  assert (Hother : forall cs,
             (forall c, In c cs ->
                match c with
                | Field _ i _ =>
                    String.eqb (schemaName i) (schemaName info) = false
                | _ => True
                end) ->
             filter (fun child => match child with
                                  | Field _ i _ => canSubtractField info i
                                  | _ => false
                                  end) cs = []).
  { intros cs H. apply filter_none. intros c Hc. specialize (H c Hc).
    destruct c as [| | r' i cs']; auto.
    destruct (canSubtractField info i) eqn:He; auto.
    apply canSubtractField_schema in He.
    rewrite String.eqb_sym in He. congruence. }
  induction (getChildren p) as [|c cs IH]; intros Hd Hin Hself;
    [contradiction|].
  simpl in Hd. apply andb_true_iff in Hd. destruct Hd as [Hc Hd].
  apply negb_true_iff in Hc. simpl.
  destruct Hin as [-> | Hin].
  - rewrite Hself. f_equal. apply Hother.
    eapply sameSchema_false_other; eauto.
  - rewrite IH by assumption.
    destruct c as [| | r' i cs']; auto.
    destruct (canSubtractField info i) eqn:He; auto.
    apply canSubtractField_schema in He.
    assert (Ht : existsb (sameSchema (Field r' i cs')) cs = true).
    { apply existsb_exists. exists (Field r info cs0). split; [assumption|].
      simpl. now rewrite String.eqb_sym. }
    congruence.
Qed.

Lemma selfCovered_eq n :
  selfCovered n
  = distinctNames (getChildren n) && forallb coveredChild (getChildren n).
Proof. destruct n; reflexivity. Qed.

Lemma visitField_filter_state E (Q : State -> Prop) next
    (m : M (option Node * State)) :
  wp E m next (fun r _ => Q (snd r)) ->
  wp E (r <- m ;;
        match fst r with
        | Some diff =>
            if isRequisite diff || negb (isEmpty (snd r))
            then ret (Some diff, snd r)
            else ret (None, snd r)
        | None => ret (None, snd r)
        end) next (fun r _ => Q (snd r)).
Proof.
  intros Hm. apply wp_bind. eapply wp_weaken; [| exact Hm].
  intros [d st1] next1 HQ. simpl in *.
  destruct d as [d|]; [destruct (isRequisite d || negb (isEmpty st1))|];
    apply wp_ret; exact HQ.
Qed.

Lemma clone_wp_done E n ds next :
  canHaveSubselections n = true ->
  wp E (clone n ds) next (fun _ _ => True).
Proof.
  intros Hsub. unfold wp.
  destruct (clone_cases n ds next Hsub) as [[-> _] | [[-> _] | (-> & _)]];
    exact I.
Qed.

Section SelfLevel.

Variable v : Node -> State -> M (option Node * State).

Lemma subtractEach_empty sub cs st next :
  (forall c next', In c cs ->
     wp False (v c {| isEmpty := true; subtrahend := sub |}) next'
       (fun r _ => isEmpty (snd r) = true)) ->
  subtrahend st = sub -> isEmpty st = true ->
  wp False (subtractEach v cs st) next (fun rs _ => isEmpty (snd rs) = true).
Proof.
  revert st next. induction cs as [|c cs IH]; intros st next Hv Hs He; simpl.
  - apply wp_ret. exact He.
  - apply wp_bind. rewrite Hs.
    eapply wp_weaken; [| apply Hv; apply in_eq].
    intros [d st1] next1 H1. simpl in *.
    apply wp_bind.
    eapply wp_weaken; [| apply IH].
    + intros [ds st2] next2 H2. apply wp_ret. exact H2.
    + intros c' next' Hc'. apply Hv. now right.
    + exact Hs.
    + simpl. now rewrite He, H1.
Qed.

Lemma _subtractChildren_empty sub n st next :
  canHaveSubselections n = true ->
  (forall c next', In c (getChildren n) ->
     wp False (v c {| isEmpty := true; subtrahend := sub |}) next'
       (fun r _ => isEmpty (snd r) = true)) ->
  subtrahend st = sub -> isEmpty st = true ->
  wp False (_subtractChildren v n st) next (fun r _ => isEmpty (snd r) = true).
Proof.
  intros Hsub Hv Hs He. unfold _subtractChildren.
  apply wp_bind.
  eapply wp_weaken; [| eapply subtractEach_empty; eauto].
  intros [ds st1] next1 H1. simpl in *.
  apply wp_bind.
  eapply wp_weaken; [| apply clone_wp_done; assumption].
  intros d next2 _. apply wp_ret. exact H1.
Qed.

End SelfLevel.

Lemma coveredChild_in p n :
  selfCovered p = true -> In n (getChildren p) ->
  distinctNames (getChildren p) = true /\ coveredChild n = true.
Proof.
  rewrite selfCovered_eq, andb_true_iff, forallb_forall.
  intros [Hd Hall] Hin. auto.
Qed.

Lemma visit_self fuel p n st next :
  selfCovered p = true -> In n (getChildren p) ->
  subtrahend st = p -> isEmpty st = true -> height n <= fuel ->
  wp False (visit fuel n st) next (fun r _ => isEmpty (snd r) = true).
Proof.
  revert p n st next.
  induction fuel as [|fuel IH]; intros p n st next Hp Hin Hs He Hh.
  - pose proof (height_pos n). lia.
  - destruct (coveredChild_in p n Hp Hin) as [Hd Hn].
    destruct n as [| | r info cs]; try discriminate.
    assert (Hkids : forall c next', In c cs ->
              selfCovered (Field r info cs) = true ->
              wp False (visit fuel c {| isEmpty := true;
                                        subtrahend := Field r info cs |})
                next' (fun r _ => isEmpty (snd r) = true)).
    { intros c next' Hc Hself. eapply IH; eauto.
      apply (height_children (Field r info cs)) in Hc. lia. }
    rewrite visit_S. unfold visitField.
    apply (visitField_filter_state False (fun s => isEmpty s = true)).
    cbn [canHaveSubselections isConnection]. simpl in Hn.
    destruct (kind info) eqn:Hk; cbn [negb].
    + unfold _subtractScalar. rewrite Hs.
      rewrite (getField_unique p r info cs Hd Hin). cbn [isRequisite].
      destruct (requisite info) eqn:Hreq; cbn [negb orb] in *; apply wp_ret.
      * simpl. rewrite Hk, Hreq. exact Hn.
      * exact He.
    + unfold _subtractField. rewrite Hs.
      rewrite (getField_unique p r info cs Hd Hin).
      apply wp_bind.
      eapply wp_weaken;
        [| apply _subtractChildren_empty
             with (sub := Field r info cs)]; try reflexivity.
      * intros rr next1 Hr. apply wp_ret. exact Hr.
      * simpl. now rewrite Hk.
      * intros c next' Hc. now apply Hkids.
    + apply andb_true_iff in Hn. destruct Hn as [Hself Hn].
      unfold _subtractConnection. rewrite Hs.
      rewrite (getMatchingRangeFields_unique p r info cs Hd Hin Hself).
      cbn [subtractRanges].
      apply wp_bind.
      eapply wp_weaken;
        [| apply _subtractChildren_empty
             with (sub := Field r info cs)]; try reflexivity.
      * intros [d st1] next1 Hr. simpl in *.
        destruct d; apply wp_ret; exact Hr.
      * simpl. now rewrite Hk.
      * intros c next' Hc. now apply Hkids.
Qed.

(** C8, as amended.  A root in which, at every level, the children are
    fields with distinct schema names, every requisite scalar field is an
    unaliased field that is no ref-query-dependency, and the [first] and
    [last] of every range field read as numbers: the root minus itself is
    null. *)
Theorem subtract_self_null q next :
  isRoot q = true -> selfCovered q = true ->
  exists next', subtractRelayQuery q q next = Done None next'.
Proof.
  intros Hroot Hself.
  destruct q as [r f a cs | |]; try discriminate.
  rewrite subtractRelayQuery_roots.
  assert (H : wp False
                (_subtractChildren (visit (list_max (map height cs)))
                   (Root r f a cs)
                   {| isEmpty := true; subtrahend := Root r f a cs |})
                next (fun r _ => isEmpty (snd r) = true)).
  { apply _subtractChildren_empty with (sub := Root r f a cs);
      try reflexivity.
    intros c next1 Hc. eapply visit_self; eauto.
    apply (height_children (Root r f a cs)) in Hc. simpl in Hc. lia. }
  unfold bind. unfold wp in H.
  destruct (_subtractChildren _ _ _ next) as [[d st] next' | |];
    try contradiction.
  cbn [snd] in *. rewrite H. cbn [negb]. now exists next'.
Qed.

Lemma subtract_self_null_witness :
  let q := Root 0 "user" (Some (mkCall "id" (VNum (Integer 1))))
             [scalarField 1 "id" true; scalarField 2 "name" false;
              plainField 3 "address" [scalarField 4 "city" false];
              Field 5 (firstRange "friends" 10)
                [scalarField 6 "cursor" true; scalarField 7 "name" false]] in
  isRoot q = true /\ selfCovered q = true /\
  exists next', subtractRelayQuery q q 8 = Done None next'.
Proof.
  intros q.
  split; [reflexivity | split; [reflexivity |]].
  exact (subtract_self_null q 8 eq_refl eq_refl).
Defined.

(** C8, as stated, fails: the matching range fields of a range are looked
    for among the children of the subtrahend that are fields.  A range
    inside a fragment of a root finds none in the root itself, and is
    retained whole: the root minus itself is the root. *)
Lemma subtract_self_fragment_counterexample :
  let q := Root 0 "viewer" None
             [Fragment 1
                [Field 2 (firstRange "friends" 10)
                   [scalarField 3 "name" false]]] in
  noRequisite q = true /\
  subtractRelayQuery q q 4 = Done (Some q) 4 /\
  ~ (exists next', subtractRelayQuery q q 4 = Done None next').
Proof.
  simpl. repeat split. intros [next' H]. discriminate.
Qed.

(** The other conditions of [selfCovered] are needed as well: a count that
    does not read as a number, two fields with one schema name, a requisite
    field that is a ref-query-dependency. *)
Example subtract_self_count_not_a_number :
  let q := Root 0 "viewer" None
             [Field 1 {| schemaName := "friends";
                         applicationName := "friends";
                         calls := [mkCall "first" VNull]; kind := Range;
                         requisite := false; refQueryDependency := false |}
                [scalarField 2 "name" false]] in
  subtractRelayQuery q q 3 = Done (Some q) 3.
Proof. reflexivity. Qed.

Example subtract_self_same_schema_name :
  let q := Root 0 "viewer" None
             [plainField 1 "actor" [scalarField 2 "name" false];
              plainField 3 "actor" [scalarField 4 "email" false]] in
  subtractRelayQuery q q 5
  = Done (Some (Root 5 "viewer" None
                  [plainField 1 "actor" [scalarField 2 "name" false]])) 6.
Proof. reflexivity. Qed.

Example subtract_self_ref_query_dependency :
  let q := Root 0 "viewer" None
             [Field 1 {| schemaName := "id"; applicationName := "id";
                         calls := []; kind := Scalar; requisite := true;
                         refQueryDependency := true |} []] in
  subtractRelayQuery q q 2 = Done (Some q) 2.
Proof. reflexivity. Qed.

(** ** What the subtraction leaves *)

Lemma forallb_ext_in {A} (f g : A -> bool) l :
  (forall a, In a l -> f a = g a) -> forallb f l = forallb g l.
Proof.
  induction l as [|a l IH]; intros H; simpl; [reflexivity|].
  rewrite (H a (in_eq _ _)), IH by auto using in_cons. reflexivity.
Qed.

Lemma countsEmpty_None c : countsEmpty None c = isEmptyField c.
Proof.
  induction c as [n IH] using Node_nested_ind.
  rewrite Forall_forall in IH.
  destruct n as [r f a cs | r cs | r i cs]; simpl in *;
    try (apply forallb_ext_in; exact IH).
  destruct (kind i); try (apply forallb_ext_in; exact IH).
  reflexivity.
Qed.

Lemma getField_in s info m :
  getField s info = Some m -> In m (getChildren s).
Proof.
  unfold getField.
  assert (H : forall cs acc,
             fold_left
               (fun found child =>
                  match child with
                  | Field _ i _ =>
                      if String.eqb (schemaName i) (schemaName info)
                      then Some child else found
                  | _ => found
                  end) cs acc = Some m ->
             In m cs \/ acc = Some m).
  { induction cs as [|c cs IH]; intros acc Hf; simpl in *; [now right|].
    destruct (IH _ Hf) as [Hin | Hacc]; [left; now right|].
    destruct c as [| | r i cs']; auto.
    destruct (String.eqb (schemaName i) (schemaName info)); auto.
    injection Hacc as <-. left. now left. }
  intros Hf. destruct (H _ _ Hf) as [Hin | Hacc]; [assumption | discriminate].
Qed.

Lemma distinctBelow_eq n :
  distinctBelow n
  = distinctNames (getChildren n) && forallb distinctBelow (getChildren n).
Proof. destruct n; reflexivity. Qed.

Lemma distinctBelow_child s m :
  distinctBelow s = true -> In m (getChildren s) -> distinctBelow m = true.
Proof.
  rewrite distinctBelow_eq, andb_true_iff, forallb_forall.
  intros [_ H] Hin. auto.
Qed.

Lemma getMatchingRangeFields_in info s m :
  In m (getMatchingRangeFields info s) -> In m (getChildren s).
Proof. unfold getMatchingRangeFields. rewrite filter_In. tauto. Qed.

Lemma getMatchingRangeFields_single info s :
  distinctNames (getChildren s) = true ->
  getMatchingRangeFields info s = [] \/
  exists m, getMatchingRangeFields info s = [m].
Proof.
  unfold getMatchingRangeFields.
  induction (getChildren s) as [|c cs IH]; intros Hd; [now left|].
  simpl in Hd. apply andb_true_iff in Hd. destruct Hd as [Hc Hd].
  apply negb_true_iff in Hc. simpl.
  destruct c as [| | r i cs0]; auto.
  destruct (canSubtractField info i) eqn:He; auto.
  right. exists (Field r i cs0). f_equal.
  apply filter_none. intros c' Hc'.
  destruct c' as [| | r' i' cs']; auto.
  destruct (canSubtractField info i') eqn:He'; auto.
  apply canSubtractField_schema in He, He'.
  apply String.eqb_eq in He, He'.
  assert (Ht : existsb (sameSchema (Field r i cs0)) cs = true).
  { apply existsb_exists. exists (Field r' i' cs'). split; [assumption|].
    simpl. apply String.eqb_eq. congruence. }
  congruence.
Qed.

Lemma childScope_distinct s c m :
  distinctBelow s = true -> childScope (Some s) c = Some m ->
  distinctBelow m = true.
Proof.
  intros Hs Hm. destruct c as [r f a cs | r cs | r i cs]; cbn [childScope] in Hm.
  - destruct (canSubtractRoot (Root r f a cs) s); congruence.
  - congruence.
  - revert Hm.
    destruct (kind i); intros Hm; [discriminate | |].
    + eapply distinctBelow_child; eauto using getField_in.
    + eapply distinctBelow_child; eauto.
      apply (getMatchingRangeFields_in i).
      destruct (getMatchingRangeFields i s); [discriminate|].
      injection Hm as ->. now left.
Qed.

Section CountsLevel.

Variable v : Node -> State -> M (option Node * State).
Variable sub : Node.
Variable e : Node -> bool.

Lemma subtractEach_counts cs st next :
  (forall c next', In c cs ->
     wp False (v c {| isEmpty := true; subtrahend := sub |}) next'
       (fun r _ => emptyPost (e c) sub r)) ->
  subtrahend st = sub ->
  wp False (subtractEach v cs st) next
    (fun rs _ =>
       isEmpty (snd rs) = isEmpty st && forallb e cs /\
       subtrahend (snd rs) = sub /\
       (somes (fst rs) = [] -> forallb e cs = true)).
Proof.
  revert st next. induction cs as [|c cs IH]; intros st next Hv Hs; simpl.
  - apply wp_ret. simpl. rewrite andb_true_r. auto.
  - apply wp_bind. rewrite Hs.
    eapply wp_weaken; [| apply Hv; apply in_eq].
    intros [d st1] next1 (H1 & H2 & H3). simpl in *.
    apply wp_bind.
    eapply wp_weaken; [| apply IH].
    + intros [ds st2] next2 (H4 & H5 & H6). apply wp_ret. simpl in *.
      split; [| split; [assumption|]].
      * rewrite H4, H1. now rewrite andb_assoc.
      * intros Hnone. destruct d as [d|]; [discriminate|].
        rewrite H3, H6 by auto. reflexivity.
    + intros c' next' Hc'. apply Hv. now right.
    + exact Hs.
Qed.

Lemma _subtractChildren_counts n st next :
  canHaveSubselections n = true ->
  (forall c next', In c (getChildren n) ->
     wp False (v c {| isEmpty := true; subtrahend := sub |}) next'
       (fun r _ => emptyPost (e c) sub r)) ->
  subtrahend st = sub -> isEmpty st = true ->
  wp False (_subtractChildren v n st) next
    (fun r _ => emptyPost (forallb e (getChildren n)) sub r).
Proof.
  intros Hsub Hv Hs He. unfold _subtractChildren.
  apply wp_bind.
  eapply wp_weaken; [| eapply subtractEach_counts; eauto].
  intros [ds st1] next1 (H1 & H2 & H3). simpl in *.
  rewrite He in H1. simpl in H1.
  apply wp_bind. unfold wp at 1.
  destruct (clone_cases n ds next1 Hsub)
    as [[-> Hnone] | [[-> _] | (-> & _ & _)]];
    apply wp_ret; unfold emptyPost; simpl;
    (split; [exact H1 | split; [exact H2 |]]); try discriminate.
  intros _. destruct Hnone as [Hnone | Hnone]; [auto|].
  now rewrite Hnone.
Qed.

End CountsLevel.

Lemma visitField_filter_counts e sub next (m : M (option Node * State)) :
  wp False m next (fun r _ => emptyPost e sub r) ->
  wp False (r <- m ;;
            match fst r with
            | Some diff =>
                if isRequisite diff || negb (isEmpty (snd r))
                then ret (Some diff, snd r)
                else ret (None, snd r)
            | None => ret (None, snd r)
            end) next (fun r _ => emptyPost e sub r).
Proof.
  intros Hm. apply wp_bind. eapply wp_weaken; [| exact Hm].
  intros [d st1] next1 (H1 & H2 & H3). simpl in *.
  destruct d as [d|]; [destruct (isRequisite d || negb (isEmpty st1)) eqn:Hf|];
    apply wp_ret; unfold emptyPost; simpl;
    (split; [exact H1 | split; [exact H2 |]]); try discriminate; auto.
  intros _. apply orb_false_iff in Hf. destruct Hf as [_ Hf].
  apply negb_false_iff in Hf. congruence.
Qed.

Lemma okNode_False_field r i cs c :
  okNode False (Field r i cs) -> In c cs -> okNode False c.
Proof. intros H Hin. now apply (okNode_child False (Field r i cs)). Qed.

(** The state that a visit leaves is empty exactly when nothing that
    counts is left of the node. *)
Lemma visit_counts fuel c s st next :
  okNode False c -> distinctBelow s = true ->
  subtrahend st = s -> isEmpty st = true -> height c <= fuel ->
  wp False (visit fuel c st) next
    (fun r _ => emptyPost (countsEmpty (Some s) c) s r).
Proof.
  revert c s st next.
  induction fuel as [|fuel IH]; intros c s st next Hok Hd Hs He Hh.
  - pose proof (height_pos c). lia.
  - assert (Hkids : forall m c' next',
              distinctBelow m = true -> In c' (getChildren c) ->
              wp False (visit fuel c' {| isEmpty := true; subtrahend := m |})
                next' (fun r _ => emptyPost (countsEmpty (Some m) c') m r)).
    { intros m c' next' Hm Hc'. apply IH; auto.
      - eapply okNode_child; eauto.
      - apply height_children in Hc'. lia. }
    rewrite visit_S.
    destruct c as [r f a cs | r cs | r i cs].
    + destruct Hok as [[] | [Hr _]]. discriminate.
    + unfold visitFragment.
      apply (_subtractChildren_counts (visit fuel) s (countsEmpty (Some s)));
        auto.
    + unfold visitField. apply visitField_filter_counts.
      cbn [canHaveSubselections isConnection].
      cbn [countsEmpty childScope].
      destruct (kind i) eqn:Hk; cbn [negb].
      * unfold _subtractScalar, present. rewrite Hs. cbn [isRequisite].
        destruct (getField s i);
          [destruct (requisite i) eqn:Hreq|]; cbn [negb andb orb];
          apply wp_ret; unfold emptyPost; simpl;
          (split; [| split; [assumption |]]); try discriminate; auto.
      * unfold _subtractField. rewrite Hs.
        destruct (getField s i) as [m|] eqn:Hg.
        -- apply wp_bind.
           eapply wp_weaken;
             [| apply (_subtractChildren_counts (visit fuel) m
                         (countsEmpty (Some m)))]; try reflexivity.
           ++ intros rr next1 (H1 & H2 & H3). apply wp_ret.
              unfold emptyPost. simpl. auto.
           ++ simpl. now rewrite Hk.
           ++ intros c' next' Hc'. apply Hkids; auto.
              eapply distinctBelow_child; eauto using getField_in.
        -- apply wp_ret. unfold emptyPost. simpl. rewrite Hk.
           split; [| split; [assumption | discriminate]].
           apply forallb_ext_in. intros. now rewrite countsEmpty_None.
      * unfold _subtractConnection. rewrite Hs.
        assert (Hdn : distinctNames (getChildren s) = true).
        { rewrite distinctBelow_eq in Hd. now apply andb_true_iff in Hd. }
        destruct (getMatchingRangeFields_single i s Hdn) as [Hr | [m Hr]];
          rewrite Hr; cbn [hd_error].
        -- apply wp_ret. unfold emptyPost. simpl. rewrite Hk.
           split; [| split; [assumption | discriminate]].
           apply forallb_ext_in. intros. now rewrite countsEmpty_None.
        -- cbn [subtractRanges]. apply wp_bind.
           eapply wp_weaken;
             [| apply (_subtractChildren_counts (visit fuel) m
                         (countsEmpty (Some m)))]; try reflexivity.
           ++ intros [d st1] next1 (H1 & H2 & H3). simpl in *.
              destruct d; apply wp_ret; unfold emptyPost; simpl;
                (split; [exact H1 | split; [exact Hs |]]);
                try discriminate; auto.
           ++ simpl. now rewrite Hk.
           ++ intros c' next' Hc'. apply Hkids; auto.
              eapply distinctBelow_child; eauto.
              apply (getMatchingRangeFields_in i). rewrite Hr. now left.
Qed.


Lemma okNode_root_children r f a cs c :
  noRootBelow (Root r f a cs) = true -> In c cs -> okNode False c.
Proof.
  intros Hn Hin. right. simpl in Hn. rewrite forallb_forall in Hn.
  specialize (Hn c Hin). apply andb_true_iff in Hn. destruct Hn as [H1 H2].
  now apply negb_true_iff in H1.
Qed.


(** Two roots with the same field name and identifying argument, no root
    below the minuend, distinct names in the subtrahend: the subtraction
    returns, null exactly when nothing that counts is left of the minuend,
    and otherwise a pruned minuend, itself or allocated by the subtraction. *)
Lemma subtract_roots_result rr rs f a cs cs' next :
  noRootBelow (Root rr f a cs) = true ->
  distinctBelow (Root rs f a cs') = true ->
  exists res next',
    subtractRelayQuery (Root rr f a cs) (Root rs f a cs') next
    = Done res next' /\
    next <= next' /\
    (res = None <-> forallb (countsEmpty (Some (Root rs f a cs'))) cs = true) /\
    (forall d, res = Some d ->
       isRoot d = true /\ Pruned d (Root rr f a cs) /\
       (d = Root rr f a cs \/ (next <= getRef d /\ getRef d < next'))).
Proof.
  intros Hnr Hd.
  set (min := Root rr f a cs). set (sub := Root rs f a cs').
  set (st := {| isEmpty := true; subtrahend := sub |}).
  assert (Hheight : forall c, In c cs ->
            height c <= list_max (map height cs)).
  { intros c Hc. apply (height_children min) in Hc. simpl in Hc. lia. }
  assert (H1 : wp False
                 (_subtractChildren (visit (list_max (map height cs))) min st)
                 next (visitPost min st next)).
  { apply _subtractChildren_wp with (h := list_max (map height cs)).
    - intros c st0 next0 Hok Hh. now apply visit_wp.
    - reflexivity.
    - intros c Hc. eapply okNode_root_children; eauto.
    - simpl. lia. }
  assert (H2 : wp False
                 (_subtractChildren (visit (list_max (map height cs))) min st)
                 next
                 (fun r _ =>
                    emptyPost (forallb (countsEmpty (Some sub)) cs) sub r)).
  { apply (_subtractChildren_counts (visit (list_max (map height cs))) sub
             (countsEmpty (Some sub)) min st next); try reflexivity.
    intros c next0 Hc. apply visit_counts; auto.
    eapply okNode_root_children; eauto. }
  pose proof (wp_conj _ _ _ _ _ H1 H2) as H. clear H1 H2.
  unfold min at 1, sub at 1. rewrite subtractRelayQuery_roots.
  fold min sub st. unfold bind. unfold wp in H.
  destruct (_subtractChildren _ min st next) as [[d st1] next1 | |];
    try contradiction.
  destruct H as [(Hn & _ & Hp) (He & _ & Hnone)]. cbn [fst snd] in *.
  destruct (isEmpty st1) eqn:Hst; cbn [negb].
  - exists None, next1. unfold ret.
    split; [reflexivity | split; [exact Hn | split]].
    + split; auto.
    + discriminate.
  - destruct d as [d|]; [| rewrite Hnone in He by reflexivity; discriminate].
    destruct (Hp d eq_refl) as [Hpr Hfresh].
    unfold invariant. rewrite (Pruned_isRoot _ _ Hpr). cbn [min isRoot ret].
    exists (Some d), next1.
    split; [reflexivity | split; [exact Hn | split]].
    + split; [discriminate | congruence].
    + intros d' Hd'. injection Hd' as <-.
      split; [now rewrite (Pruned_isRoot _ _ Hpr) | auto].
Qed.

(** ** The scalar fields that the subtraction leaves *)

Lemma flat_map_nil {A B} (g : A -> list B) l :
  flat_map g l = [] <-> (forall a, In a l -> g a = []).
Proof.
  induction l as [|a l IH]; simpl.
  - split; [intros _ a [] | reflexivity].
  - split.
    + intros H. apply app_eq_nil in H. destruct H as [Ha Hl].
      intros b [<- | Hb]; [assumption | now apply IH].
    + intros H. rewrite (H a (or_introl eq_refl)).
      apply IH. intros b Hb. apply H. now right.
Qed.

Lemma flat_map_ext_in {A B} (g g' : A -> list B) l :
  (forall a, In a l -> g a = g' a) -> flat_map g l = flat_map g' l.
Proof.
  induction l as [|a l IH]; intros H; simpl; [reflexivity|].
  rewrite (H a (in_eq _ _)), IH by auto using in_cons. reflexivity.
Qed.

Lemma uncoveredLeaves_None c : uncoveredLeaves None c = leafNodes c.
Proof.
  induction c as [n IH] using Node_nested_ind.
  rewrite Forall_forall in IH.
  destruct n as [r f a cs | r cs | r i cs]; simpl in *;
    try (apply flat_map_ext_in; exact IH).
  destruct (kind i); try (apply flat_map_ext_in; exact IH).
  reflexivity.
Qed.

Lemma coveredLeaves_None c : coveredLeaves None c = [].
Proof.
  induction c as [n IH] using Node_nested_ind.
  rewrite Forall_forall in IH.
  destruct n as [r f a cs | r cs | r i cs]; simpl in *;
    try (apply flat_map_nil; exact IH).
  destruct (kind i); try (apply flat_map_nil; exact IH).
  reflexivity.
Qed.

Lemma leafNodes_children c :
  canHaveSubselections c = true ->
  leafNodes c = flat_map leafNodes (getChildren c).
Proof.
  destruct c as [| | r i cs]; simpl; try reflexivity.
  destruct (kind i); [discriminate | reflexivity | reflexivity].
Qed.

Lemma uncoveredLeaves_children scope c :
  canHaveSubselections c = true ->
  uncoveredLeaves scope c
  = flat_map (uncoveredLeaves (childScope scope c)) (getChildren c).
Proof.
  destruct c as [| | r i cs]; simpl; try reflexivity.
  destruct (kind i); [discriminate | reflexivity | reflexivity].
Qed.

Lemma coveredLeaves_children scope c :
  canHaveSubselections c = true ->
  coveredLeaves scope c
  = flat_map (coveredLeaves (childScope scope c)) (getChildren c).
Proof.
  destruct c as [| | r i cs]; simpl; try reflexivity.
  destruct (kind i); [discriminate | reflexivity | reflexivity].
Qed.

Lemma solid_children c :
  canHaveSubselections c = true -> solid c = true ->
  getChildren c <> [] /\ forall c', In c' (getChildren c) -> solid c' = true.
Proof.
  intros Hsub Hs.
  assert (H : match getChildren c with
              | [] => false
              | _ => forallb solid (getChildren c)
              end = true).
  { destruct c as [| | r i cs]; simpl in *; try exact Hs.
    destruct (kind i); [discriminate | exact Hs | exact Hs]. }
  destruct (getChildren c) as [|x l]; [discriminate|].
  split; [discriminate|]. now apply forallb_forall.
Qed.

Lemma leafNodes_solid c : solid c = true -> leafNodes c <> [].
Proof.
  induction c as [n IH] using Node_nested_ind.
  rewrite Forall_forall in IH. intros Hs.
  destruct (canHaveSubselections n) eqn:Hsub.
  - destruct (solid_children n Hsub Hs) as [Hne Hall].
    rewrite leafNodes_children by assumption.
    destruct (getChildren n) as [|x l]; [congruence|].
    simpl. intros H. apply app_eq_nil in H. destruct H as [Hx _].
    apply (IH x (in_eq _ _)); auto using in_eq.
  - destruct n as [| | r i cs]; try discriminate. simpl in *.
    destruct (kind i); discriminate.
Qed.

Lemma noRequisite_children c c' :
  noRequisite c = true -> In c' (getChildren c) -> noRequisite c' = true.
Proof.
  intros H Hin.
  assert (Hall : forallb noRequisite (getChildren c) = true).
  { destruct c as [| | r i cs]; simpl in *; try exact H.
    now apply andb_true_iff in H. }
  rewrite forallb_forall in Hall. auto.
Qed.

Lemma noRequisite_isRequisite c : noRequisite c = true -> isRequisite c = false.
Proof.
  destruct c as [| | r i cs]; simpl; try reflexivity.
  intros H. apply andb_true_iff in H. destruct H as [H _].
  now apply negb_true_iff in H.
Qed.

Lemma countsEmpty_uncovered scope c :
  noRequisite c = true ->
  (countsEmpty scope c = true <-> uncoveredLeaves scope c = []).
Proof.
  revert scope. induction c as [n IH] using Node_nested_ind.
  rewrite Forall_forall in IH. intros scope Hn.
  assert (Hcomp : forallb (countsEmpty (childScope scope n)) (getChildren n)
                  = true
                  <-> flat_map (uncoveredLeaves (childScope scope n))
                        (getChildren n) = []).
  { rewrite forallb_forall, flat_map_nil.
    split; intros H c Hc; apply IH; auto;
      eapply noRequisite_children; eauto. }
  destruct n as [r f a cs | r cs | r i cs]; try exact Hcomp.
  cbn [countsEmpty uncoveredLeaves].
  destruct (kind i) eqn:Hk; try exact Hcomp.
  apply noRequisite_isRequisite in Hn. simpl in Hn.
  simpl. rewrite Hk, Hn. simpl. rewrite orb_false_r, andb_true_r.
  destruct (present scope i); split; auto; discriminate.
Qed.

Lemma isEmptyField_solid c :
  solid c = true -> noRequisite c = true -> isEmptyField c = false.
Proof.
  intros Hs Hn. rewrite <- countsEmpty_None.
  destruct (countsEmpty None c) eqn:He; [|reflexivity].
  apply countsEmpty_uncovered in He; [|assumption].
  rewrite uncoveredLeaves_None in He. now apply leafNodes_solid in He.
Qed.

(** ** When [clone] reuses the node *)

Lemma cloneChildrenLoop_false prev ds acc idx :
  snd (cloneChildrenLoop prev ds acc false idx) = false.
Proof.
  revert acc. induction ds as [|[c|] ds IH]; intros acc; simpl; auto.
Qed.

Lemma skipn_nth_error {A} (l : list A) idx a :
  nth_error l idx = Some a -> skipn idx l = a :: skipn (S idx) l.
Proof.
  revert idx. induction l as [|x l IH]; intros [|idx] H; simpl in *;
    try discriminate.
  - now injection H as ->.
  - now apply IH.
Qed.

Lemma cloneChildrenLoop_true prev ds acc idx :
  snd (cloneChildrenLoop prev ds acc true idx) = true ->
  Forall2 (fun d p => same_ref d p = true) (somes ds)
    (firstn (List.length (somes ds)) (skipn idx prev)).
Proof.
  revert acc idx. induction ds as [|[c|] ds IH]; intros acc idx H; simpl in *.
  - constructor.
  - destruct (nth_error prev idx) as [p|] eqn:Hp;
      [| now rewrite cloneChildrenLoop_false in H].
    destruct (same_ref c p) eqn:Hc;
      [| now rewrite cloneChildrenLoop_false in H].
    rewrite (skipn_nth_error _ _ _ Hp).
    constructor; [assumption | eauto].
  - eauto.
Qed.

Lemma somes_length {A} (l : list (option A)) :
  List.length (somes l) <= List.length l.
Proof. induction l as [|[a|] l IH]; simpl; lia. Qed.

Lemma somes_full {A} (l : list (option A)) :
  List.length (somes l) = List.length l -> l = map Some (somes l).
Proof.
  induction l as [|[a|] l IH]; simpl; intros H.
  - reflexivity.
  - f_equal. apply IH. lia.
  - pose proof (somes_length l). lia.
Qed.

Lemma cloneChildren_reused prev ds :
  List.length ds = List.length prev ->
  snd (cloneChildren prev ds) = true ->
  exists ds', ds = map Some ds' /\
              Forall2 (fun d p => same_ref d p = true) ds' prev.
Proof.
  intros Hlen. unfold cloneChildren.
  pose proof (cloneChildrenLoop_fst prev ds [] true 0) as Hf.
  pose proof (cloneChildrenLoop_true prev ds [] 0) as Ht.
  destruct (cloneChildrenLoop prev ds [] true 0) as [children same].
  simpl in *. subst children.
  destruct (same && (List.length (somes ds) =? List.length prev)) eqn:Hb;
    [| discriminate].
  intros _. apply andb_true_iff in Hb. destruct Hb as [-> Hl].
  apply Nat.eqb_eq in Hl. specialize (Ht eq_refl).
  rewrite Hl, firstn_all in Ht.
  exists (somes ds). split; [| assumption].
  apply somes_full. congruence.
Qed.

Lemma allocated_ref next c : allocated next c = true -> getRef c < next.
Proof.
  destruct c; simpl; intros H; apply andb_true_iff in H;
    destruct H as [H _]; now apply Nat.ltb_lt.
Qed.

Lemma allocated_children next c c' :
  allocated next c = true -> In c' (getChildren c) -> allocated next c' = true.
Proof.
  intros H Hin.
  assert (Hall : forallb (allocated next) (getChildren c) = true).
  { destruct c; simpl in *; apply andb_true_iff in H; tauto. }
  rewrite forallb_forall in Hall. auto.
Qed.

(** What the visits of the children say of [clone]. *)

Lemma children_all_dropped s next0 cs ds :
  Forall2 (childExact s next0) cs ds ->
  (somes ds = [] <-> flat_map (uncoveredLeaves (Some s)) cs = []).
Proof.
  induction 1 as [|c d cs' ds' (H1 & H2 & H3) Hrest IH].
  - simpl. tauto.
  - simpl. destruct d as [d|].
    + split; [discriminate|]. intros H. apply app_eq_nil in H.
      destruct H as [H _]. apply H1 in H. discriminate.
    + rewrite (proj1 H1 eq_refl). simpl. exact IH.
Qed.

Lemma children_leaves s next0 cs ds :
  Forall2 (childExact s next0) cs ds ->
  flat_map leafNodes (somes ds) = flat_map (uncoveredLeaves (Some s)) cs.
Proof.
  induction 1 as [|c d cs' ds' (H1 & H2 & H3) Hrest IH].
  - reflexivity.
  - simpl. destruct d as [d|].
    + simpl. rewrite IH. now rewrite (proj1 (H3 d eq_refl)).
    + rewrite (proj1 H1 eq_refl). simpl. exact IH.
Qed.

Lemma children_all_kept s next0 cs ds :
  Forall2 (childExact s next0) cs ds ->
  (ds = map Some cs <-> flat_map (coveredLeaves (Some s)) cs = []).
Proof.
  induction 1 as [|c d cs' ds' (H1 & H2 & H3) Hrest IH].
  - simpl. tauto.
  - simpl. split.
    + intros H. injection H as Hd Hds. apply H2 in Hd. rewrite Hd. simpl.
      now apply IH.
    + intros H. apply app_eq_nil in H. destruct H as [Hc Hcs].
      apply H2 in Hc. apply IH in Hcs. congruence.
Qed.

Lemma children_reused s next0 cs ds :
  Forall2 (childExact s next0) cs ds ->
  (forall c, In c cs -> getRef c < next0) ->
  snd (cloneChildren cs ds) = true -> ds = map Some cs.
Proof.
  intros Hexact Halloc Hsame.
  destruct (cloneChildren_reused cs ds) as (ds' & -> & Hrefs); auto.
  { symmetry. eapply Forall2_length; eauto. }
  f_equal. clear Hsame.
  revert cs Hexact Halloc Hrefs.
  induction ds' as [|d ds' IH]; intros cs0 Hex Hal Hrefs.
  - inversion Hrefs. reflexivity.
  - destruct cs0 as [|y l']; [inversion Hrefs|].
    apply Forall2_cons_iff in Hrefs. destruct Hrefs as [Href Hrefs].
    simpl in Hex. apply Forall2_cons_iff in Hex.
    destruct Hex as [(_ & _ & H5) Hex].
    destruct (H5 d eq_refl) as [_ [-> | Hfresh]].
    + f_equal. apply IH; auto. intros c Hc. apply Hal. now right.
    + unfold same_ref in Href. apply Nat.eqb_eq in Href.
      specialize (Hal y (in_eq _ _)). lia.
Qed.

Section ExactLevel.

Variable v : Node -> State -> M (option Node * State).
Variable s : Node.
Variable next0 : nat.

Lemma subtractEach_exact cs st next :
  (forall c next', In c cs -> next0 <= next' ->
     wp False (v c {| isEmpty := true; subtrahend := s |}) next'
       (fun r next'' => next' <= next'' /\ childExact s next0 c (fst r))) ->
  subtrahend st = s -> next0 <= next ->
  wp False (subtractEach v cs st) next
    (fun rs next' =>
       next <= next' /\ Forall2 (childExact s next0) cs (fst rs)).
Proof.
  revert st next. induction cs as [|c cs IH]; intros st next Hv Hs Hn; simpl.
  - apply wp_ret. simpl. split; [lia | constructor].
  - apply wp_bind. rewrite Hs.
    eapply wp_weaken; [| apply Hv; [apply in_eq | exact Hn]].
    intros [d st1] next1 [Hn1 Hd]. simpl in *.
    apply wp_bind.
    eapply wp_weaken; [| apply IH].
    + intros [ds st2] next2 [Hn2 Hds]. apply wp_ret. simpl in *.
      split; [lia | now constructor].
    + intros c' next' Hc'. apply Hv. now right.
    + exact Hs.
    + lia.
Qed.

Lemma _subtractChildren_exact n st next :
  canHaveSubselections n = true -> getChildren n <> [] ->
  getRef n < next0 -> (forall c, In c (getChildren n) -> getRef c < next0) ->
  (forall c next', In c (getChildren n) -> next0 <= next' ->
     wp False (v c {| isEmpty := true; subtrahend := s |}) next'
       (fun r next'' => next' <= next'' /\ childExact s next0 c (fst r))) ->
  subtrahend st = s -> next0 <= next ->
  wp False (_subtractChildren v n st) next
    (fun r next' =>
       next <= next' /\
       (fst r = None
        <-> flat_map (uncoveredLeaves (Some s)) (getChildren n) = []) /\
       (fst r = Some n
        <-> flat_map (coveredLeaves (Some s)) (getChildren n) = []) /\
       (forall d, fst r = Some d ->
          leafNodes d = flat_map (uncoveredLeaves (Some s)) (getChildren n) /\
          (d = n \/ next0 <= getRef d))).
Proof.
  intros Hsub Hne Href Hrefs Hv Hs Hn. unfold _subtractChildren.
  apply wp_bind.
  eapply wp_weaken; [| apply subtractEach_exact; eauto].
  intros [ds st1] next1 [Hn1 Hds]. cbn [fst snd] in *.
  pose proof (children_all_dropped _ _ _ _ Hds) as Hdrop.
  pose proof (children_leaves _ _ _ _ Hds) as Hleaves.
  pose proof (children_all_kept _ _ _ _ Hds) as Hkept.
  pose proof (children_reused _ _ _ _ Hds Hrefs) as Hreused.
  apply wp_bind. unfold wp at 1.
  destruct (clone_cases n ds next1 Hsub)
    as [[-> Hnone] | [[-> Hsame] | (-> & Hnew & Hsome)]];
    apply wp_ret; cbn [fst snd].
  - destruct Hnone as [Hnone | Hnone]; [| contradiction].
    split; [lia | split; [| split]].
    + split; [intros _; now apply Hdrop | reflexivity].
    + split; [discriminate|]. intros Hc. apply Hkept in Hc. subst ds.
      rewrite somes_map_Some in Hnone. contradiction.
    + discriminate.
  - assert (Hds' : ds = map Some (getChildren n)).
    { apply Hreused. now rewrite Hsame. }
    split; [lia | split; [| split]].
    + split; [discriminate|]. intros Hu. apply Hdrop in Hu.
      rewrite Hds', somes_map_Some in Hu. contradiction.
    + split; [intros _; now apply Hkept | reflexivity].
    + intros d Hd. injection Hd as <-. split; [| now left].
      rewrite leafNodes_children by assumption.
      rewrite <- Hleaves, Hds', somes_map_Some. reflexivity.
  - split; [lia | split; [| split]].
    + split; [discriminate|]. intros Hu. apply Hdrop in Hu. contradiction.
    + split.
      * intros Hd. injection Hd as Hd.
        apply (f_equal getRef) in Hd. rewrite getRef_withChildren in Hd. lia.
      * intros Hc. apply Hkept in Hc. subst ds.
        rewrite cloneChildren_same in Hnew. discriminate.
    + intros d Hd. injection Hd as <-. split.
      * rewrite leafNodes_children, getChildren_withChildren; [exact Hleaves|].
        destruct n as [| | r i cs]; try reflexivity. exact Hsub.
      * right. rewrite getRef_withChildren. lia.
Qed.

End ExactLevel.

Lemma visitField_filter_either (Q : option Node -> nat -> Prop) next
    (m : M (option Node * State)) :
  wp False m next (fun r next' => Q (fst r) next') ->
  wp False (r <- m ;;
            match fst r with
            | Some diff =>
                if isRequisite diff || negb (isEmpty (snd r))
                then ret (Some diff, snd r)
                else ret (None, snd r)
            | None => ret (None, snd r)
            end) next
    (fun r next' => exists d0, Q d0 next' /\ (fst r = d0 \/ fst r = None)).
Proof.
  intros Hm. apply wp_bind. eapply wp_weaken; [| exact Hm].
  intros [d st1] next1 HQ. simpl in *.
  destruct d as [d|]; [destruct (isRequisite d || negb (isEmpty st1))|];
    apply wp_ret; simpl; eauto.
Qed.

Lemma childExact_unmatched s next0 c :
  canHaveSubselections c = true -> solid c = true ->
  childScope (Some s) c = None ->
  childExact s next0 c (Some c).
Proof.
  intros Hsub Hsolid Hscope. unfold childExact.
  rewrite uncoveredLeaves_children, coveredLeaves_children by assumption.
  rewrite Hscope.
  rewrite (flat_map_ext_in _ leafNodes) by (intros; apply uncoveredLeaves_None).
  rewrite <- leafNodes_children by assumption.
  split; [| split].
  - split; [discriminate|]. intros H. now apply leafNodes_solid in H.
  - split; [intros _ | reflexivity].
    apply flat_map_nil. intros. apply coveredLeaves_None.
  - intros d Hd. injection Hd as <-. auto.
Qed.

Lemma childExact_scalar s next0 r i cs :
  kind i = Scalar ->
  childExact s next0 (Field r i cs)
    (if present (Some s) i then None else Some (Field r i cs)).
Proof.
  intros Hk. unfold childExact. simpl. rewrite Hk.
  destruct (match getField s i with Some _ => true | None => false end).
  - split; [tauto | split; [split; discriminate | discriminate]].
  - split; [split; discriminate | split; [tauto |]].
    intros d Hd. injection Hd as <-. simpl. rewrite Hk. auto.
Qed.

Lemma childExact_filtered s next0 c d0 d :
  noRequisite c = true ->
  childExact s next0 c d0 -> d = d0 \/ d = None ->
  (d = None -> countsEmpty (Some s) c = true) ->
  childExact s next0 c d.
Proof.
  intros Hn Hex [-> | ->] Hnone; [assumption|].
  specialize (Hnone eq_refl). apply countsEmpty_uncovered in Hnone; auto.
  apply (proj1 Hex) in Hnone. now subst d0.
Qed.

(** The visit of a node nothing of which is requisite, every composite of
    which has a child: null, the node itself or a new node, with the scalar
    fields that are not present in the subtrahend. *)
Lemma visit_exact fuel c s st next next0 :
  okNode False c -> solid c = true -> noRequisite c = true ->
  allocated next0 c = true -> next0 <= next ->
  distinctBelow s = true -> subtrahend st = s -> isEmpty st = true ->
  height c <= fuel ->
  wp False (visit fuel c st) next
    (fun r next' => next <= next' /\ childExact s next0 c (fst r)).
Proof.
  revert c s st next.
  induction fuel as [|fuel IH];
    intros c s st next Hok Hsolid Hnr Hal Hn Hd Hs He Hh.
  - pose proof (height_pos c). lia.
  - pose proof (visit_counts (S fuel) c s st next Hok Hd Hs He Hh) as Hcounts.
    pose proof (visit_wp False (S fuel) c st next Hok Hh) as Hpost.
    assert (Hkids : forall m c' next',
              canHaveSubselections c = true ->
              distinctBelow m = true -> In c' (getChildren c) ->
              next0 <= next' ->
              wp False (visit fuel c' {| isEmpty := true; subtrahend := m |})
                next'
                (fun r next'' =>
                   next' <= next'' /\ childExact m next0 c' (fst r))).
    { intros m c' next' Hsub Hm Hc' Hn'. apply IH; auto.
      - eapply okNode_child; eauto.
      - now apply (proj2 (solid_children c Hsub Hsolid)).
      - eapply noRequisite_children; eauto.
      - eapply allocated_children; eauto.
      - apply height_children in Hc'. lia. }
    assert (Hrefs : forall c', In c' (getChildren c) -> getRef c' < next0).
    { intros c' Hc'. apply allocated_ref. eapply allocated_children; eauto. }
    assert (Hinner : forall m st' next1,
              canHaveSubselections c = true ->
              childScope (Some s) c = Some m -> distinctBelow m = true ->
              subtrahend st' = m -> next0 <= next1 ->
              wp False (_subtractChildren (visit fuel) c st') next1
                (fun r next' =>
                   next1 <= next' /\ childExact s next0 c (fst r))).
    { intros m st' next1 Hsub Hscope Hm Hst' Hn1.
      eapply wp_weaken;
        [| apply (_subtractChildren_exact (visit fuel) m next0 c st' next1);
           auto].
      - intros r next' (H1 & H2 & H3 & H4).
        split; [exact H1|]. unfold childExact.
        rewrite uncoveredLeaves_children, coveredLeaves_children, Hscope
          by assumption.
        auto.
      - now apply (proj1 (solid_children c Hsub Hsolid)).
      - now apply allocated_ref. }
    assert (Hfinal :
              wp False (visit (S fuel) c st) next
                (fun r next' =>
                   exists d0, (next <= next' /\ childExact s next0 c d0) /\
                              (fst r = d0 \/ fst r = None)) ->
              wp False (visit (S fuel) c st) next
                (fun r next' => next <= next' /\ childExact s next0 c (fst r))).
    { intros Hw. pose proof (wp_conj _ _ _ _ _ Hw Hcounts) as Hc.
      eapply wp_weaken; [| exact Hc].
      intros r next' [(d0 & [H1 H2] & H3) (_ & _ & H4)].
      split; [exact H1|]. eapply childExact_filtered; eauto. }
    destruct c as [r f a cs | r cs | r i cs].
    + destruct Hok as [[] | [Hr _]]. discriminate.
    + rewrite visit_S. unfold visitFragment.
      apply (Hinner s); auto.
    + apply Hfinal. rewrite visit_S. unfold visitField.
      apply (visitField_filter_either
               (fun d next' => next <= next' /\
                               childExact s next0 (Field r i cs) d)).
      cbn [canHaveSubselections isConnection].
      destruct (kind i) eqn:Hk; cbn [negb].
      * unfold _subtractScalar. rewrite Hs. cbn [isRequisite].
        apply noRequisite_isRequisite in Hnr. simpl in Hnr. rewrite Hnr.
        pose proof (childExact_scalar s next0 r i cs Hk) as Hsc.
        simpl in Hsc.
        destruct (getField s i); apply wp_ret; simpl; auto.
      * assert (Hsub : canHaveSubselections (Field r i cs) = true)
          by (simpl; now rewrite Hk).
        unfold _subtractField. rewrite Hs.
        destruct (getField s i) as [m|] eqn:Hg.
        -- apply wp_bind.
           eapply wp_weaken; [| apply (Hinner m); auto].
           ++ intros rr next1 H1. apply wp_ret. exact H1.
           ++ simpl. now rewrite Hk.
           ++ eapply distinctBelow_child; eauto using getField_in.
        -- apply wp_ret. simpl. split; [lia|].
           apply childExact_unmatched; auto. simpl. now rewrite Hk.
      * assert (Hsub : canHaveSubselections (Field r i cs) = true)
          by (simpl; now rewrite Hk).
        unfold _subtractConnection. rewrite Hs.
        assert (Hdn : distinctNames (getChildren s) = true).
        { rewrite distinctBelow_eq in Hd. now apply andb_true_iff in Hd. }
        destruct (getMatchingRangeFields_single i s Hdn) as [Hr | [m Hr]];
          rewrite Hr.
        -- apply wp_ret. simpl. split; [lia|].
           apply childExact_unmatched; auto. simpl. now rewrite Hk, Hr.
        -- cbn [subtractRanges]. apply wp_bind.
           eapply wp_weaken; [| apply (Hinner m); auto].
           ++ intros [d st1] next1 H1. simpl in *.
              destruct d; apply wp_ret; exact H1.
           ++ simpl. now rewrite Hk, Hr.
           ++ eapply distinctBelow_child; eauto.
              apply (getMatchingRangeFields_in i). rewrite Hr. now left.
Qed.

Lemma childScope_roots rr rs f a cs cs' :
  childScope (Some (Root rs f a cs')) (Root rr f a cs)
  = Some (Root rs f a cs').
Proof. cbn [childScope]. now rewrite canSubtractRoot_same. Qed.

Lemma subtract_roots_exact rr rs f a cs cs' next res next' :
  noRootBelow (Root rr f a cs) = true ->
  distinctBelow (Root rs f a cs') = true ->
  noRequisite (Root rr f a cs) = true -> solid (Root rr f a cs) = true ->
  allocated next (Root rr f a cs) = true ->
  subtractRelayQuery (Root rr f a cs) (Root rs f a cs') next
  = Done res next' ->
  childExact (Root rs f a cs') next (Root rr f a cs) res.
Proof.
  intros Hnr Hd Hreq Hsolid Hal.
  set (min := Root rr f a cs) in *. set (sub := Root rs f a cs') in *.
  set (st := {| isEmpty := true; subtrahend := sub |}).
  assert (Hheight : forall c, In c cs ->
            height c <= list_max (map height cs)).
  { intros c Hc. apply (height_children min) in Hc. simpl in Hc. lia. }
  assert (H1 : wp False
                 (_subtractChildren (visit (list_max (map height cs))) min st)
                 next
                 (fun r n' => next <= n' /\ childExact sub next min (fst r))).
  { eapply wp_weaken;
      [| apply (_subtractChildren_exact
                  (visit (list_max (map height cs))) sub next min st next);
         auto].
    - intros r n' (Ha & Hb & Hc & Hd'). split; [exact Ha|].
      unfold childExact.
      rewrite uncoveredLeaves_children, coveredLeaves_children by reflexivity.
      replace (childScope (Some sub) min) with (Some sub)
        by (symmetry; apply childScope_roots).
      auto.
    - now apply (proj1 (solid_children min eq_refl Hsolid)).
    - now apply allocated_ref.
    - intros c Hc. apply allocated_ref. eapply allocated_children; eauto.
    - intros c n' Hc Hn'. apply visit_exact with (next0 := next); auto.
      + eapply okNode_root_children; eauto.
      + now apply (proj2 (solid_children min eq_refl Hsolid)).
      + eapply noRequisite_children; eauto.
      + eapply allocated_children; eauto. }
  assert (H2 : wp False
                 (_subtractChildren (visit (list_max (map height cs))) min st)
                 next
                 (fun r _ =>
                    emptyPost (forallb (countsEmpty (Some sub)) cs) sub r)).
  { apply (_subtractChildren_counts (visit (list_max (map height cs))) sub
             (countsEmpty (Some sub)) min st next); try reflexivity.
    intros c next0 Hc. apply visit_counts; auto.
    eapply okNode_root_children; eauto. }
  pose proof (wp_conj _ _ _ _ _ H1 H2) as H. clear H1 H2.
  unfold min at 1, sub at 1. rewrite subtractRelayQuery_roots.
  fold min sub st. unfold bind. unfold wp in H.
  destruct (_subtractChildren _ min st next) as [[d st1] next1 | |];
    try contradiction.
  destruct H as [[Hn Hex] (He & _ & Hnone)]. cbn [fst snd] in *.
  destruct (isEmpty st1) eqn:Hst; cbn [negb].
  - unfold ret. intros Hres. injection Hres as <- <-.
    assert (Hce : countsEmpty (Some sub) min = true).
    { unfold min. cbn [countsEmpty]. fold min.
      replace (childScope (Some sub) min) with (Some sub)
        by (symmetry; apply childScope_roots).
      congruence. }
    apply countsEmpty_uncovered in Hce; [| assumption].
    apply (proj1 Hex) in Hce as Hd0. subst d. exact Hex.
  - destruct d as [d|]; [| rewrite Hnone in He by reflexivity; discriminate].
    unfold invariant.
    destruct (isRoot d); [| discriminate].
    unfold ret. intros Hres. injection Hres as <- <-. exact Hex.
Qed.

(** Two roots with the same field name and identifying argument, no root
    below the minuend: the subtraction returns, and what it returns is null
    or a root that is the minuend pruned, the minuend itself or a root
    allocated by the subtraction. *)
Lemma subtract_roots_pruned rr rs f a cs cs' next :
  noRootBelow (Root rr f a cs) = true ->
  exists res next',
    subtractRelayQuery (Root rr f a cs) (Root rs f a cs') next
    = Done res next' /\
    next <= next' /\
    (forall d, res = Some d ->
       isRoot d = true /\ Pruned d (Root rr f a cs) /\
       (d = Root rr f a cs \/ (next <= getRef d /\ getRef d < next'))).
Proof.
  intros Hnr.
  set (min := Root rr f a cs). set (sub := Root rs f a cs').
  set (st := {| isEmpty := true; subtrahend := sub |}).
  set (h := list_max (map height cs)).
  assert (Hv1 : forall c st0 next0,
            okNode False c -> height c <= h ->
            wp False (visit h c st0) next0 (visitPost c st0 next0)).
  { intros. now apply visit_wp. }
  assert (Hv2 : forall c st0 next0,
            okNode False c -> height c <= h -> isEmpty st0 = true ->
            wp False (visit h c st0) next0
              (fun r _ => fst r = None -> isEmpty (snd r) = true)).
  { intros. now apply visit_none. }
  assert (Hkids : forall c, In c (getChildren min) -> okNode False c).
  { intros c Hc. eapply okNode_root_children; eauto. }
  assert (H1 : wp False (_subtractChildren (visit h) min st) next
                 (visitPost min st next)).
  { apply _subtractChildren_wp with (h := h); auto. }
  assert (H2 : wp False (_subtractChildren (visit h) min st) next
                 (fun r _ => fst r = None -> isEmpty (snd r) = true)).
  { apply (_subtractChildren_none False (visit h) h Hv1 Hv2); auto. }
  pose proof (wp_conj _ _ _ _ _ H1 H2) as H. clear H1 H2.
  unfold min at 1, sub at 1. rewrite subtractRelayQuery_roots.
  fold min sub st h. unfold bind. unfold wp in H.
  destruct (_subtractChildren _ min st next) as [[d st1] next1 | |];
    try contradiction.
  destruct H as [(Hn & _ & Hp) Hnone]. cbn [fst snd] in *.
  destruct (isEmpty st1) eqn:Hst; cbn [negb].
  - exists None, next1. unfold ret.
    split; [reflexivity | split; [exact Hn | discriminate]].
  - destruct d as [d|];
      [| discriminate (Hnone eq_refl)].
    destruct (Hp d eq_refl) as [Hpr Hfresh].
    unfold invariant. rewrite (Pruned_isRoot _ _ Hpr). cbn [min isRoot ret].
    exists (Some d), next1.
    split; [reflexivity | split; [exact Hn |]].
    intros d' Hd'. injection Hd' as <-.
    split; [now rewrite (Pruned_isRoot _ _ Hpr) | split; assumption].
Qed.

(** * The pending query tracker *)

(** ** Objects at a reference *)

Lemma nth_error_updateNth {A} n m (g : A -> A) l :
  nth_error (updateNth n g l) m
  = if m =? n then option_map g (nth_error l m) else nth_error l m.
Proof.
  revert n m. induction l as [|a l IH]; intros n m.
  - destruct n, m; simpl; try reflexivity; now destruct (m =? n).
  - destruct n, m; simpl; try reflexivity. apply IH.
Qed.

Lemma nth_error_updateNth_same {A} n (g : A -> A) l :
  nth_error (updateNth n g l) n = option_map g (nth_error l n).
Proof. now rewrite nth_error_updateNth, Nat.eqb_refl. Qed.

Lemma nth_error_updateNth_other {A} n m (g : A -> A) l :
  m <> n -> nth_error (updateNth n g l) m = nth_error l m.
Proof.
  intros H. rewrite nth_error_updateNth.
  now destruct (Nat.eqb_spec m n).
Qed.

Lemma length_updateNth {A} n (g : A -> A) l :
  List.length (updateNth n g l) = List.length l.
Proof.
  revert n. induction l as [|a l IH]; intros [|n]; simpl; auto.
Qed.

Lemma allFetches_updateFetch (P : PendingFetch -> Prop) this g st :
  (forall f, P f -> P (g f)) ->
  allFetches P st -> allFetches P (updateFetch this g st).
Proof.
  intros Hg Hall n f. unfold updateFetch. simpl.
  rewrite nth_error_updateNth.
  destruct (n =? this).
  - destruct (nth_error (fetches st) n) as [f0|] eqn:Hn; [|discriminate].
    intros Hf. injection Hf as <-. eauto.
  - apply Hall.
Qed.

(** ** The future of a pending fetch *)

Lemma firedOnce_updateResolvedDeferred f :
  firedOnce f -> settledOnce (updateResolvedDeferred f).
Proof.
  unfold settledOnce, firedOnce, updateResolvedDeferred.
  intros Hf.
  destruct (_isSettled f) eqn:Hs; simpl.
  - destruct (settled (_resolvedDeferred f)) eqn:Hd; simpl.
    + rewrite Hs, Hd. split; [exact Hf | reflexivity].
    + destruct (settlements (_resolvedDeferred f)) as [|[|e] [|]] eqn:Hc;
        try (destruct Hf; congruence); try contradiction.
      destruct (_errors f) as [|e es] eqn:He; simpl; rewrite Hc; simpl.
      * unfold _isSettled in *. simpl. rewrite He in *. simpl in *.
        apply andb_true_iff in Hs. destruct Hs as [Hr Hm].
        rewrite Hr. split; [| now rewrite Hm].
        split; [reflexivity | split; [reflexivity |]].
        unfold hasItems in Hm. apply negb_true_iff, negb_false_iff in Hm.
        apply Nat.eqb_eq in Hm.
        now destruct (_pendingDependencyMap f).
      * unfold _isSettled in *. simpl. rewrite He in *. simpl in *.
        auto.
  - rewrite Hs. split; [exact Hf|].
    destruct (settlements (_resolvedDeferred f)) as [|[|e] [|]] eqn:Hc;
      try contradiction; auto.
    + destruct Hf as (_ & Hr & Hm). unfold _isSettled in Hs.
      rewrite Hr, Hm in Hs. simpl in Hs. rewrite orb_true_r in Hs.
      discriminate.
    + destruct Hf as (_ & He). unfold _isSettled in Hs.
      destruct (_errors f); [discriminate | discriminate].
Qed.

Lemma settledOnce_firedOnce f : settledOnce f -> firedOnce f.
Proof. now intros [H _]. Qed.

Lemma firedOnce_setErrors f error :
  firedOnce f -> firedOnce (setErrors f (_errors f ++ [error])).
Proof.
  unfold firedOnce. simpl.
  destruct (settlements (_resolvedDeferred f)) as [|[|e] [|]]; auto.
  intros [H1 H2]. split; [assumption|].
  destruct (_errors f); [discriminate | exact H2].
Qed.

Lemma firedOnce_deleteDependency f queryID :
  firedOnce f ->
  firedOnce (setPendingDependencyMap f
               (assocDelete queryID (_pendingDependencyMap f))).
Proof.
  unfold firedOnce. simpl.
  destruct (settlements (_resolvedDeferred f)) as [|[|e] [|]]; auto.
  intros (H1 & H2 & H3). rewrite H3. auto.
Qed.

Lemma firedOnce_setResolved f :
  firedOnce f -> firedOnce (setResolvedSubtractedQuery f true).
Proof.
  unfold firedOnce. simpl.
  destruct (settlements (_resolvedDeferred f)) as [|[|e] [|]]; auto.
  intros (H1 & H2 & H3). auto.
Qed.

Lemma updateNth_updateNth {A} n (g1 g2 : A -> A) l :
  updateNth n g2 (updateNth n g1 l) = updateNth n (fun a => g2 (g1 a)) l.
Proof.
  revert n. induction l as [|a l IH]; intros [|n]; simpl; auto.
  now rewrite IH.
Qed.

Lemma allFetches_updateFetch_at (P : PendingFetch -> Prop) this g st :
  (forall f, nth_error (fetches st) this = Some f -> P f -> P (g f)) ->
  allFetches P st -> allFetches P (updateFetch this g st).
Proof.
  intros Hg Hall n f. unfold updateFetch. simpl.
  rewrite nth_error_updateNth.
  destruct (Nat.eqb_spec n this) as [-> | Hn].
  - destruct (nth_error (fetches st) this) as [f0|] eqn:Hf0; [|discriminate].
    intros Hf. injection Hf as <-. eauto.
  - apply Hall.
Qed.

Lemma allFetches_same_fetches (P : PendingFetch -> Prop) st st' :
  fetches st' = fetches st -> allFetches P st -> allFetches P st'.
Proof. unfold allFetches. intros ->. auto. Qed.

Lemma settledOnce_unsettled f : unsettled f -> settledOnce f.
Proof.
  intros (Hd & Hr & He). unfold settledOnce, firedOnce, _isSettled.
  rewrite Hd, Hr, He. simpl. auto.
Qed.

Lemma settledOnce_mark_dependency_resolved st this queryID :
  allFetches settledOnce st ->
  allFetches settledOnce (_markDependencyAsResolved this queryID st).
Proof.
  intros H. unfold _markDependencyAsResolved, _updateResolvedDeferred.
  unfold updateFetch at 1. simpl. rewrite updateNth_updateNth.
  apply (allFetches_updateFetch settledOnce this _ st); [| exact H].
  intros f Hf. apply firedOnce_updateResolvedDeferred.
  apply firedOnce_deleteDependency. now apply settledOnce_firedOnce.
Qed.

Lemma settledOnce_mark_dependency_rejected st this queryID error :
  allFetches settledOnce st ->
  allFetches settledOnce (_markDependencyAsRejected this queryID error st).
Proof.
  intros H. unfold _markDependencyAsRejected, _updateResolvedDeferred.
  unfold updateFetch at 1 2. simpl. rewrite !updateNth_updateNth.
  apply (allFetches_updateFetch settledOnce this _ st); [| exact H].
  intros f Hf. apply firedOnce_updateResolvedDeferred.
  apply (firedOnce_setErrors
           (setPendingDependencyMap f
              (assocDelete queryID (_pendingDependencyMap f)))).
  apply firedOnce_deleteDependency. now apply settledOnce_firedOnce.
Qed.

Lemma allFetches_forEachDependent (P : PendingFetch -> Prop) this callback st :
  (forall d st0, allFetches P st0 -> allFetches P (callback d st0)) ->
  allFetches P st -> allFetches P (forEachDependent this callback st).
Proof.
  intros Hc H. unfold forEachDependent.
  destruct (nth_error (fetches st) this) as [f|]; [| exact H].
  revert st H. induction (_dependents f) as [|d ds IH]; intros st H; simpl;
    auto.
Qed.

Lemma fetches_deletePending this st :
  fetches (deletePending this st) = fetches st.
Proof.
  unfold deletePending. now destruct (nth_error (fetches st) this).
Qed.

Lemma settledOnce_mark_resolved st this :
  allFetches settledOnce st ->
  allFetches settledOnce (_markSubtractedQueryAsResolved this st).
Proof.
  intros H. unfold _markSubtractedQueryAsResolved.
  apply allFetches_forEachDependent;
    [intros; now apply settledOnce_mark_dependency_resolved|].
  unfold _updateResolvedDeferred.
  unfold updateFetch at 1. simpl. rewrite updateNth_updateNth.
  apply (allFetches_updateFetch settledOnce this _ (deletePending this st)).
  - intros f Hf. apply firedOnce_updateResolvedDeferred.
    apply firedOnce_setResolved. now apply settledOnce_firedOnce.
  - eapply allFetches_same_fetches; [apply fetches_deletePending | exact H].
Qed.

Lemma settledOnce_mark_rejected st this error :
  allFetches settledOnce st ->
  allFetches settledOnce (_markAsRejected this error st).
Proof.
  intros H. unfold _markAsRejected.
  apply allFetches_forEachDependent;
    [intros; now apply settledOnce_mark_dependency_rejected|].
  unfold _updateResolvedDeferred.
  unfold updateFetch at 1. simpl. rewrite updateNth_updateNth.
  apply (allFetches_updateFetch settledOnce this _
           (warn error (deletePending this st))).
  - intros f Hf. apply firedOnce_updateResolvedDeferred.
    apply firedOnce_setErrors. now apply settledOnce_firedOnce.
  - eapply allFetches_same_fetches; [| exact H].
    simpl. apply fetches_deletePending.
Qed.

Lemma settledOnce_handle_success st this sq result :
  allFetches settledOnce st ->
  allFetches settledOnce (_handleSubtractedQuerySuccess this sq result st).
Proof.
  intros H. unfold _handleSubtractedQuerySuccess.
  eapply allFetches_same_fetches with
    (st := updateFetch this (fun f => setFetchedSubtractedQuery f true) st);
    [reflexivity|].
  apply allFetches_updateFetch; [| exact H]. intros f Hf. exact Hf.
Qed.

Lemma settledOnce_setAwaiting st this a :
  allFetches settledOnce st ->
  allFetches settledOnce (updateFetch this (fun f => setAwaiting f a) st).
Proof.
  intros H. apply allFetches_updateFetch; [| exact H]. intros f Hf. exact Hf.
Qed.

(** ** The construction of a pending fetch *)

Lemma unsettled_fields f f' :
  _resolvedDeferred f' = _resolvedDeferred f ->
  _resolvedSubtractedQuery f' = _resolvedSubtractedQuery f ->
  _errors f' = _errors f -> unsettled f -> unsettled f'.
Proof. unfold unsettled. intros -> -> ->. auto. Qed.

Lemma underConstruction_updateFetch this n g st :
  (forall f, _resolvedDeferred (g f) = _resolvedDeferred f /\
             _resolvedSubtractedQuery (g f) = _resolvedSubtractedQuery f /\
             _errors (g f) = _errors f /\
             (n <> this -> _pendingDependencyMap (g f) = _pendingDependencyMap f)) ->
  underConstruction this st -> underConstruction this (updateFetch n g st).
Proof.
  intros Hg [Hall (f & Hf & Hu)].
  assert (Hthis : exists f', nth_error (fetches (updateFetch n g st)) this
                             = Some f' /\ unsettled f').
  { unfold updateFetch. simpl. rewrite nth_error_updateNth.
    destruct (this =? n); rewrite Hf; simpl; eauto.
    exists (g f). split; [reflexivity|].
    destruct (Hg f) as (H1 & H2 & H3 & _).
    eapply unsettled_fields; eauto. }
  split; [| exact Hthis].
  intros m f' Hm.
  destruct (Nat.eq_dec m this) as [-> | Hne].
  - destruct Hthis as (f'' & Hf'' & Hu''). rewrite Hf'' in Hm.
    injection Hm as <-. now apply settledOnce_unsettled.
  - revert Hm. unfold updateFetch. simpl. rewrite nth_error_updateNth.
    destruct (Nat.eqb_spec m n) as [-> | Hmn]; [| apply Hall].
    destruct (nth_error (fetches st) n) as [f0|] eqn:Hf0; [|discriminate].
    intros Hm. injection Hm as <-.
    destruct (Hg f0) as (H1 & H2 & H3 & H4).
    specialize (Hall n f0 Hf0).
    unfold settledOnce, firedOnce, _isSettled in *.
    rewrite H1, H2, H3, H4 by congruence. exact Hall.
Qed.

Lemma underConstruction_addPendingDependency this pendingFetch st :
  underConstruction this st ->
  underConstruction this (_addPendingDependency this pendingFetch st).
Proof.
  intros H. unfold _addPendingDependency, _addDependent.
  apply underConstruction_updateFetch; [intros f; simpl; auto|].
  apply underConstruction_updateFetch; [| exact H].
  intros f; simpl. repeat split; auto. intros Hne. congruence.
Qed.

Lemma underConstruction_same_fetches this st st' :
  fetches st' = fetches st ->
  underConstruction this st -> underConstruction this st'.
Proof. unfold underConstruction. intros ->. auto. Qed.

Section TrackerProperties.

Variable containsRelayQueryRootCall : Node -> Node -> bool.
Variable handleQueryPayload : Node -> nat -> option nat -> option Error.

Lemma underConstruction_subtractPendingFrom entries this q st q' st' :
  underConstruction this st ->
  subtractPendingFrom containsRelayQueryRootCall entries this q st
  = Ok (q', st') ->
  underConstruction this st'.
Proof.
  revert q st. induction entries as [|[k pending] rest IH]; intros q st H;
    simpl.
  - intros Heq. injection Heq as <- <-. exact H.
  - destruct q as [q0|]; [| intros Heq; injection Heq as <- <-; exact H].
    destruct (containsRelayQueryRootCall (query pending) q0);
      [| now apply IH].
    destruct (subtractRelayQuery q0 (query pending) (nextRef st))
      as [subtractedQuery next' | |]; try discriminate.
    destruct (negb (sameQuery subtractedQuery q0)).
    + apply IH. apply underConstruction_addPendingDependency.
      eapply underConstruction_same_fetches; [| exact H]. reflexivity.
    + apply IH. eapply underConstruction_same_fetches; [| exact H].
      reflexivity.
Qed.

Lemma nth_error_snoc {A} (l : list A) x n a :
  nth_error (l ++ [x]) n = Some a ->
  nth_error l n = Some a \/ (n = List.length l /\ a = x).
Proof.
  intros H. destruct (Nat.lt_ge_cases n (List.length l)) as [Hlt | Hge].
  - left. now rewrite nth_error_app1 in H.
  - right. rewrite nth_error_app2 in H by assumption.
    destruct (n - List.length l) as [|k] eqn:Hk; simpl in H.
    + injection H as <-. split; [lia | reflexivity].
    + now destruct k.
Qed.

Lemma settledOnce_newPendingFetch fetchMode forceIndex q st this st' :
  allFetches settledOnce st ->
  newPendingFetch containsRelayQueryRootCall fetchMode forceIndex q st
  = Ok (this, st') ->
  allFetches settledOnce st'.
Proof.
  intros Hall. unfold newPendingFetch, allocatePendingFetch.
  set (new := {| _dependents := []; _forceIndex := forceIndex;
                 _pendingDependencyMap := [];
                 _pendingFetchMap := pendingFetchMap st; _query := q;
                 _resolvedDeferred := newDeferred;
                 _resolvedSubtractedQuery := false;
                 _fetchedSubtractedQuery := false;
                 _errors := []; awaiting := None |}).
  set (st0 := setFetches st (fetches st ++ [new])).
  set (me := List.length (fetches st)).
  assert (H0 : underConstruction me st0).
  { split.
    - intros n f Hn. simpl in Hn. apply nth_error_snoc in Hn.
      destruct Hn as [Hn | [_ ->]]; [eapply Hall; eauto|].
      apply settledOnce_unsettled. repeat split.
    - exists new. split; [| repeat split].
      simpl. unfold me. now rewrite nth_error_app2, Nat.sub_diag by lia. }
  assert (Hfinish : forall subtractedQuery st1,
            underConstruction me st1 ->
            Ok (me, finishPendingFetch me (getID q) subtractedQuery st1)
            = Ok (this, st') ->
            allFetches settledOnce st').
  { intros subtractedQuery st1 H1.
    assert (Hset : forall b,
              underConstruction me
                (updateFetch me
                   (fun f => setErrors (setFetchedSubtractedQuery f b) [])
                   st1)).
    { intros b. destruct H1 as [Hall1 (f & Hf & Hu)].
      assert (Hthis : nth_error
                        (fetches
                           (updateFetch me
                              (fun f => setErrors
                                          (setFetchedSubtractedQuery f b) [])
                              st1)) me
                      = Some (setErrors (setFetchedSubtractedQuery f b) [])).
      { unfold updateFetch. simpl.
        now rewrite nth_error_updateNth_same, Hf. }
      assert (Hu' : unsettled (setErrors (setFetchedSubtractedQuery f b) [])).
      { destruct Hu as (Hd & Hr & He). repeat split; assumption. }
      split; [| eauto].
      intros n f' Hn. destruct (Nat.eq_dec n me) as [-> | Hne].
      - rewrite Hthis in Hn. injection Hn as <-.
        now apply settledOnce_unsettled.
      - unfold updateFetch in Hn. simpl in Hn.
        rewrite nth_error_updateNth_other in Hn by assumption. eauto. }
    unfold finishPendingFetch.
    destruct subtractedQuery as [sq|]; intros Heq; injection Heq as <- <-.
    - apply settledOnce_setAwaiting.
      eapply allFetches_same_fetches; [| exact (proj1 (Hset false))].
      reflexivity.
    - apply settledOnce_mark_resolved. exact (proj1 (Hset true)). }
  destruct fetchMode.
  - destruct (_subtractPending containsRelayQueryRootCall me q st0)
      as [[[sq|] st1] | msg] eqn:Hsub; try discriminate.
    + apply (Hfinish (Some sq) (fetchRelayQuery sq st1)).
      eapply underConstruction_same_fetches with (st := st1); [reflexivity|].
      unfold _subtractPending in Hsub.
      destruct (nth_error (fetches st0) me);
        [| injection Hsub as <- <-; exact H0].
      eapply underConstruction_subtractPendingFrom; eauto.
    + apply (Hfinish None st1).
      unfold _subtractPending in Hsub.
      destruct (nth_error (fetches st0) me); [| discriminate].
      eapply underConstruction_subtractPendingFrom; eauto.
  - apply (Hfinish (Some q) (preloadGet (getID q) st0)).
    eapply underConstruction_same_fetches with (st := st0); [reflexivity|].
    exact H0.
  - destruct (_subtractPending containsRelayQueryRootCall me q st0)
      as [[[sq|] st1] | msg] eqn:Hsub; try discriminate.
    + apply (Hfinish (Some sq) (fetchRelayQuery sq st1)).
      eapply underConstruction_same_fetches with (st := st1); [reflexivity|].
      unfold _subtractPending in Hsub.
      destruct (nth_error (fetches st0) me);
        [| injection Hsub as <- <-; exact H0].
      eapply underConstruction_subtractPendingFrom; eauto.
    + apply (Hfinish None st1).
      unfold _subtractPending in Hsub.
      destruct (nth_error (fetches st0) me); [| discriminate].
      eapply underConstruction_subtractPendingFrom; eauto.
Qed.

Lemma settledOnce_step st st' :
  step containsRelayQueryRootCall handleQueryPayload st st' ->
  allFetches settledOnce st -> allFetches settledOnce st'.
Proof.
  intros Hstep Hall. destruct Hstep.
  - eapply settledOnce_newPendingFetch; eauto.
  - exact Hall.
  - apply settledOnce_handle_success. now apply settledOnce_setAwaiting.
  - apply settledOnce_mark_rejected. now apply settledOnce_setAwaiting.
  - unfold runTask.
    assert (Hts : allFetches settledOnce (setTasks st ts)) by exact Hall.
    destruct (taskResponse t); [| now apply settledOnce_mark_rejected].
    destruct (handleQueryPayload _ _ _).
    + apply settledOnce_mark_rejected. exact Hts.
    + apply settledOnce_mark_resolved. exact Hts.
Qed.

Lemma settledOnce_reachable next st :
  reachable containsRelayQueryRootCall handleQueryPayload next st ->
  allFetches settledOnce st.
Proof.
  induction 1 as [| st st' _ IH Hstep].
  - intros n f Hn. now destruct n.
  - eapply settledOnce_step; eauto.
Qed.

(** C3.  In every state that the tracker reaches, the future of every
    pending fetch fired at most once, and it has fired exactly when the
    fetch is settled: an error is recorded, or its own subtracted query is
    resolved and no dependency is pending.  A resolution means the second;
    a rejection carries the first recorded error.  An error recorded on a
    fetch whose future did not fire rejects it with that error at once; an
    error recorded later is appended and leaves the future as it is. *)
Theorem future_settles_once next st n f :
  reachable containsRelayQueryRootCall handleQueryPayload next st ->
  nth_error (fetches st) n = Some f ->
  settledOnce f /\
  (forall error,
     let f' := updateResolvedDeferred (setErrors f (_errors f ++ [error])) in
     _errors f' = _errors f ++ [error] /\
     match settlements (_resolvedDeferred f) with
     | [] => settlements (_resolvedDeferred f') = [Rejected error]
     | _ => _resolvedDeferred f' = _resolvedDeferred f
     end).
Proof.
  intros Hreach Hn.
  pose proof (settledOnce_reachable next st Hreach n f Hn) as Hf.
  split; [exact Hf|].
  intros error f'. subst f'.
  destruct Hf as [Hfired Hsettled].
  unfold firedOnce in Hfired. unfold updateResolvedDeferred.
  destruct (settlements (_resolvedDeferred f)) as [|x xs] eqn:Hc.
  - rewrite Hfired in Hsettled. symmetry in Hsettled.
    unfold _isSettled in *. simpl.
    apply orb_false_iff in Hsettled. destruct Hsettled as [He _].
    destruct (_errors f) as [|e es] eqn:Herr; [| discriminate].
    simpl. rewrite Hfired. simpl. rewrite Hc. auto.
  - assert (Hs : settled (_resolvedDeferred f) = true).
    { destruct x as [|e]; destruct xs; try contradiction;
        now destruct Hfired. }
    simpl. rewrite Hs, andb_false_r. auto.
Qed.

(** ** What an operation leaves alone *)

Lemma besidesFetches_updateFetch this g st :
  besidesFetches (updateFetch this g st) = besidesFetches st.
Proof. reflexivity. Qed.

Lemma besidesFetches_forEachDependent this callback st :
  (forall d st0, besidesFetches (callback d st0) = besidesFetches st0) ->
  besidesFetches (forEachDependent this callback st) = besidesFetches st.
Proof.
  intros Hc. unfold forEachDependent.
  destruct (nth_error (fetches st) this) as [f|]; [| reflexivity].
  revert st. induction (_dependents f) as [|d ds IH]; intros st; simpl;
    [reflexivity|].
  now rewrite IH, Hc.
Qed.

Lemma besidesFetches_mark_resolved this st :
  besidesFetches (_markSubtractedQueryAsResolved this st)
  = besidesFetches (deletePending this st).
Proof.
  unfold _markSubtractedQueryAsResolved.
  rewrite besidesFetches_forEachDependent; reflexivity.
Qed.

Lemma besidesFetches_mark_rejected this error st :
  besidesFetches (_markAsRejected this error st)
  = besidesFetches (warn error (deletePending this st)).
Proof.
  unfold _markAsRejected.
  rewrite besidesFetches_forEachDependent; reflexivity.
Qed.

Lemma besidesFetches_fold_dependencies this deps st :
  besidesFetches
    (fold_left (fun st d => _addPendingDependency this d st) deps st)
  = besidesFetches st.
Proof.
  revert st. induction deps as [|d deps IH]; intros st; simpl;
    [reflexivity|].
  now rewrite IH.
Qed.

Lemma keepsField_updateFetch {X} (proj : PendingFetch -> X) this g :
  (forall f, proj (g f) = proj f) -> keepsField proj (updateFetch this g).
Proof.
  intros Hg st n. unfold updateFetch. simpl. rewrite nth_error_updateNth.
  destruct (n =? this); [| reflexivity].
  destruct (nth_error (fetches st) n); simpl; [now rewrite Hg | reflexivity].
Qed.

Lemma keepsField_compose {X} (proj : PendingFetch -> X) op1 op2 :
  keepsField proj op1 -> keepsField proj op2 ->
  keepsField proj (fun st => op2 (op1 st)).
Proof. intros H1 H2 st n. now rewrite H2, H1. Qed.

Lemma keepsField_same_fetches {X} (proj : PendingFetch -> X) op :
  (forall st, fetches (op st) = fetches st) -> keepsField proj op.
Proof. intros H st n. now rewrite H. Qed.

Lemma keepsField_forEachDependent {X} (proj : PendingFetch -> X) this
    callback :
  (forall d, keepsField proj (callback d)) ->
  keepsField proj (forEachDependent this callback).
Proof.
  intros Hc st n. unfold forEachDependent.
  destruct (nth_error (fetches st) this) as [f|]; [| reflexivity].
  revert st. induction (_dependents f) as [|d ds IH]; intros st; simpl;
    [reflexivity|].
  now rewrite IH, Hc.
Qed.

Lemma keepsField_mark_dependency_resolved {X} (proj : PendingFetch -> X)
    this queryID :
  (forall f m, proj (setPendingDependencyMap f m) = proj f) ->
  (forall f d, proj (setResolvedDeferred f d) = proj f) ->
  keepsField proj (_markDependencyAsResolved this queryID).
Proof.
  intros H1 H2. unfold _markDependencyAsResolved, _updateResolvedDeferred.
  apply (keepsField_compose proj (updateFetch this _) (updateFetch this _));
    apply keepsField_updateFetch; intros f; auto.
  unfold updateResolvedDeferred.
  destruct (_isSettled f && negb (settled (_resolvedDeferred f))); auto.
  destruct (_errors f); apply H2.
Qed.

Lemma updateResolvedDeferred_keeps {X} (proj : PendingFetch -> X) f :
  (forall f d, proj (setResolvedDeferred f d) = proj f) ->
  proj (updateResolvedDeferred f) = proj f.
Proof.
  intros H2. unfold updateResolvedDeferred.
  destruct (_isSettled f && negb (settled (_resolvedDeferred f))); auto.
  destruct (_errors f); apply H2.
Qed.

Lemma keepsField_updateResolvedDeferred {X} (proj : PendingFetch -> X) this :
  (forall f d, proj (setResolvedDeferred f d) = proj f) ->
  keepsField proj (_updateResolvedDeferred this).
Proof.
  intros H2. apply keepsField_updateFetch. intros f.
  now apply updateResolvedDeferred_keeps.
Qed.

Lemma keepsField_mark_dependency_rejected {X} (proj : PendingFetch -> X)
    this queryID error :
  (forall f m, proj (setPendingDependencyMap f m) = proj f) ->
  (forall f d, proj (setResolvedDeferred f d) = proj f) ->
  (forall f es, proj (setErrors f es) = proj f) ->
  keepsField proj (_markDependencyAsRejected this queryID error).
Proof.
  intros H1 H2 H3 st n. unfold _markDependencyAsRejected.
  rewrite keepsField_updateResolvedDeferred by assumption.
  rewrite !keepsField_updateFetch by (intros; auto). reflexivity.
Qed.

(** The fields that the resolution of a fetch leaves alone, in every
    pending fetch. *)
Lemma field_after_mark_resolved {X} (proj : PendingFetch -> X) this st n :
  (forall f m, proj (setPendingDependencyMap f m) = proj f) ->
  (forall f d, proj (setResolvedDeferred f d) = proj f) ->
  (forall f b, proj (setResolvedSubtractedQuery f b) = proj f) ->
  option_map proj
    (nth_error (fetches (_markSubtractedQueryAsResolved this st)) n)
  = option_map proj (nth_error (fetches st) n).
Proof.
  intros H1 H2 H3. unfold _markSubtractedQueryAsResolved.
  rewrite keepsField_forEachDependent
    by (intros; now apply keepsField_mark_dependency_resolved).
  rewrite keepsField_updateResolvedDeferred by assumption.
  rewrite keepsField_updateFetch by (intros; auto).
  now rewrite fetches_deletePending.
Qed.

Lemma field_after_mark_rejected {X} (proj : PendingFetch -> X) this error st n :
  (forall f m, proj (setPendingDependencyMap f m) = proj f) ->
  (forall f d, proj (setResolvedDeferred f d) = proj f) ->
  (forall f es, proj (setErrors f es) = proj f) ->
  option_map proj (nth_error (fetches (_markAsRejected this error st)) n)
  = option_map proj (nth_error (fetches st) n).
Proof.
  intros H1 H2 H3. unfold _markAsRejected.
  rewrite keepsField_forEachDependent
    by (intros; now apply keepsField_mark_dependency_rejected).
  rewrite keepsField_updateResolvedDeferred by assumption.
  rewrite keepsField_updateFetch by (intros; auto).
  simpl. now rewrite fetches_deletePending.
Qed.

(** Once its own query is marked as resolved, a fetch stays so. *)
Lemma resolved_after_mark_resolved this st f :
  nth_error (fetches st) this = Some f ->
  option_map _resolvedSubtractedQuery
    (nth_error (fetches (_markSubtractedQueryAsResolved this st)) this)
  = Some true.
Proof.
  intros Hf. unfold _markSubtractedQueryAsResolved.
  rewrite keepsField_forEachDependent
    by (intros; now apply keepsField_mark_dependency_resolved).
  rewrite keepsField_updateResolvedDeferred by reflexivity.
  unfold updateFetch. simpl.
  rewrite nth_error_updateNth_same, fetches_deletePending, Hf. reflexivity.
Qed.

(** ** The subtraction of the pending queries *)

Lemma setNextRef_same st : setNextRef st (nextRef st) = st.
Proof. now destruct st. Qed.

Lemma fold_dependencies_setNextRef this deps st next :
  fold_left (fun st d => _addPendingDependency this d st) deps
    (setNextRef st next)
  = setNextRef
      (fold_left (fun st d => _addPendingDependency this d st) deps st) next.
Proof.
  revert st. induction deps as [|d deps IH]; intros st; simpl;
    [reflexivity|].
  rewrite <- IH. reflexivity.
Qed.

Lemma nextRef_fold_dependencies this deps st :
  nextRef (fold_left (fun st d => _addPendingDependency this d st) deps st)
  = nextRef st.
Proof.
  pose proof (besidesFetches_fold_dependencies this deps st) as H.
  unfold besidesFetches in H. congruence.
Qed.

Lemma subtractPendingFrom_walk entries this q st q' st' :
  subtractPendingFrom containsRelayQueryRootCall entries this q st
  = Ok (q', st') ->
  exists deps,
    Walk containsRelayQueryRootCall entries q (nextRef st) q' (nextRef st')
      deps /\
    st' = fold_left (fun st d => _addPendingDependency this d st) deps
            (setNextRef st (nextRef st')).
Proof.
  revert q st. induction entries as [|[k pending] rest IH]; intros q st;
    simpl.
  - intros Heq. injection Heq as <- <-. exists []. split; [constructor|].
    simpl. now rewrite setNextRef_same.
  - destruct q as [q0|].
    2:{ intros Heq. injection Heq as <- <-. exists [].
        split; [constructor|]. simpl. now rewrite setNextRef_same. }
    destruct (containsRelayQueryRootCall (query pending) q0) eqn:Hc.
    2:{ intros Heq. destruct (IH _ _ Heq) as (deps & Hw & Hst).
        exists deps. split; [now apply Walk_skip | exact Hst]. }
    destruct (subtractRelayQuery q0 (query pending) (nextRef st))
      as [left next1 | |] eqn:Hsub; try discriminate.
    destruct (sameQuery left q0) eqn:Hsame; simpl negb; cbv iota.
    + intros Heq. destruct (IH _ _ Heq) as (deps & Hw & Hst).
      exists deps. split; [eapply Walk_unchanged; eauto | exact Hst].
    + intros Heq. destruct (IH _ _ Heq) as (deps & Hw & Hst).
      exists (fetch pending :: deps). split.
      * eapply Walk_removed; eauto.
      * etransitivity; [exact Hst | reflexivity].
Qed.

(** The edge that [_addPendingDependency] records: the dependency under
    the identifier of its query in the map of the fetch, the fetch among
    the dependents of the dependency. *)
Lemma _addPendingDependency_edge this pendingFetch st f d :
  this <> pendingFetch ->
  nth_error (fetches st) this = Some f ->
  nth_error (fetches st) pendingFetch = Some d ->
  nth_error (fetches (_addPendingDependency this pendingFetch st)) this
  = Some (setPendingDependencyMap f
            (assocSet (getID (_query d)) pendingFetch
               (_pendingDependencyMap f))) /\
  nth_error (fetches (_addPendingDependency this pendingFetch st)) pendingFetch
  = Some (setDependents d (_dependents d ++ [this])).
Proof.
  intros Hne Hf Hd. unfold _addPendingDependency, _addDependent, updateFetch.
  simpl. unfold queryIDOf. rewrite Hd. split.
  - rewrite nth_error_updateNth_other by assumption.
    now rewrite nth_error_updateNth_same, Hf.
  - rewrite nth_error_updateNth_same.
    rewrite nth_error_updateNth_other by congruence.
    now rewrite Hd.
Qed.

Lemma network_finishPendingFetch this queryID subtractedQuery st :
  network (finishPendingFetch this queryID subtractedQuery st) = network st.
Proof.
  unfold finishPendingFetch. destruct subtractedQuery; [reflexivity|].
  pose proof (besidesFetches_mark_resolved this
                (updateFetch this
                   (fun f => setErrors (setFetchedSubtractedQuery f true) [])
                   st)) as H.
  unfold besidesFetches in H.
  assert (Hn : network (_markSubtractedQueryAsResolved this
                          (updateFetch this
                             (fun f => setErrors
                                         (setFetchedSubtractedQuery f true)
                                         []) st))
               = network (deletePending this
                            (updateFetch this
                               (fun f => setErrors
                                           (setFetchedSubtractedQuery f true)
                                           []) st))) by congruence.
  rewrite Hn. unfold deletePending.
  destruct (nth_error _ this); reflexivity.
Qed.

Lemma keepsField_addPendingDependency {X} (proj : PendingFetch -> X)
    this d :
  (forall f m, proj (setPendingDependencyMap f m) = proj f) ->
  (forall f ds, proj (setDependents f ds) = proj f) ->
  keepsField proj (_addPendingDependency this d).
Proof.
  intros H1 H2 st n. unfold _addPendingDependency, _addDependent.
  rewrite !keepsField_updateFetch by (intros; auto). reflexivity.
Qed.

Lemma keepsField_fold_dependencies {X} (proj : PendingFetch -> X) this deps :
  (forall f m, proj (setPendingDependencyMap f m) = proj f) ->
  (forall f ds, proj (setDependents f ds) = proj f) ->
  keepsField proj
    (fun st => fold_left (fun st d => _addPendingDependency this d st) deps st).
Proof.
  intros H1 H2. induction deps as [|d deps IH]; intros st n; simpl;
    [reflexivity|].
  rewrite IH. now apply keepsField_addPendingDependency.
Qed.


(** ** The registry *)

Lemma nth_updateNth_same {A} n (g : A -> A) l d :
  n < List.length l -> nth n (updateNth n g l) d = g (nth n l d).
Proof.
  revert n. induction l as [|a l IH]; intros [|n] H; simpl in *;
    try lia; auto.
  apply IH. lia.
Qed.

Lemma nth_updateNth_other {A} n m (g : A -> A) l d :
  m <> n -> nth m (updateNth n g l) d = nth m l d.
Proof.
  revert n m. induction l as [|a l IH]; intros [|n] [|m] H; simpl;
    try congruence; auto.
Qed.

Lemma assocGet_assocSet {V} k (v : V) m : assocGet k (assocSet k v m) = Some v.
Proof.
  induction m as [|[k' v'] m IH]; simpl.
  - now rewrite Nat.eqb_refl.
  - destruct (k' =? k) eqn:Hk; simpl.
    + now rewrite Nat.eqb_refl.
    + now rewrite Hk.
Qed.

Lemma assocGet_assocDelete {V} k (m : list (nat * V)) :
  assocGet k (assocDelete k m) = None.
Proof.
  induction m as [|[k' v'] m IH]; simpl; [reflexivity|].
  destruct (k' =? k) eqn:Hk; simpl; [assumption|]. now rewrite Hk.
Qed.

Lemma hasItems_assocSet {V} k (v : V) m : hasItems (assocSet k v m) = true.
Proof.
  unfold hasItems. destruct m as [|[k' v'] m]; simpl; [reflexivity|].
  now destruct (k' =? k).
Qed.

Lemma registries_mark_resolved this st :
  registries (_markSubtractedQueryAsResolved this st)
  = registries (deletePending this st).
Proof.
  pose proof (besidesFetches_mark_resolved this st) as H.
  unfold besidesFetches in H. congruence.
Qed.

Lemma registries_mark_rejected this error st :
  registries (_markAsRejected this error st)
  = registries (deletePending this st).
Proof.
  pose proof (besidesFetches_mark_rejected this error st) as H.
  unfold besidesFetches in H. simpl in H. congruence.
Qed.

Lemma applied_mark_resolved this st :
  applied (_markSubtractedQueryAsResolved this st) = applied st.
Proof.
  pose proof (besidesFetches_mark_resolved this st) as H.
  unfold besidesFetches in H.
  assert (Ha : applied (_markSubtractedQueryAsResolved this st)
               = applied (deletePending this st)) by congruence.
  rewrite Ha. unfold deletePending. now destruct (nth_error _ this).
Qed.

Lemma applied_mark_rejected this error st :
  applied (_markAsRejected this error st) = applied st.
Proof.
  pose proof (besidesFetches_mark_rejected this error st) as H.
  unfold besidesFetches in H.
  assert (Ha : applied (_markAsRejected this error st)
               = applied (warn error (deletePending this st))) by congruence.
  rewrite Ha. simpl. unfold deletePending. now destruct (nth_error _ this).
Qed.

(** A fetch that settles its own query is no longer in its registry. *)
Lemma deletePending_removes this st f :
  nth_error (fetches st) this = Some f ->
  _pendingFetchMap f < List.length (registries st) ->
  assocGet (getID (_query f))
    (nth (_pendingFetchMap f) (registries (deletePending this st)) [])
  = None.
Proof.
  intros Hf Hlt. unfold deletePending. rewrite Hf. simpl.
  rewrite nth_updateNth_same by assumption. apply assocGet_assocDelete.
Qed.

(** The task of a fetch hands the payload to the store. *)
Lemma runTask_applies this sq payload st :
  applied (runTask handleQueryPayload
             {| taskFetch := this; taskQuery := sq;
                taskResponse := RObject payload |} st)
  = applied st
    ++ [(sq, payload,
         match nth_error (fetches st) this with
         | Some f => _forceIndex f
         | None => None
         end)].
Proof.
  unfold runTask. simpl.
  destruct (handleQueryPayload sq payload _).
  - now rewrite applied_mark_rejected.
  - now rewrite applied_mark_resolved.
Qed.

(** C6.  [resetPending] gives the tracker a new, empty registry, so that no
    query is pending, and changes nothing else: the pending fetches, with
    their queries, dependencies, errors and futures, the registries they
    were created with, what was asked of the network and of the store.  A
    fetch in flight is still in flight: when its promise is fulfilled after
    the reset its task is enqueued, and the task hands the payload to the
    store. *)
Theorem resetPending_forgets_tracking st :
  hasPendingQueries (resetPending st) = false /\
  fetches (resetPending st) = fetches st /\
  (forall m, m < List.length (registries st) ->
     getRegistry m (resetPending st) = getRegistry m st) /\
  (network (resetPending st), preloads (resetPending st),
   tasks (resetPending st), applied (resetPending st),
   warnings (resetPending st), nextRef (resetPending st))
  = (network st, preloads st, tasks st, applied st, warnings st, nextRef st) /\
  (forall this f sq payload,
     nth_error (fetches st) this = Some f -> awaiting f = Some sq ->
     let task := {| taskFetch := this; taskQuery := sq;
                    taskResponse := RObject payload |} in
     let st1 := _handleSubtractedQuerySuccess this sq (RObject payload)
                  (updateFetch this (fun f => setAwaiting f None)
                     (resetPending st)) in
     step containsRelayQueryRootCall handleQueryPayload (resetPending st) st1 /\
     tasks st1 = tasks st ++ [task] /\
     (tasks st = [] ->
      step containsRelayQueryRootCall handleQueryPayload st1
        (runTask handleQueryPayload task (setTasks st1 [])) /\
      applied (runTask handleQueryPayload task (setTasks st1 []))
      = applied st ++ [(sq, payload, _forceIndex f)])).
Proof.
  split; [| split; [reflexivity | split; [| split; [reflexivity |]]]].
  - unfold hasPendingQueries, getRegistry, resetPending. simpl.
    rewrite app_nth2, Nat.sub_diag by lia. reflexivity.
  - intros m Hm. unfold getRegistry, resetPending. simpl.
    now rewrite app_nth1.
  - intros this f sq payload Hf Ha task st1.
    split; [| split].
    + eapply step_fulfilled; eauto.
    + reflexivity.
    + intros Ht. split.
      * apply step_task. simpl. now rewrite Ht.
      * unfold task. rewrite runTask_applies. simpl.
        rewrite !nth_error_updateNth_same, Hf. reflexivity.
Qed.


End TrackerProperties.

(** ** Sample runs *)

Lemma sampleTracker_reachable :
  reachable sampleOverlaps sampleStore 10 sampleTracker.
Proof.
  eapply reachable_step; [apply reachable_new|].
  eapply step_add with (fetchMode := CLIENT) (forceIndex := None)
                       (q := sampleQuery) (this := 0); reflexivity.
Defined.

Lemma future_settles_once_witness :
  reachable sampleOverlaps sampleStore 10 sampleTracker /\
  nth_error (fetches sampleTracker) 0 = Some sampleFetch /\
  settledOnce sampleFetch /\
  (forall error,
     let f' := updateResolvedDeferred
                 (setErrors sampleFetch (_errors sampleFetch ++ [error])) in
     _errors f' = _errors sampleFetch ++ [error] /\
     match settlements (_resolvedDeferred sampleFetch) with
     | [] => settlements (_resolvedDeferred f') = [Rejected error]
     | _ => _resolvedDeferred f' = _resolvedDeferred sampleFetch
     end).
Proof.
  split; [exact sampleTracker_reachable | split; [reflexivity |]].
  exact (future_settles_once sampleOverlaps sampleStore 10 sampleTracker 0
           sampleFetch sampleTracker_reachable eq_refl).
Defined.

Example second_fetch_waits_for_first :
  network sampleTracker' = [sampleQuery;
                            Root 10 "user" (Some (mkCall "id" (VNum (Integer 1))))
                              [scalarField 5 "email" false]] /\
  option_map _pendingDependencyMap (nth_error (fetches sampleTracker') 1)
  = Some [(0, 0)] /\
  option_map _dependents (nth_error (fetches sampleTracker') 0) = Some [1].
Proof. repeat split. Qed.



(** * Further properties of the subtraction *)

(** ** The order of ranges *)

Lemma argCovers_trans a b c : argCovers a b -> argCovers b c -> argCovers a c.
Proof.
  unfold argCovers. intros [Hab H1] [Hbc H2]. split; [congruence|].
  rewrite <- Hab in H2.
  destruct (isCount (name a)).
  - eapply atMost_trans; eauto.
  - congruence.
Qed.

Lemma Forall2_trans {A} (R : A -> A -> Prop) l1 l2 l3 :
  (forall a b c, R a b -> R b c -> R a c) ->
  Forall2 R l1 l2 -> Forall2 R l2 l3 -> Forall2 R l1 l3.
Proof.
  intros HR H12. revert l3.
  induction H12 as [|a b l1 l2 Hab _ IH]; intros l3 H23;
    inversion H23; subst; constructor; eauto.
Qed.

Lemma Forall2_diag {A} (R : A -> A -> Prop) l :
  Forall2 R l l <-> forall a, In a l -> R a a.
Proof.
  induction l as [|a l IH]; split.
  - intros _ x [].
  - constructor.
  - intros H x [<- | Hx]; inversion H; subst; auto. now apply IH.
  - intros H. constructor; [apply H; now left |].
    apply IH. intros x Hx. apply H. now right.
Qed.

Lemma argCovers_diag c : argCovers c c <-> readsAsNumber c.
Proof.
  unfold argCovers, readsAsNumber. split.
  - intros [_ H] Hc. rewrite Hc in H. now apply atMost_refl.
  - intros H. split; [reflexivity|].
    destruct (isCount (name c)); [| reflexivity].
    apply atMost_refl. now apply H.
Qed.

(** X1.  A field that covers a second one that covers a third one covers the
    third: [canSubtractField] is transitive. *)
Theorem canSubtractField_transitive a b c :
  canSubtractField a b = true -> canSubtractField b c = true ->
  canSubtractField a c = true.
Proof.
  rewrite !canSubtractField_covers. intros [Hab H1] [Hbc H2].
  split; [congruence|].
  eapply Forall2_trans; eauto using argCovers_trans.
Qed.

Lemma canSubtractField_transitive_witness :
  canSubtractField (firstRange "friends" 5) (firstRange "friends" 10) = true /\
  canSubtractField (firstRange "friends" 10) (firstRange "friends" 20) = true /\
  canSubtractField (firstRange "friends" 5) (firstRange "friends" 20) = true.
Proof.
  split; [reflexivity | split; [reflexivity |]].
  apply (canSubtractField_transitive (firstRange "friends" 5)
           (firstRange "friends" 10) (firstRange "friends" 20));
    reflexivity.
Defined.


(** ** What counts as empty *)

Lemma forallb_flat_map {A B} (p : B -> bool) (g : A -> list B) l :
  forallb p (flat_map g l) = forallb (fun a => forallb p (g a)) l.
Proof.
  induction l as [|a l IH]; simpl; [reflexivity|].
  now rewrite forallb_app, IH.
Qed.

Lemma forallb_Forall_eq {A} (p q : A -> bool) l :
  Forall (fun a => p a = q a) l -> forallb p l = forallb q l.
Proof. induction 1; simpl; congruence. Qed.

Lemma isEmptyField_leafNodes n :
  isEmptyField n = forallb isEmptyField (leafNodes n).
Proof.
  induction n as [n IH] using Node_nested_ind.
  assert (H : forallb isEmptyField (getChildren n)
              = forallb isEmptyField (flat_map leafNodes (getChildren n))).
  { rewrite forallb_flat_map. now apply forallb_Forall_eq. }
  destruct n as [r f a cs | r cs | r i cs]; simpl in *; auto.
  destruct (kind i) eqn:Hk; auto.
  simpl. rewrite Hk. now rewrite andb_true_r.
Qed.

Lemma leafNodes_scalar n c :
  In c (leafNodes n) -> canHaveSubselections c = false.
Proof.
  induction n as [n IH] using Node_nested_ind.
  assert (H : In c (flat_map leafNodes (getChildren n)) ->
              canHaveSubselections c = false).
  { rewrite in_flat_map. intros (x & Hx & Hc).
    rewrite Forall_forall in IH. eauto. }
  destruct n as [r f a cs | r cs | r i cs]; simpl in *; auto.
  destruct (kind i) eqn:Hk; auto.
  intros [<- | []]. simpl. now rewrite Hk.
Qed.

(** X3.  A tree is empty exactly when each scalar field in it, at any depth,
    is a bookkeeping field: requisite, no ref-query-dependency and not
    aliased.  A tree without a scalar field is empty, whatever else it holds. *)
Theorem isEmptyField_iff n :
  (isEmptyField n = true <-> forall c, In c (leafNodes n) -> bookkeeping c) /\
  (leafNodes n = [] -> isEmptyField n = true).
Proof.
  assert (Hleaf : forall c, In c (leafNodes n) ->
                    (isEmptyField c = true <-> bookkeeping c)).
  { intros c Hc. apply leafNodes_scalar in Hc.
    destruct c as [r f a cs | r cs | r i cs]; simpl in *; try discriminate.
    destruct (kind i); try discriminate.
    rewrite !andb_true_iff, negb_true_iff, String.eqb_eq. tauto. }
  split.
  - rewrite isEmptyField_leafNodes, forallb_forall.
    split; intros H c Hc; apply Hleaf; auto.
  - intros H. now rewrite isEmptyField_leafNodes, H.
Qed.

(** ** How a subtraction ends *)

Section ThrowLevel.

Variable v : Node -> State -> M (option Node * State).
Hypothesis Hv : forall c st next msg,
  v c st next = Throw msg ->
  msg = "subtractRelayQuery(): Cannot subtract a non-root node from a root.".

Lemma subtractEach_throw cs st next msg :
  subtractEach v cs st next = Throw msg ->
  msg = "subtractRelayQuery(): Cannot subtract a non-root node from a root.".
Proof.
  revert st next. induction cs as [|c cs IH]; intros st next; simpl.
  - discriminate.
  - unfold bind at 1.
    destruct (v c _ next) as [[d st1] next1 | m |] eqn:Hc;
      [| intros [= <-]; eauto | discriminate].
    unfold bind at 1.
    destruct (subtractEach v cs _ next1) as [[ds st2] next2 | m |] eqn:Hcs;
      [discriminate | intros [= <-]; eauto | discriminate].
Qed.

Lemma _subtractChildren_throw n st next msg :
  canHaveSubselections n = true ->
  _subtractChildren v n st next = Throw msg ->
  msg = "subtractRelayQuery(): Cannot subtract a non-root node from a root.".
Proof.
  intros Hsub. unfold _subtractChildren, bind.
  destruct (subtractEach v (getChildren n) st next)
    as [[ds st1] next1 | m |] eqn:Hcs;
    [| intros [= <-]; eapply subtractEach_throw; eauto | discriminate].
  cbn [fst snd].
  destruct (clone_cases n ds next1 Hsub)
    as [[-> _] | [[-> _] | (-> & _)]]; discriminate.
Qed.

Lemma _subtractChildren_kind n st next d st' next' :
  canHaveSubselections n = true ->
  _subtractChildren v n st next = Done (Some d, st') next' ->
  canHaveSubselections d = true.
Proof.
  intros Hsub. unfold _subtractChildren, bind.
  destruct (subtractEach v (getChildren n) st next)
    as [[ds st1] next1 | m |]; try discriminate.
  cbn [fst snd].
  destruct (clone_cases n ds next1 Hsub)
    as [[-> _] | [[-> _] | (-> & _)]]; unfold ret; intros [= <- _ _]; auto.
  now destruct n.
Qed.

Lemma subtractRanges_throw ranges diff st next msg :
  canHaveSubselections diff = true ->
  subtractRanges v ranges diff st next = Throw msg ->
  msg = "subtractRelayQuery(): Cannot subtract a non-root node from a root.".
Proof.
  revert diff st next.
  induction ranges as [|range rest IH]; intros diff st next Hsub; simpl.
  - discriminate.
  - unfold bind at 1.
    destruct (_subtractChildren v diff _ next)
      as [[[d|] st1] next1 | m |] eqn:Hd; cbn [fst snd].
    + apply IH. eapply _subtractChildren_kind; eauto.
    + discriminate.
    + intros [= <-]. eapply _subtractChildren_throw; eauto.
    + discriminate.
Qed.

End ThrowLevel.

Lemma visit_throw fuel n st next msg :
  visit fuel n st next = Throw msg ->
  msg = "subtractRelayQuery(): Cannot subtract a non-root node from a root.".
Proof.
  revert n st next msg.
  induction fuel as [|fuel IH]; intros n st next msg; [discriminate|].
  rewrite visit_S. destruct n as [r f a cs | r cs | r info cs].
  - unfold visitRoot, bind, invariant.
    destruct (isRoot (subtrahend st)); [| now intros [= <-]].
    destruct (negb (canSubtractRoot (Root r f a cs) (subtrahend st)));
      [discriminate|].
    now apply (_subtractChildren_throw (visit fuel) IH).
  - unfold visitFragment.
    now apply (_subtractChildren_throw (visit fuel) IH).
  - unfold visitField. unfold bind at 1.
    match goal with
    | |- match ?m next with _ => _ end = _ -> _ =>
        assert (Hm : forall msg0, m next = Throw msg0 ->
                  msg0 = "subtractRelayQuery(): Cannot subtract a non-root node from a root.");
        [| destruct (m next) as [[[d|] st1] next1 | m0 |]]
    end.
    + intros msg0.
      destruct (canHaveSubselections (Field r info cs)) eqn:Hsub; cbn [negb].
      * destruct (isConnection (Field r info cs)).
        -- unfold _subtractConnection.
           destruct (getMatchingRangeFields info (subtrahend st));
             [discriminate|].
           now apply (subtractRanges_throw (visit fuel) IH).
        -- unfold _subtractField.
           destruct (getField (subtrahend st) info); [| discriminate].
           unfold bind.
           destruct (_subtractChildren (visit fuel) (Field r info cs) _ next)
             as [[d st1] next1 | m |] eqn:Hd;
             [discriminate | intros [= <-] | discriminate].
           eapply (_subtractChildren_throw (visit fuel) IH); eauto.
      * unfold _subtractScalar.
        destruct (getField (subtrahend st) info);
          [destruct (negb (isRequisite (Field r info cs)))|]; discriminate.
    + cbn [fst snd].
      destruct (isRequisite d || negb (isEmpty st1)); discriminate.
    + discriminate.
    + intros [= <-]. auto.
    + discriminate.
Qed.

(** X4.  A subtraction returns or fails one of the two checks of
    [subtractRelayQuery]; [clone] never refuses the children it is given.
    What it returns is null or a root that is the minuend pruned, the minuend
    itself or a root allocated by the subtraction.  It fails for a non-root
    only where the minuend holds a root, and for a result that is no root only
    where the minuend is none. *)
Theorem subtractRelayQuery_outcome min sub next :
  (exists res next',
     subtractRelayQuery min sub next = Done res next' /\ next <= next' /\
     forall d, res = Some d ->
       isRoot d = true /\ Pruned d min /\
       (d = min \/ (next <= getRef d /\ getRef d < next'))) \/
  (subtractRelayQuery min sub next
   = Throw "subtractRelayQuery(): Cannot subtract a non-root node from a root."
   /\ (isRoot min = true \/ noRootBelow min = false)) \/
  (subtractRelayQuery min sub next
   = Throw "subtractRelayQuery(): Expected a subtracted query root."
   /\ isRoot min = false).
Proof.
  set (E := isRoot min = true \/ noRootBelow min = false).
  assert (Hok : okNode E min).
  { unfold okNode, E.
    destruct (isRoot min), (noRootBelow min); auto. }
  pose proof (visit_wp E (height min) min
                {| isEmpty := true; subtrahend := sub |} next Hok (le_n _))
    as Hw.
  pose proof (visit_none E (height min) min
                {| isEmpty := true; subtrahend := sub |} next Hok (le_n _)
                eq_refl) as Hnone.
  pose proof (visit_throw (height min) min
                {| isEmpty := true; subtrahend := sub |} next) as Ht.
  unfold subtractRelayQuery, bind. unfold wp in Hw, Hnone.
  destruct (visit (height min) min _ next) as [[d st] next' | msg |];
    [| right; left; split; [now rewrite (Ht msg eq_refl) | exact Hw]
     | contradiction].
  destruct Hw as (Hn & _ & Hd). cbn [fst snd] in *.
  destruct (isEmpty st) eqn:Hst; cbn [negb].
  - left. exists None, next'. unfold ret.
    split; [reflexivity | split; [exact Hn | discriminate]].
  - unfold invariant.
    destruct d as [d|]; [| discriminate (Hnone eq_refl)].
    destruct (Hd d eq_refl) as [Hp Hfresh].
    destruct (isRoot d) eqn:Hr.
    + left. exists (Some d), next'. unfold ret.
      split; [reflexivity | split; [exact Hn |]].
      intros d' [= <-]. auto.
    + right; right. split; [reflexivity|].
      now rewrite <- (Pruned_isRoot _ _ Hp).
Qed.

(** C9, as amended.  When the minuend is a root and the subtrahend is not,
    the subtraction fails with an invariant violation.  When the minuend is
    not a root, the subtraction never returns a tree: it fails with one of
    the two invariant violations, the first one only where the minuend
    holds a root, or it returns null.  When moreover the minuend holds no
    root and no two fields under a node of the subtrahend have one schema
    name, it returns null exactly when nothing that counts is left, every
    scalar field of the minuend being present in the subtrahend and not
    requisite, or requisite, unaliased and no ref-query-dependency; when
    something that counts is left, it fails for a result that is no
    root. *)
Theorem subtract_incompatible_pairing min sub next :
  isRoot min = false \/ isRoot sub = false ->
  (isRoot min = true ->
   subtractRelayQuery min sub next
   = Throw "subtractRelayQuery(): Cannot subtract a non-root node from a root.")
  /\
  (isRoot min = false ->
   (subtractRelayQuery min sub next
    = Throw "subtractRelayQuery(): Cannot subtract a non-root node from a root."
    /\ noRootBelow min = false) \/
   subtractRelayQuery min sub next
   = Throw "subtractRelayQuery(): Expected a subtracted query root." \/
   (exists next', subtractRelayQuery min sub next = Done None next'))
  /\
  (isRoot min = false -> noRootBelow min = true ->
   distinctBelow sub = true ->
   if countsEmpty (Some sub) min
   then exists next', subtractRelayQuery min sub next = Done None next'
   else subtractRelayQuery min sub next
        = Throw "subtractRelayQuery(): Expected a subtracted query root.").
Proof.
  intros Hpair. split; [| split].
  - intros Hmin. destruct Hpair as [Hpair | Hsub]; [congruence|].
    destruct min as [r f a cs | |]; try discriminate.
    unfold subtractRelayQuery. cbn [height visit].
    unfold visitRoot, bind, invariant. cbn [subtrahend]. now rewrite Hsub.
  - intros Hmin. clear Hpair.
    set (E := noRootBelow min = false).
    assert (Hok : okNode E min).
    { unfold okNode, E. destruct (noRootBelow min); auto. }
    pose proof (visit_wp E (height min) min
                  {| isEmpty := true; subtrahend := sub |} next Hok (le_n _))
      as Hv.
    pose proof (visit_throw (height min) min
                  {| isEmpty := true; subtrahend := sub |} next) as Ht.
    unfold subtractRelayQuery, bind. unfold wp in Hv.
    destruct (visit (height min) min _ next) as [[d st] next' | msg |];
      [| left; split; [now rewrite (Ht msg eq_refl) | exact Hv]
       | contradiction].
    destruct Hv as (_ & _ & Hd). cbn [fst snd] in *.
    destruct (isEmpty st); simpl negb; cbv iota;
      [right; right; now exists next'|].
    right; left. unfold invariant.
    destruct d as [d|]; [| reflexivity].
    destruct (Hd d eq_refl) as [Hp _].
    now rewrite (Pruned_isRoot _ _ Hp), Hmin.
  - intros Hmin Hbelow Hdistinct. clear Hpair.
    assert (Hok : okNode False min) by (right; auto).
    pose proof (visit_wp False (height min) min
                  {| isEmpty := true; subtrahend := sub |} next Hok (le_n _))
      as Hv.
    pose proof (visit_counts (height min) min sub
                  {| isEmpty := true; subtrahend := sub |} next Hok Hdistinct
                  eq_refl eq_refl (le_n _)) as Hc.
    unfold subtractRelayQuery, bind. unfold wp in Hv, Hc.
    destruct (visit (height min) min _ next) as [[d st] next' | msg |];
      try contradiction.
    destruct Hv as (_ & _ & Hd). destruct Hc as (He & _).
    cbn [fst snd] in *. rewrite He.
    destruct (countsEmpty (Some sub) min); simpl negb; cbv iota;
      [now exists next'|].
    unfold invariant.
    destruct d as [d|]; [| reflexivity].
    destruct (Hd d eq_refl) as [Hp _].
    now rewrite (Pruned_isRoot _ _ Hp), Hmin.
Qed.

Lemma subtract_incompatible_pairing_witness :
  let name := Field 1 (mkFieldInfo "name" "name" [] Scalar false false) [] in
  let email := Field 4 (mkFieldInfo "email" "email" [] Scalar false false) [] in
  let root := Root 0 "node" None [name] in
  let fragment := Fragment 2 [name; email] in
  (isRoot root = false \/ isRoot fragment = false) /\
  subtractRelayQuery root fragment 5
  = Throw "subtractRelayQuery(): Cannot subtract a non-root node from a root."
  /\
  (isRoot fragment = false \/ isRoot root = false) /\
  countsEmpty (Some root) fragment = false /\
  subtractRelayQuery fragment root 5
  = Throw "subtractRelayQuery(): Expected a subtracted query root.".
Proof.
  intros name email root fragment.
  assert (H : isRoot root = false \/ isRoot fragment = false)
    by (right; reflexivity).
  assert (H' : isRoot fragment = false \/ isRoot root = false)
    by (left; reflexivity).
  split; [exact H | split; [| split; [exact H' | split; [reflexivity |]]]].
  - exact (proj1 (subtract_incompatible_pairing root fragment 5 H) eq_refl).
  - exact (proj2 (proj2 (subtract_incompatible_pairing fragment root 5 H'))
             eq_refl eq_refl eq_refl).
Defined.

(** C9, as stated, fails: a fragment as minuend and a root as subtrahend
    are an incompatible pairing, and when the root has every field of the
    fragment the subtraction returns null without a violation. *)
Lemma subtract_fragment_from_root_counterexample :
  let name := Field 1 (mkFieldInfo "name" "name" [] Scalar false false) [] in
  let min := Fragment 0 [name] in
  let sub := Root 2 "node" None [name] in
  isRoot min = false /\ isRoot sub = true /\
  subtractRelayQuery min sub 3 = Done None 3 /\
  ~ (exists msg, subtractRelayQuery min sub 3 = Throw msg).
Proof.
  simpl. repeat split. intros [msg H]. discriminate.
Qed.

(** ** What is left is not empty *)

Lemma allocated_eq next n :
  allocated next n
  = (getRef n <? next) && forallb (allocated next) (getChildren n).
Proof. destruct n; reflexivity. Qed.

Lemma allocated_le next next' n :
  next <= next' -> allocated next n = true -> allocated next' n = true.
Proof.
  intros Hle. remember (height n) as h eqn:Hh.
  assert (Hh' : height n <= h) by lia. clear Hh.
  revert n Hh'. induction h as [|h IH]; intros n Hh Ha.
  - destruct n; simpl in Hh; lia.
  - rewrite allocated_eq in Ha |- *. apply andb_true_iff in Ha.
    destruct Ha as [Hr Hcs]. apply andb_true_iff. split.
    + apply Nat.ltb_lt in Hr. apply Nat.ltb_lt. lia.
    + rewrite forallb_forall in Hcs. apply forallb_forall. intros c Hc.
      apply IH; auto. apply height_children in Hc. lia.
Qed.

Lemma isEmptyField_children n :
  canHaveSubselections n = true ->
  isEmptyField n = forallb isEmptyField (getChildren n).
Proof.
  destruct n as [r f a cs | r cs | r i cs]; simpl; try reflexivity.
  now destruct (kind i).
Qed.

Lemma isEmptyField_withChildren r n cs :
  canHaveSubselections n = true ->
  isEmptyField (withChildren r n cs) = forallb isEmptyField cs.
Proof.
  destruct n as [r0 f a cs0 | r0 cs0 | r0 i cs0]; simpl; try reflexivity.
  now destruct (kind i).
Qed.

Lemma canHaveSubselections_Pruned d n :
  Pruned d n -> canHaveSubselections d = canHaveSubselections n.
Proof. intros Hp. inversion Hp; subst; auto. now destruct n. Qed.

Lemma keptOrNew_Embeds next cs ds :
  Forall2 (keptOrNew next) cs ds -> Embeds Pruned (somes ds) cs.
Proof.
  induction 1 as [|c d cs ds Hd Hrest IH]; simpl; [constructor|].
  destruct d as [d|].
  - apply Embeds_keep; [exact (proj1 (Hd d eq_refl)) | exact IH].
  - now apply Embeds_drop.
Qed.

Lemma keptOrNew_reused next cs ds :
  Forall2 (keptOrNew next) cs ds ->
  (forall c, In c cs -> getRef c < next) ->
  snd (cloneChildren cs ds) = true -> ds = map Some cs.
Proof.
  intros Hkept Halloc Hsame.
  destruct (cloneChildren_reused cs ds) as (ds' & -> & Hrefs); auto.
  { symmetry. eapply Forall2_length; eauto. }
  f_equal. clear Hsame.
  revert cs Hkept Halloc Hrefs.
  induction ds' as [|d ds' IH]; intros cs0 Hk Hal Hrefs.
  - inversion Hrefs. reflexivity.
  - destruct cs0 as [|y l']; [inversion Hrefs|].
    apply Forall2_cons_iff in Hrefs. destruct Hrefs as [Href Hrefs].
    simpl in Hk. apply Forall2_cons_iff in Hk. destruct Hk as [Hd Hk].
    destruct (Hd d eq_refl) as [_ [-> | Hfresh]].
    + f_equal. apply IH; auto. intros c Hc. apply Hal. now right.
    + unfold same_ref in Href. apply Nat.eqb_eq in Href.
      specialize (Hal y (in_eq _ _)). lia.
Qed.

Lemma childrenBelow_Pruned h d n :
  Pruned d n -> childrenBelow h n -> childrenBelow h d.
Proof.
  intros Hp Hn. inversion Hp as [| r n0 cs Hemb]; subst; [exact Hn|].
  intros c' Hc'. rewrite getChildren_withChildren in Hc'.
  destruct (Embeds_in _ _ _ _ Hemb Hc') as (c & Hc & Hpc).
  destruct (Hn c Hc) as (H1 & H2 & H3). split; [| split].
  - now rewrite (Pruned_isRoot _ _ Hpc).
  - eapply Pruned_noRootBelow; eauto.
  - apply Pruned_height in Hpc. lia.
Qed.

Section TellsLevel.

Variable v : Node -> State -> M (option Node * State).
Variable h : nat.
Hypothesis Hv : forall c st next,
  isRoot c = false -> noRootBelow c = true -> height c <= h ->
  allocated next c = true -> isEmpty st = true ->
  wp False (v c st) next (tellsPost c st next).

Lemma subtractEach_tells cs st next :
  (forall c, In c cs ->
     isRoot c = false /\ noRootBelow c = true /\ height c <= h) ->
  forallb (allocated next) cs = true ->
  wp False (subtractEach v cs st) next
    (fun rs next' =>
       next <= next' /\
       isEmpty (snd rs)
       = isEmpty st && forallb isEmptyField (somes (fst rs)) /\
       Forall2 (keptOrNew next) cs (fst rs) /\
       forallb (allocated next') (somes (fst rs)) = true).
Proof.
  revert st next. induction cs as [|c cs IH]; intros st next Hcs Hal; simpl.
  - apply wp_ret. simpl. rewrite andb_true_r.
    split; [lia | split; [reflexivity | split; [constructor | reflexivity]]].
  - apply wp_bind.
    destruct (Hcs c (in_eq _ _)) as (Hr & Hn & Hh).
    simpl in Hal. apply andb_true_iff in Hal. destruct Hal as [Hac Hacs].
    eapply wp_weaken; [| apply Hv; auto].
    intros [d st1] next1 ((Hn1 & _ & Hd) & Ht & Had). simpl in *.
    unfold tellsEmpty in Ht. simpl in Ht.
    apply wp_bind.
    eapply wp_weaken; [| apply IH; [auto using in_cons |]].
    + intros [ds st2] next2 (Hn2 & He2 & Hk2 & Ha2). simpl in *.
      apply wp_ret. simpl. split; [lia | split; [| split]].
      * rewrite He2, Ht. destruct d as [d|]; simpl.
        -- now rewrite andb_assoc.
        -- now rewrite andb_true_r.
      * constructor.
        -- intros d' ->. destruct (Hd d' eq_refl) as [Hp [-> | Hf]];
             split; auto. right. lia.
        -- eapply Forall2_impl; [| exact Hk2].
           intros c0 d0 Hk d' ->. destruct (Hk d' eq_refl) as [Hp [-> | Hf]];
             split; auto. right. lia.
      * destruct d as [d|]; simpl; [| exact Ha2].
        rewrite Ha2, andb_true_r.
        apply (allocated_le next1); [lia | now apply Had].
    + rewrite forallb_forall in Hacs. apply forallb_forall. intros c0 Hc0.
      apply (allocated_le next); auto.
Qed.

Lemma _subtractChildren_tells n st next :
  canHaveSubselections n = true -> childrenBelow h n ->
  allocated next n = true ->
  wp False (_subtractChildren v n st) next
    (fun r next' =>
       next <= next' /\
       isEmpty (snd r)
       = isEmpty st
         && match fst r with Some d => isEmptyField d | None => true end /\
       forall d, fst r = Some d ->
         Pruned d n /\ allocated next' d = true).
Proof.
  intros Hsub Hbelow Hal. unfold _subtractChildren.
  rewrite allocated_eq in Hal. apply andb_true_iff in Hal.
  destruct Hal as [Href Hcs]. apply Nat.ltb_lt in Href.
  apply wp_bind.
  eapply wp_weaken; [| apply subtractEach_tells; [exact Hbelow | exact Hcs]].
  intros [ds st1] next1 (Hn1 & He1 & Hk1 & Ha1). simpl in *.
  apply wp_bind. unfold wp at 1.
  destruct (clone_cases n ds next1 Hsub)
    as [[-> Hnone] | [[-> Hsame] | (-> & Hnew & _)]];
    apply wp_ret; simpl.
  - split; [exact Hn1 | split; [| discriminate]].
    rewrite He1. f_equal.
    destruct Hnone as [-> | Hnil]; [reflexivity|].
    rewrite Hnil in Hk1. inversion Hk1. reflexivity.
  - assert (Hds : ds = map Some (getChildren n)).
    { apply (keptOrNew_reused next); [exact Hk1 | | now rewrite Hsame].
      intros c Hc. rewrite forallb_forall in Hcs.
      apply allocated_ref. auto. }
    split; [exact Hn1 | split].
    + rewrite He1, Hds, somes_map_Some. f_equal.
      symmetry. now apply isEmptyField_children.
    + intros d [= <-]. split; [constructor|].
      rewrite allocated_eq. apply andb_true_iff. split.
      * apply Nat.ltb_lt. lia.
      * rewrite Hds, somes_map_Some in Ha1. exact Ha1.
  - split; [lia | split].
    + rewrite He1. f_equal. symmetry. now apply isEmptyField_withChildren.
    + intros d [= <-]. split.
      * constructor. eapply keptOrNew_Embeds; eauto.
      * rewrite allocated_eq, getRef_withChildren, getChildren_withChildren.
        apply andb_true_iff. split; [apply Nat.ltb_lt; lia|].
        rewrite forallb_forall in Ha1. apply forallb_forall. intros c Hc.
        apply (allocated_le next1); auto.
Qed.

Lemma subtractRanges_tells ranges n diff st next :
  canHaveSubselections n = true -> childrenBelow h n ->
  Pruned diff n -> allocated next diff = true ->
  (ranges = [] -> isEmpty st = isEmptyField diff) ->
  wp False (subtractRanges v ranges diff st) next
    (fun r next' =>
       next <= next' /\ tellsEmpty r /\
       forall d, fst r = Some d -> Pruned d n /\ allocated next' d = true).
Proof.
  intros Hsub Hbelow. revert diff st next.
  induction ranges as [|range rest IH]; intros diff st next Hp Hal Hst; simpl.
  - apply wp_ret. simpl. split; [lia | split; [exact (Hst eq_refl)|]].
    intros d [= <-]. auto.
  - apply wp_bind.
    eapply wp_weaken; [| apply _subtractChildren_tells; auto].
    + intros [d st1] next1 (Hn1 & He1 & Hd). simpl in *.
      destruct d as [d|].
      * destruct (Hd d eq_refl) as [Hpd Had].
        eapply wp_weaken; [| apply (IH d); auto].
        -- intros r next2 (Hn2 & Ht2 & Hd2). split; [lia | auto].
        -- eapply Pruned_trans; eauto.
      * apply wp_ret. simpl. split; [lia | split; [exact He1 | discriminate]].
    + now rewrite (canHaveSubselections_Pruned _ _ Hp).
    + eapply childrenBelow_Pruned; eauto.
Qed.

End TellsLevel.

Lemma visitField_filter_tells next (m : M (option Node * State))
    (Q : Node -> nat -> Prop) :
  wp False m next
    (fun r next' => tellsEmpty r /\ forall d, fst r = Some d -> Q d next') ->
  wp False (r <- m ;;
            match fst r with
            | Some diff =>
                if isRequisite diff || negb (isEmpty (snd r))
                then ret (Some diff, snd r)
                else ret (None, snd r)
            | None => ret (None, snd r)
            end) next
    (fun r next' => tellsEmpty r /\ forall d, fst r = Some d -> Q d next').
Proof.
  intros Hm. apply wp_bind. eapply wp_weaken; [| exact Hm].
  intros [d st1] next1 [Ht Hd]. simpl in *.
  destruct d as [d|];
    [destruct (isRequisite d || negb (isEmpty st1)) eqn:Hkeep|];
    apply wp_ret; simpl; auto.
  split; [| discriminate]. unfold tellsEmpty. simpl.
  apply orb_false_iff in Hkeep. destruct Hkeep as [_ Hkeep].
  now destruct (isEmpty st1).
Qed.

Lemma childrenBelow_noRootBelow n h :
  noRootBelow n = true -> height n <= S h -> childrenBelow h n.
Proof.
  intros Hn Hh c Hc. rewrite noRootBelow_eq, forallb_forall in Hn.
  specialize (Hn c Hc). apply andb_true_iff in Hn. destruct Hn as [H1 H2].
  apply negb_true_iff in H1. apply height_children in Hc.
  split; [exact H1 | split; [exact H2 | lia]].
Qed.

Lemma visit_tells fuel n st next :
  isRoot n = false -> noRootBelow n = true -> height n <= fuel ->
  allocated next n = true -> isEmpty st = true ->
  wp False (visit fuel n st) next (tellsPost n st next).
Proof.
  revert n st next.
  induction fuel as [|fuel IH]; intros n st next Hroot Hbelow Hh Hal Hst.
  - destruct n; simpl in Hh; lia.
  - unfold tellsPost.
    apply (wp_conj False (visit (S fuel) n st) next (visitPost n st next)
             (fun r next' =>
                tellsEmpty r /\
                forall d, fst r = Some d -> allocated next' d = true)).
    { apply visit_wp; [right; auto | exact Hh]. }
    pose proof (childrenBelow_noRootBelow n fuel Hbelow Hh) as Hcs.
    destruct n as [r f a cs | r cs | r info cs]; [discriminate | |];
      simpl visit.
    + unfold visitFragment.
      eapply wp_weaken;
        [| apply (_subtractChildren_tells (visit fuel) fuel IH); auto].
      intros [d st1] next1 (_ & He & Hd). simpl in *.
      rewrite Hst in He. split; [exact He|].
      intros d0 Hd0. exact (proj2 (Hd d0 Hd0)).
    + unfold visitField.
      apply (visitField_filter_tells next _
               (fun d next' => allocated next' d = true)).
      destruct (canHaveSubselections (Field r info cs)) eqn:Hsub; simpl negb;
        cbv iota.
      * destruct (isConnection (Field r info cs)).
        -- unfold _subtractConnection.
           destruct (getMatchingRangeFields info (subtrahend st))
             as [|range ranges].
           ++ apply wp_ret. split; [reflexivity|]. now intros d [= <-].
           ++ eapply wp_weaken;
                [| apply (subtractRanges_tells (visit fuel) fuel IH
                            (range :: ranges) (Field r info cs) (Field r info cs));
                   auto; [constructor | discriminate]].
              intros rr next1 (_ & Ht & Hd). split; [exact Ht|].
              intros d0 Hd0. exact (proj2 (Hd d0 Hd0)).
        -- unfold _subtractField.
           destruct (getField (subtrahend st) info) as [subField|].
           ++ apply wp_bind.
              eapply wp_weaken;
                [| apply (_subtractChildren_tells (visit fuel) fuel IH);
                   auto].
              intros [d st1] next1 (_ & He & Hd). simpl in *.
              apply wp_ret. simpl. split; [exact He|].
              intros d0 Hd0. exact (proj2 (Hd d0 Hd0)).
           ++ apply wp_ret. split; [reflexivity|]. now intros d [= <-].
      * unfold _subtractScalar.
        destruct (getField (subtrahend st) info);
          [destruct (negb (isRequisite (Field r info cs)))|];
          apply wp_ret; (split; [| intros d; simpl; try discriminate;
                                   now intros [= <-]]);
          try reflexivity.
        exact Hst.
Qed.

Lemma isEmptyField_leaf n c :
  In c (leafNodes n) -> (isEmptyField c = true <-> bookkeeping c).
Proof.
  intros Hc. apply leafNodes_scalar in Hc.
  destruct c as [r f a cs | r cs | r i cs]; simpl in *; try discriminate.
  destruct (kind i); try discriminate.
  rewrite !andb_true_iff, negb_true_iff, String.eqb_eq. tauto.
Qed.

(** X5.  What is left is never empty.  When the minuend and the subtrahend are
    roots with the same field and the same identifying argument, and the
    minuend has no root below and was allocated before, a query that
    [subtractRelayQuery] returns is not empty in the sense of [isEmptyField]:
    it holds a scalar field that is no bookkeeping field, being not requisite,
    or a ref-query-dependency, or aliased. *)
Theorem difference_is_not_empty min sub next d next' :
  noRootBelow min = true -> allocated next min = true ->
  canSubtractRoot min sub = true ->
  subtractRelayQuery min sub next = Done (Some d) next' ->
  isEmptyField d = false /\
  exists c, In c (leafNodes d) /\ ~ bookkeeping c.
Proof.
  intros Hbelow Hal Hcan Hres.
  assert (Hd : isEmptyField d = false).
  { destruct min as [rr f a cs | |]; try discriminate.
    destruct sub as [rs f' a' cs' | |]; try discriminate.
    simpl in Hcan. apply andb_true_iff in Hcan. destruct Hcan as [Hf Ha].
    apply String.eqb_eq in Hf. apply areEqualArg_eq in Ha. subst f' a'.
    rewrite subtractRelayQuery_roots in Hres.
    pose proof (_subtractChildren_tells
                  (visit (list_max (map height cs)))
                  (list_max (map height cs))
                  (fun c st next => visit_tells _ c st next)
                  (Root rr f a cs)
                  {| isEmpty := true; subtrahend := Root rs f a cs' |} next
                  eq_refl
                  (childrenBelow_noRootBelow (Root rr f a cs) _ Hbelow
                     (Nat.le_refl _))
                  Hal) as Hwp.
    unfold bind in Hres. unfold wp in Hwp.
    destruct (_subtractChildren _ _ _ next) as [[r st1] next1 | |];
      try discriminate.
    destruct Hwp as (_ & He & _). simpl in He, Hres.
    destruct (isEmpty st1); simpl in Hres; [discriminate|].
    destruct r as [r|]; [| discriminate].
    destruct (isRoot r); simpl in Hres; [| discriminate].
    unfold ret in Hres. injection Hres as <- _. now symmetry. }
  split; [exact Hd|].
  rewrite isEmptyField_leafNodes in Hd.
  assert (Hleaf := isEmptyField_leaf d).
  induction (leafNodes d) as [|c l IH]; [discriminate|].
  simpl in Hd. apply andb_false_iff in Hd. destruct Hd as [Hc | Hl].
  - exists c. split; [now left|]. intros Hb.
    apply (Hleaf c (in_eq _ _)) in Hb. congruence.
  - destruct IH as (c' & Hin & Hc'); [exact Hl | |].
    + intros c0 Hc0. apply Hleaf. now right.
    + exists c'. split; [now right | exact Hc'].
Qed.

Lemma difference_is_not_empty_witness :
  noRootBelow sampleQuery' = true /\ allocated 10 sampleQuery' = true /\
  canSubtractRoot sampleQuery' sampleQuery = true /\
  subtractRelayQuery sampleQuery' sampleQuery 10
  = Done (Some sampleRemainder) 11 /\
  isEmptyField sampleRemainder = false /\
  exists c, In c (leafNodes sampleRemainder) /\ ~ bookkeeping c.
Proof.
  split; [reflexivity | split; [reflexivity | split; [reflexivity |
    split; [reflexivity |]]]].
  exact (difference_is_not_empty sampleQuery' sampleQuery 10 sampleRemainder
           11 eq_refl eq_refl eq_refl eq_refl).
Defined.

(** ** Requisite fields are retained *)

Lemma requisiteScalar_withChildren r n cs :
  canHaveSubselections n = true -> requisiteScalar (withChildren r n cs) = false.
Proof.
  destruct n as [| | r0 i cs0]; simpl; try reflexivity.
  now destruct (kind i).
Qed.

Lemma requisiteScalar_scalar c :
  requisiteScalar c = true -> canHaveSubselections c = false.
Proof.
  destruct c as [| | r i cs]; simpl; try discriminate.
  now destruct (kind i).
Qed.

Lemma canHaveSubselections_withChildren r n cs :
  canHaveSubselections (withChildren r n cs) = canHaveSubselections n.
Proof. destruct n; reflexivity. Qed.

Lemma Retains_requisiteScalar d n :
  Retains d n -> requisiteScalar d = requisiteScalar n.
Proof.
  intros [n0 | r n0 cs Hsub _]; [reflexivity|].
  rewrite requisiteScalar_withChildren by assumption.
  destruct (requisiteScalar n0) eqn:Hn; [| reflexivity].
  apply requisiteScalar_scalar in Hn. congruence.
Qed.

Lemma Retains_canHaveSubselections d n :
  Retains d n -> canHaveSubselections d = canHaveSubselections n.
Proof.
  intros [n0 | r n0 cs _ _]; [reflexivity|].
  apply canHaveSubselections_withChildren.
Qed.

Lemma Keeps_trans {A} (K : A -> bool) (R : A -> A -> Prop) l1 l2 l3 :
  (forall a b c, In c l3 -> R a b -> R b c -> R a c) ->
  (forall b c, R b c -> K b = K c) ->
  Keeps K R l1 l2 -> Keeps K R l2 l3 -> Keeps K R l1 l3.
Proof.
  intros HR HK H12 H23. revert l1 H12.
  induction H23 as [| c l2 l3 Hc H23 IH | c2 c l2 l3 Hc H23 IH];
    intros l1 H12.
  - exact H12.
  - apply Keeps_drop; [exact Hc|]. apply IH; [| assumption].
    intros x y z Hz. apply HR. now right.
  - assert (HR' : forall x y z, In z l3 -> R x y -> R y z -> R x z).
    { intros x y z Hz. apply HR. now right. }
    inversion H12; subst.
    + apply Keeps_drop; [now rewrite <- (HK _ _ Hc) | now apply IH].
    + apply Keeps_keep; [eapply HR; eauto using in_eq | now apply IH].
Qed.

Lemma Retains_trans a b c : Retains a b -> Retains b c -> Retains a c.
Proof.
  remember (height c) as h eqn:Hh.
  assert (Hle : height c <= h) by lia. clear Hh.
  revert a b c Hle. induction h as [|h IH]; intros a b c Hle Hab Hbc.
  - destruct c; simpl in Hle; lia.
  - inversion Hbc as [| r n cs Hsub Hk]; subst; [exact Hab|].
    inversion Hab as [| r' n' cs' Hsub' Hk']; subst; [exact Hbc|].
    rewrite withChildren_withChildren. constructor; [exact Hsub|].
    rewrite getChildren_withChildren in Hk'.
    eapply Keeps_trans; [| | exact Hk' | exact Hk].
    + intros x y z Hz. apply IH.
      apply height_children in Hz. lia.
    + intros x y. apply Retains_requisiteScalar.
Qed.

Lemma Keeps_Embeds {A} (K : A -> bool) (R S : A -> A -> Prop) l' l :
  (forall a b, In b l -> R a b -> S a b) -> Keeps K R l' l -> Embeds S l' l.
Proof.
  intros HS H. induction H as [| c l' l Hc H IH | c' c l' l Hc H IH].
  - constructor.
  - apply Embeds_drop. apply IH. intros a b Hb. apply HS. now right.
  - apply Embeds_keep; [apply HS; [now left | exact Hc]|].
    apply IH. intros a b Hb. apply HS. now right.
Qed.

Lemma Retains_Pruned d n : Retains d n -> Pruned d n.
Proof.
  remember (height n) as h eqn:Hh.
  assert (Hle : height n <= h) by lia. clear Hh.
  revert d n Hle. induction h as [|h IH]; intros d n Hle Hr.
  - destruct n; simpl in Hle; lia.
  - inversion Hr as [| r n0 cs Hsub Hk]; subst; constructor.
    eapply Keeps_Embeds; [| exact Hk].
    intros a b Hb. apply IH. apply height_children in Hb. lia.
Qed.

Section RetainsLevel.

Variable v : Node -> State -> M (option Node * State).
Variable h : nat.
Hypothesis Hv : forall c st next,
  height c <= h -> wp True (v c st) next (fun r _ => retainsPost c r).

Lemma subtractEach_retains cs st next :
  (forall c, In c cs -> height c <= h) ->
  wp True (subtractEach v cs st) next
    (fun rs _ => Keeps requisiteScalar Retains (somes (fst rs)) cs).
Proof.
  revert st next. induction cs as [|c cs IH]; intros st next Hcs; simpl.
  - apply wp_ret. constructor.
  - apply wp_bind. eapply wp_weaken; [| apply Hv; auto using in_eq].
    intros [d st1] next1 [Hd Hreq]. simpl in *.
    apply wp_bind. eapply wp_weaken; [| apply IH; auto using in_cons].
    intros [ds st2] next2 Hds. simpl in *.
    apply wp_ret. simpl. destruct d as [d|]; simpl.
    + apply Keeps_keep; auto.
    + apply Keeps_drop; [| exact Hds].
      destruct (requisiteScalar c); [| reflexivity].
      now specialize (Hreq eq_refl).
Qed.

Lemma _subtractChildren_retains n st next :
  canHaveSubselections n = true -> height n <= S h ->
  wp True (_subtractChildren v n st) next
    (fun r _ => forall d, fst r = Some d -> Retains d n).
Proof.
  intros Hsub Hh. unfold _subtractChildren.
  apply wp_bind. eapply wp_weaken; [| apply subtractEach_retains].
  - intros [ds st1] next1 Hds. simpl in *.
    apply wp_bind. unfold wp at 1.
    destruct (clone_cases n ds next1 Hsub)
      as [[-> _] | [[-> _] | (-> & _ & _)]];
      apply wp_ret; simpl; intros d Hd; try discriminate; injection Hd as <-.
    + constructor.
    + now constructor.
  - intros c Hc. apply height_children in Hc. lia.
Qed.

Lemma subtractRanges_retains ranges n diff st next :
  canHaveSubselections n = true -> height n <= S h -> Retains diff n ->
  wp True (subtractRanges v ranges diff st) next
    (fun r _ => forall d, fst r = Some d -> Retains d n).
Proof.
  intros Hsub Hh. revert diff st next.
  induction ranges as [|range rest IH]; intros diff st next Hr; simpl.
  - apply wp_ret. simpl. now intros d [= <-].
  - apply wp_bind.
    eapply wp_weaken; [| apply _subtractChildren_retains].
    + intros [d st1] next1 Hd. simpl in *.
      destruct d as [d|].
      * apply IH. eapply Retains_trans; eauto.
      * apply wp_ret. simpl. discriminate.
    + now rewrite (Retains_canHaveSubselections _ _ Hr).
    + apply Retains_Pruned, Pruned_height in Hr. lia.
Qed.

End RetainsLevel.

Lemma visitField_filter_retains c next (m : M (option Node * State)) :
  wp True m next
    (fun r _ =>
       (forall d, fst r = Some d -> Retains d c) /\
       (requisiteScalar c = true -> fst r = Some c)) ->
  wp True (r <- m ;;
           match fst r with
           | Some diff =>
               if isRequisite diff || negb (isEmpty (snd r))
               then ret (Some diff, snd r)
               else ret (None, snd r)
           | None => ret (None, snd r)
           end) next (fun r _ => retainsPost c r).
Proof.
  intros Hm. apply wp_bind. eapply wp_weaken; [| exact Hm].
  intros [d st1] next1 [Hd Hreq]. simpl in *.
  destruct d as [d|];
    [destruct (isRequisite d || negb (isEmpty st1)) eqn:Hkeep|];
    apply wp_ret; split; simpl; auto; try discriminate.
  intros Hc. specialize (Hreq Hc). injection Hreq as ->.
  destruct c as [| | r i cs]; try discriminate. simpl in Hc, Hkeep.
  destruct (kind i); try discriminate. now rewrite Hc in Hkeep.
Qed.

Lemma visit_retains fuel c st next :
  height c <= fuel -> wp True (visit fuel c st) next (fun r _ => retainsPost c r).
Proof.
  revert c st next. induction fuel as [|fuel IH]; intros c st next Hh.
  - destruct c; simpl in Hh; lia.
  - rewrite visit_S.
    destruct c as [r f a cs | r cs | r i cs].
    + unfold visitRoot. apply wp_bind. apply wp_invariant; [| auto].
      intros _.
      destruct (negb (canSubtractRoot (Root r f a cs) (subtrahend st))).
      * apply wp_ret. split; [| discriminate].
        simpl. intros d [= <-]. constructor.
      * eapply wp_weaken; [| apply (_subtractChildren_retains (visit fuel) fuel IH); auto].
        intros rr next1 Hd. split; [exact Hd | discriminate].
    + unfold visitFragment.
      eapply wp_weaken; [| apply (_subtractChildren_retains (visit fuel) fuel IH); auto].
      intros rr next1 Hd. split; [exact Hd | discriminate].
    + unfold visitField. apply visitField_filter_retains.
      cbn [canHaveSubselections isConnection].
      destruct (kind i) eqn:Hk; cbn [negb].
      * unfold _subtractScalar. cbn [isRequisite].
        destruct (getField (subtrahend st) i);
          [destruct (requisite i) eqn:Hreq; cbn [negb]|];
          apply wp_ret; simpl; rewrite ?Hk, ?Hreq; split;
          try discriminate; try reflexivity;
          intros d [= <-]; constructor.
      * unfold _subtractField.
        destruct (getField (subtrahend st) i) as [m|].
        -- apply wp_bind.
           eapply wp_weaken; [| apply (_subtractChildren_retains (visit fuel) fuel IH); auto].
           ++ intros rr next1 Hd. apply wp_ret. simpl. rewrite Hk.
              split; [exact Hd | discriminate].
           ++ simpl. now rewrite Hk.
        -- apply wp_ret. simpl. rewrite Hk. split; [| discriminate].
           intros d [= <-]. constructor.
      * unfold _subtractConnection.
        destruct (getMatchingRangeFields i (subtrahend st)) as [|range ranges].
        -- apply wp_ret. simpl. rewrite Hk. split; [| discriminate].
           intros d [= <-]. constructor.
        -- eapply wp_weaken;
             [| apply (subtractRanges_retains (visit fuel) fuel IH (range :: ranges)
                         (Field r i cs) (Field r i cs));
                auto].
           ++ intros rr next1 Hd. simpl. rewrite Hk.
              split; [exact Hd | discriminate].
           ++ simpl. now rewrite Hk.
           ++ constructor.
Qed.

(** What a subtraction returns retains the minuend. *)
Lemma subtractRelayQuery_retains min sub next d next' :
  subtractRelayQuery min sub next = Done (Some d) next' -> Retains d min.
Proof.
  pose proof (visit_retains (height min) min
                {| isEmpty := true; subtrahend := sub |} next (le_n _)) as Hw.
  unfold subtractRelayQuery, bind. unfold wp in Hw.
  destruct (visit (height min) min _ next) as [[d0 st] next1 | msg |];
    try discriminate.
  destruct Hw as [Hd _]. cbn [fst snd] in *.
  destruct (isEmpty st); cbn [negb]; [discriminate|].
  unfold invariant.
  destruct d0 as [d0|]; [| discriminate].
  destruct (isRoot d0); [| discriminate].
  unfold ret. intros [= <- <-]. now apply Hd.
Qed.

(** ** The scalar fields that a subtraction leaves *)

Lemma length_flat_map_le {A B} (f g : A -> list B) l :
  (forall a, In a l -> List.length (f a) <= List.length (g a)) ->
  List.length (flat_map f l) <= List.length (flat_map g l).
Proof.
  induction l as [|a l IH]; intros H; simpl; [lia|].
  rewrite !length_app.
  specialize (H a (in_eq _ _)) as Ha.
  specialize (IH (fun x Hx => H x (in_cons _ _ _ Hx))). lia.
Qed.

Lemma app_same_length {A} (l1 l1' l2 l2' : list A) :
  List.length l1 = List.length l1' -> l1 ++ l2 = l1' ++ l2' ->
  l1 = l1' /\ l2 = l2'.
Proof.
  revert l1'. induction l1 as [|a l1 IH]; intros [|a' l1'] Hl Heq;
    simpl in *; try discriminate; [auto|].
  injection Heq as -> Heq. injection Hl as Hl.
  destruct (IH l1' Hl Heq) as [-> ->]. auto.
Qed.

Lemma flat_map_full {A B} (f g : A -> list B) l :
  (forall a, In a l -> List.length (f a) <= List.length (g a)) ->
  flat_map f l = flat_map g l -> forall a, In a l -> f a = g a.
Proof.
  induction l as [|x l IH]; intros Hle Heq a Ha; [contradiction|].
  simpl in Heq.
  assert (Hx : List.length (f x) = List.length (g x)).
  { pose proof (Hle x (in_eq _ _)) as H1.
    pose proof (length_flat_map_le f g l
                  (fun y Hy => Hle y (in_cons _ _ _ Hy))) as H2.
    apply (f_equal (@List.length B)) in Heq. rewrite !length_app in Heq.
    lia. }
  destruct (app_same_length _ _ _ _ Hx Heq) as [H1 H2].
  destruct Ha as [<- | Ha]; [exact H1|].
  apply IH; auto. intros y Hy. apply Hle. now right.
Qed.

Lemma retainedLeaves_below s c :
  canHaveSubselections c = true ->
  retainedLeaves s c
  = if isField c
    then if isRequisite c || negb (forallb isEmptyField (leavesBelow s c))
         then leavesBelow s c else []
    else leavesBelow s c.
Proof.
  unfold leavesBelow.
  destruct c as [r f a cs | r cs | r i cs]; simpl; try reflexivity.
  destruct (kind i); [discriminate | reflexivity | reflexivity].
Qed.

Lemma length_retainedLeaves s c :
  List.length (retainedLeaves s c) <= List.length (leafNodes c).
Proof.
  revert s. induction c as [c IH] using Node_nested_ind. intros s.
  rewrite Forall_forall in IH.
  destruct (canHaveSubselections c) eqn:Hsub.
  - rewrite retainedLeaves_below, leafNodes_children by assumption.
    assert (Hb : List.length (leavesBelow s c)
                 <= List.length (flat_map leafNodes (getChildren c))).
    { unfold leavesBelow. destruct (childScope (Some s) c); [| lia].
      apply length_flat_map_le. intros a Ha. now apply IH. }
    destruct (isField c); [| exact Hb].
    destruct (isRequisite c || negb _); [exact Hb | simpl; lia].
  - destruct c as [| | r i cs]; try discriminate. simpl in *.
    destruct (kind i); try discriminate.
    destruct (_ && _); simpl; lia.
Qed.

Lemma leafNodes_solid_children c :
  canHaveSubselections c = true -> solid c = true ->
  flat_map leafNodes (getChildren c) <> [].
Proof.
  intros Hsub Hsolid. rewrite <- leafNodes_children by assumption.
  now apply leafNodes_solid.
Qed.

(** What the visits of the children say of what [clone] is given. *)

Lemma childLeaves_leaves s next0 cs ds :
  Forall2 (childLeaves s next0) cs ds ->
  flat_map leafNodes (somes ds) = flat_map (retainedLeaves s) cs.
Proof.
  induction 1 as [|c d cs' ds' (H1 & H2 & _) Hrest IH]; [reflexivity|].
  simpl. destruct d as [d|]; simpl.
  - now rewrite IH, (proj1 (H2 d eq_refl)).
  - now rewrite (H1 eq_refl).
Qed.

Lemma childLeaves_reused s next0 cs ds :
  Forall2 (childLeaves s next0) cs ds ->
  (forall c, In c cs -> getRef c < next0) ->
  snd (cloneChildren cs ds) = true -> ds = map Some cs.
Proof.
  intros Hkept Halloc Hsame.
  destruct (cloneChildren_reused cs ds) as (ds' & -> & Hrefs); auto.
  { symmetry. eapply Forall2_length; eauto. }
  f_equal. clear Hsame.
  revert cs Hkept Halloc Hrefs.
  induction ds' as [|d ds' IH]; intros cs0 Hk Hal Hrefs.
  - inversion Hrefs. reflexivity.
  - destruct cs0 as [|y l']; [inversion Hrefs|].
    apply Forall2_cons_iff in Hrefs. destruct Hrefs as [Href Hrefs].
    simpl in Hk. apply Forall2_cons_iff in Hk.
    destruct Hk as [(_ & Hd & _) Hk].
    destruct (Hd d eq_refl) as [_ [-> | Hfresh]].
    + f_equal. apply IH; auto. intros c Hc. apply Hal. now right.
    + unfold same_ref in Href. apply Nat.eqb_eq in Href.
      specialize (Hal y (in_eq _ _)). lia.
Qed.

Lemma childLeaves_all_kept s next0 cs ds :
  Forall2 (childLeaves s next0) cs ds ->
  (forall c, In c cs -> solid c = true) ->
  (ds = map Some cs
   <-> flat_map (retainedLeaves s) cs = flat_map leafNodes cs).
Proof.
  intros Hkept Hsolid. split.
  - intros ->. clear Hsolid.
    remember (map Some cs) as ds eqn:Hds. revert Hds.
    induction Hkept as [|c d cs' ds' (_ & H2 & _) Hrest IH]; intros Hds;
      [reflexivity|].
    simpl in Hds. injection Hds as -> ->. simpl.
    rewrite IH by reflexivity.
    now rewrite <- (proj1 (H2 c eq_refl)).
  - intros Heq.
    pose proof (flat_map_full (retainedLeaves s) leafNodes cs
                  (fun a _ => length_retainedLeaves s a) Heq) as Hall.
    clear Heq.
    induction Hkept as [|c d cs' ds' (_ & _ & H3) Hrest IH]; [reflexivity|].
    simpl. f_equal.
    + apply (H3 (Hsolid c (in_eq _ _))). apply Hall. now left.
    + apply IH; intros; [apply Hsolid | apply Hall]; now right.
Qed.

Lemma tellsEmpty_leaves s next0 c r :
  tellsEmpty r -> childLeaves s next0 c (fst r) ->
  isEmpty (snd r) = forallb isEmptyField (retainedLeaves s c).
Proof.
  unfold tellsEmpty. intros -> (H1 & H2 & _).
  destruct (fst r) as [d|].
  - rewrite isEmptyField_leafNodes. now rewrite (proj1 (H2 d eq_refl)).
  - now rewrite (H1 eq_refl).
Qed.

Section LeavesLevel.

Variable v : Node -> State -> M (option Node * State).
Variable s : Node.
Variable next0 : nat.

Lemma subtractEach_leaves cs st next :
  (forall c next', In c cs -> next0 <= next' ->
     wp False (v c {| isEmpty := true; subtrahend := s |}) next'
       (fun r next'' =>
          next' <= next'' /\ tellsEmpty r /\ childLeaves s next0 c (fst r))) ->
  subtrahend st = s -> next0 <= next ->
  wp False (subtractEach v cs st) next
    (fun rs next' =>
       next <= next' /\ Forall2 (childLeaves s next0) cs (fst rs) /\
       isEmpty (snd rs)
       = isEmpty st && forallb isEmptyField (flat_map (retainedLeaves s) cs)).
Proof.
  revert st next. induction cs as [|c cs IH]; intros st next Hv Hs Hn; simpl.
  - apply wp_ret. simpl. rewrite andb_true_r.
    split; [lia | split; [constructor | reflexivity]].
  - apply wp_bind. rewrite Hs.
    eapply wp_weaken; [| apply Hv; [apply in_eq | exact Hn]].
    intros [d st1] next1 (Hn1 & Ht & Hd). simpl in *.
    apply wp_bind.
    eapply wp_weaken; [| apply IH].
    + intros [ds st2] next2 (Hn2 & Hds & He). apply wp_ret. simpl in *.
      split; [lia | split; [now constructor |]].
      pose proof (tellsEmpty_leaves s next0 c (d, st1) Ht Hd) as Hst1.
      simpl in Hst1. rewrite He, forallb_app, andb_assoc. now rewrite Hst1.
    + intros c' next' Hc'. apply Hv. now right.
    + exact Hs.
    + lia.
Qed.

Lemma _subtractChildren_leaves n st next :
  canHaveSubselections n = true -> allocated next0 n = true ->
  (forall c next', In c (getChildren n) -> next0 <= next' ->
     wp False (v c {| isEmpty := true; subtrahend := s |}) next'
       (fun r next'' =>
          next' <= next'' /\ tellsEmpty r /\ childLeaves s next0 c (fst r))) ->
  subtrahend st = s -> isEmpty st = true -> next0 <= next ->
  wp False (_subtractChildren v n st) next
    (fun r next' =>
       next <= next' /\
       belowLeaves next0 n (flat_map (retainedLeaves s) (getChildren n)) r).
Proof.
  intros Hsub Hal Hv Hs He Hn. unfold _subtractChildren.
  assert (Href : getRef n < next0) by now apply allocated_ref.
  assert (Hrefs : forall c, In c (getChildren n) -> getRef c < next0).
  { intros c Hc. apply allocated_ref. eapply allocated_children; eauto. }
  apply wp_bind.
  eapply wp_weaken; [| apply subtractEach_leaves; eauto].
  intros [ds st1] next1 (Hn1 & Hds & He1). cbn [fst snd] in *.
  rewrite He in He1. cbn [andb] in He1.
  pose proof (childLeaves_leaves _ _ _ _ Hds) as Hleaves.
  pose proof (childLeaves_reused _ _ _ _ Hds Hrefs) as Hreused.
  apply wp_bind. unfold wp at 1.
  destruct (clone_cases n ds next1 Hsub)
    as [[-> Hnone] | [[-> Hsame] | (-> & Hnew & Hsome)]];
    apply wp_ret; cbn [fst snd];
    (split; [lia|]); (split; [exact He1|]).
  - assert (Hnil : flat_map (retainedLeaves s) (getChildren n) = []).
    { rewrite <- Hleaves. destruct Hnone as [-> | Hnone]; [reflexivity|].
      rewrite Hnone in Hds. inversion Hds. reflexivity. }
    split; [auto | split; [discriminate|]].
    intros Hsolid. split; [discriminate|]. intros Heq.
    rewrite Hnil, leafNodes_children in Heq by assumption.
    symmetry in Heq. now apply leafNodes_solid_children in Heq.
  - assert (Hds' : ds = map Some (getChildren n)).
    { apply Hreused. now rewrite Hsame. }
    assert (Heq : flat_map (retainedLeaves s) (getChildren n) = leafNodes n).
    { rewrite leafNodes_children by assumption.
      rewrite <- Hleaves, Hds', somes_map_Some. reflexivity. }
    split; [discriminate | split].
    + intros d [= <-]. auto.
    + intros _. split; auto.
  - split; [discriminate | split].
    + intros d [= <-]. split; [| split].
      * rewrite leafNodes_children, getChildren_withChildren;
          [exact Hleaves | now rewrite canHaveSubselections_withChildren].
      * right. rewrite getRef_withChildren. lia.
      * now destruct n.
    + intros Hsolid. split.
      * intros [= Hd]. apply (f_equal getRef) in Hd.
        rewrite getRef_withChildren in Hd. lia.
      * intros Heq. rewrite leafNodes_children in Heq by assumption.
        apply (childLeaves_all_kept _ _ _ _ Hds) in Heq.
        -- subst ds. rewrite cloneChildren_same in Hnew. discriminate.
        -- intros c Hc. now apply (proj2 (solid_children n Hsub Hsolid)).
Qed.

End LeavesLevel.

Lemma belowLeaves_childLeaves s next0 c r :
  belowLeaves next0 c (retainedLeaves s c) r ->
  childLeaves s next0 c (fst r).
Proof.
  intros (_ & H1 & H2 & H3). split; [exact H1 | split; [| exact H3]].
  intros d Hd. destruct (H2 d Hd) as (Ha & Hb & _). auto.
Qed.

Lemma belowLeaves_state next0 c ls r st :
  belowLeaves next0 c ls r ->
  belowLeaves next0 c ls (fst r, setEmpty st (isEmpty (snd r))).
Proof. intros H. exact H. Qed.

Lemma belowLeaves_whole next0 c st :
  canHaveSubselections c = true ->
  belowLeaves next0 c (flat_map leafNodes (getChildren c))
    (Some c, setEmpty st (isEmptyField c)).
Proof.
  intros Hsub. rewrite <- leafNodes_children by assumption.
  split; [apply isEmptyField_leafNodes | split; [discriminate | split]].
  - intros d [= <-]. auto.
  - intros _. split; reflexivity.
Qed.

Lemma visitField_filter_leaves s next0 c next (m : M (option Node * State)) :
  isField c = true -> canHaveSubselections c = true ->
  wp False m next
    (fun r next' => next <= next' /\ belowLeaves next0 c (leavesBelow s c) r) ->
  wp False (r <- m ;;
            match fst r with
            | Some diff =>
                if isRequisite diff || negb (isEmpty (snd r))
                then ret (Some diff, snd r)
                else ret (None, snd r)
            | None => ret (None, snd r)
            end) next
    (fun r next' => next <= next' /\ childLeaves s next0 c (fst r)).
Proof.
  intros Hf Hsub Hm. apply wp_bind. eapply wp_weaken; [| exact Hm].
  intros [d st1] next1 (Hn1 & He & Hnone & Hsome & Hsame). simpl in *.
  pose proof (retainedLeaves_below s c Hsub) as Hret. rewrite Hf in Hret.
  assert (Hdrop : solid c = true ->
            (@None Node = Some c <-> [] = leafNodes c)).
  { intros Hsolid. split; [discriminate|]. intros Heq. symmetry in Heq.
    now apply leafNodes_solid in Heq. }
  destruct d as [d|].
  - destruct (Hsome d eq_refl) as (Hl & Hfresh & Hreq).
    rewrite Hreq, He.
    destruct (isRequisite c || negb (forallb isEmptyField (leavesBelow s c)));
      apply wp_ret; simpl; (split; [exact Hn1|]);
      unfold childLeaves; rewrite Hret.
    + split; [discriminate | split; [| exact Hsame]].
      intros d' [= <-]. auto.
    + split; [reflexivity | split; [discriminate | exact Hdrop]].
  - apply wp_ret. simpl. split; [exact Hn1|].
    unfold childLeaves. rewrite Hret.
    rewrite (Hnone eq_refl) in *.
    destruct (isRequisite c || negb (forallb isEmptyField []));
      (split; [reflexivity | split; [discriminate | exact Hdrop]]).
Qed.

Lemma visit_scalar_leaves fuel r i cs s st next next0 :
  kind i = Scalar -> subtrahend st = s ->
  wp False (visit (S fuel) (Field r i cs) st) next
    (fun rr next' => next <= next' /\ childLeaves s next0 (Field r i cs) (fst rr)).
Proof.
  intros Hk Hs. rewrite visit_S.
  unfold visitField, _subtractScalar, childLeaves.
  cbn [canHaveSubselections isRequisite]. rewrite Hk, Hs. cbn [negb].
  cbn [retainedLeaves leafNodes solid present]. rewrite Hk.
  destruct (getField s i); [destruct (requisite i) eqn:Hreq|];
    cbn [negb andb]; unfold wp, bind, ret; cbn [fst snd isRequisite].
  - rewrite Hreq. cbn [orb fst].
    split; [lia | split; [discriminate | split; [| tauto]]].
    intros d [= <-]. split; [simpl; now rewrite Hk | now left].
  - cbn [fst].
    split; [lia | split; [reflexivity | split; [discriminate |]]].
    intros _. split; discriminate.
  - assert (Hkeep : requisite i
                    || negb (isEmpty (setEmpty st (isEmptyField (Field r i cs))))
                    = true).
    { cbn [isEmptyField setEmpty isEmpty]. rewrite Hk.
      now destruct (requisite i). }
    rewrite Hkeep. cbn [fst].
    split; [lia | split; [discriminate | split; [| tauto]]].
    intros d [= <-]. split; [simpl; now rewrite Hk | now left].
Qed.

(** The visit of a node against a subtrahend no two fields of which, under
    a node, have one schema name: null, the node itself or a new node, with
    the scalar fields that the subtraction leaves. *)
Lemma visit_leaves fuel c s st next next0 :
  okNode False c -> allocated next0 c = true -> next0 <= next ->
  distinctBelow s = true -> subtrahend st = s -> isEmpty st = true ->
  height c <= fuel ->
  wp False (visit fuel c st) next
    (fun r next' => next <= next' /\ tellsEmpty r /\
                    childLeaves s next0 c (fst r)).
Proof.
  revert c s st next.
  induction fuel as [|fuel IH]; intros c s st next Hok Hal Hn Hd Hs He Hh.
  - pose proof (height_pos c). lia.
  - destruct Hok as [[] | [Hroot Hbelow]].
    pose proof (visit_tells (S fuel) c st next Hroot Hbelow Hh
                  (allocated_le next0 next c Hn Hal) He) as Htells.
    assert (Hfinal :
              wp False (visit (S fuel) c st) next
                (fun r next' => next <= next' /\ childLeaves s next0 c (fst r))
              ->
              wp False (visit (S fuel) c st) next
                (fun r next' => next <= next' /\ tellsEmpty r /\
                                childLeaves s next0 c (fst r))).
    { intros Hw. pose proof (wp_conj _ _ _ _ _ Hw Htells) as Hc.
      eapply wp_weaken; [| exact Hc].
      intros r next' [[H1 H2] (_ & H3 & _)]. auto. }
    apply Hfinal. clear Hfinal Htells.
    assert (Hinner : forall m st' next1,
              canHaveSubselections c = true -> distinctBelow m = true ->
              subtrahend st' = m -> isEmpty st' = true -> next0 <= next1 ->
              wp False (_subtractChildren (visit fuel) c st') next1
                (fun r next' =>
                   next1 <= next' /\
                   belowLeaves next0 c
                     (flat_map (retainedLeaves m) (getChildren c)) r)).
    { intros m st' next1 Hsub Hm Hst' He' Hn1.
      apply (_subtractChildren_leaves (visit fuel) m next0 c st' next1); auto.
      intros c' next' Hc' Hn'. apply IH; auto.
      - right. rewrite noRootBelow_eq, forallb_forall in Hbelow.
        specialize (Hbelow c' Hc'). apply andb_true_iff in Hbelow.
        destruct Hbelow as [H1 H2]. apply negb_true_iff in H1. auto.
      - eapply allocated_children; eauto.
      - apply height_children in Hc'. lia. }
    destruct c as [r f a cs | r cs | r i cs]; [discriminate | |].
    + rewrite visit_S. unfold visitFragment.
      eapply wp_weaken; [| apply (Hinner s); auto].
      intros rr next' [H1 H2]. split; [exact H1|].
      now apply belowLeaves_childLeaves.
    + destruct (kind i) eqn:Hk; [now apply visit_scalar_leaves | |];
        (assert (Hsub : canHaveSubselections (Field r i cs) = true)
           by (simpl; now rewrite Hk));
        rewrite visit_S; unfold visitField;
        apply visitField_filter_leaves; auto;
        cbn [canHaveSubselections isConnection]; rewrite Hk; cbn [negb];
        unfold leavesBelow; cbn [childScope]; rewrite Hk.
      * unfold _subtractField. rewrite Hs.
        destruct (getField s i) as [m|] eqn:Hg.
        -- apply wp_bind.
           eapply wp_weaken; [| apply (Hinner m); auto].
           ++ intros rr next1 [H1 H2]. apply wp_ret. split; [exact H1|].
              now apply belowLeaves_state.
           ++ eapply distinctBelow_child; eauto using getField_in.
        -- apply wp_ret. split; [lia|]. now apply belowLeaves_whole.
      * unfold _subtractConnection. rewrite Hs.
        assert (Hdn : distinctNames (getChildren s) = true).
        { rewrite distinctBelow_eq in Hd. now apply andb_true_iff in Hd. }
        destruct (getMatchingRangeFields_single i s Hdn) as [Hr | [m Hr]];
          rewrite Hr; cbn [hd_error].
        -- apply wp_ret. split; [lia|]. now apply belowLeaves_whole.
        -- cbn [subtractRanges]. apply wp_bind.
           eapply wp_weaken; [| apply (Hinner m); auto].
           ++ intros [d st1] next1 [H1 H2]. cbn [fst snd] in *.
              destruct d; apply wp_ret; (split; [exact H1|]);
                exact (belowLeaves_state next0 _ _ _ st H2).
           ++ eapply distinctBelow_child; eauto.
              apply (getMatchingRangeFields_in i). rewrite Hr. now left.
Qed.

Lemma retainedLeaves_roots rr rs f a cs cs' :
  retainedLeaves (Root rs f a cs') (Root rr f a cs)
  = flat_map (retainedLeaves (Root rs f a cs')) cs.
Proof. cbn [retainedLeaves]. now rewrite childScope_roots. Qed.

(** Two roots with the same field name and identifying argument: the scalar
    fields of what the subtraction returns. *)
Lemma subtract_roots_leaves rr rs f a cs cs' next res next' :
  noRootBelow (Root rr f a cs) = true ->
  distinctBelow (Root rs f a cs') = true ->
  allocated next (Root rr f a cs) = true ->
  subtractRelayQuery (Root rr f a cs) (Root rs f a cs') next
  = Done res next' ->
  (res = None
   <-> forallb isEmptyField
         (retainedLeaves (Root rs f a cs') (Root rr f a cs)) = true) /\
  (forall d, res = Some d ->
     leafNodes d = retainedLeaves (Root rs f a cs') (Root rr f a cs)) /\
  (solid (Root rr f a cs) = true ->
   (res = Some (Root rr f a cs)
    <-> res <> None /\
        retainedLeaves (Root rs f a cs') (Root rr f a cs)
        = leafNodes (Root rr f a cs))).
Proof.
  intros Hnr Hd Hal. rewrite retainedLeaves_roots.
  set (min := Root rr f a cs) in *. set (sub := Root rs f a cs') in *.
  set (st := {| isEmpty := true; subtrahend := sub |}).
  set (h := list_max (map height cs)).
  assert (H : wp False (_subtractChildren (visit h) min st) next
                (fun r n' =>
                   next <= n' /\
                   belowLeaves next min
                     (flat_map (retainedLeaves sub) (getChildren min)) r)).
  { apply (_subtractChildren_leaves (visit h) sub next min st next); auto.
    intros c n' Hc Hn'. apply visit_leaves; auto.
    - eapply okNode_root_children; eauto.
    - eapply allocated_children; eauto.
    - apply (height_children min) in Hc. simpl in Hc. unfold h. lia. }
  unfold min at 1, sub at 1. rewrite subtractRelayQuery_roots.
  fold min sub st h. unfold bind. unfold wp in H.
  destruct (_subtractChildren _ min st next) as [[d st1] next1 | |];
    try contradiction.
  destruct H as (_ & He & Hnone & Hsome & Hsame). cbn [fst snd] in *.
  change (getChildren min) with cs in *.
  destruct (isEmpty st1) eqn:Hst; cbn [negb].
  - unfold ret. intros Hres. injection Hres as <- <-.
    split; [split; auto | split; [discriminate |]].
    intros _. split; [discriminate | now intros [Hn _]].
  - destruct d as [d|].
    + unfold invariant. destruct (isRoot d); [| discriminate].
      unfold ret. intros Hres. injection Hres as <- <-.
      split; [| split].
      * split; [discriminate | congruence].
      * intros d' [= <-]. now apply Hsome.
      * intros Hsolid. specialize (Hsame Hsolid).
        split.
        -- intros Heq. split; [discriminate | now apply Hsame].
        -- intros [_ Heq]. now apply Hsame.
    + rewrite (Hnone eq_refl) in He. discriminate.
Qed.



Example subtract_partial_overlap :
  let min := Root 0 "user" (Some (mkCall "id" (VNum (Integer 1))))
               [scalarField 1 "name" false; scalarField 2 "email" false] in
  let sub := Root 3 "user" (Some (mkCall "id" (VNum (Integer 1))))
               [scalarField 4 "name" false; scalarField 5 "id" true] in
  subtractRelayQuery min sub 6
  = Done (Some (Root 6 "user" (Some (mkCall "id" (VNum (Integer 1))))
                  [scalarField 2 "email" false])) 7.
Proof. reflexivity. Qed.

(** With a requisite field in the minuend: the requisite field and the field
    that is not present are what is left. *)
Example subtract_partial_overlap_requisite :
  let min := Root 0 "user" (Some (mkCall "id" (VNum (Integer 1))))
               [scalarField 1 "id" true; scalarField 2 "name" false;
                scalarField 3 "email" false] in
  let sub := Root 4 "user" (Some (mkCall "id" (VNum (Integer 1))))
               [scalarField 5 "name" false] in
  subtractRelayQuery min sub 6
  = Done (Some (Root 6 "user" (Some (mkCall "id" (VNum (Integer 1))))
                  [scalarField 1 "id" true; scalarField 3 "email" false])) 7.
Proof. reflexivity. Qed.


(** Nor is the result null whenever every field is present: a requisite
    field that is a ref-query-dependency counts. *)
Example subtract_all_present_not_null :
  let id := Field 1 {| schemaName := "id"; applicationName := "id";
                       calls := []; kind := Scalar; requisite := true;
                       refQueryDependency := true |} [] in
  let min := Root 0 "node" None [id] in
  let sub := Root 2 "node" None [id] in
  uncoveredLeaves (Some sub) min = [] /\
  subtractRelayQuery min sub 3 = Done (Some min) 3.
Proof. split; reflexivity. Qed.

Lemma Keeps_In {A} (K : A -> bool) (R : A -> A -> Prop) l' l c :
  Keeps K R l' l -> In c l -> K c = true -> exists c', In c' l' /\ R c' c.
Proof.
  induction 1 as [| c0 l' l Hc0 H IH | c' c0 l' l Hc' H IH]; intros Hin Hk.
  - contradiction.
  - destruct Hin as [<- | Hin]; [congruence | now apply IH].
  - destruct Hin as [<- | Hin].
    + exists c'. split; [now left | exact Hc'].
    + destruct (IH Hin Hk) as (x & Hx & HR). exists x. split; [now right | exact HR].
Qed.

Lemma Retains_scalar d c : requisiteScalar c = true -> Retains d c -> d = c.
Proof.
  intros Hc Hr. inversion Hr as [| r n cs Hsub _]; subst; [reflexivity|].
  apply requisiteScalar_scalar in Hc. congruence.
Qed.

(** A node that is retained holds every requisite scalar field that is a
    child of the node it was made from. *)
Lemma Retains_children d n c :
  Retains d n -> In c (getChildren n) -> requisiteScalar c = true ->
  In c (getChildren d).
Proof.
  intros Hr Hin Hc. inversion Hr as [| r n0 cs Hsub Hk]; subst; [exact Hin|].
  rewrite getChildren_withChildren.
  destruct (Keeps_In _ _ _ _ _ Hk Hin Hc) as (c' & Hc' & HR).
  now rewrite <- (Retains_scalar _ _ Hc HR).
Qed.



(** C5, as stated, fails: a requisite field is not always in the result.
    The field [id] of [actor] is requisite and has a matching field in the
    subtrahend; its visit retains it, and [actor], which then holds nothing
    that counts, is left out of the result with it. *)
Lemma requisite_dropped_with_parent_counterexample :
  let id := scalarField 2 "id" true in
  let actor := plainField 1 "actor" [id; scalarField 3 "name" false] in
  let email := scalarField 4 "email" false in
  let min := Root 0 "viewer" None [actor; email] in
  let subActor := plainField 6 "actor"
                    [scalarField 7 "id" true; scalarField 8 "name" false] in
  let sub := Root 5 "viewer" None [subActor] in
  let d := Root 10 "viewer" None [email] in
  In id (leafNodes min) /\ requisiteScalar id = true /\
  getField subActor (mkFieldInfo "id" "id" [] Scalar true false)
  = Some (scalarField 7 "id" true) /\
  subtractRelayQuery min sub 9 = Done (Some d) 11 /\
  ~ In id (leafNodes d).
Proof.
  cbv zeta.
  split; [now left | split; [reflexivity | split; [reflexivity |
    split; [reflexivity |]]]].
  simpl. intros [H | []]. discriminate.
Qed.

(** * Further properties of the pending query tracker *)

(** ** What becomes of a pending fetch *)

Lemma extends_refl {A} (l : list A) : extends l l.
Proof. exists []. now rewrite app_nil_r. Qed.

Lemma extends_trans {A} (l1 l2 l3 : list A) :
  extends l1 l2 -> extends l2 l3 -> extends l1 l3.
Proof. intros [t ->] [u ->]. exists (t ++ u). now rewrite app_assoc. Qed.

Lemma extends_app {A} (l t : list A) : extends l (l ++ t).
Proof. now exists t. Qed.

Lemma grows_refl f : grows f f.
Proof.
  unfold grows. repeat split; auto using extends_refl.
Qed.

Lemma grows_trans f1 f2 f3 : grows f1 f2 -> grows f2 f3 -> grows f1 f3.
Proof.
  unfold grows.
  intros (Hq & Hi & Hm & Hd & He & Hr & Hf & Hs & Hp & Hin)
         (Hq' & Hi' & Hm' & Hd' & He' & Hr' & Hf' & Hs' & Hp' & Hin').
  repeat split; try congruence; eauto using extends_trans.
  intros k. destruct (Hp' k) as [H | H]; [now left|].
  rewrite H. apply Hp.
Qed.

Lemma grows_updateResolvedDeferred f : grows f (updateResolvedDeferred f).
Proof.
  unfold updateResolvedDeferred.
  destruct (_isSettled f && negb (settled (_resolvedDeferred f)));
    [| apply grows_refl].
  destruct (_errors f); unfold grows; simpl;
    repeat split; auto using extends_refl, extends_app.
Qed.

Lemma assocGet_assocDelete_other {V} k k' (m : list (nat * V)) :
  k <> k' -> assocGet k (assocDelete k' m) = assocGet k m.
Proof.
  intros Hk. induction m as [|[k0 v0] m IH]; simpl; [reflexivity|].
  destruct (Nat.eqb_spec k0 k'); simpl.
  - subst. destruct (Nat.eqb_spec k' k); [congruence | exact IH].
  - destruct (k0 =? k); [reflexivity | exact IH].
Qed.

Lemma assocGet_assocDelete_cases {V} k k' (m : list (nat * V)) :
  assocGet k (assocDelete k' m) = None \/
  assocGet k (assocDelete k' m) = assocGet k m.
Proof.
  destruct (Nat.eq_dec k k') as [-> | Hk].
  - left. apply assocGet_assocDelete.
  - right. now apply assocGet_assocDelete_other.
Qed.

Lemma In_assocDelete_In {V} k k' (v : V) m :
  In (k, v) (assocDelete k' m) -> In (k, v) m.
Proof.
  induction m as [|[k0 v0] m IH]; simpl; [tauto|].
  destruct (k0 =? k'); [auto|]. intros [H | H]; auto.
Qed.

Lemma grows_deleteDependency f k :
  grows f (setPendingDependencyMap f (assocDelete k (_pendingDependencyMap f))).
Proof.
  unfold grows; simpl.
  repeat split;
    eauto using extends_refl, assocGet_assocDelete_cases, In_assocDelete_In.
Qed.

Lemma grows_appendError f e : grows f (setErrors f (_errors f ++ [e])).
Proof.
  unfold grows; simpl. repeat split; auto using extends_refl, extends_app.
Qed.

Lemma grows_setResolved f : grows f (setResolvedSubtractedQuery f true).
Proof. unfold grows; simpl. repeat split; auto using extends_refl. Qed.

Lemma grows_setFetched f : grows f (setFetchedSubtractedQuery f true).
Proof. unfold grows; simpl. repeat split; auto using extends_refl. Qed.

Lemma grows_setAwaiting f a : grows f (setAwaiting f a).
Proof. unfold grows; simpl. repeat split; auto using extends_refl. Qed.

Lemma grows_appendDependent f d :
  grows f (setDependents f (_dependents f ++ [d])).
Proof.
  unfold grows; simpl. repeat split; auto using extends_refl, extends_app.
Qed.

Lemma growsOn_refl n st : growsOn n st st.
Proof. intros x fx _ H. exists fx. auto using grows_refl. Qed.

Lemma growsOn_trans n st1 st2 st3 :
  growsOn n st1 st2 -> growsOn n st2 st3 -> growsOn n st1 st3.
Proof.
  intros H12 H23 x f1 Hx H1.
  destruct (H12 x f1 Hx H1) as (f2 & H2 & Hg).
  destruct (H23 x f2 Hx H2) as (f3 & H3 & Hg').
  exists f3. eauto using grows_trans.
Qed.

Lemma growsOn_le n m st st' : n <= m -> growsOn m st st' -> growsOn n st st'.
Proof. intros Hle H x fx Hx. apply H. lia. Qed.

Lemma growsOn_same_fetches n st st' :
  fetches st' = fetches st -> growsOn n st st'.
Proof. intros H x fx _ Hx. exists fx. rewrite H. auto using grows_refl. Qed.

Lemma growsOn_updateFetch n this g st :
  (this < n -> forall f, grows f (g f)) ->
  growsOn n st (updateFetch this g st).
Proof.
  intros Hg x fx Hx Hfx. simpl. rewrite nth_error_updateNth.
  destruct (Nat.eqb_spec x this) as [-> | Hne].
  - rewrite Hfx. simpl. eauto.
  - exists fx. auto using grows_refl.
Qed.

Lemma growsOn_fold {A} n (op : A -> Tracker -> Tracker) l st :
  (forall a st0, growsOn n st0 (op a st0)) ->
  growsOn n st (fold_left (fun st a => op a st) l st).
Proof.
  intros Hop. revert st. induction l as [|a l IH]; intros st; simpl.
  - apply growsOn_refl.
  - eapply growsOn_trans; [apply Hop | apply IH].
Qed.

Lemma growsOn_forEachDependent n this callback st :
  (forall d st0, growsOn n st0 (callback d st0)) ->
  growsOn n st (forEachDependent this callback st).
Proof.
  intros H. unfold forEachDependent.
  destruct (nth_error (fetches st) this); [| apply growsOn_refl].
  now apply growsOn_fold.
Qed.

Lemma growsOn_updateResolvedDeferred n this st :
  growsOn n st (_updateResolvedDeferred this st).
Proof.
  apply growsOn_updateFetch. auto using grows_updateResolvedDeferred.
Qed.

Lemma growsOn_mark_dependency_resolved n this queryID st :
  growsOn n st (_markDependencyAsResolved this queryID st).
Proof.
  unfold _markDependencyAsResolved.
  eapply growsOn_trans; [| apply growsOn_updateResolvedDeferred].
  apply growsOn_updateFetch. auto using grows_deleteDependency.
Qed.

Lemma growsOn_mark_dependency_rejected n this queryID error st :
  growsOn n st (_markDependencyAsRejected this queryID error st).
Proof.
  unfold _markDependencyAsRejected.
  eapply growsOn_trans; [| apply growsOn_updateResolvedDeferred].
  eapply growsOn_trans;
    [| apply growsOn_updateFetch; auto using grows_appendError].
  apply growsOn_updateFetch. auto using grows_deleteDependency.
Qed.

Lemma growsOn_deletePending n this st : growsOn n st (deletePending this st).
Proof. apply growsOn_same_fetches. apply fetches_deletePending. Qed.

Lemma growsOn_mark_resolved n this st :
  growsOn n st (_markSubtractedQueryAsResolved this st).
Proof.
  unfold _markSubtractedQueryAsResolved.
  eapply growsOn_trans;
    [| apply growsOn_forEachDependent;
       intros; apply growsOn_mark_dependency_resolved].
  eapply growsOn_trans; [| apply growsOn_updateResolvedDeferred].
  eapply growsOn_trans;
    [| apply growsOn_updateFetch; auto using grows_setResolved].
  apply growsOn_deletePending.
Qed.

Lemma growsOn_mark_rejected n this error st :
  growsOn n st (_markAsRejected this error st).
Proof.
  unfold _markAsRejected.
  eapply growsOn_trans;
    [| apply growsOn_forEachDependent;
       intros; apply growsOn_mark_dependency_rejected].
  eapply growsOn_trans; [| apply growsOn_updateResolvedDeferred].
  eapply growsOn_trans;
    [| apply growsOn_updateFetch; auto using grows_appendError].
  eapply growsOn_trans; [apply growsOn_deletePending|].
  apply growsOn_same_fetches. reflexivity.
Qed.

Lemma growsOn_addPendingDependency this d st :
  growsOn this st (_addPendingDependency this d st).
Proof.
  unfold _addPendingDependency, _addDependent.
  eapply growsOn_trans;
    [| apply growsOn_updateFetch; auto using grows_appendDependent].
  apply growsOn_updateFetch. lia.
Qed.

Lemma subtractRelayQuery_done min sub next res next' :
  subtractRelayQuery min sub next = Done res next' ->
  next <= next' /\
  forall d, res = Some d -> isRoot d = true /\ Pruned d min.
Proof.
  pose proof (visit_wp True (height min) min
                {| isEmpty := true; subtrahend := sub |} next
                (or_introl I) (le_n _)) as Hw.
  unfold subtractRelayQuery, bind. unfold wp in Hw.
  destruct (visit (height min) min _ next) as [[d st] next1 | msg |];
    try discriminate.
  destruct Hw as (Hn & _ & Hd). cbn [fst snd] in *.
  destruct (isEmpty st); cbn [negb].
  - unfold ret. intros [= <- <-]. split; [exact Hn | discriminate].
  - unfold invariant.
    destruct d as [d|]; [| discriminate].
    destruct (isRoot d) eqn:Hr; [| discriminate].
    unfold ret. intros [= <- <-]. split; [exact Hn|].
    intros d' [= <-]. split; [exact Hr | now apply Hd].
Qed.

Section TrackerRuns.

Variable containsRelayQueryRootCall : Node -> Node -> bool.
Variable handleQueryPayload : Node -> nat -> option nat -> option Error.

(** The constructor of a pending fetch, in its parts: the object is
    allocated, the pending queries are walked and the dependencies
    recorded, the collaborators are asked, and the fetch is registered or
    marked as resolved. *)
Lemma newPendingFetch_inv fetchMode forceIndex q st this st' :
  newPendingFetch containsRelayQueryRootCall fetchMode forceIndex q st
  = Ok (this, st') ->
  this = List.length (fetches st) /\
  exists remainder deps next',
    st' = finishPendingFetch this (getID q) remainder
            (request fetchMode (getID q) remainder
               (fold_left (fun st d => _addPendingDependency this d st) deps
                  (setNextRef (allocatePendingFetch forceIndex q st) next')))
    /\
    (fetchMode = PRELOAD ->
     remainder = Some q /\ deps = [] /\ next' = nextRef st) /\
    (fetchMode <> PRELOAD ->
     Walk containsRelayQueryRootCall (getRegistry (pendingFetchMap st) st)
       (Some q) (nextRef st) remainder next' deps).
Proof.
  unfold newPendingFetch.
  set (st0 := allocatePendingFetch forceIndex q st).
  set (me := List.length (fetches st)).
  assert (Hme : exists new, nth_error (fetches st0) me = Some new /\
                            _pendingFetchMap new = pendingFetchMap st).
  { eexists. unfold st0, allocatePendingFetch, me. simpl.
    rewrite nth_error_app2, Nat.sub_diag by lia. split; reflexivity. }
  assert (Hwalk : forall remainder st1,
            fetchMode <> PRELOAD ->
            _subtractPending containsRelayQueryRootCall me q st0
            = Ok (remainder, st1) ->
            Ok (me, finishPendingFetch me (getID q) remainder
                      (request fetchMode (getID q) remainder st1))
            = Ok (this, st') ->
            this = me /\
            exists remainder deps next',
              st' = finishPendingFetch this (getID q) remainder
                      (request fetchMode (getID q) remainder
                         (fold_left
                            (fun st d => _addPendingDependency this d st)
                            deps (setNextRef st0 next')))
              /\
              (fetchMode = PRELOAD ->
               remainder = Some q /\ deps = [] /\ next' = nextRef st) /\
              (fetchMode <> PRELOAD ->
               Walk containsRelayQueryRootCall
                 (getRegistry (pendingFetchMap st) st)
                 (Some q) (nextRef st) remainder next' deps)).
  { intros remainder st1 Hmode Hsub [= <- <-]. split; [reflexivity|].
    unfold _subtractPending in Hsub.
    destruct Hme as (new & Hme & Hmap). rewrite Hme, Hmap in Hsub.
    destruct (subtractPendingFrom_walk _ _ _ _ _ _ _ Hsub)
      as (deps & Hw & Hst1).
    exists remainder, deps, (nextRef st1).
    split; [now rewrite <- Hst1 | split; [contradiction |]].
    intros _. exact Hw. }
  destruct fetchMode.
  - destruct (_subtractPending containsRelayQueryRootCall me q st0)
      as [[[sq|] st1] | msg] eqn:Hsub; try discriminate;
      intros Heq; eapply Hwalk; eauto; discriminate.
  - intros [= <- <-]. split; [reflexivity|].
    exists (Some q), [], (nextRef st).
    split; [| split; [auto | intros H; now contradiction H]].
    simpl fold_left. change (nextRef st) with (nextRef st0).
    now rewrite setNextRef_same.
  - destruct (_subtractPending containsRelayQueryRootCall me q st0)
      as [[[sq|] st1] | msg] eqn:Hsub; try discriminate;
      intros Heq; eapply Hwalk; eauto; discriminate.
Qed.

Lemma growsOn_allocate forceIndex q st :
  growsOn (List.length (fetches st)) st (allocatePendingFetch forceIndex q st).
Proof.
  intros x fx Hx Hfx. exists fx. split; [| apply grows_refl].
  simpl. now rewrite nth_error_app1.
Qed.

Lemma growsOn_finishPendingFetch this queryID remainder st :
  growsOn this st (finishPendingFetch this queryID remainder st).
Proof.
  unfold finishPendingFetch.
  destruct remainder as [sq|].
  - eapply growsOn_trans; [| apply growsOn_updateFetch; lia].
    eapply growsOn_trans; [| apply growsOn_same_fetches; reflexivity].
    apply growsOn_updateFetch; lia.
  - eapply growsOn_trans; [| apply growsOn_mark_resolved].
    apply growsOn_updateFetch; lia.
Qed.

Lemma fetches_request fetchMode queryID remainder st :
  fetches (request fetchMode queryID remainder st) = fetches st.
Proof. destruct fetchMode, remainder; reflexivity. Qed.

Lemma growsOn_newPendingFetch fetchMode forceIndex q st this st' :
  newPendingFetch containsRelayQueryRootCall fetchMode forceIndex q st
  = Ok (this, st') ->
  growsOn (List.length (fetches st)) st st'.
Proof.
  intros Hnew.
  destruct (newPendingFetch_inv _ _ _ _ _ _ Hnew)
    as (-> & remainder & deps & next' & -> & _).
  eapply growsOn_trans; [| apply growsOn_finishPendingFetch].
  eapply growsOn_trans;
    [| apply growsOn_same_fetches; apply fetches_request].
  eapply growsOn_trans;
    [| apply growsOn_fold; intros; apply growsOn_addPendingDependency].
  eapply growsOn_trans; [apply growsOn_allocate|].
  apply growsOn_same_fetches. reflexivity.
Qed.

Lemma growsOn_step st st' :
  step containsRelayQueryRootCall handleQueryPayload st st' ->
  growsOn (List.length (fetches st)) st st'.
Proof.
  intros Hstep. destruct Hstep.
  - eapply growsOn_newPendingFetch; eauto.
  - apply growsOn_same_fetches. reflexivity.
  - unfold _handleSubtractedQuerySuccess.
    eapply growsOn_trans; [| apply growsOn_same_fetches; reflexivity].
    eapply growsOn_trans;
      [| apply growsOn_updateFetch; auto using grows_setFetched].
    apply growsOn_updateFetch; auto using grows_setAwaiting.
  - unfold _handleSubtractedQueryFailure.
    eapply growsOn_trans; [| apply growsOn_mark_rejected].
    apply growsOn_updateFetch; auto using grows_setAwaiting.
  - eapply growsOn_trans with (st2 := setTasks st ts);
      [apply growsOn_same_fetches; reflexivity|].
    unfold runTask.
    destruct (taskResponse t); [| apply growsOn_mark_rejected].
    destruct (handleQueryPayload _ _ _).
    + eapply growsOn_trans; [| apply growsOn_mark_rejected].
      apply growsOn_same_fetches. reflexivity.
    + eapply growsOn_trans; [| apply growsOn_mark_resolved].
      apply growsOn_same_fetches. reflexivity.
Qed.

Lemma growsOn_length st st' :
  growsOn (List.length (fetches st)) st st' ->
  List.length (fetches st) <= List.length (fetches st').
Proof.
  intros H.
  destruct (Nat.eq_dec (List.length (fetches st)) 0) as [H0 | Hne]; [lia|].
  assert (Hlast : List.length (fetches st) - 1 < List.length (fetches st))
    by lia.
  destruct (nth_error (fetches st) (List.length (fetches st) - 1))
    as [fx|] eqn:Hx; [| apply nth_error_None in Hx; lia].
  destruct (H _ _ Hlast Hx) as (fx' & Hx' & _).
  assert (Hsome : nth_error (fetches st') (List.length (fetches st) - 1)
                  <> None) by congruence.
  apply nth_error_Some in Hsome. lia.
Qed.

Lemma growsOn_steps st st' :
  steps containsRelayQueryRootCall handleQueryPayload st st' ->
  growsOn (List.length (fetches st)) st st'.
Proof.
  induction 1 as [| st st' st'' _ IH Hstep].
  - apply growsOn_refl.
  - eapply growsOn_trans; [exact IH|].
    eapply growsOn_le; [| apply growsOn_step; exact Hstep].
    now apply growsOn_length.
Qed.

Lemma reachable_steps next st st' :
  reachable containsRelayQueryRootCall handleQueryPayload next st ->
  steps containsRelayQueryRootCall handleQueryPayload st st' ->
  reachable containsRelayQueryRootCall handleQueryPayload next st'.
Proof.
  intros Hr. induction 1 as [| st st' st'' _ IH Hstep]; [assumption|].
  eapply reachable_step; [apply IH; exact Hr | exact Hstep].
Qed.

(** X6.  A pending fetch stays what it was created as.  Whatever happens to
    the tracker after it is enqueued, the fetch is still there, at the same
    reference, with the query, the force index and the registry it was created
    with: [getQuery] keeps returning the query as it was enqueued, not what
    is left of it.  Its dependents are only added to, and its pending
    dependencies only removed. *)
Theorem pending_fetch_keeps_identity st st' x fx :
  steps containsRelayQueryRootCall handleQueryPayload st st' ->
  nth_error (fetches st) x = Some fx ->
  exists fx',
    nth_error (fetches st') x = Some fx' /\
    getQuery x st' = Some (_query fx) /\
    _forceIndex fx' = _forceIndex fx /\
    _pendingFetchMap fx' = _pendingFetchMap fx /\
    extends (_dependents fx) (_dependents fx') /\
    (forall k d, assocGet k (_pendingDependencyMap fx') = Some d ->
       assocGet k (_pendingDependencyMap fx) = Some d).
Proof.
  intros Hsteps Hx.
  assert (Hlt : x < List.length (fetches st)).
  { apply nth_error_Some. congruence. }
  destruct (growsOn_steps _ _ Hsteps x fx Hlt Hx)
    as (fx' & Hx' & Hq & Hi & Hm & Hd & _ & _ & _ & _ & Hp & _).
  exists fx'. unfold getQuery. rewrite Hx'. simpl.
  repeat split; auto; try congruence.
  intros k d Hk. destruct (Hp k) as [H | H]; congruence.
Qed.

(** X7.  What a future fired with is final.  Once the future of a pending
    fetch has fired, no later event changes what it fired with; errors
    recorded later are appended after the ones recorded, and the fetch stays
    fetched and resolved when it was. *)
Theorem settlement_is_final next st st' x fx s :
  reachable containsRelayQueryRootCall handleQueryPayload next st ->
  steps containsRelayQueryRootCall handleQueryPayload st st' ->
  nth_error (fetches st) x = Some fx ->
  settlements (_resolvedDeferred fx) = [s] ->
  exists fx',
    nth_error (fetches st') x = Some fx' /\
    settlements (_resolvedDeferred fx') = [s] /\
    settled (_resolvedDeferred fx') = true /\
    extends (_errors fx) (_errors fx') /\
    (_resolvedSubtractedQuery fx = true ->
     _resolvedSubtractedQuery fx' = true) /\
    (_fetchedSubtractedQuery fx = true -> _fetchedSubtractedQuery fx' = true).
Proof.
  intros Hr Hsteps Hx Hs.
  assert (Hlt : x < List.length (fetches st)).
  { apply nth_error_Some. congruence. }
  destruct (growsOn_steps _ _ Hsteps x fx Hlt Hx)
    as (fx' & Hx' & _ & _ & _ & _ & He & Hres & Hf & [t Ht] & _).
  exists fx'. split; [exact Hx'|].
  pose proof (settledOnce_reachable _ _ _ _
                (reachable_steps _ _ _ Hr Hsteps) x fx' Hx') as [Hfired _].
  unfold firedOnce in Hfired. rewrite Ht, Hs in Hfired. simpl in Hfired.
  destruct t as [|s' t]; [| destruct s; contradiction].
  rewrite Ht, Hs. simpl.
  repeat split; auto.
  destruct s; tauto.
Qed.

End TrackerRuns.

(** ** The registries *)

Lemma entryOk_ident st st' m k e :
  option_map ident (nth_error (fetches st') (fetch e))
  = option_map ident (nth_error (fetches st) (fetch e)) ->
  entryOk st m k e -> entryOk st' m k e.
Proof.
  intros H (fe & Hfe & Hk & Hm & Hr & Hroot & Hp). rewrite Hfe in H.
  destruct (nth_error (fetches st') (fetch e)) as [fe'|] eqn:Hfe';
    [| discriminate].
  simpl in H. injection H as Hq Hm' Hr'.
  exists fe'. rewrite Hq. repeat split; congruence.
Qed.

Lemma registryOk_ident st st' :
  registries st' = registries st -> pendingFetchMap st' = pendingFetchMap st ->
  (forall n, option_map ident (nth_error (fetches st') n)
             = option_map ident (nth_error (fetches st) n)) ->
  registryOk st -> registryOk st'.
Proof.
  intros Hreg Hmap Hid (Hp & Hf & He). unfold registryOk.
  rewrite Hreg, Hmap. split; [exact Hp | split].
  - intros x fx Hx. specialize (Hid x). rewrite Hx in Hid.
    destruct (nth_error (fetches st) x) as [fx0|] eqn:Hx0; [| discriminate].
    simpl in Hid. injection Hid as _ Hm _. rewrite Hm. eauto.
  - intros m reg Hm. destruct (He m reg Hm) as [Hnd Hin].
    split; [exact Hnd|].
    intros k e Hke. eapply entryOk_ident; eauto.
Qed.

Lemma keepsField_registryOk op st :
  keepsField ident op ->
  registries (op st) = registries st ->
  pendingFetchMap (op st) = pendingFetchMap st ->
  registryOk st -> registryOk (op st).
Proof. intros Hk Hr Hp. apply registryOk_ident; auto. Qed.

Lemma In_assocDelete {V} k k' (v : V) m :
  In (k, v) (assocDelete k' m) -> In (k, v) m /\ k <> k'.
Proof.
  induction m as [|[k0 v0] m IH]; simpl; [tauto|].
  destruct (Nat.eqb_spec k0 k').
  - intros H. destruct (IH H). auto.
  - intros [[= -> ->] | H]; [auto|]. destruct (IH H). auto.
Qed.

Lemma In_assocSet {V} k k' (v v' : V) m :
  In (k, v) (assocSet k' v' m) -> (k = k' /\ v = v') \/ In (k, v) m.
Proof.
  induction m as [|[k0 v0] m IH]; simpl.
  - intros [[= -> ->] | []]. auto.
  - destruct (Nat.eqb_spec k0 k'); simpl.
    + intros [[= -> ->] | H]; auto.
    + intros [[= -> ->] | H]; auto. destruct (IH H); auto.
Qed.

Lemma keys_assocDelete {V} k k' (m : list (nat * V)) :
  In k (map fst (assocDelete k' m)) -> In k (map fst m).
Proof.
  rewrite !in_map_iff. intros ([k0 v] & <- & H).
  apply In_assocDelete in H. exists (k0, v). tauto.
Qed.

Lemma NoDup_assocDelete {V} k (m : list (nat * V)) :
  NoDup (map fst m) -> NoDup (map fst (assocDelete k m)).
Proof.
  induction m as [|[k0 v0] m IH]; simpl; [auto|].
  intros H. inversion H as [|? ? Hnin Hnd]; subst.
  destruct (k0 =? k); [auto|].
  simpl. constructor; [| auto].
  intros Hin. apply Hnin. eapply keys_assocDelete; eauto.
Qed.

Lemma keys_assocSet {V} k k' (v : V) (m : list (nat * V)) :
  In k (map fst (assocSet k' v m)) -> k = k' \/ In k (map fst m).
Proof.
  rewrite !in_map_iff. intros ([k0 v0] & <- & H).
  apply In_assocSet in H. destruct H as [[-> _] | H]; [now left|].
  right. now exists (k0, v0).
Qed.

Lemma NoDup_assocSet {V} k (v : V) (m : list (nat * V)) :
  NoDup (map fst m) -> NoDup (map fst (assocSet k v m)).
Proof.
  induction m as [|[k0 v0] m IH]; simpl.
  - intros _. constructor; [intros [] | constructor].
  - intros H. inversion H as [|? ? Hnin Hnd]; subst.
    destruct (Nat.eqb_spec k0 k) as [-> | Hne]; simpl.
    + now constructor.
    + constructor; [| auto].
      intros Hin. apply keys_assocSet in Hin.
      destruct Hin as [-> | Hin]; auto.
Qed.

Lemma assocGet_Some_In {V} k (v : V) m :
  assocGet k m = Some v -> In (k, v) m.
Proof.
  induction m as [|[k0 v0] m IH]; simpl; [discriminate|].
  destruct (Nat.eqb_spec k0 k) as [-> | Hne]; [| auto].
  intros [= ->]. now left.
Qed.

Lemma assocGet_In {V} k (v : V) m :
  NoDup (map fst m) -> (assocGet k m = Some v <-> In (k, v) m).
Proof.
  induction m as [|[k0 v0] m IH]; simpl; [intros _; split; [discriminate | tauto]|].
  intros H. inversion H as [|? ? Hnin Hnd]; subst.
  destruct (Nat.eqb_spec k0 k) as [-> | Hne].
  - split.
    + intros [= ->]. now left.
    + intros [[= ->] | Hin]; [reflexivity|].
      exfalso. apply Hnin. apply in_map_iff. now exists (k, v).
  - rewrite (IH Hnd). split; [auto|].
    intros [[= -> ->] | Hin]; [congruence | exact Hin].
Qed.

Lemma registryOk_deletePending this st :
  registryOk st ->
  registryOk (deletePending this st) /\
  forall m reg k e,
    nth_error (registries (deletePending this st)) m = Some reg ->
    In (k, e) reg -> fetch e <> this.
Proof.
  intros (Hp & Hf & He). unfold deletePending.
  destruct (nth_error (fetches st) this) as [f|] eqn:Hthis.
  - assert (Hreg : forall m reg,
              nth_error (registries
                           (updateRegistry (_pendingFetchMap f)
                              (assocDelete (getID (_query f))) st)) m
              = Some reg ->
              exists reg0, nth_error (registries st) m = Some reg0 /\
                (forall k e, In (k, e) reg ->
                   In (k, e) reg0 /\
                   (m = _pendingFetchMap f -> k <> getID (_query f))) /\
                (NoDup (map fst reg0) -> NoDup (map fst reg))).
    { intros m reg. simpl. rewrite nth_error_updateNth.
      destruct (Nat.eqb_spec m (_pendingFetchMap f)) as [-> | Hne].
      - destruct (nth_error (registries st) (_pendingFetchMap f))
          as [reg0|]; [| discriminate].
        simpl. intros [= <-]. exists reg0. split; [reflexivity | split].
        + intros k e Hin. apply In_assocDelete in Hin. tauto.
        + apply NoDup_assocDelete.
      - intros Hm. exists reg. split; [exact Hm | split; [| auto]].
        intros k e Hin. split; [exact Hin | contradiction]. }
    split.
    + split; [| split].
      * simpl. now rewrite length_updateNth.
      * intros x fx Hx. simpl. rewrite length_updateNth. eapply Hf; eauto.
      * intros m reg Hm. destruct (Hreg m reg Hm) as (reg0 & Hm0 & Hin & Hnd).
        destruct (He m reg0 Hm0) as [Hnd0 He0].
        split; [auto|].
        intros k e Hke. destruct (Hin k e Hke) as [Hke0 _].
        exact (He0 k e Hke0).
    + intros m reg k e Hm Hke.
      destruct (Hreg m reg Hm) as (reg0 & Hm0 & Hin & _).
      destruct (Hin k e Hke) as [Hke0 Hne].
      destruct (He m reg0 Hm0) as [_ He0].
      destruct (He0 k e Hke0) as (fe & Hfe & Hk & Hmap & _).
      intros Heq. rewrite Heq, Hthis in Hfe. injection Hfe as <-.
      now apply Hne.
  - split; [exact (conj Hp (conj Hf He))|].
    intros m reg k e Hm Hke.
    destruct (He m reg Hm) as [_ He0].
    destruct (He0 k e Hke) as (fe & Hfe & _).
    congruence.
Qed.

Lemma field_after_mark_resolved_other {X} (proj : PendingFetch -> X)
    this st n :
  (forall f m, proj (setPendingDependencyMap f m) = proj f) ->
  (forall f d, proj (setResolvedDeferred f d) = proj f) ->
  n <> this ->
  option_map proj
    (nth_error (fetches (_markSubtractedQueryAsResolved this st)) n)
  = option_map proj (nth_error (fetches st) n).
Proof.
  intros H1 H2 Hne. unfold _markSubtractedQueryAsResolved.
  rewrite (keepsField_forEachDependent proj this
             (fun dependent =>
                _markDependencyAsResolved dependent (queryIDOf this st))).
  2:{ intros d. now apply keepsField_mark_dependency_resolved. }
  rewrite (keepsField_updateResolvedDeferred proj this H2).
  simpl. rewrite nth_error_updateNth_other by assumption.
  now rewrite fetches_deletePending.
Qed.

Lemma pendingFetchMap_deletePending this st :
  pendingFetchMap (deletePending this st) = pendingFetchMap st.
Proof. unfold deletePending. now destruct (nth_error (fetches st) this). Qed.

Lemma pendingFetchMap_mark_resolved this st :
  pendingFetchMap (_markSubtractedQueryAsResolved this st) = pendingFetchMap st.
Proof.
  pose proof (besidesFetches_mark_resolved this st) as H.
  unfold besidesFetches in H.
  assert (H' : pendingFetchMap (_markSubtractedQueryAsResolved this st)
               = pendingFetchMap (deletePending this st)) by congruence.
  rewrite H'. unfold deletePending.
  now destruct (nth_error (fetches st) this).
Qed.

Lemma pendingFetchMap_mark_rejected this error st :
  pendingFetchMap (_markAsRejected this error st) = pendingFetchMap st.
Proof.
  pose proof (besidesFetches_mark_rejected this error st) as H.
  unfold besidesFetches in H.
  assert (H' : pendingFetchMap (_markAsRejected this error st)
               = pendingFetchMap (warn error (deletePending this st)))
    by congruence.
  rewrite H'. unfold deletePending.
  now destruct (nth_error (fetches st) this).
Qed.

Lemma registryOk_mark_resolved this st :
  registryOk st -> registryOk (_markSubtractedQueryAsResolved this st).
Proof.
  intros Hok.
  destruct (registryOk_deletePending this st Hok) as [(Hp & Hf & He) Hne].
  unfold registryOk.
  rewrite registries_mark_resolved, pendingFetchMap_mark_resolved.
  split; [| split].
  - now rewrite pendingFetchMap_deletePending in Hp.
  - intros x fx Hx.
    pose proof (field_after_mark_resolved _pendingFetchMap this st x
                  (fun _ _ => eq_refl) (fun _ _ => eq_refl)
                  (fun _ _ => eq_refl)) as Hm.
    rewrite Hx in Hm.
    destruct (nth_error (fetches st) x) as [fx0|] eqn:Hx0; [| discriminate].
    simpl in Hm. injection Hm as ->.
    rewrite <- fetches_deletePending with (this := this) in Hx0. eauto.
  - intros m reg Hm. destruct (He m reg Hm) as [Hnd He0].
    split; [exact Hnd|].
    intros k e Hke. specialize (Hne m reg k e Hm Hke).
    eapply entryOk_ident; [| exact (He0 k e Hke)].
    rewrite fetches_deletePending.
    apply field_after_mark_resolved_other; auto.
Qed.

Lemma registryOk_mark_rejected this error st :
  registryOk st -> registryOk (_markAsRejected this error st).
Proof.
  intros Hok.
  destruct (registryOk_deletePending this st Hok) as [Hdel _].
  eapply registryOk_ident; [| | | exact Hdel].
  - apply registries_mark_rejected.
  - now rewrite pendingFetchMap_mark_rejected, pendingFetchMap_deletePending.
  - intros n. rewrite fetches_deletePending.
    now apply field_after_mark_rejected.
Qed.

Lemma entryOk_same_fetches st st' m k e :
  fetches st' = fetches st -> entryOk st m k e -> entryOk st' m k e.
Proof. unfold entryOk. now intros ->. Qed.

Lemma registryOk_same st st' :
  fetches st' = fetches st -> registries st' = registries st ->
  pendingFetchMap st' = pendingFetchMap st ->
  registryOk st -> registryOk st'.
Proof.
  intros Hf Hr Hp. apply registryOk_ident; auto.
  intros n. now rewrite Hf.
Qed.

Lemma registryOk_allocate forceIndex q st :
  registryOk st -> registryOk (allocatePendingFetch forceIndex q st).
Proof.
  intros (Hp & Hf & He). split; [exact Hp | split].
  - intros x fx Hx. simpl in Hx. apply nth_error_snoc in Hx.
    destruct Hx as [Hx | [_ ->]]; [eapply Hf; eauto | exact Hp].
  - intros m reg Hm. destruct (He m reg Hm) as [Hnd He0].
    split; [exact Hnd|].
    intros k e Hke. destruct (He0 k e Hke) as (fe & Hfe & H).
    exists fe. split; [| exact H].
    simpl. rewrite nth_error_app1; [exact Hfe|].
    apply nth_error_Some. congruence.
Qed.

Lemma registries_fold_dependencies this deps st :
  registries (fold_left (fun st d => _addPendingDependency this d st) deps st)
  = registries st /\
  pendingFetchMap
    (fold_left (fun st d => _addPendingDependency this d st) deps st)
  = pendingFetchMap st.
Proof.
  pose proof (besidesFetches_fold_dependencies this deps st) as H.
  unfold besidesFetches in H. split; congruence.
Qed.

Lemma registryOk_fold_dependencies this deps st :
  registryOk st ->
  registryOk (fold_left (fun st d => _addPendingDependency this d st) deps st).
Proof.
  destruct (registries_fold_dependencies this deps st) as [Hr Hp].
  apply registryOk_ident; auto.
  intros n.
  apply (keepsField_fold_dependencies ident this deps
           (fun _ _ => eq_refl) (fun _ _ => eq_refl)).
Qed.

Lemma registryOk_request fetchMode queryID remainder st :
  registryOk st -> registryOk (request fetchMode queryID remainder st).
Proof.
  apply registryOk_same; destruct fetchMode, remainder; reflexivity.
Qed.

Lemma registryOk_finishPendingFetch this remainder st f :
  registryOk st ->
  nth_error (fetches st) this = Some f ->
  _pendingFetchMap f = pendingFetchMap st ->
  _resolvedSubtractedQuery f = false ->
  isRoot (_query f) = true ->
  (forall sq, remainder = Some sq -> Pruned sq (_query f)) ->
  registryOk (finishPendingFetch this (getID (_query f)) remainder st).
Proof.
  intros Hok Hthis Hmap Hres Hroot Hpruned. unfold finishPendingFetch.
  set (g := fun f0 => setErrors
                        (setFetchedSubtractedQuery f0
                           match remainder with
                           | Some _ => false
                           | None => true
                           end) []).
  assert (Hok1 : registryOk (updateFetch this g st)).
  { apply (keepsField_registryOk (updateFetch this g)); auto.
    now apply keepsField_updateFetch. }
  destruct remainder as [sq|]; [| now apply registryOk_mark_resolved].
  eapply (keepsField_registryOk
            (updateFetch this (fun f0 => setAwaiting f0 (Some sq))));
    [now apply keepsField_updateFetch | reflexivity | reflexivity |].
  destruct Hok1 as (Hp & Hf & He).
  split; [| split].
  - simpl. now rewrite length_updateNth.
  - intros x fx Hx. simpl. rewrite length_updateNth. eapply Hf; eauto.
  - intros m reg. simpl. rewrite nth_error_updateNth.
    destruct (Nat.eqb_spec m (pendingFetchMap st)) as [-> | Hne].
    + destruct (nth_error (registries st) (pendingFetchMap st))
        as [reg0|] eqn:Hreg0; [| discriminate].
      simpl. intros [= <-].
      destruct (He (pendingFetchMap st) reg0 Hreg0) as [Hnd He0].
      split; [now apply NoDup_assocSet|].
      intros k e Hke. apply In_assocSet in Hke.
      destruct Hke as [[-> ->] | Hke].
      * exists (g f). simpl. rewrite nth_error_updateNth_same, Hthis.
        repeat split; auto.
      * eapply entryOk_same_fetches; [| exact (He0 k e Hke)]. reflexivity.
    + intros Hm. destruct (He m reg Hm) as [Hnd He0].
      split; [exact Hnd|].
      intros k e Hke.
      eapply entryOk_same_fetches; [| exact (He0 k e Hke)]. reflexivity.
Qed.

Lemma Walk_None overlaps entries next r next' deps :
  Walk overlaps entries None next r next' deps ->
  r = None /\ deps = [] /\ next' = next.
Proof. inversion 1; subst; auto. Qed.

Lemma Walk_pruned overlaps entries q0 next r next' deps :
  Walk overlaps entries q0 next r next' deps ->
  next <= next' /\
  forall q d, q0 = Some q -> isRoot q = true -> r = Some d ->
    isRoot d = true /\ Pruned d q.
Proof.
  induction 1 as [q next | k pending rest next
                 | k pending rest q next remainder next' deps Hc Hw IH
                 | k pending rest q next left next1 remainder next' deps
                     Hc Hsub Hsame Hw IH
                 | k pending rest q next left next1 remainder next' deps
                     Hc Hsub Hsame Hw IH].
  - split; [lia|]. intros q0 d -> Hr [= <-]. split; [exact Hr | constructor].
  - split; [lia|]. discriminate.
  - exact IH.
  - destruct (subtractRelayQuery_done _ _ _ _ _ Hsub) as [Hn _].
    split; [lia|]. apply IH.
  - destruct (subtractRelayQuery_done _ _ _ _ _ Hsub) as [Hn Hd].
    split; [lia|].
    intros q0 d [= <-] Hr ->.
    destruct left as [l|].
    + destruct (Hd l eq_refl) as [Hrl Hpl].
      destruct IH as [_ IH]. destruct (IH l d eq_refl Hrl eq_refl) as [H1 H2].
      split; [exact H1 | eapply Pruned_trans; eauto].
    + apply Walk_None in Hw. destruct Hw as [Hw _]. discriminate.
Qed.

Lemma Walk_deps overlaps entries q0 next r next' deps d :
  Walk overlaps entries q0 next r next' deps ->
  In d deps -> exists k e, In (k, e) entries /\ fetch e = d.
Proof.
  induction 1 as [q next | k pending rest next
                 | k pending rest q next remainder next' deps Hc Hw IH
                 | k pending rest q next left next1 remainder next' deps
                     Hc Hsub Hsame Hw IH
                 | k pending rest q next left next1 remainder next' deps
                     Hc Hsub Hsame Hw IH].
  - intros [].
  - intros [].
  - intros Hd. destruct (IH Hd) as (k' & e & Hin & He).
    exists k', e. split; [now right | exact He].
  - intros Hd. destruct (IH Hd) as (k' & e & Hin & He).
    exists k', e. split; [now right | exact He].
  - intros [<- | Hd].
    + exists k, pending. split; [now left | reflexivity].
    + destruct (IH Hd) as (k' & e & Hin & He).
      exists k', e. split; [now right | exact He].
Qed.

Lemma pendingFetchMap_request fetchMode queryID remainder st :
  pendingFetchMap (request fetchMode queryID remainder st) = pendingFetchMap st
  /\ registries (request fetchMode queryID remainder st) = registries st.
Proof. destruct fetchMode, remainder; split; reflexivity. Qed.

(** The pending fetch under construction, once the pending queries are
    walked: its fields that recording a dependency leaves alone are the
    ones it was allocated with. *)
Lemma this_after_walk {X} (proj : PendingFetch -> X) fetchMode forceIndex q
    remainder deps next' st :
  (forall f m, proj (setPendingDependencyMap f m) = proj f) ->
  (forall f ds, proj (setDependents f ds) = proj f) ->
  exists f,
    nth_error
      (fetches
         (request fetchMode (getID q) remainder
            (fold_left
               (fun st0 d =>
                  _addPendingDependency (List.length (fetches st)) d st0)
               deps
               (setNextRef (allocatePendingFetch forceIndex q st) next'))))
      (List.length (fetches st)) = Some f /\
    proj f = proj (newFetch forceIndex q (pendingFetchMap st)).
Proof.
  intros H1 H2. rewrite fetches_request.
  pose proof (keepsField_fold_dependencies proj (List.length (fetches st))
                deps H1 H2
                (setNextRef (allocatePendingFetch forceIndex q st) next')
                (List.length (fetches st))) as H.
  cbv beta in H.
  change (fetches (setNextRef (allocatePendingFetch forceIndex q st) next'))
    with (fetches st ++ [newFetch forceIndex q (pendingFetchMap st)]) in H.
  rewrite (nth_error_app2 (fetches st)), Nat.sub_diag in H by lia.
  simpl in H.
  destruct (nth_error _ (List.length (fetches st))) as [f|];
    [| discriminate].
  exists f. split; [reflexivity | now injection H].
Qed.

Section RegistryInvariant.

Variable containsRelayQueryRootCall : Node -> Node -> bool.
Variable handleQueryPayload : Node -> nat -> option nat -> option Error.

Lemma registryOk_newPendingFetch fetchMode forceIndex q st this st' :
  isRoot q = true -> registryOk st ->
  newPendingFetch containsRelayQueryRootCall fetchMode forceIndex q st
  = Ok (this, st') ->
  registryOk st'.
Proof.
  intros Hroot Hok Hnew.
  destruct (newPendingFetch_inv _ _ _ _ _ _ _ Hnew)
    as (-> & remainder & deps & next' & -> & Hpre & Hwalk).
  destruct (this_after_walk ident fetchMode forceIndex q remainder deps next'
              st (fun _ _ => eq_refl) (fun _ _ => eq_refl))
    as (f & Hf & Hid).
  injection Hid as Hq Hm Hr.
  rewrite <- Hq at 1.
  apply registryOk_finishPendingFetch with (f := f); auto.
  - apply registryOk_request, registryOk_fold_dependencies.
    eapply registryOk_same; [| | | apply registryOk_allocate; exact Hok];
      reflexivity.
  - rewrite Hm.
    rewrite (proj1 (pendingFetchMap_request _ _ _ _)).
    now rewrite (proj2 (registries_fold_dependencies _ _ _)).
  - now rewrite Hq.
  - intros sq ->. rewrite Hq.
    assert (Hcases : fetchMode = PRELOAD \/ fetchMode <> PRELOAD)
      by (destruct fetchMode; auto; right; discriminate).
    destruct Hcases as [Hp | Hp].
    + destruct (Hpre Hp) as ([= <-] & _). constructor.
    + destruct (Walk_pruned _ _ _ _ _ _ _ (Hwalk Hp)) as [_ H].
      now destruct (H q sq eq_refl Hroot eq_refl).
Qed.

Lemma registryOk_step st st' :
  step containsRelayQueryRootCall handleQueryPayload st st' ->
  registryOk st -> registryOk st'.
Proof.
  intros Hstep Hok. destruct Hstep.
  - eapply registryOk_newPendingFetch; eauto.
  - destruct Hok as (Hp & Hf & He). split; [| split].
    + simpl. rewrite length_app. simpl. lia.
    + intros x fx Hx. simpl. rewrite length_app. simpl.
      specialize (Hf x fx Hx). lia.
    + intros m reg. simpl. intros Hm.
      destruct (nth_error (registries st) m) as [reg0|] eqn:Hm0.
      * rewrite nth_error_app1 in Hm by (apply nth_error_Some; congruence).
        rewrite Hm0 in Hm. injection Hm as <-.
        destruct (He m reg0 Hm0) as [Hnd He0]. split; [exact Hnd|].
        intros k e Hke.
        eapply entryOk_same_fetches; [| exact (He0 k e Hke)]. reflexivity.
      * apply nth_error_None in Hm0.
        rewrite nth_error_app2 in Hm by assumption.
        destruct (m - List.length (registries st)) as [|n];
          [| now destruct n].
        injection Hm as <-. split; [constructor | intros k e []].
  - unfold _handleSubtractedQuerySuccess.
    eapply registryOk_same with
      (st := updateFetch this (fun f => setFetchedSubtractedQuery f true)
               (updateFetch this (fun f => setAwaiting f None) st));
      try reflexivity.
    apply (keepsField_registryOk
             (updateFetch this (fun f => setFetchedSubtractedQuery f true)));
      [now apply keepsField_updateFetch | reflexivity | reflexivity |].
    apply (keepsField_registryOk
             (updateFetch this (fun f => setAwaiting f None)));
      [now apply keepsField_updateFetch | reflexivity | reflexivity |].
    exact Hok.
  - apply registryOk_mark_rejected.
    apply (keepsField_registryOk
             (updateFetch this (fun f => setAwaiting f None)));
      [now apply keepsField_updateFetch | reflexivity | reflexivity |].
    exact Hok.
  - assert (Hts : registryOk (setTasks st ts)).
    { eapply registryOk_same; [| | | exact Hok]; reflexivity. }
    unfold runTask.
    destruct (taskResponse t); [| now apply registryOk_mark_rejected].
    destruct (handleQueryPayload _ _ _).
    + apply registryOk_mark_rejected.
      eapply registryOk_same; [| | | exact Hts]; reflexivity.
    + apply registryOk_mark_resolved.
      eapply registryOk_same; [| | | exact Hts]; reflexivity.
Qed.

Lemma registryOk_reachable next st :
  reachable containsRelayQueryRootCall handleQueryPayload next st ->
  registryOk st.
Proof.
  induction 1 as [| st st' _ IH Hstep].
  - split; [simpl; lia | split].
    + intros x fx Hx. now destruct x.
    + intros m reg Hm. destruct m as [|m]; [| now destruct m].
      injection Hm as <-. split; [constructor | intros k e []].
  - eapply registryOk_step; eauto.
Qed.

End RegistryInvariant.

(** ** What is asked of the network *)

Lemma network_deletePending this st :
  network (deletePending this st) = network st.
Proof. unfold deletePending. now destruct (nth_error (fetches st) this). Qed.

Lemma network_mark_resolved this st :
  network (_markSubtractedQueryAsResolved this st) = network st.
Proof.
  pose proof (besidesFetches_mark_resolved this st) as H.
  unfold besidesFetches in H.
  assert (H' : network (_markSubtractedQueryAsResolved this st)
               = network (deletePending this st)) by congruence.
  now rewrite H', network_deletePending.
Qed.

Lemma network_mark_rejected this error st :
  network (_markAsRejected this error st) = network st.
Proof.
  pose proof (besidesFetches_mark_rejected this error st) as H.
  unfold besidesFetches in H.
  assert (H' : network (_markAsRejected this error st)
               = network (warn error (deletePending this st))) by congruence.
  rewrite H'. simpl. apply network_deletePending.
Qed.

Lemma network_fold_dependencies this deps st :
  network (fold_left (fun st d => _addPendingDependency this d st) deps st)
  = network st.
Proof.
  pose proof (besidesFetches_fold_dependencies this deps st) as H.
  unfold besidesFetches in H. congruence.
Qed.

Lemma networkOk_grows st st' :
  growsOn (List.length (fetches st)) st st' ->
  network st' = network st -> networkOk st -> networkOk st'.
Proof.
  intros Hg Hn Hok sq Hsq. rewrite Hn in Hsq.
  destruct (Hok sq Hsq) as (Hroot & x & fx & Hx & Hp).
  split; [exact Hroot|].
  assert (Hlt : x < List.length (fetches st)).
  { apply nth_error_Some. congruence. }
  destruct (Hg x fx Hlt Hx) as (fx' & Hx' & Hq & _).
  exists x, fx'. split; [exact Hx' | now rewrite Hq].
Qed.

Lemma keepsField_finishPendingFetch {X} (proj : PendingFetch -> X)
    this queryID remainder :
  (forall f m, proj (setPendingDependencyMap f m) = proj f) ->
  (forall f d, proj (setResolvedDeferred f d) = proj f) ->
  (forall f b, proj (setResolvedSubtractedQuery f b) = proj f) ->
  (forall f es, proj (setErrors f es) = proj f) ->
  (forall f b, proj (setFetchedSubtractedQuery f b) = proj f) ->
  (forall f a, proj (setAwaiting f a) = proj f) ->
  keepsField proj (finishPendingFetch this queryID remainder).
Proof.
  intros H1 H2 H3 H4 H5 H6 st n. unfold finishPendingFetch.
  destruct remainder as [sq|].
  - simpl. rewrite !nth_error_updateNth.
    destruct (n =? this); [| reflexivity].
    destruct (nth_error (fetches st) n); simpl; [| reflexivity].
    now rewrite H6, H4, H5.
  - rewrite field_after_mark_resolved by assumption.
    simpl. rewrite nth_error_updateNth.
    destruct (n =? this); [| reflexivity].
    destruct (nth_error (fetches st) n); simpl; [| reflexivity].
    now rewrite H4, H5.
Qed.

Section NetworkInvariant.

Variable containsRelayQueryRootCall : Node -> Node -> bool.
Variable handleQueryPayload : Node -> nat -> option nat -> option Error.

Lemma networkOk_step st st' :
  step containsRelayQueryRootCall handleQueryPayload st st' ->
  networkOk st -> networkOk st'.
Proof.
  intros Hstep Hok.
  pose proof (growsOn_step _ _ _ _ Hstep) as Hg.
  destruct Hstep as [fetchMode forceIndex q st this st' Hroot Hnew | st
                    | this f sq result st Hf Ha | this f sq error st Hf Ha
                    | t ts st Ht].
  - destruct (newPendingFetch_inv _ _ _ _ _ _ _ Hnew)
      as (-> & remainder & deps & next' & Hst' & Hpre & Hwalk).
    destruct (this_after_walk _query fetchMode forceIndex q remainder deps
                next' st (fun _ _ => eq_refl) (fun _ _ => eq_refl))
      as (f & Hf & Hq).
    match type of Hf with
    | nth_error (fetches ?s) _ = _ => set (st3 := s) in *
    end.
    pose proof (keepsField_finishPendingFetch _query
                  (List.length (fetches st)) (getID q) remainder
                  (fun _ _ => eq_refl) (fun _ _ => eq_refl)
                  (fun _ _ => eq_refl) (fun _ _ => eq_refl)
                  (fun _ _ => eq_refl) (fun _ _ => eq_refl)
                  st3 (List.length (fetches st))) as Hkeep.
    rewrite Hf in Hkeep. rewrite <- Hst' in Hkeep.
    destruct (nth_error (fetches st') (List.length (fetches st)))
      as [f'|] eqn:Hf'; [| discriminate].
    simpl in Hkeep, Hq. injection Hkeep as Hq'.
    assert (Hnet : network st' = network st \/
                   exists sq, remainder = Some sq /\
                              network st' = network st ++ [sq]).
    { rewrite Hst', network_finishPendingFetch. fold st3. unfold st3.
      destruct fetchMode, remainder as [sq|]; simpl;
        rewrite network_fold_dependencies; simpl; eauto. }
    intros sq Hsq.
    destruct Hnet as [Hnet | (sq' & -> & Hnet)].
    + now apply (networkOk_grows st st' Hg Hnet Hok).
    + rewrite Hnet in Hsq. apply in_app_or in Hsq.
      destruct Hsq as [Hsq | [<- | []]].
      * destruct (Hok sq Hsq) as (Hr & x & fx & Hx & Hp).
        split; [exact Hr|].
        assert (Hlt : x < List.length (fetches st)).
        { apply nth_error_Some. congruence. }
        destruct (Hg x fx Hlt Hx) as (fx' & Hx' & Hqx & _).
        exists x, fx'. split; [exact Hx' | now rewrite Hqx].
      * assert (Hp : isRoot sq' = true /\ Pruned sq' q).
        { assert (Hcases : fetchMode = PRELOAD \/ fetchMode <> PRELOAD)
            by (destruct fetchMode; auto; right; discriminate).
          destruct Hcases as [Hm | Hm].
          - destruct (Hpre Hm) as ([= <-] & _). split; [exact Hroot|].
            constructor.
          - destruct (Walk_pruned _ _ _ _ _ _ _ (Hwalk Hm)) as [_ H].
            exact (H q sq' eq_refl Hroot eq_refl). }
        split; [tauto|].
        exists (List.length (fetches st)), f'.
        split; [exact Hf'|]. rewrite Hq', Hq. tauto.
  - apply (networkOk_grows st _ Hg); [reflexivity | exact Hok].
  - apply (networkOk_grows st _ Hg); [reflexivity | exact Hok].
  - apply (networkOk_grows st _ Hg); [| exact Hok].
    unfold _handleSubtractedQueryFailure. now rewrite network_mark_rejected.
  - apply (networkOk_grows st _ Hg); [| exact Hok].
    unfold runTask.
    destruct (taskResponse t); [| now rewrite network_mark_rejected].
    destruct (handleQueryPayload _ _ _).
    + now rewrite network_mark_rejected.
    + now rewrite network_mark_resolved.
Qed.

Lemma networkOk_reachable next st :
  reachable containsRelayQueryRootCall handleQueryPayload next st ->
  networkOk st.
Proof.
  induction 1 as [| st st' _ IH Hstep].
  - intros sq [].
  - eapply networkOk_step; eauto.
Qed.

(** X8.  The registry holds pending fetches only.  In every state that the
    tracker reaches, an entry of a registry is the only one under its key, and
    its fetch is a pending fetch that was created with this registry, whose
    query has the key as its identifier and has not been marked as resolved;
    the query of the entry is a root, the query of the fetch pruned. *)
Theorem registry_holds_pending_fetches next st m reg k e :
  reachable containsRelayQueryRootCall handleQueryPayload next st ->
  nth_error (registries st) m = Some reg -> In (k, e) reg ->
  assocGet k reg = Some e /\
  exists fe,
    nth_error (fetches st) (fetch e) = Some fe /\
    getID (_query fe) = k /\ _pendingFetchMap fe = m /\
    _resolvedSubtractedQuery fe = false /\
    isRoot (query e) = true /\ Pruned (query e) (_query fe).
Proof.
  intros Hr Hm Hke.
  destruct (registryOk_reachable _ _ _ _ Hr) as (_ & _ & He).
  destruct (He m reg Hm) as [Hnd He0].
  split; [now apply assocGet_In|].
  destruct (He0 k e Hke) as (fe & Hfe & Hk & Hmap & Hres & Hroot & Hp).
  exists fe. repeat split; auto.
  now rewrite (Pruned_isRoot _ _ Hp).
Qed.

(** X9.  The network is asked for nothing that was not enqueued.  In every
    state that the tracker reaches, each query sent to the network layer is a
    root that is the query of a pending fetch, pruned. *)
Theorem network_asked_for_enqueued_only next st sq :
  reachable containsRelayQueryRootCall handleQueryPayload next st ->
  In sq (network st) ->
  isRoot sq = true /\
  exists x fx, nth_error (fetches st) x = Some fx /\ Pruned sq (_query fx).
Proof.
  intros Hr. apply (networkOk_reachable _ _ Hr).
Qed.

End NetworkInvariant.

(** ** The dependencies between pending fetches *)

Lemma sameField_refl {X} (proj : PendingFetch -> X) st : sameField proj st st.
Proof. intros n. reflexivity. Qed.

Lemma sameField_trans {X} (proj : PendingFetch -> X) st1 st2 st3 :
  sameField proj st1 st2 -> sameField proj st2 st3 -> sameField proj st1 st3.
Proof. intros H1 H2 n. now rewrite H2, H1. Qed.

Lemma sameField_keeps {X} (proj : PendingFetch -> X) op st :
  keepsField proj op -> sameField proj st (op st).
Proof. intros H n. apply H. Qed.

Lemma sameField_same_fetches {X} (proj : PendingFetch -> X) st st' :
  fetches st' = fetches st -> sameField proj st st'.
Proof. intros H n. now rewrite H. Qed.

Lemma sameField_lookup {X} (proj : PendingFetch -> X) st st' n f' :
  sameField proj st st' -> nth_error (fetches st') n = Some f' ->
  exists f, nth_error (fetches st) n = Some f /\ proj f' = proj f.
Proof.
  intros H Hn. specialize (H n). rewrite Hn in H.
  destruct (nth_error (fetches st) n) as [f|]; [| discriminate].
  exists f. split; [reflexivity | now injection H].
Qed.

Lemma sameField_length {X} (proj : PendingFetch -> X) st st' :
  sameField proj st st' ->
  List.length (fetches st') = List.length (fetches st).
Proof.
  intros H.
  assert (Hle : forall l l' : list PendingFetch,
            (forall n, option_map proj (nth_error l' n)
                       = option_map proj (nth_error l n)) ->
            List.length l <= List.length l').
  { intros l l' Hn.
    destruct (Nat.le_gt_cases (List.length l) (List.length l')) as [|Hlt];
      [assumption|].
    specialize (Hn (List.length l')).
    rewrite (proj2 (nth_error_None l' _)) in Hn by lia.
    destruct (nth_error l (List.length l')) eqn:Hl; [discriminate|].
    apply nth_error_None in Hl. lia. }
  apply Nat.le_antisymm; apply Hle; intros n; [symmetry|]; apply H.
Qed.

Lemma edgesOk_shape st st' :
  sameField shape st st' -> edgesOk st -> edgesOk st'.
Proof.
  intros Hs Hok d fd' f Hd Hf.
  destruct (sameField_lookup shape st st' d fd' Hs Hd) as (fd & Hd0 & Heq).
  injection Heq as Hdep _. rewrite Hdep in Hf.
  rewrite (sameField_length shape st st' Hs). eauto.
Qed.

Lemma distinctDependencies_shape st st' :
  sameField shape st st' -> distinctDependencies st -> distinctDependencies st'.
Proof.
  intros Hs Hok f d d' fd fd' Hd Hd' Hf Hf' Hid.
  destruct (sameField_lookup shape st st' d fd Hs Hd) as (fd0 & Hd0 & Heq).
  destruct (sameField_lookup shape st st' d' fd' Hs Hd')
    as (fd0' & Hd0' & Heq').
  injection Heq as Hdep Hq. injection Heq' as Hdep' Hq'.
  rewrite Hdep in Hf. rewrite Hdep' in Hf'. rewrite Hq, Hq' in Hid.
  eapply Hok; eauto.
Qed.

Lemma dependenciesOk_grows st st' :
  sameField shape st st' -> growsOn (List.length (fetches st)) st st' ->
  dependenciesOk st -> dependenciesOk st'.
Proof.
  intros Hs Hg Hok f ff' k d Hf Hk.
  destruct (sameField_lookup shape st st' f ff' Hs Hf) as (ff & Hf0 & _).
  assert (Hlt : f < List.length (fetches st)).
  { apply nth_error_Some. congruence. }
  destruct (Hg f ff Hlt Hf0) as (ff2 & Hf2 & Hgrow).
  rewrite Hf in Hf2. injection Hf2 as <-.
  destruct Hgrow as (_ & _ & _ & _ & _ & _ & _ & _ & _ & Hmap).
  assert (Hk0 : In (k, d) (_pendingDependencyMap ff)) by auto.
  destruct (Hok f ff k d Hf0 Hk0) as (fd & Hd & Hid & Hin).
  specialize (Hs d). rewrite Hd in Hs.
  destruct (nth_error (fetches st') d) as [fd'|]; [| discriminate].
  simpl in Hs. injection Hs as Hdep Hq.
  exists fd'. repeat split; congruence.
Qed.

Lemma assocGet_assocSet_other {V} k k' (v : V) m :
  k <> k' -> assocGet k (assocSet k' v m) = assocGet k m.
Proof.
  intros Hk. induction m as [|[k0 v0] m IH]; simpl.
  - destruct (Nat.eqb_spec k' k); [congruence | reflexivity].
  - destruct (Nat.eqb_spec k0 k'); simpl.
    + subst. destruct (Nat.eqb_spec k' k); [congruence | reflexivity].
    + destruct (k0 =? k); [reflexivity | exact IH].
Qed.

Lemma nth_error_addPendingDependency this d st fd n :
  nth_error (fetches st) d = Some fd ->
  nth_error (fetches (_addPendingDependency this d st)) n
  = option_map (withDependency this d fd n) (nth_error (fetches st) n).
Proof.
  intros Hd. unfold _addPendingDependency, _addDependent, queryIDOf.
  rewrite Hd. simpl. rewrite !nth_error_updateNth. unfold withDependency.
  destruct (n =? d), (n =? this), (nth_error (fetches st) n); reflexivity.
Qed.

Lemma withDependency_fields this d fd n fn :
  _query (withDependency this d fd n fn) = _query fn /\
  _resolvedSubtractedQuery (withDependency this d fd n fn)
  = _resolvedSubtractedQuery fn /\
  _resolvedDeferred (withDependency this d fd n fn) = _resolvedDeferred fn /\
  _dependents (withDependency this d fd n fn)
  = (if n =? d then _dependents fn ++ [this] else _dependents fn) /\
  _pendingDependencyMap (withDependency this d fd n fn)
  = (if n =? this
     then assocSet (getID (_query fd)) d (_pendingDependencyMap fn)
     else _pendingDependencyMap fn).
Proof.
  unfold withDependency. destruct (n =? d), (n =? this); repeat split.
Qed.

(** What [_addPendingDependency] leaves of a pending fetch. *)
Lemma addPendingDependency_lookup this d st fd n fn' :
  nth_error (fetches st) d = Some fd ->
  nth_error (fetches (_addPendingDependency this d st)) n = Some fn' ->
  exists fn,
    nth_error (fetches st) n = Some fn /\
    _query fn' = _query fn /\
    _resolvedSubtractedQuery fn' = _resolvedSubtractedQuery fn /\
    _resolvedDeferred fn' = _resolvedDeferred fn /\
    _dependents fn'
    = (if n =? d then _dependents fn ++ [this] else _dependents fn) /\
    _pendingDependencyMap fn'
    = (if n =? this
       then assocSet (getID (_query fd)) d (_pendingDependencyMap fn)
       else _pendingDependencyMap fn).
Proof.
  intros Hd. rewrite (nth_error_addPendingDependency this d st fd n Hd).
  destruct (nth_error (fetches st) n) as [fn|]; [| discriminate].
  simpl. intros [= <-]. exists fn. split; [reflexivity|].
  apply withDependency_fields.
Qed.

Lemma addPendingDependency_valid this d st fd n fn :
  nth_error (fetches st) d = Some fd ->
  nth_error (fetches st) n = Some fn ->
  nth_error (fetches (_addPendingDependency this d st)) n
  = Some (withDependency this d fd n fn).
Proof.
  intros Hd Hn. now rewrite (nth_error_addPendingDependency this d st fd n Hd), Hn.
Qed.

Lemma length_addPendingDependency this d st :
  List.length (fetches (_addPendingDependency this d st))
  = List.length (fetches st).
Proof.
  unfold _addPendingDependency, _addDependent. simpl.
  now rewrite !length_updateNth.
Qed.

Lemma In_dependents_after this d n fn f :
  In f (if n =? d then _dependents fn ++ [this] else _dependents fn) ->
  In f (_dependents fn) \/ (f = this /\ n = d).
Proof.
  destruct (Nat.eqb_spec n d) as [-> | Hne]; [| now left].
  intros H. apply in_app_or in H.
  destruct H as [H | [<- | []]]; auto.
Qed.

Lemma constructing_addPendingDependency this all d st :
  constructing this all st -> In d all ->
  constructing this all (_addPendingDependency this d st).
Proof.
  intros (Hlt & Hvalid & Huniq & Hfrom) Hd.
  destruct (Hvalid d Hd) as (Hdlt & fd & Hfd).
  split; [| split; [| split]].
  - now rewrite length_addPendingDependency.
  - intros d0 Hd0. destruct (Hvalid d0 Hd0) as (Hlt0 & fd0 & Hfd0).
    split; [exact Hlt0|].
    eexists. eapply addPendingDependency_valid; eauto.
  - intros d1 d2 f1 f2 H1 H2 Hf1 Hf2 Hid.
    destruct (addPendingDependency_lookup _ _ _ _ _ _ Hfd Hf1)
      as (g1 & Hg1 & Hq1 & _).
    destruct (addPendingDependency_lookup _ _ _ _ _ _ Hfd Hf2)
      as (g2 & Hg2 & Hq2 & _).
    rewrite Hq1, Hq2 in Hid. eapply Huniq; eauto.
  - intros x fx Hx Hin.
    destruct (addPendingDependency_lookup _ _ _ _ _ _ Hfd Hx)
      as (gx & Hgx & _ & _ & _ & Hdep & _).
    rewrite Hdep in Hin. apply In_dependents_after in Hin.
    destruct Hin as [Hin | [_ ->]]; [eapply Hfrom; eauto | exact Hd].
Qed.

Lemma edgesOk_addPendingDependency this all d st :
  constructing this all st -> In d all ->
  edgesOk st -> edgesOk (_addPendingDependency this d st).
Proof.
  intros (Hlt & Hvalid & _) Hd Hok x fx f Hx Hin.
  destruct (Hvalid d Hd) as (Hdlt & fd & Hfd).
  rewrite length_addPendingDependency.
  destruct (addPendingDependency_lookup _ _ _ _ _ _ Hfd Hx)
    as (gx & Hgx & _ & _ & _ & Hdep & _).
  rewrite Hdep in Hin. apply In_dependents_after in Hin.
  destruct Hin as [Hin | [-> ->]]; [eapply Hok; eauto | lia].
Qed.

Lemma distinctDependencies_addPendingDependency this all d st :
  constructing this all st -> In d all ->
  distinctDependencies st ->
  distinctDependencies (_addPendingDependency this d st).
Proof.
  intros Hc Hd Hok f d1 d2 f1 f2 Hf1 Hf2 Hin1 Hin2 Hid.
  pose proof (constructing_addPendingDependency _ _ _ _ Hc Hd)
    as (_ & _ & Huniq' & Hfrom').
  destruct Hc as (Hlt & Hvalid & Huniq & Hfrom).
  destruct (Hvalid d Hd) as (Hdlt & fd & Hfd).
  destruct (Nat.eq_dec f this) as [-> | Hne].
  - eapply Huniq'; eauto.
  - destruct (addPendingDependency_lookup _ _ _ _ _ _ Hfd Hf1)
      as (g1 & Hg1 & Hq1 & _ & _ & Hdep1 & _).
    destruct (addPendingDependency_lookup _ _ _ _ _ _ Hfd Hf2)
      as (g2 & Hg2 & Hq2 & _ & _ & Hdep2 & _).
    rewrite Hdep1 in Hin1. rewrite Hdep2 in Hin2.
    apply In_dependents_after in Hin1. apply In_dependents_after in Hin2.
    destruct Hin1 as [Hin1 | [? _]]; [| contradiction].
    destruct Hin2 as [Hin2 | [? _]]; [| contradiction].
    rewrite Hq1, Hq2 in Hid. eapply Hok; eauto.
Qed.

Lemma dependenciesOk_addPendingDependency this all d st :
  constructing this all st -> In d all ->
  dependenciesOk st -> dependenciesOk (_addPendingDependency this d st).
Proof.
  intros (Hlt & Hvalid & _) Hd Hok f ff' k d0 Hf Hk.
  destruct (Hvalid d Hd) as (Hdlt & fd & Hfd).
  destruct (addPendingDependency_lookup _ _ _ _ _ _ Hfd Hf)
    as (ff & Hff & _ & _ & _ & _ & Hmap).
  rewrite Hmap in Hk.
  assert (Hold : In (k, d0) (_pendingDependencyMap ff) ->
            exists fd0',
              nth_error (fetches (_addPendingDependency this d st)) d0
              = Some fd0' /\ getID (_query fd0') = k /\
              In f (_dependents fd0')).
  { intros Hk0. destruct (Hok f ff k d0 Hff Hk0) as (fd0 & Hfd0 & Hid & Hin).
    exists (withDependency this d fd d0 fd0).
    split; [eapply addPendingDependency_valid; eauto|].
    destruct (withDependency_fields this d fd d0 fd0)
      as (Hq & _ & _ & Hdep & _).
    rewrite Hq, Hdep. split; [exact Hid|].
    destruct (d0 =? d); [apply in_or_app; now left | exact Hin]. }
  destruct (Nat.eqb_spec f this) as [-> | Hne]; [| now apply Hold].
  apply In_assocSet in Hk. destruct Hk as [[-> ->] | Hk]; [| now apply Hold].
  exists (withDependency this d fd d fd).
  split; [eapply addPendingDependency_valid; eauto|].
  destruct (withDependency_fields this d fd d fd)
    as (Hq & _ & _ & Hdep & _).
  rewrite Hq, Hdep, Nat.eqb_refl. split; [reflexivity|].
  apply in_or_app. right. now left.
Qed.

Lemma edgeSafe_addPendingDependency this all d st :
  constructing this all st -> In d all ->
  edgeSafe st -> edgeSafe (_addPendingDependency this d st).
Proof.
  intros (Hlt & Hvalid & Huniq & Hfrom) Hd Hok x fx' f ff' Hx Hin Hf.
  destruct (Hvalid d Hd) as (Hdlt & fd & Hfd).
  destruct (addPendingDependency_lookup _ _ _ _ _ _ Hfd Hx)
    as (fx & Hfx & Hqx & Hrx & _ & Hdepx & _).
  destruct (addPendingDependency_lookup _ _ _ _ _ _ Hfd Hf)
    as (ff & Hff & _ & _ & Hdf & _ & Hmapf).
  rewrite Hqx, Hrx, Hmapf. unfold isRejected. rewrite Hdf.
  rewrite Hdepx in Hin. apply In_dependents_after in Hin.
  destruct Hin as [Hin | [-> ->]].
  - destruct (Hok x fx f ff Hfx Hin Hff) as [HP | [HR | HE]]; auto.
    left. destruct (Nat.eqb_spec f this) as [-> | Hne]; [| exact HP].
    destruct (Nat.eq_dec (getID (_query fx)) (getID (_query fd)))
      as [Hid | Hid].
    + assert (x = d) by (eapply Huniq; eauto). subst x.
      rewrite Hfd in Hfx. injection Hfx as <-. apply assocGet_assocSet.
    + now rewrite assocGet_assocSet_other.
  - left. rewrite Hfd in Hfx. injection Hfx as <-.
    rewrite Nat.eqb_refl. apply assocGet_assocSet.
Qed.

Lemma graphOk_addPendingDependency this all d st :
  constructing this all st -> In d all ->
  graphOk st -> graphOk (_addPendingDependency this d st).
Proof.
  intros Hc Hd (H1 & H2 & H3 & H4).
  split; [| split; [| split]].
  - eapply edgesOk_addPendingDependency; eauto.
  - eapply distinctDependencies_addPendingDependency; eauto.
  - eapply dependenciesOk_addPendingDependency; eauto.
  - eapply edgeSafe_addPendingDependency; eauto.
Qed.

Lemma graphOk_fold_dependencies this all deps st :
  (forall d, In d deps -> In d all) ->
  constructing this all st -> graphOk st ->
  graphOk (fold_left (fun st d => _addPendingDependency this d st) deps st).
Proof.
  revert st. induction deps as [|d deps IH]; intros st Hall Hc Hok; simpl.
  - exact Hok.
  - apply IH.
    + intros d0 Hd0. apply Hall. now right.
    + apply constructing_addPendingDependency; [exact Hc|].
      apply Hall. now left.
    + eapply graphOk_addPendingDependency; eauto. apply Hall. now left.
Qed.

(** The edges rely on the dependents, the query, the pending dependencies,
    the resolution of the query and what the future fired with. *)
Lemma graphOk_core st st' :
  sameField (fun f => (shape f, _pendingDependencyMap f,
                       _resolvedSubtractedQuery f,
                       settlements (_resolvedDeferred f))) st st' ->
  graphOk st -> graphOk st'.
Proof.
  intros Hs (H1 & H2 & H3 & H4).
  assert (Hshape : sameField shape st st').
  { intros n. specialize (Hs n).
    destruct (nth_error (fetches st') n), (nth_error (fetches st) n);
      simpl in *; congruence. }
  assert (Hlook : forall n f',
            nth_error (fetches st') n = Some f' ->
            exists f, nth_error (fetches st) n = Some f /\
              _dependents f' = _dependents f /\ _query f' = _query f /\
              _pendingDependencyMap f' = _pendingDependencyMap f /\
              _resolvedSubtractedQuery f' = _resolvedSubtractedQuery f /\
              settlements (_resolvedDeferred f')
              = settlements (_resolvedDeferred f)).
  { intros n f' Hn. specialize (Hs n). rewrite Hn in Hs.
    destruct (nth_error (fetches st) n) as [f|]; [| discriminate].
    simpl in Hs. unfold shape in Hs. injection Hs as Ha Hb Hc Hd He.
    exists f. auto 10. }
  split; [eapply edgesOk_shape; eauto | split;
    [eapply distinctDependencies_shape; eauto | split]].
  - intros f ff' k d Hf Hk.
    destruct (Hlook f ff' Hf) as (ff & Hff & _ & _ & Hm & _).
    rewrite Hm in Hk.
    destruct (H3 f ff k d Hff Hk) as (fd & Hfd & Hid & Hin).
    specialize (Hshape d). rewrite Hfd in Hshape.
    destruct (nth_error (fetches st') d) as [fd'|]; [| discriminate].
    simpl in Hshape. injection Hshape as Hdep Hq.
    exists fd'. repeat split; congruence.
  - intros d fd' f ff' Hd Hin Hf.
    destruct (Hlook d fd' Hd) as (fd & Hfd & Hdep & Hq & _ & Hr & _).
    destruct (Hlook f ff' Hf) as (ff & Hff & _ & _ & Hm & _ & Hset).
    rewrite Hdep in Hin. unfold isRejected.
    rewrite Hq, Hr, Hm, Hset. eapply H4; eauto.
Qed.

(** An update of the pending fetch at [x] that keeps its dependents and
    its query, does not reset the resolution of its query, keeps a
    rejection of its future, and removes a pending dependency only where
    the query of the dependency is resolved or the future of [x] becomes
    rejected. *)
Lemma edgeSafe_updateFetch x g st :
  (forall fx, nth_error (fetches st) x = Some fx ->
     shape (g fx) = shape fx /\
     (_resolvedSubtractedQuery fx = true ->
      _resolvedSubtractedQuery (g fx) = true) /\
     (isRejected fx -> isRejected (g fx)) /\
     (forall d fd,
        nth_error (fetches st) d = Some fd -> In x (_dependents fd) ->
        assocGet (getID (_query fd)) (_pendingDependencyMap fx) = Some d ->
        assocGet (getID (_query fd)) (_pendingDependencyMap (g fx)) = Some d \/
        _resolvedSubtractedQuery fd = true \/ isRejected (g fx))) ->
  edgeSafe st -> edgeSafe (updateFetch x g st).
Proof.
  intros Hg Hok d fd' f ff' Hd Hin Hf.
  simpl in Hd, Hf. rewrite nth_error_updateNth in Hd, Hf.
  assert (Hfd : exists fd, nth_error (fetches st) d = Some fd /\
                  _dependents fd' = _dependents fd /\
                  _query fd' = _query fd /\
                  (_resolvedSubtractedQuery fd = true ->
                   _resolvedSubtractedQuery fd' = true)).
  { destruct (Nat.eqb_spec d x) as [-> | Hne].
    - destruct (nth_error (fetches st) x) as [fx|] eqn:Hx; [| discriminate].
      simpl in Hd. injection Hd as <-.
      destruct (Hg fx eq_refl) as (Hs & Hr & _).
      unfold shape in Hs. injection Hs as Hdep Hq.
      exists fx. auto.
    - exists fd'. auto. }
  destruct Hfd as (fd & Hfd & Hdep & Hq & Hr).
  rewrite Hdep in Hin. rewrite Hq.
  destruct (Nat.eqb_spec f x) as [-> | Hne].
  - destruct (nth_error (fetches st) x) as [fx|] eqn:Hx; [| discriminate].
    simpl in Hf. injection Hf as <-.
    destruct (Hg fx eq_refl) as (_ & _ & Hrej & Hmap).
    destruct (Hok d fd x fx Hfd Hin Hx) as [HP | [HR | HE]]; auto.
    destruct (Hmap d fd Hfd Hin HP) as [HP' | [HR' | HE']]; auto.
  - destruct (Hok d fd f ff' Hfd Hin Hf) as [HP | [HR | HE]]; auto.
Qed.

Lemma isRejected_updateResolvedDeferred f :
  firedOnce f -> isRejected f -> isRejected (updateResolvedDeferred f).
Proof.
  intros Hfired [e He]. unfold firedOnce in Hfired. rewrite He in Hfired.
  destruct Hfired as [Hs _]. unfold updateResolvedDeferred.
  rewrite Hs, andb_false_r. now exists e.
Qed.

Lemma shape_updateResolvedDeferred f :
  shape (updateResolvedDeferred f) = shape f /\
  _resolvedSubtractedQuery (updateResolvedDeferred f)
  = _resolvedSubtractedQuery f /\
  _pendingDependencyMap (updateResolvedDeferred f) = _pendingDependencyMap f /\
  _errors (updateResolvedDeferred f) = _errors f.
Proof.
  unfold updateResolvedDeferred.
  destruct (_isSettled f && negb (settled (_resolvedDeferred f)));
    [destruct (_errors f) eqn:He |]; simpl; rewrite ?He; auto.
Qed.

(** An error recorded on a pending fetch whose future did not resolve
    leaves it rejected. *)
Lemma isRejected_appendError f e :
  firedOnce f -> settlements (_resolvedDeferred f) <> [Resolved] ->
  isRejected (updateResolvedDeferred (setErrors f (_errors f ++ [e]))).
Proof.
  intros Hfired Hnot. unfold firedOnce in Hfired.
  unfold updateResolvedDeferred, _isSettled, isRejected. simpl.
  destruct (settlements (_resolvedDeferred f)) as [|s [|s' l]] eqn:Hs.
  - rewrite Hfired. rewrite length_app. simpl.
    replace (0 <? List.length (_errors f) + 1) with true
      by (symmetry; apply Nat.ltb_lt; lia).
    simpl. destruct (_errors f ++ [e]) as [|e0 l] eqn:He.
    + now destruct (_errors f).
    + simpl. rewrite Hs. now exists e0.
  - destruct s as [|e0]; [congruence|]. destruct Hfired as [Hset _].
    rewrite Hset, andb_false_r. simpl. rewrite Hs. now exists e0.
  - destruct s; contradiction.
Qed.

Lemma edgeSafe_same_fetches st st' :
  fetches st' = fetches st -> edgeSafe st -> edgeSafe st'.
Proof. unfold edgeSafe. now intros ->. Qed.

Lemma firedOnce_waiting f k d :
  firedOnce f -> assocGet k (_pendingDependencyMap f) = Some d ->
  settlements (_resolvedDeferred f) <> [Resolved].
Proof.
  unfold firedOnce. intros Hfired Hk Hs. rewrite Hs in Hfired.
  destruct Hfired as (_ & _ & Hm). rewrite Hm in Hk. discriminate.
Qed.

(** The pending fetch [m], whose query is resolved, tells its dependent
    [x]. *)
Lemma edgeSafe_notify_resolved x st m fm :
  nth_error (fetches st) m = Some fm -> _resolvedSubtractedQuery fm = true ->
  In x (_dependents fm) ->
  distinctDependencies st -> allFetches settledOnce st ->
  edgeSafe st ->
  edgeSafe (_markDependencyAsResolved x (getID (_query fm)) st).
Proof.
  intros Hm Hflag Hin Hdist Hall Hok.
  unfold _markDependencyAsResolved, _updateResolvedDeferred.
  unfold updateFetch at 1. simpl. rewrite updateNth_updateNth.
  apply (edgeSafe_updateFetch x _ st); [| exact Hok].
  intros fx Hx.
  set (f1 := setPendingDependencyMap fx
               (assocDelete (getID (_query fm)) (_pendingDependencyMap fx))).
  destruct (shape_updateResolvedDeferred f1) as (Hs & Hr & Hmap & _).
  assert (Hfired : firedOnce f1).
  { apply firedOnce_deleteDependency. apply settledOnce_firedOnce.
    eapply Hall; eauto. }
  split; [exact Hs | split; [now rewrite Hr | split]].
  - intros Hrej. now apply isRejected_updateResolvedDeferred.
  - intros d fd Hd Hind HP. rewrite Hmap. simpl.
    destruct (Nat.eq_dec (getID (_query fd)) (getID (_query fm)))
      as [Hid | Hid].
    + assert (d = m) by (eapply Hdist; eauto). subst d.
      rewrite Hm in Hd. injection Hd as <-. auto.
    + left. now rewrite assocGet_assocDelete_other.
Qed.

(** The pending fetch [m], rejected, tells its dependent [x]. *)
Lemma edgeSafe_notify_rejected x error st m fm :
  nth_error (fetches st) m = Some fm -> In x (_dependents fm) ->
  distinctDependencies st -> allFetches settledOnce st ->
  edgeSafe st ->
  edgeSafe (_markDependencyAsRejected x (getID (_query fm)) error st).
Proof.
  intros Hm Hin Hdist Hall Hok.
  unfold _markDependencyAsRejected, _updateResolvedDeferred.
  unfold updateFetch at 1 2. simpl. rewrite !updateNth_updateNth.
  apply (edgeSafe_updateFetch x _ st); [| exact Hok].
  intros fx Hx.
  set (f1 := setPendingDependencyMap fx
               (assocDelete (getID (_query fm)) (_pendingDependencyMap fx))).
  set (f2 := setErrors f1 (_errors f1 ++ [error])).
  destruct (shape_updateResolvedDeferred f2) as (Hs & Hr & Hmap & _).
  assert (Hfx : firedOnce fx).
  { apply settledOnce_firedOnce. eapply Hall; eauto. }
  assert (Hfired1 : firedOnce f1) by now apply firedOnce_deleteDependency.
  assert (Hfired2 : firedOnce f2) by now apply firedOnce_setErrors.
  split; [exact Hs | split; [now rewrite Hr | split]].
  - intros Hrej. now apply isRejected_updateResolvedDeferred.
  - intros d fd Hd Hind HP. rewrite Hmap. simpl.
    destruct (Nat.eq_dec (getID (_query fd)) (getID (_query fm)))
      as [Hid | Hid].
    + right; right. apply (isRejected_appendError f1 error Hfired1).
      exact (firedOnce_waiting fx _ _ Hfx HP).
    + left. now rewrite assocGet_assocDelete_other.
Qed.

Lemma edgeSafe_notify_all_resolved m k ds st :
  (exists fm, nth_error (fetches st) m = Some fm /\ getID (_query fm) = k /\
     _resolvedSubtractedQuery fm = true /\
     forall x, In x ds -> In x (_dependents fm)) ->
  distinctDependencies st -> allFetches settledOnce st -> edgeSafe st ->
  edgeSafe (fold_left (fun st x => _markDependencyAsResolved x k st) ds st).
Proof.
  revert st. induction ds as [|x ds IH];
    intros st (fm & Hm & Hk & Hflag & Hds) Hdist Hall Hok; simpl;
    [exact Hok|].
  pose proof (keepsField_mark_dependency_resolved
                (fun f => (shape f, _resolvedSubtractedQuery f)) x k
                (fun _ _ => eq_refl) (fun _ _ => eq_refl)) as Hkeep.
  apply IH.
  - specialize (Hkeep st m). rewrite Hm in Hkeep.
    destruct (nth_error (fetches (_markDependencyAsResolved x k st)) m)
      as [fm'|]; [| discriminate].
    simpl in Hkeep. unfold shape in Hkeep. injection Hkeep as Hdep Hq Hr.
    exists fm'. rewrite Hq, Hr, Hdep. repeat split; auto.
    intros y Hy. apply Hds. now right.
  - apply (distinctDependencies_shape st); [| exact Hdist].
    intros n. specialize (Hkeep st n).
    destruct (nth_error (fetches (_markDependencyAsResolved x k st)) n),
      (nth_error (fetches st) n); simpl in *; congruence.
  - now apply settledOnce_mark_dependency_resolved.
  - subst k. eapply edgeSafe_notify_resolved; eauto. apply Hds. now left.
Qed.

Lemma edgeSafe_notify_all_rejected m k error ds st :
  (exists fm, nth_error (fetches st) m = Some fm /\ getID (_query fm) = k /\
     forall x, In x ds -> In x (_dependents fm)) ->
  distinctDependencies st -> allFetches settledOnce st -> edgeSafe st ->
  edgeSafe
    (fold_left (fun st x => _markDependencyAsRejected x k error st) ds st).
Proof.
  revert st. induction ds as [|x ds IH];
    intros st (fm & Hm & Hk & Hds) Hdist Hall Hok; simpl; [exact Hok|].
  pose proof (keepsField_mark_dependency_rejected shape x k error
                (fun _ _ => eq_refl) (fun _ _ => eq_refl)
                (fun _ _ => eq_refl)) as Hkeep.
  apply IH.
  - specialize (Hkeep st m). rewrite Hm in Hkeep.
    destruct (nth_error (fetches (_markDependencyAsRejected x k error st)) m)
      as [fm'|]; [| discriminate].
    simpl in Hkeep. unfold shape in Hkeep. injection Hkeep as Hdep Hq.
    exists fm'. rewrite Hq, Hdep. repeat split; auto.
    intros y Hy. apply Hds. now right.
  - apply (distinctDependencies_shape st); [| exact Hdist].
    intros n. apply Hkeep.
  - now apply settledOnce_mark_dependency_rejected.
  - subst k. eapply edgeSafe_notify_rejected; eauto. apply Hds. now left.
Qed.

Lemma edgeSafe_mark_resolved m st :
  distinctDependencies st -> allFetches settledOnce st -> edgeSafe st ->
  edgeSafe (_markSubtractedQueryAsResolved m st).
Proof.
  intros Hdist Hall Hok. unfold _markSubtractedQueryAsResolved.
  set (g := fun f => updateResolvedDeferred (setResolvedSubtractedQuery f true)).
  assert (Hfuse : _updateResolvedDeferred m
                    (updateFetch m (fun f => setResolvedSubtractedQuery f true)
                       (deletePending m st))
                  = updateFetch m g (deletePending m st)).
  { unfold _updateResolvedDeferred. unfold updateFetch at 1. simpl.
    now rewrite updateNth_updateNth. }
  rewrite Hfuse.
  set (st1 := updateFetch m g (deletePending m st)).
  assert (Hg : forall f, firedOnce f ->
                 shape (g f) = shape f /\
                 _resolvedSubtractedQuery (g f) = true /\
                 _pendingDependencyMap (g f) = _pendingDependencyMap f /\
                 (isRejected f -> isRejected (g f))).
  { intros f Hfired. unfold g.
    destruct (shape_updateResolvedDeferred (setResolvedSubtractedQuery f true))
      as (Hs & Hr & Hmap & _).
    repeat split; auto.
    intros Hrej. apply isRejected_updateResolvedDeferred; [| exact Hrej].
    now apply firedOnce_setResolved. }
  assert (Hlook : forall n,
            nth_error (fetches st1) n
            = if n =? m then option_map g (nth_error (fetches st) n)
              else nth_error (fetches st) n).
  { intros n. unfold st1. simpl. rewrite nth_error_updateNth.
    now rewrite fetches_deletePending. }
  assert (Hall0 : forall n f, nth_error (fetches st) n = Some f -> firedOnce f).
  { intros n f Hn. apply settledOnce_firedOnce. eapply Hall; eauto. }
  assert (Hshape : sameField shape st st1).
  { intros n. rewrite Hlook. destruct (n =? m); [| reflexivity].
    destruct (nth_error (fetches st) n) as [f|] eqn:Hn; [| reflexivity].
    simpl. f_equal. apply Hg. eauto. }
  assert (Hok1 : edgeSafe st1).
  { apply (edgeSafe_updateFetch m g (deletePending m st)).
    - intros fx Hx. rewrite fetches_deletePending in Hx.
      destruct (Hg fx (Hall0 _ _ Hx)) as (Hs & Hr & Hmap & Hrej).
      repeat split; auto. intros d fd _ _ HP. left. now rewrite Hmap.
    - eapply edgeSafe_same_fetches; [apply fetches_deletePending | exact Hok]. }
  assert (Hall1 : allFetches settledOnce st1).
  { apply (allFetches_updateFetch settledOnce m g (deletePending m st)).
    - intros f Hf. apply firedOnce_updateResolvedDeferred.
      apply firedOnce_setResolved. now apply settledOnce_firedOnce.
    - eapply allFetches_same_fetches; [apply fetches_deletePending | exact Hall]. }
  unfold forEachDependent.
  destruct (nth_error (fetches st1) m) as [fm1|] eqn:Hm1; [| exact Hok1].
  apply (edgeSafe_notify_all_resolved m); auto.
  - exists fm1. split; [exact Hm1|].
    rewrite Hlook, Nat.eqb_refl in Hm1. unfold queryIDOf.
    destruct (nth_error (fetches st) m) as [fm|] eqn:Hm; [| discriminate].
    simpl in Hm1. injection Hm1 as <-.
    destruct (Hg fm (Hall0 _ _ Hm)) as (Hs & Hr & _).
    unfold shape in Hs. injection Hs as _ Hq.
    rewrite Hq. auto.
  - eapply distinctDependencies_shape; eauto.
Qed.

Lemma edgeSafe_mark_rejected m error st :
  distinctDependencies st -> allFetches settledOnce st -> edgeSafe st ->
  edgeSafe (_markAsRejected m error st).
Proof.
  intros Hdist Hall Hok. unfold _markAsRejected.
  set (g := fun f => updateResolvedDeferred
                       (setErrors f (_errors f ++ [error]))).
  assert (Hfuse : _updateResolvedDeferred m
                    (updateFetch m
                       (fun f => setErrors f (_errors f ++ [error]))
                       (warn error (deletePending m st)))
                  = updateFetch m g (warn error (deletePending m st))).
  { unfold _updateResolvedDeferred. unfold updateFetch at 1. simpl.
    now rewrite updateNth_updateNth. }
  rewrite Hfuse.
  set (st1 := updateFetch m g (warn error (deletePending m st))).
  assert (Hfetches : fetches (warn error (deletePending m st)) = fetches st).
  { simpl. apply fetches_deletePending. }
  assert (Hg : forall f, firedOnce f ->
                 shape (g f) = shape f /\
                 _resolvedSubtractedQuery (g f) = _resolvedSubtractedQuery f /\
                 _pendingDependencyMap (g f) = _pendingDependencyMap f /\
                 (isRejected f -> isRejected (g f))).
  { intros f Hfired. unfold g.
    destruct (shape_updateResolvedDeferred
                (setErrors f (_errors f ++ [error])))
      as (Hs & Hr & Hmap & _).
    repeat split; auto.
    intros Hrej. apply isRejected_updateResolvedDeferred; [| exact Hrej].
    now apply firedOnce_setErrors. }
  assert (Hlook : forall n,
            nth_error (fetches st1) n
            = if n =? m then option_map g (nth_error (fetches st) n)
              else nth_error (fetches st) n).
  { intros n. unfold st1. simpl. rewrite nth_error_updateNth.
    now rewrite fetches_deletePending. }
  assert (Hall0 : forall n f, nth_error (fetches st) n = Some f -> firedOnce f).
  { intros n f Hn. apply settledOnce_firedOnce. eapply Hall; eauto. }
  assert (Hshape : sameField shape st st1).
  { intros n. rewrite Hlook. destruct (n =? m); [| reflexivity].
    destruct (nth_error (fetches st) n) as [f|] eqn:Hn; [| reflexivity].
    simpl. f_equal. apply Hg. eauto. }
  assert (Hok1 : edgeSafe st1).
  { apply (edgeSafe_updateFetch m g (warn error (deletePending m st))).
    - intros fx Hx. rewrite Hfetches in Hx.
      destruct (Hg fx (Hall0 _ _ Hx)) as (Hs & Hr & Hmap & Hrej).
      repeat split; auto; [congruence|].
      intros d fd _ _ HP. left. now rewrite Hmap.
    - eapply edgeSafe_same_fetches; [exact Hfetches | exact Hok]. }
  assert (Hall1 : allFetches settledOnce st1).
  { apply (allFetches_updateFetch settledOnce m g
             (warn error (deletePending m st))).
    - intros f Hf. apply firedOnce_updateResolvedDeferred.
      apply firedOnce_setErrors. now apply settledOnce_firedOnce.
    - eapply allFetches_same_fetches; [exact Hfetches | exact Hall]. }
  unfold forEachDependent.
  destruct (nth_error (fetches st1) m) as [fm1|] eqn:Hm1; [| exact Hok1].
  apply (edgeSafe_notify_all_rejected m); auto.
  - exists fm1. split; [exact Hm1|].
    rewrite Hlook, Nat.eqb_refl in Hm1. unfold queryIDOf.
    destruct (nth_error (fetches st) m) as [fm|] eqn:Hm; [| discriminate].
    simpl in Hm1. injection Hm1 as <-.
    destruct (Hg fm (Hall0 _ _ Hm)) as (Hs & _).
    unfold shape in Hs. injection Hs as _ Hq.
    rewrite Hq. auto.
  - eapply distinctDependencies_shape; eauto.
Qed.

Lemma graphOk_mark_resolved m st :
  allFetches settledOnce st -> graphOk st ->
  graphOk (_markSubtractedQueryAsResolved m st).
Proof.
  intros Hall (H1 & H2 & H3 & H4).
  assert (Hshape : sameField shape st (_markSubtractedQueryAsResolved m st)).
  { intros n. now apply field_after_mark_resolved. }
  split; [eapply edgesOk_shape; eauto | split;
    [eapply distinctDependencies_shape; eauto | split]].
  - eapply dependenciesOk_grows; eauto. apply growsOn_mark_resolved.
  - now apply edgeSafe_mark_resolved.
Qed.

Lemma graphOk_mark_rejected m error st :
  allFetches settledOnce st -> graphOk st ->
  graphOk (_markAsRejected m error st).
Proof.
  intros Hall (H1 & H2 & H3 & H4).
  assert (Hshape : sameField shape st (_markAsRejected m error st)).
  { intros n. now apply field_after_mark_rejected. }
  split; [eapply edgesOk_shape; eauto | split;
    [eapply distinctDependencies_shape; eauto | split]].
  - eapply dependenciesOk_grows; eauto. apply growsOn_mark_rejected.
  - now apply edgeSafe_mark_rejected.
Qed.

Lemma graphOk_same_fetches st st' :
  fetches st' = fetches st -> graphOk st -> graphOk st'.
Proof.
  intros H. apply graphOk_core. now apply sameField_same_fetches.
Qed.

Lemma graphOk_allocate forceIndex q st :
  graphOk st -> graphOk (allocatePendingFetch forceIndex q st).
Proof.
  intros (H1 & H2 & H3 & H4).
  assert (Hold : forall n f,
            nth_error (fetches (allocatePendingFetch forceIndex q st)) n
            = Some f ->
            nth_error (fetches st) n = Some f \/
            (_dependents f = [] /\ _pendingDependencyMap f = [])).
  { intros n f Hn. simpl in Hn. apply nth_error_snoc in Hn.
    destruct Hn as [Hn | [_ ->]]; auto. }
  assert (Hnew : forall n f,
            nth_error (fetches st) n = Some f ->
            nth_error (fetches (allocatePendingFetch forceIndex q st)) n
            = Some f).
  { intros n f Hn. simpl. rewrite nth_error_app1; [exact Hn|].
    apply nth_error_Some. congruence. }
  split; [| split; [| split]].
  - intros d fd f Hd Hin.
    destruct (Hold d fd Hd) as [Hd0 | [He _]];
      [| rewrite He in Hin; contradiction].
    destruct (H1 d fd f Hd0 Hin) as [Hlt Hlt'].
    split; [exact Hlt|]. simpl. rewrite length_app. simpl. lia.
  - intros f d d' fd fd' Hd Hd' Hin Hin' Hid.
    destruct (Hold d fd Hd) as [Hd0 | [He _]];
      [| rewrite He in Hin; contradiction].
    destruct (Hold d' fd' Hd') as [Hd0' | [He _]];
      [| rewrite He in Hin'; contradiction].
    eapply H2; eauto.
  - intros f ff k d Hf Hk.
    destruct (Hold f ff Hf) as [Hf0 | [_ He]];
      [| rewrite He in Hk; contradiction].
    destruct (H3 f ff k d Hf0 Hk) as (fd & Hfd & Hid & Hin).
    exists fd. auto.
  - intros d fd f ff Hd Hin Hf.
    destruct (Hold d fd Hd) as [Hd0 | [He _]];
      [| rewrite He in Hin; contradiction].
    destruct (H1 d fd f Hd0 Hin) as [_ Hlt].
    destruct (Hold f ff Hf) as [Hf0 | _].
    + eapply H4; eauto.
    + simpl in Hf. rewrite nth_error_app1 in Hf by assumption.
      eapply H4; eauto.
Qed.

Lemma constructing_allocate forceIndex q st :
  registryOk st -> edgesOk st ->
  constructing (List.length (fetches st))
    (map (fun kv => fetch (snd kv)) (getRegistry (pendingFetchMap st) st))
    (allocatePendingFetch forceIndex q st).
Proof.
  intros (Hp & _ & He) Hedges.
  assert (Hreg : exists reg,
            nth_error (registries st) (pendingFetchMap st) = Some reg /\
            getRegistry (pendingFetchMap st) st = reg).
  { destruct (nth_error (registries st) (pendingFetchMap st)) as [reg|] eqn:Hr.
    - exists reg. split; [reflexivity|]. unfold getRegistry.
      now apply nth_error_nth.
    - apply nth_error_None in Hr. lia. }
  destruct Hreg as (reg & Hreg & ->).
  destruct (He _ _ Hreg) as [Hnd He0].
  assert (Hall : forall d,
            In d (map (fun kv => fetch (snd kv)) reg) ->
            exists k e fe, In (k, e) reg /\ fetch e = d /\
              nth_error (fetches st) d = Some fe /\ getID (_query fe) = k).
  { intros d Hd. apply in_map_iff in Hd. destruct Hd as ([k e] & <- & Hin).
    destruct (He0 k e Hin) as (fe & Hfe & Hk & _).
    exists k, e, fe. auto. }
  assert (Hnew : forall n f,
            nth_error (fetches st) n = Some f ->
            nth_error (fetches (allocatePendingFetch forceIndex q st)) n
            = Some f).
  { intros n f Hn. simpl. rewrite nth_error_app1; [exact Hn|].
    apply nth_error_Some. congruence. }
  split; [| split; [| split]].
  - simpl. rewrite length_app. simpl. lia.
  - intros d Hd. destruct (Hall d Hd) as (k & e & fe & _ & _ & Hfe & _).
    split; [apply nth_error_Some; congruence | eauto].
  - intros d d' fd fd' Hd Hd' Hfd Hfd' Hid.
    destruct (Hall d Hd) as (k & e & fe & Hin & <- & Hfe & Hk).
    destruct (Hall d' Hd') as (k' & e' & fe' & Hin' & <- & Hfe' & Hk').
    rewrite (Hnew _ _ Hfe) in Hfd. rewrite (Hnew _ _ Hfe') in Hfd'.
    injection Hfd as <-. injection Hfd' as <-.
    rewrite <- Hk in Hin. rewrite <- Hk', <- Hid in Hin'.
    apply (assocGet_In _ e reg Hnd) in Hin.
    apply (assocGet_In _ e' reg Hnd) in Hin'.
    congruence.
  - intros x fx Hx Hin. exfalso.
    simpl in Hx. apply nth_error_snoc in Hx.
    destruct Hx as [Hx | [_ ->]]; [| contradiction].
    destruct (Hedges x fx _ Hx Hin). lia.
Qed.

Lemma underConstruction_fold_dependencies this deps st :
  underConstruction this st ->
  underConstruction this
    (fold_left (fun st d => _addPendingDependency this d st) deps st).
Proof.
  revert st. induction deps as [|d deps IH]; intros st H; simpl; [exact H|].
  apply IH. now apply underConstruction_addPendingDependency.
Qed.

Lemma underConstruction_allocate forceIndex q st :
  allFetches settledOnce st ->
  underConstruction (List.length (fetches st))
    (allocatePendingFetch forceIndex q st).
Proof.
  intros Hall. split.
  - intros n f Hn. simpl in Hn. apply nth_error_snoc in Hn.
    destruct Hn as [Hn | [_ ->]]; [eapply Hall; eauto|].
    apply settledOnce_unsettled. repeat split.
  - eexists. split.
    + simpl. now rewrite nth_error_app2, Nat.sub_diag by lia.
    + repeat split.
Qed.

(** The pending fetch under construction has its flags and its errors
    set. *)
Lemma settledOnce_constructed this b st :
  underConstruction this st ->
  allFetches settledOnce
    (updateFetch this
       (fun f => setErrors (setFetchedSubtractedQuery f b) []) st).
Proof.
  intros [Hall (f & Hf & Hd & Hr & He)] n f' Hn.
  simpl in Hn. rewrite nth_error_updateNth in Hn.
  destruct (Nat.eqb_spec n this) as [-> | Hne]; [| eapply Hall; eauto].
  rewrite Hf in Hn. simpl in Hn. injection Hn as <-.
  apply settledOnce_unsettled. repeat split; assumption.
Qed.

Lemma constructing_same_fetches this all st st' :
  fetches st' = fetches st -> constructing this all st ->
  constructing this all st'.
Proof. unfold constructing. now intros ->. Qed.

Lemma graphOk_finishPendingFetch this queryID remainder st :
  underConstruction this st -> graphOk st ->
  graphOk (finishPendingFetch this queryID remainder st).
Proof.
  intros Hunder Hok. unfold finishPendingFetch.
  set (g := fun f => setErrors
                       (setFetchedSubtractedQuery f
                          match remainder with
                          | Some _ => false
                          | None => true
                          end) []).
  assert (Hok1 : graphOk (updateFetch this g st)).
  { eapply graphOk_core; [| exact Hok].
    apply (sameField_keeps _ (updateFetch this g)).
    now apply keepsField_updateFetch. }
  destruct remainder as [sq|].
  - eapply graphOk_core; [| exact Hok1].
    apply (sameField_keeps _
             (fun st0 =>
                updateFetch this (fun f => setAwaiting f (Some sq))
                  (updateRegistry (pendingFetchMap st0)
                     (assocSet queryID {| fetch := this; query := sq |})
                     st0))).
    intros st0 n. simpl. rewrite nth_error_updateNth.
    destruct (n =? this); [| reflexivity].
    now destruct (nth_error (fetches st0) n).
  - apply graphOk_mark_resolved; [| exact Hok1].
    now apply settledOnce_constructed.
Qed.

Section GraphInvariant.

Variable containsRelayQueryRootCall : Node -> Node -> bool.
Variable handleQueryPayload : Node -> nat -> option nat -> option Error.

Lemma graphOk_newPendingFetch fetchMode forceIndex q st this st' :
  allFetches settledOnce st -> registryOk st -> graphOk st ->
  newPendingFetch containsRelayQueryRootCall fetchMode forceIndex q st
  = Ok (this, st') ->
  graphOk st'.
Proof.
  intros Hall Hreg Hok Hnew.
  destruct (newPendingFetch_inv _ _ _ _ _ _ _ Hnew)
    as (-> & remainder & deps & next' & -> & Hpre & Hwalk).
  set (this := List.length (fetches st)).
  set (all := map (fun kv => fetch (snd kv))
                (getRegistry (pendingFetchMap st) st)).
  set (st1 := setNextRef (allocatePendingFetch forceIndex q st) next').
  assert (Hdeps : forall d, In d deps -> In d all).
  { assert (Hcases : fetchMode = PRELOAD \/ fetchMode <> PRELOAD)
      by (destruct fetchMode; auto; right; discriminate).
    destruct Hcases as [Hm | Hm].
    - destruct (Hpre Hm) as (_ & -> & _). intros d [].
    - intros d Hd.
      destruct (Walk_deps _ _ _ _ _ _ _ d (Hwalk Hm) Hd) as (k & e & Hin & <-).
      unfold all. apply in_map_iff. now exists (k, e). }
  assert (Hc1 : constructing this all st1).
  { eapply constructing_same_fetches;
      [| apply constructing_allocate; [exact Hreg | exact (proj1 Hok)]].
    reflexivity. }
  assert (Hok1 : graphOk st1).
  { eapply graphOk_same_fetches; [| apply graphOk_allocate; exact Hok].
    reflexivity. }
  assert (Hu1 : underConstruction this st1).
  { eapply underConstruction_same_fetches;
      [| apply underConstruction_allocate; exact Hall].
    reflexivity. }
  apply graphOk_finishPendingFetch.
  - eapply underConstruction_same_fetches; [apply fetches_request|].
    now apply underConstruction_fold_dependencies.
  - eapply graphOk_same_fetches; [apply fetches_request|].
    eapply graphOk_fold_dependencies; eauto.
Qed.

Lemma graphOk_step st st' :
  step containsRelayQueryRootCall handleQueryPayload st st' ->
  allFetches settledOnce st -> registryOk st -> graphOk st -> graphOk st'.
Proof.
  intros Hstep Hall Hreg Hok.
  destruct Hstep as [fetchMode forceIndex q st this st' Hroot Hnew | st
                    | this f sq result st Hf Ha | this f sq error st Hf Ha
                    | t ts st Ht].
  - eapply graphOk_newPendingFetch; eauto.
  - eapply graphOk_same_fetches; [| exact Hok]. reflexivity.
  - eapply graphOk_core; [| exact Hok].
    intros n. unfold _handleSubtractedQuerySuccess. simpl.
    rewrite !nth_error_updateNth.
    destruct (n =? this); [| reflexivity].
    now destruct (nth_error (fetches st) n).
  - unfold _handleSubtractedQueryFailure.
    apply graphOk_mark_rejected; [now apply settledOnce_setAwaiting|].
    eapply graphOk_core; [| exact Hok].
    apply (sameField_keeps _
             (updateFetch this (fun f => setAwaiting f None))).
    now apply keepsField_updateFetch.
  - unfold runTask.
    destruct (taskResponse t);
      [| apply graphOk_mark_rejected; [exact Hall|];
         eapply graphOk_same_fetches; [| exact Hok]; reflexivity].
    destruct (handleQueryPayload _ _ _).
    + apply graphOk_mark_rejected; [exact Hall|].
      eapply graphOk_same_fetches; [| exact Hok]. reflexivity.
    + apply graphOk_mark_resolved; [exact Hall|].
      eapply graphOk_same_fetches; [| exact Hok]. reflexivity.
Qed.

Lemma graphOk_reachable next st :
  reachable containsRelayQueryRootCall handleQueryPayload next st ->
  graphOk st.
Proof.
  induction 1 as [| st st' Hr IH Hstep].
  - split; [| split; [| split]].
    + intros d fd f Hd. now destruct d.
    + intros f d d' fd fd' Hd. now destruct d.
    + intros f ff k d Hf. now destruct f.
    + intros d fd f ff Hd. now destruct d.
  - eapply graphOk_step; eauto.
    + eapply settledOnce_reachable; eauto.
    + eapply registryOk_reachable; eauto.
Qed.

(** X10.  A fetch depends on older fetches only.  In every state that the
    tracker reaches, a dependent of a pending fetch is a pending fetch created
    after it, and a pending dependency of a fetch is a pending fetch created
    before it, filed under the identifier of its query, that has the fetch
    among its dependents: no fetch waits for itself, directly or through
    others. *)
Theorem dependencies_are_older next st :
  reachable containsRelayQueryRootCall handleQueryPayload next st ->
  (forall d fd f,
     nth_error (fetches st) d = Some fd -> In f (_dependents fd) ->
     d < f /\ f < List.length (fetches st)) /\
  (forall f ff k d,
     nth_error (fetches st) f = Some ff ->
     assocGet k (_pendingDependencyMap ff) = Some d ->
     d < f /\
     exists fd, nth_error (fetches st) d = Some fd /\
                getID (_query fd) = k /\ In f (_dependents fd)).
Proof.
  intros Hr. destruct (graphOk_reachable _ _ Hr) as (H1 & _ & H3 & _).
  split; [exact H1|].
  intros f ff k d Hf Hk. apply assocGet_Some_In in Hk.
  destruct (H3 f ff k d Hf Hk) as (fd & Hfd & Hid & Hin).
  split; [now destruct (H1 d fd f Hfd Hin) | eauto].
Qed.

(** X11.  A fetch resolves after the fetches it depends on.  In every state
    that the tracker reaches, when the future of a pending fetch is resolved,
    its own subtracted query is resolved, no dependency is pending, and the
    subtracted query of every fetch that it was made a dependent of is
    resolved. *)
Theorem resolved_after_dependencies next st f ff :
  reachable containsRelayQueryRootCall handleQueryPayload next st ->
  nth_error (fetches st) f = Some ff ->
  settlements (_resolvedDeferred ff) = [Resolved] ->
  _resolvedSubtractedQuery ff = true /\ _pendingDependencyMap ff = [] /\
  forall d fd,
    nth_error (fetches st) d = Some fd -> In f (_dependents fd) ->
    _resolvedSubtractedQuery fd = true.
Proof.
  intros Hr Hf Hs.
  pose proof (settledOnce_reachable _ _ _ _ Hr f ff Hf) as [Hfired _].
  unfold firedOnce in Hfired. rewrite Hs in Hfired.
  destruct Hfired as (_ & Hres & Hmap).
  split; [exact Hres | split; [exact Hmap|]].
  intros d fd Hd Hin.
  destruct (graphOk_reachable _ _ Hr) as (_ & _ & _ & H4).
  destruct (H4 d fd f ff Hd Hin Hf) as [HP | [HR | [e HE]]].
  - rewrite Hmap in HP. discriminate.
  - exact HR.
  - congruence.
Qed.

End GraphInvariant.

(** ** A rejection and the dependents *)

Lemma nth_error_mark_dependency_rejected x k error st n :
  nth_error (fetches (_markDependencyAsRejected x k error st)) n
  = if n =? x
    then option_map
           (fun f =>
              updateResolvedDeferred
                (setErrors
                   (setPendingDependencyMap f
                      (assocDelete k (_pendingDependencyMap f)))
                   (_errors f ++ [error])))
           (nth_error (fetches st) n)
    else nth_error (fetches st) n.
Proof.
  unfold _markDependencyAsRejected, _updateResolvedDeferred. simpl.
  rewrite !nth_error_updateNth.
  destruct (n =? x); [| reflexivity].
  now destruct (nth_error (fetches st) n).
Qed.

Lemma notify_all_rejected_others k error ds st x :
  ~ In x ds ->
  nth_error
    (fetches
       (fold_left (fun st x => _markDependencyAsRejected x k error st) ds st))
    x
  = nth_error (fetches st) x.
Proof.
  revert st. induction ds as [|d ds IH]; intros st Hx; simpl; [reflexivity|].
  rewrite IH by (intros H; apply Hx; now right).
  rewrite nth_error_mark_dependency_rejected.
  destruct (Nat.eqb_spec x d) as [-> | Hne]; [| reflexivity].
  exfalso. apply Hx. now left.
Qed.

Lemma notify_all_rejected_told k error ds st x fx :
  In x ds -> nth_error (fetches st) x = Some fx ->
  exists fx',
    nth_error
      (fetches
         (fold_left (fun st x => _markDependencyAsRejected x k error st) ds
            st)) x = Some fx' /\
    In error (_errors fx') /\ assocGet k (_pendingDependencyMap fx') = None.
Proof.
  revert st fx. induction ds as [|d ds IH]; intros st fx Hin Hx; [contradiction|].
  simpl.
  set (st1 := _markDependencyAsRejected d k error st).
  destruct (in_dec Nat.eq_dec x ds) as [Hin' | Hnin].
  - assert (Hx1 : exists fx1, nth_error (fetches st1) x = Some fx1).
    { unfold st1. rewrite nth_error_mark_dependency_rejected.
      destruct (x =? d); rewrite Hx; simpl; eauto. }
    destruct Hx1 as (fx1 & Hx1). eapply IH; eauto.
  - destruct Hin as [-> | Hin]; [| contradiction].
    rewrite notify_all_rejected_others by assumption.
    unfold st1. rewrite nth_error_mark_dependency_rejected, Nat.eqb_refl, Hx.
    simpl. eexists. split; [reflexivity|].
    match goal with
    | |- In _ (_errors (updateResolvedDeferred ?f)) /\ _ =>
        destruct (shape_updateResolvedDeferred f) as (_ & _ & Hmap & Herr)
    end.
    rewrite Herr, Hmap. simpl. split.
    + apply in_or_app. right. now left.
    + apply assocGet_assocDelete.
Qed.

Section Rejection.

Variable containsRelayQueryRootCall : Node -> Node -> bool.
Variable handleQueryPayload : Node -> nat -> option nat -> option Error.

(** X12.  A rejection reaches the direct dependents, and no other fetch.  When
    a pending fetch of a state that the tracker reaches is marked as rejected,
    the error is warned about and recorded on the fetch, whose future has
    fired, and its entry leaves its registry; every dependent of the fetch has
    the error recorded, the dependency removed and its future fired; every
    other pending fetch is left as it is, the dependents of the dependents
    included. *)
Theorem rejection_reaches_dependents next st m fm error :
  reachable containsRelayQueryRootCall handleQueryPayload next st ->
  nth_error (fetches st) m = Some fm ->
  warnings (_markAsRejected m error st) = warnings st ++ [error] /\
  assocGet (getID (_query fm))
    (getRegistry (_pendingFetchMap fm) (_markAsRejected m error st)) = None /\
  (exists fm',
     nth_error (fetches (_markAsRejected m error st)) m = Some fm' /\
     _errors fm' = _errors fm ++ [error] /\
     settled (_resolvedDeferred fm') = true) /\
  (forall x, In x (_dependents fm) ->
     exists fx',
       nth_error (fetches (_markAsRejected m error st)) x = Some fx' /\
       In error (_errors fx') /\
       assocGet (getID (_query fm)) (_pendingDependencyMap fx') = None /\
       settled (_resolvedDeferred fx') = true) /\
  (forall x, x <> m -> ~ In x (_dependents fm) ->
     nth_error (fetches (_markAsRejected m error st)) x
     = nth_error (fetches st) x).
Proof.
  intros Hr Hm.
  pose proof (settledOnce_reachable _ _ _ _ Hr) as Hall.
  pose proof (settledOnce_mark_rejected st m error Hall) as Hall'.
  destruct (graphOk_reachable _ _ _ _ Hr) as (Hedges & _).
  destruct (registryOk_reachable _ _ _ _ Hr) as (_ & Hbound & _).
  assert (Hsettled : forall x fx',
            nth_error (fetches (_markAsRejected m error st)) x = Some fx' ->
            _errors fx' <> [] -> settled (_resolvedDeferred fx') = true).
  { intros x fx' Hx He. destruct (Hall' x fx' Hx) as [_ Hs].
    rewrite Hs. unfold _isSettled. destruct (_errors fx'); [congruence|].
    reflexivity. }
  set (g := fun f => updateResolvedDeferred
                       (setErrors f (_errors f ++ [error]))).
  set (st1 := updateFetch m g (warn error (deletePending m st))).
  assert (Hlook : forall n,
            nth_error (fetches st1) n
            = if n =? m then option_map g (nth_error (fetches st) n)
              else nth_error (fetches st) n).
  { intros n. unfold st1. simpl. rewrite nth_error_updateNth.
    now rewrite fetches_deletePending. }
  assert (Hgm : _dependents (g fm) = _dependents fm /\
                _errors (g fm) = _errors fm ++ [error]).
  { unfold g.
    destruct (shape_updateResolvedDeferred
                (setErrors fm (_errors fm ++ [error])))
      as (Hs & _ & _ & He).
    unfold shape in Hs. injection Hs as Hd _. auto. }
  assert (Hm1 : nth_error (fetches st1) m = Some (g fm)).
  { now rewrite Hlook, Nat.eqb_refl, Hm. }
  assert (Heq : _markAsRejected m error st
                = fold_left
                    (fun st x =>
                       _markDependencyAsRejected x (getID (_query fm)) error
                         st) (_dependents fm) st1).
  { unfold _markAsRejected, forEachDependent.
    assert (Hfuse : _updateResolvedDeferred m
                      (updateFetch m
                         (fun f => setErrors f (_errors f ++ [error]))
                         (warn error (deletePending m st))) = st1).
    { unfold _updateResolvedDeferred, st1. unfold updateFetch at 1. simpl.
      now rewrite updateNth_updateNth. }
    rewrite Hfuse, Hm1. unfold queryIDOf. rewrite Hm.
    now rewrite (proj1 Hgm). }
  assert (Hself : ~ In m (_dependents fm)).
  { intros Hin. destruct (Hedges m fm m Hm Hin). lia. }
  split; [| split; [| split; [| split]]].
  - pose proof (besidesFetches_mark_rejected m error st) as H.
    unfold besidesFetches in H.
    assert (H' : warnings (_markAsRejected m error st)
                 = warnings (warn error (deletePending m st))) by congruence.
    rewrite H'. simpl. unfold deletePending. now rewrite Hm.
  - unfold getRegistry. rewrite registries_mark_rejected.
    apply deletePending_removes; eauto.
  - exists (g fm). rewrite Heq at 1.
    rewrite notify_all_rejected_others by assumption.
    split; [exact Hm1 | split; [apply Hgm|]].
    apply (Hsettled m).
    + rewrite Heq. now rewrite notify_all_rejected_others.
    + rewrite (proj2 Hgm). now destruct (_errors fm).
  - intros x Hx.
    assert (Hx1 : exists fx1, nth_error (fetches st1) x = Some fx1).
    { destruct (Hedges m fm x Hm Hx) as [_ Hlt].
      rewrite Hlook.
      destruct (nth_error (fetches st) x) as [fx|] eqn:Hfx;
        [| apply nth_error_None in Hfx; lia].
      destruct (x =? m); simpl; eauto. }
    destruct Hx1 as (fx1 & Hx1).
    destruct (notify_all_rejected_told (getID (_query fm)) error
                (_dependents fm) st1 x fx1 Hx Hx1) as (fx' & Hx' & He & Hk).
    rewrite <- Heq in Hx'.
    exists fx'. repeat split; auto.
    apply (Hsettled x fx' Hx'). intros Hnil. now rewrite Hnil in He.
  - intros x Hne Hnin. rewrite Heq.
    rewrite notify_all_rejected_others by assumption.
    rewrite Hlook. now destruct (Nat.eqb_spec x m).
Qed.

End Rejection.

(** ** Enqueueing when nothing is pending, and after a reset *)

Lemma hasItems_false {V} (m : list (nat * V)) : hasItems m = false -> m = [].
Proof. destruct m; [reflexivity | discriminate]. Qed.

Lemma updateNth_snoc {A} (g : A -> A) l a :
  updateNth (List.length l) g (l ++ [a]) = l ++ [g a].
Proof. induction l as [|x l IH]; simpl; [reflexivity | now rewrite IH]. Qed.

Section Enqueue.

Variable containsRelayQueryRootCall : Node -> Node -> bool.
Variable handleQueryPayload : Node -> nat -> option nat -> option Error.

(** X13.  With nothing pending, a query is fetched whole.  When the registry
    of the tracker is empty, whatever else the tracker holds, enqueueing a
    query otherwise than as a preload subtracts nothing and records no
    dependency: the query itself is sent to the network, no node is
    allocated, and the fetch is registered with it, as the only entry, so
    that [hasPendingQueries] answers true. *)
Theorem enqueue_with_nothing_pending fetchMode forceIndex q st :
  fetchMode <> PRELOAD -> hasPendingQueries st = false ->
  pendingFetchMap st < List.length (registries st) ->
  exists st',
    add containsRelayQueryRootCall fetchMode forceIndex q st
    = Ok (List.length (fetches st), st') /\
    network st' = network st ++ [q] /\ nextRef st' = nextRef st /\
    fetches st'
    = fetches st
      ++ [setAwaiting (newFetch forceIndex q (pendingFetchMap st)) (Some q)] /\
    pendingFetchMap st' = pendingFetchMap st /\
    getRegistry (pendingFetchMap st') st'
    = [(getID q, {| fetch := List.length (fetches st); query := q |})] /\
    hasPendingQueries st' = true.
Proof.
  intros Hmode Hnone Hbound.
  apply hasItems_false in Hnone.
  eexists. split.
  - unfold add, newPendingFetch, _subtractPending.
    assert (Hthis : nth_error
                      (fetches (allocatePendingFetch forceIndex q st))
                      (List.length (fetches st))
                    = Some (newFetch forceIndex q (pendingFetchMap st))).
    { simpl. now rewrite nth_error_app2, Nat.sub_diag by lia. }
    rewrite Hthis.
    change (getRegistry
              (_pendingFetchMap (newFetch forceIndex q (pendingFetchMap st)))
              (allocatePendingFetch forceIndex q st))
      with (getRegistry (pendingFetchMap st) st).
    rewrite Hnone. cbn [subtractPendingFrom].
    destruct fetchMode; [reflexivity | contradiction | reflexivity].
  - unfold finishPendingFetch. simpl.
    rewrite !updateNth_updateNth, updateNth_snoc.
    unfold hasPendingQueries, getRegistry. simpl.
    rewrite nth_updateNth_same by assumption.
    unfold getRegistry in Hnone. rewrite Hnone.
    repeat split.
Qed.

End Enqueue.

Lemma pendingFetchMap_finishPendingFetch this queryID remainder st :
  pendingFetchMap (finishPendingFetch this queryID remainder st)
  = pendingFetchMap st.
Proof.
  unfold finishPendingFetch. destruct remainder; [reflexivity|].
  now rewrite pendingFetchMap_mark_resolved.
Qed.

Section Reset.

Variable containsRelayQueryRootCall : Node -> Node -> bool.
Variable handleQueryPayload : Node -> nat -> option nat -> option Error.

Lemma pendingFetchMap_step st st' :
  step containsRelayQueryRootCall handleQueryPayload st st' ->
  registryOk st -> pendingFetchMap st <= pendingFetchMap st'.
Proof.
  intros Hstep (Hp & _).
  destruct Hstep as [fetchMode forceIndex q st this st' Hroot Hnew | st
                    | this f sq result st Hf Ha | this f sq error st Hf Ha
                    | t ts st Ht].
  - destruct (newPendingFetch_inv _ _ _ _ _ _ _ Hnew)
      as (-> & remainder & deps & next' & -> & _).
    rewrite pendingFetchMap_finishPendingFetch.
    rewrite (proj1 (pendingFetchMap_request _ _ _ _)).
    now rewrite (proj2 (registries_fold_dependencies _ _ _)).
  - simpl. lia.
  - simpl. lia.
  - unfold _handleSubtractedQueryFailure.
    now rewrite pendingFetchMap_mark_rejected.
  - unfold runTask.
    destruct (taskResponse t); [| now rewrite pendingFetchMap_mark_rejected].
    destruct (handleQueryPayload _ _ _).
    + now rewrite pendingFetchMap_mark_rejected.
    + now rewrite pendingFetchMap_mark_resolved.
Qed.

Lemma pendingFetchMap_steps next st st' :
  reachable containsRelayQueryRootCall handleQueryPayload next st ->
  steps containsRelayQueryRootCall handleQueryPayload st st' ->
  pendingFetchMap st <= pendingFetchMap st'.
Proof.
  intros Hr. induction 1 as [| st st' st'' Hsteps IH Hstep]; [lia|].
  specialize (IH Hr).
  pose proof (pendingFetchMap_step _ _ Hstep
                (registryOk_reachable _ _ _ _
                   (reachable_steps _ _ _ _ _ Hr Hsteps))).
  lia.
Qed.

(** X14.  A reset sets the earlier fetches apart.  Once the tracking is reset,
    the pending fetches enqueued before it are tied to the registry they were
    created with: whatever happens next, marking one of them as resolved or as
    rejected leaves the registry of the tracker, and so [hasPendingQueries],
    as they are; it does not remove the entry of a fetch enqueued after the
    reset, be it for the same query. *)
Theorem reset_sets_earlier_fetches_apart next st st' x fx :
  reachable containsRelayQueryRootCall handleQueryPayload next st ->
  nth_error (fetches st) x = Some fx ->
  steps containsRelayQueryRootCall handleQueryPayload (resetPending st) st' ->
  (exists fx', nth_error (fetches st') x = Some fx' /\
               _pendingFetchMap fx' = _pendingFetchMap fx /\
               _pendingFetchMap fx' < pendingFetchMap st') /\
  getRegistry (pendingFetchMap st') (_markSubtractedQueryAsResolved x st')
  = getRegistry (pendingFetchMap st') st' /\
  hasPendingQueries (_markSubtractedQueryAsResolved x st')
  = hasPendingQueries st' /\
  forall error,
    getRegistry (pendingFetchMap st') (_markAsRejected x error st')
    = getRegistry (pendingFetchMap st') st' /\
    hasPendingQueries (_markAsRejected x error st') = hasPendingQueries st'.
Proof.
  intros Hr Hx Hsteps.
  assert (Hr1 : reachable containsRelayQueryRootCall handleQueryPayload next
                  (resetPending st)).
  { eapply reachable_step; [exact Hr | apply step_reset]. }
  destruct (registryOk_reachable _ _ _ _ Hr) as (_ & Hbound & _).
  pose proof (pendingFetchMap_steps _ _ _ Hr1 Hsteps) as Hmono.
  assert (Hlt : x < List.length (fetches (resetPending st))).
  { simpl. apply nth_error_Some. congruence. }
  destruct (growsOn_steps _ _ _ _ Hsteps x fx Hlt Hx)
    as (fx' & Hx' & _ & _ & Hmap & _).
  assert (Hold : _pendingFetchMap fx' < pendingFetchMap st').
  { rewrite Hmap. specialize (Hbound x fx Hx). simpl in Hmono. lia. }
  assert (Hdel : getRegistry (pendingFetchMap st') (deletePending x st')
                 = getRegistry (pendingFetchMap st') st').
  { unfold deletePending. rewrite Hx'. unfold getRegistry. simpl.
    apply nth_updateNth_other. lia. }
  split; [eauto|].
  assert (H1 : getRegistry (pendingFetchMap st')
                 (_markSubtractedQueryAsResolved x st')
               = getRegistry (pendingFetchMap st') st').
  { unfold getRegistry. rewrite registries_mark_resolved. exact Hdel. }
  assert (H2 : forall error,
            getRegistry (pendingFetchMap st') (_markAsRejected x error st')
            = getRegistry (pendingFetchMap st') st').
  { intros error. unfold getRegistry. rewrite registries_mark_rejected.
    exact Hdel. }
  split; [exact H1 | split].
  - unfold hasPendingQueries.
    now rewrite pendingFetchMap_mark_resolved, H1.
  - intros error. split; [apply H2|].
    unfold hasPendingQueries.
    now rewrite pendingFetchMap_mark_rejected, H2.
Qed.

End Reset.

(** ** Sample runs *)

Lemma sampleTracker'_reachable :
  reachable sampleOverlaps sampleStore 10 sampleTracker'.
Proof.
  eapply reachable_step; [apply sampleTracker_reachable|].
  eapply step_add with (fetchMode := CLIENT) (forceIndex := None)
                       (q := sampleQuery') (this := 1); reflexivity.
Defined.

Lemma sampleFulfilled_reachable :
  reachable sampleOverlaps sampleStore 10 sampleFulfilled.
Proof.
  eapply reachable_step; [apply sampleTracker'_reachable|].
  eapply step_fulfilled with (this := 0) (sq := sampleQuery)
                             (result := RObject 7); reflexivity.
Defined.

Lemma sampleResolved_reachable :
  reachable sampleOverlaps sampleStore 10 sampleResolved.
Proof.
  eapply reachable_step; [apply sampleFulfilled_reachable|].
  eapply step_task. reflexivity.
Defined.

Lemma sampleResolved'_reachable :
  reachable sampleOverlaps sampleStore 10 sampleResolved'.
Proof.
  eapply reachable_step;
    [eapply reachable_step; [apply sampleResolved_reachable|] |].
  - eapply step_fulfilled with (this := 1) (sq := sampleRemainder)
                               (result := RObject 8); reflexivity.
  - eapply step_task. reflexivity.
Defined.

Lemma sampleTracker_steps :
  steps sampleOverlaps sampleStore sampleTracker sampleResolved.
Proof.
  eapply steps_step; [eapply steps_step; [eapply steps_step;
    [apply steps_refl|] |] |].
  - eapply step_add with (fetchMode := CLIENT) (forceIndex := None)
                         (q := sampleQuery') (this := 1); reflexivity.
  - eapply step_fulfilled with (this := 0) (sq := sampleQuery)
                               (result := RObject 7); reflexivity.
  - eapply step_task. reflexivity.
Defined.

Lemma sampleResolved_steps :
  steps sampleOverlaps sampleStore sampleResolved sampleResolved'.
Proof.
  eapply steps_step; [eapply steps_step; [apply steps_refl|] |].
  - eapply step_fulfilled with (this := 1) (sq := sampleRemainder)
                               (result := RObject 8); reflexivity.
  - eapply step_task. reflexivity.
Defined.

Lemma pending_fetch_keeps_identity_witness :
  steps sampleOverlaps sampleStore sampleTracker sampleResolved /\
  nth_error (fetches sampleTracker) 0 = Some sampleFetch /\
  exists fx',
    nth_error (fetches sampleResolved) 0 = Some fx' /\
    getQuery 0 sampleResolved = Some sampleQuery /\
    _forceIndex fx' = None /\ _pendingFetchMap fx' = 0 /\
    extends [] (_dependents fx') /\
    (forall k d, assocGet k (_pendingDependencyMap fx') = Some d ->
       assocGet k (@nil (QueryID * nat)) = Some d).
Proof.
  split; [exact sampleTracker_steps | split; [reflexivity |]].
  exact (pending_fetch_keeps_identity sampleOverlaps sampleStore
           sampleTracker sampleResolved 0 sampleFetch sampleTracker_steps
           eq_refl).
Defined.

Lemma settlement_is_final_witness :
  let fx := nth 0 (fetches sampleResolved) sampleFetch in
  reachable sampleOverlaps sampleStore 10 sampleResolved /\
  steps sampleOverlaps sampleStore sampleResolved sampleResolved' /\
  nth_error (fetches sampleResolved) 0 = Some fx /\
  settlements (_resolvedDeferred fx) = [Resolved] /\
  exists fx',
    nth_error (fetches sampleResolved') 0 = Some fx' /\
    settlements (_resolvedDeferred fx') = [Resolved] /\
    settled (_resolvedDeferred fx') = true /\
    extends (_errors fx) (_errors fx') /\
    (_resolvedSubtractedQuery fx = true ->
     _resolvedSubtractedQuery fx' = true) /\
    (_fetchedSubtractedQuery fx = true -> _fetchedSubtractedQuery fx' = true).
Proof.
  intros fx.
  split; [exact sampleResolved_reachable | split;
    [exact sampleResolved_steps | split; [reflexivity | split;
      [reflexivity |]]]].
  exact (settlement_is_final sampleOverlaps sampleStore 10 sampleResolved
           sampleResolved' 0 fx Resolved sampleResolved_reachable
           sampleResolved_steps eq_refl eq_refl).
Defined.

Lemma registry_holds_pending_fetches_witness :
  let reg := getRegistry 0 sampleTracker' in
  let e := {| fetch := 1; query := sampleRemainder |} in
  reachable sampleOverlaps sampleStore 10 sampleTracker' /\
  nth_error (registries sampleTracker') 0 = Some reg /\
  In (3, e) reg /\
  assocGet 3 reg = Some e /\
  exists fe,
    nth_error (fetches sampleTracker') 1 = Some fe /\
    getID (_query fe) = 3 /\ _pendingFetchMap fe = 0 /\
    _resolvedSubtractedQuery fe = false /\
    isRoot sampleRemainder = true /\ Pruned sampleRemainder (_query fe).
Proof.
  intros reg e.
  assert (Hin : In (3, e) reg) by (right; left; reflexivity).
  split; [exact sampleTracker'_reachable | split;
    [reflexivity | split; [exact Hin |]]].
  exact (registry_holds_pending_fetches sampleOverlaps sampleStore 10
           sampleTracker' 0 reg 3 e sampleTracker'_reachable eq_refl Hin).
Defined.

Lemma network_asked_for_enqueued_only_witness :
  reachable sampleOverlaps sampleStore 10 sampleTracker' /\
  In sampleRemainder (network sampleTracker') /\
  isRoot sampleRemainder = true /\
  exists x fx, nth_error (fetches sampleTracker') x = Some fx /\
               Pruned sampleRemainder (_query fx).
Proof.
  assert (Hin : In sampleRemainder (network sampleTracker'))
    by (right; left; reflexivity).
  split; [exact sampleTracker'_reachable | split; [exact Hin |]].
  exact (network_asked_for_enqueued_only sampleOverlaps sampleStore 10
           sampleTracker' sampleRemainder sampleTracker'_reachable Hin).
Defined.

Lemma dependencies_are_older_witness :
  reachable sampleOverlaps sampleStore 10 sampleTracker' /\
  (forall d fd f,
     nth_error (fetches sampleTracker') d = Some fd ->
     In f (_dependents fd) ->
     d < f /\ f < List.length (fetches sampleTracker')) /\
  (forall f ff k d,
     nth_error (fetches sampleTracker') f = Some ff ->
     assocGet k (_pendingDependencyMap ff) = Some d ->
     d < f /\
     exists fd, nth_error (fetches sampleTracker') d = Some fd /\
                getID (_query fd) = k /\ In f (_dependents fd)).
Proof.
  split; [exact sampleTracker'_reachable |].
  exact (dependencies_are_older sampleOverlaps sampleStore 10 sampleTracker'
           sampleTracker'_reachable).
Defined.

Lemma resolved_after_dependencies_witness :
  let ff := nth 1 (fetches sampleResolved') sampleFetch in
  reachable sampleOverlaps sampleStore 10 sampleResolved' /\
  nth_error (fetches sampleResolved') 1 = Some ff /\
  settlements (_resolvedDeferred ff) = [Resolved] /\
  _resolvedSubtractedQuery ff = true /\ _pendingDependencyMap ff = [] /\
  forall d fd,
    nth_error (fetches sampleResolved') d = Some fd ->
    In 1 (_dependents fd) -> _resolvedSubtractedQuery fd = true.
Proof.
  intros ff.
  split; [exact sampleResolved'_reachable | split;
    [reflexivity | split; [reflexivity |]]].
  exact (resolved_after_dependencies sampleOverlaps sampleStore 10
           sampleResolved' 1 ff sampleResolved'_reachable eq_refl eq_refl).
Defined.

Lemma rejection_reaches_dependents_witness :
  let fm := nth 0 (fetches sampleTracker') sampleFetch in
  let st' := _markAsRejected 0 "network down" sampleTracker' in
  reachable sampleOverlaps sampleStore 10 sampleTracker' /\
  nth_error (fetches sampleTracker') 0 = Some fm /\
  warnings st' = ["network down"] /\
  exists fx',
    nth_error (fetches st') 1 = Some fx' /\
    In "network down" (_errors fx') /\
    settled (_resolvedDeferred fx') = true.
Proof.
  intros fm st'.
  split; [exact sampleTracker'_reachable | split; [reflexivity |]].
  destruct (rejection_reaches_dependents sampleOverlaps sampleStore 10
              sampleTracker' 0 fm "network down" sampleTracker'_reachable
              eq_refl) as (Hw & _ & _ & Hdeps & _).
  split; [exact Hw |].
  destruct (Hdeps 1 (or_introl eq_refl)) as (fx' & Hx & He & _ & Hs).
  exists fx'. split; [exact Hx | split; [exact He | exact Hs]].
Defined.

Lemma enqueue_with_nothing_pending_witness :
  CLIENT <> PRELOAD /\ hasPendingQueries (newTracker 10) = false /\
  pendingFetchMap (newTracker 10) < List.length (registries (newTracker 10)) /\
  exists st',
    add sampleOverlaps CLIENT None sampleQuery (newTracker 10) = Ok (0, st') /\
    network st' = [sampleQuery] /\ hasPendingQueries st' = true.
Proof.
  assert (Hmode : CLIENT <> PRELOAD) by discriminate.
  assert (Hbound : pendingFetchMap (newTracker 10)
                   < List.length (registries (newTracker 10)))
    by (simpl; lia).
  split; [exact Hmode | split; [reflexivity | split; [exact Hbound |]]].
  destruct (enqueue_with_nothing_pending sampleOverlaps CLIENT None
              sampleQuery (newTracker 10) Hmode eq_refl Hbound)
    as (st' & Hadd & Hnet & _ & _ & _ & _ & Hp).
  exists st'. split; [exact Hadd | split; [exact Hnet | exact Hp]].
Defined.

Lemma reset_sets_earlier_fetches_apart_witness :
  let fx := nth 0 (fetches sampleTracker') sampleFetch in
  let st' := resetPending sampleTracker' in
  reachable sampleOverlaps sampleStore 10 sampleTracker' /\
  nth_error (fetches sampleTracker') 0 = Some fx /\
  steps sampleOverlaps sampleStore st' st' /\
  hasPendingQueries (_markSubtractedQueryAsResolved 0 st')
  = hasPendingQueries st' /\
  forall error,
    hasPendingQueries (_markAsRejected 0 error st') = hasPendingQueries st'.
Proof.
  intros fx st'.
  split; [exact sampleTracker'_reachable | split;
    [reflexivity | split; [apply steps_refl |]]].
  destruct (reset_sets_earlier_fetches_apart sampleOverlaps sampleStore 10
              sampleTracker' st' 0 fx sampleTracker'_reachable eq_refl
              (steps_refl sampleOverlaps sampleStore st'))
    as (_ & _ & H1 & H2).
  split; [exact H1 |]. intros error. exact (proj2 (H2 error)).
Defined.

(** ** Where the pending fetches are on their way *)

Lemma length_fold (op : nat -> Tracker -> Tracker) ds st :
  (forall d st0,
     List.length (fetches (op d st0)) = List.length (fetches st0)) ->
  List.length (fetches (fold_left (fun st d => op d st) ds st))
  = List.length (fetches st).
Proof.
  intros Hlen. revert st. induction ds as [|d ds IH]; intros st; simpl;
    [reflexivity|].
  now rewrite IH, Hlen.
Qed.

(** What telling [x] establishes, and growing keeps, holds of [x] once
    all of [ds] are told, [x] among them. *)
Lemma fold_told (op : nat -> Tracker -> Tracker) (Q : PendingFetch -> Prop)
    ds st x fx' :
  (forall d st0, growsOn (S x) st0 (op d st0)) ->
  (forall d st0,
     List.length (fetches (op d st0)) = List.length (fetches st0)) ->
  (forall st0 f', nth_error (fetches (op x st0)) x = Some f' -> Q f') ->
  (forall f f', grows f f' -> Q f -> Q f') ->
  In x ds ->
  nth_error (fetches (fold_left (fun st d => op d st) ds st)) x = Some fx' ->
  Q fx'.
Proof.
  intros Hgrow Hlen Htold Hstable. revert st.
  induction ds as [|d ds IH]; intros st Hin Hx; [contradiction|].
  simpl in Hx. destruct (in_dec Nat.eq_dec x ds) as [Hin' | Hnin].
  - eapply IH; eauto.
  - destruct Hin as [-> | Hin]; [| contradiction].
    pose proof (growsOn_fold (S x) op ds (op x st) Hgrow) as Hg.
    destruct (nth_error (fetches (op x st)) x) as [f1|] eqn:H1.
    + destruct (Hg x f1 (Nat.lt_succ_diag_r x) H1) as (f2 & H2 & Hgr).
      rewrite Hx in H2. injection H2 as <-.
      eapply Hstable; eauto.
    + exfalso. apply nth_error_None in H1.
      assert (Hsome : nth_error
                        (fetches (fold_left (fun st d => op d st) ds (op x st)))
                        x <> None) by congruence.
      apply nth_error_Some in Hsome.
      rewrite (length_fold op ds (op x st) Hlen) in Hsome. lia.
Qed.

Lemma length_mark_dependency_resolved x k st :
  List.length (fetches (_markDependencyAsResolved x k st))
  = List.length (fetches st).
Proof.
  unfold _markDependencyAsResolved, _updateResolvedDeferred. simpl.
  now rewrite !length_updateNth.
Qed.

Lemma length_mark_dependency_rejected x k error st :
  List.length (fetches (_markDependencyAsRejected x k error st))
  = List.length (fetches st).
Proof.
  unfold _markDependencyAsRejected, _updateResolvedDeferred. simpl.
  now rewrite !length_updateNth.
Qed.

Lemma nth_error_mark_dependency_resolved x k st n :
  nth_error (fetches (_markDependencyAsResolved x k st)) n
  = if n =? x
    then option_map
           (fun f =>
              updateResolvedDeferred
                (setPendingDependencyMap f
                   (assocDelete k (_pendingDependencyMap f))))
           (nth_error (fetches st) n)
    else nth_error (fetches st) n.
Proof.
  unfold _markDependencyAsResolved, _updateResolvedDeferred. simpl.
  rewrite !nth_error_updateNth.
  destruct (n =? x); [| reflexivity].
  now destruct (nth_error (fetches st) n).
Qed.

Lemma noKey_assocDelete {V} k (m : list (nat * V)) v :
  ~ In (k, v) (assocDelete k m).
Proof. intros H. apply In_assocDelete in H. now destruct H. Qed.

(** The dependents of [m] that are told of it have no pending dependency
    under the identifier of its query. *)
Lemma notify_all_resolved_told k ds st x fx' d :
  In x ds ->
  nth_error
    (fetches (fold_left (fun st x => _markDependencyAsResolved x k st) ds st))
    x = Some fx' ->
  ~ In (k, d) (_pendingDependencyMap fx').
Proof.
  intros Hin Hx.
  apply (fold_told (fun x st => _markDependencyAsResolved x k st)
           (fun f => ~ In (k, d) (_pendingDependencyMap f)) ds st x fx');
    auto.
  - intros; apply growsOn_mark_dependency_resolved.
  - intros; apply length_mark_dependency_resolved.
  - intros st0 f'. rewrite nth_error_mark_dependency_resolved, Nat.eqb_refl.
    destruct (nth_error (fetches st0) x) as [f|]; [| discriminate].
    simpl. intros [= <-].
    match goal with
    | |- ~ In _ (_pendingDependencyMap (updateResolvedDeferred ?f)) =>
        destruct (shape_updateResolvedDeferred f) as (_ & _ & Hmap & _)
    end.
    rewrite Hmap. simpl. apply noKey_assocDelete.
  - intros f f' Hg Hf Hin'. apply Hf.
    destruct Hg as (_ & _ & _ & _ & _ & _ & _ & _ & _ & HIn). auto.
Qed.

Lemma notify_all_rejected_told_In k error ds st x fx' d :
  In x ds ->
  nth_error
    (fetches
       (fold_left (fun st x => _markDependencyAsRejected x k error st) ds st))
    x = Some fx' ->
  ~ In (k, d) (_pendingDependencyMap fx').
Proof.
  intros Hin Hx.
  apply (fold_told (fun x st => _markDependencyAsRejected x k error st)
           (fun f => ~ In (k, d) (_pendingDependencyMap f)) ds st x fx');
    auto.
  - intros; apply growsOn_mark_dependency_rejected.
  - intros; apply length_mark_dependency_rejected.
  - intros st0 f'. rewrite nth_error_mark_dependency_rejected, Nat.eqb_refl.
    destruct (nth_error (fetches st0) x) as [f|]; [| discriminate].
    simpl. intros [= <-].
    match goal with
    | |- ~ In _ (_pendingDependencyMap (updateResolvedDeferred ?f)) =>
        destruct (shape_updateResolvedDeferred f) as (_ & _ & Hmap & _)
    end.
    rewrite Hmap. simpl. apply noKey_assocDelete.
  - intros f f' Hg Hf Hin'. apply Hf.
    destruct Hg as (_ & _ & _ & _ & _ & _ & _ & _ & _ & HIn). auto.
Qed.

Lemma _markAsRejected_eq m error st fm :
  nth_error (fetches st) m = Some fm ->
  _markAsRejected m error st
  = fold_left
      (fun st x => _markDependencyAsRejected x (getID (_query fm)) error st)
      (_dependents fm)
      (updateFetch m
         (fun f => updateResolvedDeferred (setErrors f (_errors f ++ [error])))
         (warn error (deletePending m st))).
Proof.
  intros Hm. unfold _markAsRejected, forEachDependent.
  set (g := fun f => updateResolvedDeferred
                       (setErrors f (_errors f ++ [error]))).
  assert (Hfuse : _updateResolvedDeferred m
                    (updateFetch m
                       (fun f => setErrors f (_errors f ++ [error]))
                       (warn error (deletePending m st)))
                  = updateFetch m g (warn error (deletePending m st))).
  { unfold _updateResolvedDeferred. unfold updateFetch at 1. simpl.
    now rewrite updateNth_updateNth. }
  rewrite Hfuse.
  assert (Hm1 : nth_error
                  (fetches (updateFetch m g (warn error (deletePending m st))))
                  m = Some (g fm)).
  { simpl. now rewrite nth_error_updateNth_same, fetches_deletePending, Hm. }
  rewrite Hm1. unfold queryIDOf. rewrite Hm.
  destruct (shape_updateResolvedDeferred
              (setErrors fm (_errors fm ++ [error]))) as (Hs & _).
  unfold shape in Hs. injection Hs as Hd _.
  unfold g at 1. now rewrite Hd.
Qed.

Lemma _markSubtractedQueryAsResolved_eq m st fm :
  nth_error (fetches st) m = Some fm ->
  _markSubtractedQueryAsResolved m st
  = fold_left
      (fun st x => _markDependencyAsResolved x (getID (_query fm)) st)
      (_dependents fm)
      (updateFetch m
         (fun f => updateResolvedDeferred (setResolvedSubtractedQuery f true))
         (deletePending m st)).
Proof.
  intros Hm. unfold _markSubtractedQueryAsResolved, forEachDependent.
  set (g := fun f => updateResolvedDeferred
                       (setResolvedSubtractedQuery f true)).
  assert (Hfuse : _updateResolvedDeferred m
                    (updateFetch m
                       (fun f => setResolvedSubtractedQuery f true)
                       (deletePending m st))
                  = updateFetch m g (deletePending m st)).
  { unfold _updateResolvedDeferred. unfold updateFetch at 1. simpl.
    now rewrite updateNth_updateNth. }
  rewrite Hfuse.
  assert (Hm1 : nth_error (fetches (updateFetch m g (deletePending m st))) m
                = Some (g fm)).
  { simpl. now rewrite nth_error_updateNth_same, fetches_deletePending, Hm. }
  rewrite Hm1. unfold queryIDOf. rewrite Hm.
  destruct (shape_updateResolvedDeferred
              (setResolvedSubtractedQuery fm true)) as (Hs & _).
  unfold shape in Hs. injection Hs as Hd _.
  unfold g at 1. now rewrite Hd.
Qed.

Lemma registries_deletePending_sub this st r reg k e :
  nth_error (registries (deletePending this st)) r = Some reg ->
  In (k, e) reg ->
  exists reg0, nth_error (registries st) r = Some reg0 /\ In (k, e) reg0.
Proof.
  unfold deletePending.
  destruct (nth_error (fetches st) this) as [f|]; [| eauto].
  simpl. rewrite nth_error_updateNth.
  destruct (r =? _pendingFetchMap f); [| eauto].
  destruct (nth_error (registries st) r) as [reg0|]; [| discriminate].
  simpl. intros [= <-] Hin. exists reg0. split; [reflexivity|].
  eapply In_assocDelete_In; eauto.
Qed.

Lemma tasks_mark_resolved this st :
  tasks (_markSubtractedQueryAsResolved this st) = tasks st.
Proof.
  pose proof (besidesFetches_mark_resolved this st) as H.
  unfold besidesFetches in H.
  assert (H' : tasks (_markSubtractedQueryAsResolved this st)
               = tasks (deletePending this st)) by congruence.
  rewrite H'. unfold deletePending. now destruct (nth_error (fetches st) this).
Qed.

Lemma tasks_mark_rejected this error st :
  tasks (_markAsRejected this error st) = tasks st.
Proof.
  pose proof (besidesFetches_mark_rejected this error st) as H.
  unfold besidesFetches in H.
  assert (H' : tasks (_markAsRejected this error st)
               = tasks (warn error (deletePending this st))) by congruence.
  rewrite H'. simpl. unfold deletePending.
  now destruct (nth_error (fetches st) this).
Qed.

(** Once [m] is marked, no pending fetch has it as a pending
    dependency. *)
Lemma no_dependency_on_marked m st st' f ff' k :
  dependenciesOk st -> growsOn (List.length (fetches st)) st st' ->
  List.length (fetches st') = List.length (fetches st) ->
  (forall fm x fx' d,
     nth_error (fetches st) m = Some fm -> In x (_dependents fm) ->
     nth_error (fetches st') x = Some fx' ->
     ~ In (getID (_query fm), d) (_pendingDependencyMap fx')) ->
  nth_error (fetches st') f = Some ff' ->
  ~ In (k, m) (_pendingDependencyMap ff').
Proof.
  intros Hdeps Hg Hlen Htold Hf Hin.
  assert (Hlt : f < List.length (fetches st)).
  { rewrite <- Hlen. apply nth_error_Some. congruence. }
  destruct (nth_error (fetches st) f) as [ff|] eqn:Hff;
    [| apply nth_error_None in Hff; lia].
  destruct (Hg f ff Hlt Hff) as (ff2 & Hf2 & Hgrow).
  rewrite Hf in Hf2. injection Hf2 as <-.
  destruct Hgrow as (_ & _ & _ & _ & _ & _ & _ & _ & _ & HIn).
  destruct (Hdeps f ff k m Hff (HIn _ _ Hin)) as (fm & Hm & Hk & Hdep).
  subst k. exact (Htold fm f ff' m Hm Hdep Hf Hin).
Qed.

Lemma marked_mark_rejected m error st :
  registryOk st -> dependenciesOk st ->
  marked m st (_markAsRejected m error st).
Proof.
  intros Hreg Hdeps.
  assert (Hsame : forall {X} (proj : PendingFetch -> X),
            (forall f m, proj (setPendingDependencyMap f m) = proj f) ->
            (forall f d, proj (setResolvedDeferred f d) = proj f) ->
            (forall f es, proj (setErrors f es) = proj f) ->
            sameField proj st (_markAsRejected m error st)).
  { intros X proj H1 H2 H3 n. now apply field_after_mark_rejected. }
  split; [apply tasks_mark_rejected | split; [| split; [| split; [| split]]]].
  - now apply Hsame.
  - apply growsOn_mark_rejected.
  - intros f ff' k d Hf Hin ->.
    apply (no_dependency_on_marked m st (_markAsRejected m error st) f ff' k
             Hdeps (growsOn_mark_rejected _ m error st));
      [| | exact Hf | exact Hin].
    + apply (sameField_length shape). now apply Hsame.
    + intros fm x fx' d Hm Hx Hx'.
      rewrite (_markAsRejected_eq m error st fm Hm) in Hx'.
      eapply notify_all_rejected_told_In; eauto.
  - intros r reg k e Hr Hin. rewrite registries_mark_rejected in Hr.
    split.
    + destruct (registryOk_deletePending m st Hreg) as [_ Hne]. eauto.
    + eapply registries_deletePending_sub; eauto.
  - intros x f' _ Hx.
    destruct (sameField_lookup _resolvedSubtractedQuery st _ x f'
                (Hsame _ _resolvedSubtractedQuery (fun _ _ => eq_refl)
                   (fun _ _ => eq_refl) (fun _ _ => eq_refl)) Hx)
      as (f & Hf & Heq).
    eauto.
Qed.

Lemma marked_mark_resolved m st :
  registryOk st -> dependenciesOk st ->
  marked m st (_markSubtractedQueryAsResolved m st).
Proof.
  intros Hreg Hdeps.
  assert (Hsame : forall {X} (proj : PendingFetch -> X),
            (forall f m, proj (setPendingDependencyMap f m) = proj f) ->
            (forall f d, proj (setResolvedDeferred f d) = proj f) ->
            (forall f b, proj (setResolvedSubtractedQuery f b) = proj f) ->
            sameField proj st (_markSubtractedQueryAsResolved m st)).
  { intros X proj H1 H2 H3 n. now apply field_after_mark_resolved. }
  split; [apply tasks_mark_resolved | split; [| split; [| split; [| split]]]].
  - now apply Hsame.
  - apply growsOn_mark_resolved.
  - intros f ff' k d Hf Hin ->.
    apply (no_dependency_on_marked m st (_markSubtractedQueryAsResolved m st)
             f ff' k Hdeps (growsOn_mark_resolved _ m st));
      [| | exact Hf | exact Hin].
    + apply (sameField_length shape). now apply Hsame.
    + intros fm x fx' d Hm Hx Hx'.
      rewrite (_markSubtractedQueryAsResolved_eq m st fm Hm) in Hx'.
      eapply notify_all_resolved_told; eauto.
  - intros r reg k e Hr Hin. rewrite registries_mark_resolved in Hr.
    split.
    + destruct (registryOk_deletePending m st Hreg) as [_ Hne]. eauto.
    + eapply registries_deletePending_sub; eauto.
  - intros x f' Hne Hx.
    pose proof (field_after_mark_resolved_other _resolvedSubtractedQuery m st
                  x (fun _ _ => eq_refl) (fun _ _ => eq_refl) Hne) as H.
    rewrite Hx in H.
    destruct (nth_error (fetches st) x) as [f|]; [| discriminate].
    simpl in H. injection H as H. eauto.
Qed.

Lemma queued_same st st' x :
  tasks st' = tasks st -> queued st x -> queued st' x.
Proof. unfold queued. now intros ->. Qed.

(** A fetch in flight stays in flight where the tasks stay and no promise
    is settled. *)
Lemma inFlight_kept st st' d :
  (forall t, In t (tasks st) -> In t (tasks st')) ->
  (forall f, nth_error (fetches st) d = Some f -> awaiting f <> None ->
     exists f', nth_error (fetches st') d = Some f' /\ awaiting f' <> None) ->
  inFlight st d -> inFlight st' d.
Proof.
  intros Ht Ha [(f & Hf & Haw) | (t & Hin & Heq)].
  - left. eauto.
  - right. exists t. auto.
Qed.

Lemma inFlight_sameField st st' d :
  tasks st' = tasks st ->
  sameField (fun f => (awaiting f, _fetchedSubtractedQuery f)) st st' ->
  inFlight st d -> inFlight st' d.
Proof.
  intros Ht Hs. apply inFlight_kept.
  - now rewrite Ht.
  - intros f Hf Ha. specialize (Hs d). rewrite Hf in Hs.
    destruct (nth_error (fetches st') d) as [f'|]; [| discriminate].
    simpl in Hs. injection Hs as Haw _. exists f'. split; congruence.
Qed.

Lemma lifecycleOk_marked m st st' :
  marked m st st' -> lifecycleBut m st ->
  (forall fm', nth_error (fetches st') m = Some fm' ->
     (_fetchedSubtractedQuery fm' = true ->
      _resolvedSubtractedQuery fm' = true \/ _errors fm' <> []) /\
     (_resolvedSubtractedQuery fm' = true ->
      _fetchedSubtractedQuery fm' = true)) ->
  lifecycleOk st'.
Proof.
  intros (Htasks & Hsame & Hgrow & Hdeps & Hregs & Hflags)
         (H1 & H2 & H3 & H4) Hown.
  assert (Hlook : forall x f',
            nth_error (fetches st') x = Some f' ->
            exists f, nth_error (fetches st) x = Some f /\
              awaiting f' = awaiting f /\
              _fetchedSubtractedQuery f' = _fetchedSubtractedQuery f /\
              grows f f').
  { intros x f' Hx.
    destruct (sameField_lookup _ st st' x f' Hsame Hx) as (f & Hf & Heq).
    injection Heq as Ha Hb.
    assert (Hlt : x < List.length (fetches st)).
    { apply nth_error_Some. congruence. }
    destruct (Hgrow x f Hlt Hf) as (f2 & Hf2 & Hg).
    rewrite Hx in Hf2. injection Hf2 as <-. eauto. }
  split; [| split; [| split]].
  - intros x f' Hx.
    destruct (Hlook x f' Hx) as (f & Hf & Ha & Hb & Hg).
    destruct (H1 x f Hf) as (Hc1 & Hc2 & Hc3).
    rewrite Ha, Hb. split; [exact Hc1|].
    destruct (Nat.eq_dec x m) as [-> | Hne].
    + destruct (Hown f' Hx) as [Ho1 Ho2]. rewrite Hb in Ho1, Ho2.
      split; [| exact Ho2]. intros Hfe. destruct (Ho1 Hfe); auto.
    + destruct (Hflags x f' Hne Hx) as (f0 & Hf0 & Hr).
      rewrite Hf in Hf0. injection Hf0 as <-. rewrite Hr.
      split; [| auto].
      intros Hfe. destruct (Hc2 Hne Hfe) as [Hres | [Hq | He]]; auto.
      * right; left. now apply (queued_same st).
      * right; right. destruct Hg as (_ & _ & _ & _ & [t Ht] & _).
        rewrite Ht. intros Hnil. apply He.
        now destruct (_errors f).
  - intros t Ht. rewrite Htasks in Ht.
    destruct (H2 t Ht) as (f & Hf & Hfe).
    specialize (Hsame (taskFetch t)). rewrite Hf in Hsame.
    destruct (nth_error (fetches st') (taskFetch t)) as [f'|];
      [| discriminate].
    simpl in Hsame. injection Hsame as _ Hb. exists f'. split; congruence.
  - intros f ff' k d Hf Hin.
    pose proof (Hdeps f ff' k d Hf Hin) as Hne.
    destruct (Hlook f ff' Hf) as (ff & Hff & _ & _ & Hg).
    destruct Hg as (_ & _ & _ & _ & _ & _ & _ & _ & _ & HIn).
    apply (inFlight_sameField st); auto.
    eapply H3; eauto.
  - intros r reg k e Hr Hin.
    destruct (Hregs r reg k e Hr Hin) as (Hne & reg0 & Hr0 & Hin0).
    apply (inFlight_sameField st); auto.
    eapply H4; eauto.
Qed.

Lemma lifecycleOk_same st st' :
  fetches st' = fetches st -> tasks st' = tasks st ->
  registries st' = registries st ->
  lifecycleOk st -> lifecycleOk st'.
Proof.
  unfold lifecycleOk, inFlight, queued. intros -> -> ->. auto.
Qed.

Lemma lifecycleBut_same m st st' :
  fetches st' = fetches st -> tasks st' = tasks st ->
  registries st' = registries st ->
  lifecycleBut m st -> lifecycleBut m st'.
Proof.
  unfold lifecycleBut, inFlight, queued. intros -> -> ->. auto.
Qed.

Lemma errors_after_mark_rejected m error st fm' :
  nth_error (fetches (_markAsRejected m error st)) m = Some fm' ->
  _errors fm' <> [].
Proof.
  intros Hm'.
  assert (Hs : sameField shape st (_markAsRejected m error st)).
  { intros n. now apply field_after_mark_rejected. }
  destruct (sameField_lookup shape st _ m fm' Hs Hm') as (fm & Hm & _).
  rewrite (_markAsRejected_eq m error st fm Hm) in Hm'.
  set (g := fun f => updateResolvedDeferred
                       (setErrors f (_errors f ++ [error]))) in *.
  set (st1 := updateFetch m g (warn error (deletePending m st))) in *.
  assert (Hm1 : nth_error (fetches st1) m = Some (g fm)).
  { unfold st1. simpl.
    now rewrite nth_error_updateNth_same, fetches_deletePending, Hm. }
  pose proof (growsOn_fold (S m)
                (fun x st =>
                   _markDependencyAsRejected x (getID (_query fm)) error st)
                (_dependents fm) st1
                (fun d st0 =>
                   growsOn_mark_dependency_rejected (S m) d _ error st0))
    as Hg.
  destruct (Hg m (g fm) (Nat.lt_succ_diag_r m) Hm1) as (f2 & Hf2 & Hgr).
  rewrite Hm' in Hf2. injection Hf2 as <-.
  destruct Hgr as (_ & _ & _ & _ & [t Ht] & _). rewrite Ht.
  unfold g.
  destruct (shape_updateResolvedDeferred
              (setErrors fm (_errors fm ++ [error]))) as (_ & _ & _ & He).
  rewrite He. simpl. now destruct (_errors fm).
Qed.

(** The promise of the subtracted query of [m] is settled. *)
Lemma lifecycleBut_settle m st :
  lifecycleOk st ->
  lifecycleBut m (updateFetch m (fun f => setAwaiting f None) st).
Proof.
  intros (H1 & H2 & H3 & H4).
  assert (Hlook : forall x f',
            nth_error
              (fetches (updateFetch m (fun f => setAwaiting f None) st)) x
            = Some f' ->
            exists f, nth_error (fetches st) x = Some f /\
              _fetchedSubtractedQuery f' = _fetchedSubtractedQuery f /\
              _resolvedSubtractedQuery f' = _resolvedSubtractedQuery f /\
              _errors f' = _errors f /\
              _pendingDependencyMap f' = _pendingDependencyMap f /\
              (awaiting f' <> None -> awaiting f <> None) /\
              (x <> m -> awaiting f' = awaiting f)).
  { intros x f'. simpl. rewrite nth_error_updateNth.
    destruct (Nat.eqb_spec x m) as [-> | Hne].
    - destruct (nth_error (fetches st) m) as [f|]; [| discriminate].
      simpl. intros [= <-]. exists f. simpl. repeat split; congruence.
    - intros Hx. exists f'. repeat split; auto. }
  assert (Hfly : forall d, d <> m -> inFlight st d ->
            inFlight (updateFetch m (fun f => setAwaiting f None) st) d).
  { intros d Hne. apply inFlight_kept; [auto|].
    intros f Hf Ha. exists f. split; [| exact Ha].
    simpl. now rewrite nth_error_updateNth_other. }
  split; [| split; [| split]].
  - intros x f' Hx.
    destruct (Hlook x f' Hx) as (f & Hf & Hb & Hr & He & _ & Ha & _).
    destruct (H1 x f Hf) as (Hc1 & Hc2 & Hc3).
    rewrite Hb, Hr, He. auto.
  - intros t Ht. destruct (H2 t Ht) as (f & Hf & Hfe).
    simpl. rewrite nth_error_updateNth.
    destruct (taskFetch t =? m); rewrite Hf; simpl; eauto.
  - intros f ff' k d Hf Hin Hne.
    destruct (Hlook f ff' Hf) as (ff & Hff & _ & _ & _ & Hm & _).
    rewrite Hm in Hin. eauto.
  - intros r reg k e Hr Hin Hne. eauto.
Qed.

(** The first task of the queue is taken off it. *)
Lemma lifecycleBut_dequeue t ts st :
  tasks st = t :: ts -> lifecycleOk st ->
  lifecycleBut (taskFetch t) (setTasks st ts).
Proof.
  intros Ht (H1 & H2 & H3 & H4).
  assert (Hq : forall x, x <> taskFetch t -> queued st x ->
            queued (setTasks st ts) x).
  { intros x Hne (t' & Hin & Heq). rewrite Ht in Hin.
    destruct Hin as [<- | Hin]; [congruence|]. now exists t'. }
  assert (Hfly : forall d, d <> taskFetch t -> inFlight st d ->
            inFlight (setTasks st ts) d).
  { intros d Hne [Ha | Hqd]; [now left | right; auto]. }
  split; [| split; [| split]].
  - intros x f Hx. destruct (H1 x f Hx) as (Hc1 & Hc2 & Hc3).
    split; [exact Hc1 | split; [| auto]].
    intros Hne Hfe. destruct (Hc2 Hfe) as [Hr | [Hqx | He]]; auto.
  - intros t' Hin. apply H2. rewrite Ht. now right.
  - intros f ff k d Hf Hin Hne. apply Hfly; eauto.
  - intros r reg k e Hr Hin Hne. apply Hfly; eauto.
Qed.

Lemma lifecycleOk_fulfilled this f sq result st :
  nth_error (fetches st) this = Some f ->
  lifecycleOk st ->
  lifecycleOk
    (_handleSubtractedQuerySuccess this sq result
       (updateFetch this (fun f => setAwaiting f None) st)).
Proof.
  intros Hthis (H1 & H2 & H3 & H4).
  set (st' := _handleSubtractedQuerySuccess this sq result
                (updateFetch this (fun f => setAwaiting f None) st)).
  assert (Hlook : forall x f',
            nth_error (fetches st') x = Some f' ->
            exists f0, nth_error (fetches st) x = Some f0 /\
              _resolvedSubtractedQuery f' = _resolvedSubtractedQuery f0 /\
              _errors f' = _errors f0 /\
              _pendingDependencyMap f' = _pendingDependencyMap f0 /\
              (x = this -> awaiting f' = None /\
                           _fetchedSubtractedQuery f' = true) /\
              (x <> this -> awaiting f' = awaiting f0 /\
                            _fetchedSubtractedQuery f'
                            = _fetchedSubtractedQuery f0)).
  { intros x f'. unfold st', _handleSubtractedQuerySuccess. simpl.
    rewrite !nth_error_updateNth.
    destruct (Nat.eqb_spec x this) as [-> | Hne].
    - rewrite Hthis. simpl. intros [= <-]. exists f. simpl.
      repeat split; auto; congruence.
    - intros Hx. exists f'. repeat split; auto; congruence. }
  assert (Hq : forall x, queued st x -> queued st' x).
  { intros x (t & Hin & Heq). exists t. split; [| exact Heq].
    unfold st', _handleSubtractedQuerySuccess. simpl.
    apply in_or_app. now left. }
  assert (Hqthis : queued st' this).
  { eexists. split.
    - unfold st', _handleSubtractedQuerySuccess. simpl.
      apply in_or_app. right. now left.
    - reflexivity. }
  assert (Hfly : forall d, inFlight st d -> inFlight st' d).
  { intros d [(f0 & Hf0 & Ha) | Hqd]; [| right; auto].
    destruct (Nat.eq_dec d this) as [-> | Hne]; [now right|].
    left. exists f0. split; [| exact Ha].
    unfold st', _handleSubtractedQuerySuccess. simpl.
    now rewrite !nth_error_updateNth_other. }
  split; [| split; [| split]].
  - intros x f' Hx.
    destruct (Hlook x f' Hx) as (f0 & Hf0 & Hr & He & _ & Heq & Hother).
    destruct (H1 x f0 Hf0) as (Hc1 & Hc2 & Hc3).
    destruct (Nat.eq_dec x this) as [-> | Hne].
    + destruct (Heq eq_refl) as [Ha Hb]. rewrite Ha, Hb.
      split; [congruence | split; auto].
    + destruct (Hother Hne) as [Ha Hb]. rewrite Ha, Hb, Hr, He.
      split; [exact Hc1 | split; [| exact Hc3]].
      intros Hfe. destruct (Hc2 Hfe) as [? | [? | ?]]; auto.
  - intros t Hin. unfold st', _handleSubtractedQuerySuccess in Hin.
    simpl in Hin. apply in_app_or in Hin.
    assert (Hfetched : forall x f0,
              nth_error (fetches st) x = Some f0 ->
              (x = this \/ _fetchedSubtractedQuery f0 = true) ->
              exists f', nth_error (fetches st') x = Some f' /\
                         _fetchedSubtractedQuery f' = true).
    { intros x f0 Hx Hor. unfold st', _handleSubtractedQuerySuccess. simpl.
      rewrite !nth_error_updateNth.
      destruct (Nat.eqb_spec x this) as [-> | Hne]; rewrite Hx; simpl.
      - eexists. split; reflexivity.
      - destruct Hor as [? | Hfe]; [contradiction | eauto]. }
    destruct Hin as [Hin | [<- | []]].
    + destruct (H2 t Hin) as (f0 & Hf0 & Hfe). eauto.
    + simpl. eauto.
  - intros x ff' k d Hx Hin.
    destruct (Hlook x ff' Hx) as (f0 & Hf0 & _ & _ & Hm & _).
    rewrite Hm in Hin. eauto.
  - intros r reg k e Hr Hin. apply Hfly. eapply H4; eauto.
Qed.

Lemma lifecycleOk_reset st : lifecycleOk st -> lifecycleOk (resetPending st).
Proof.
  intros (H1 & H2 & H3 & H4). split; [| split; [| split]]; auto.
  intros r reg k e Hr Hin. simpl in Hr.
  destruct (nth_error (registries st) r) as [reg0|] eqn:Hr0.
  - rewrite nth_error_app1 in Hr by (apply nth_error_Some; congruence).
    rewrite Hr0 in Hr. injection Hr as <-.
    exact (H4 r reg0 k e Hr0 Hin).
  - apply nth_error_None in Hr0.
    rewrite nth_error_app2 in Hr by assumption.
    destruct (r - List.length (registries st)) as [|n]; [| now destruct n].
    injection Hr as <-. contradiction.
Qed.

Lemma lifecycleOk_allocate forceIndex q st :
  lifecycleOk st -> lifecycleOk (allocatePendingFetch forceIndex q st).
Proof.
  intros (H1 & H2 & H3 & H4).
  assert (Hold : forall n f,
            nth_error (fetches (allocatePendingFetch forceIndex q st)) n
            = Some f ->
            nth_error (fetches st) n = Some f \/
            f = newFetch forceIndex q (pendingFetchMap st)).
  { intros n f Hn. simpl in Hn. apply nth_error_snoc in Hn.
    destruct Hn as [Hn | [_ ->]]; auto. }
  assert (Hnew : forall n f,
            nth_error (fetches st) n = Some f ->
            nth_error (fetches (allocatePendingFetch forceIndex q st)) n
            = Some f).
  { intros n f Hn. simpl. rewrite nth_error_app1; [exact Hn|].
    apply nth_error_Some. congruence. }
  assert (Hfly : forall d, inFlight st d ->
            inFlight (allocatePendingFetch forceIndex q st) d).
  { intros d. apply inFlight_kept; [auto|]. intros f Hf Ha. eauto. }
  split; [| split; [| split]].
  - intros x f Hx. destruct (Hold x f Hx) as [Hx0 | ->].
    + exact (H1 x f Hx0).
    + simpl. repeat split; congruence.
  - intros t Ht. destruct (H2 t Ht) as (f & Hf & Hfe). eauto.
  - intros x ff k d Hx Hin. destruct (Hold x ff Hx) as [Hx0 | ->].
    + eauto.
    + contradiction.
  - intros r reg k e Hr Hin. eauto.
Qed.

Lemma withDependency_status this d fd n fn :
  awaiting (withDependency this d fd n fn) = awaiting fn /\
  _fetchedSubtractedQuery (withDependency this d fd n fn)
  = _fetchedSubtractedQuery fn /\
  _errors (withDependency this d fd n fn) = _errors fn.
Proof.
  unfold withDependency. destruct (n =? d), (n =? this); repeat split.
Qed.

Lemma inFlight_addPendingDependency this d st fd x :
  nth_error (fetches st) d = Some fd ->
  inFlight st x -> inFlight (_addPendingDependency this d st) x.
Proof.
  intros Hfd. apply inFlight_kept; [auto|].
  intros f Hf Ha. exists (withDependency this d fd x f).
  split; [eapply addPendingDependency_valid; eauto|].
  now rewrite (proj1 (withDependency_status this d fd x f)).
Qed.

Lemma lifecycleOk_addPendingDependency this d st fd :
  nth_error (fetches st) d = Some fd -> inFlight st d ->
  lifecycleOk st -> lifecycleOk (_addPendingDependency this d st).
Proof.
  intros Hfd Hd (H1 & H2 & H3 & H4).
  assert (Hlook : forall n fn',
            nth_error (fetches (_addPendingDependency this d st)) n
            = Some fn' ->
            exists fn, nth_error (fetches st) n = Some fn /\
                       fn' = withDependency this d fd n fn).
  { intros n fn'.
    rewrite (nth_error_addPendingDependency this d st fd n Hfd).
    destruct (nth_error (fetches st) n) as [fn|]; [| discriminate].
    simpl. intros [= <-]. eauto. }
  split; [| split; [| split]].
  - intros x f' Hx. destruct (Hlook x f' Hx) as (f & Hf & ->).
    destruct (withDependency_status this d fd x f) as (Ha & Hb & He).
    destruct (withDependency_fields this d fd x f) as (_ & Hr & _).
    rewrite Ha, Hb, He, Hr. exact (H1 x f Hf).
  - intros t Ht. destruct (H2 t Ht) as (f & Hf & Hfe).
    exists (withDependency this d fd (taskFetch t) f).
    split; [eapply addPendingDependency_valid; eauto|].
    now rewrite (proj1 (proj2 (withDependency_status this d fd _ f))).
  - intros x ff' k d0 Hx Hin. destruct (Hlook x ff' Hx) as (ff & Hff & ->).
    destruct (withDependency_fields this d fd x ff) as (_ & _ & _ & _ & Hm).
    rewrite Hm in Hin.
    apply (inFlight_addPendingDependency this d st fd _ Hfd).
    destruct (x =? this); [| eauto].
    apply In_assocSet in Hin. destruct Hin as [[_ ->] | Hin]; eauto.
  - intros r reg k e Hr Hin.
    apply (inFlight_addPendingDependency this d st fd _ Hfd).
    eapply H4; eauto.
Qed.

Lemma lifecycleOk_fold_dependencies this deps st :
  (forall d, In d deps ->
     inFlight st d /\ exists fd, nth_error (fetches st) d = Some fd) ->
  lifecycleOk st ->
  lifecycleOk (fold_left (fun st d => _addPendingDependency this d st) deps st).
Proof.
  revert st. induction deps as [|d deps IH]; intros st Hdeps Hok; simpl;
    [exact Hok|].
  destruct (Hdeps d (or_introl eq_refl)) as (Hd & fd & Hfd).
  apply IH.
  - intros d0 Hd0.
    destruct (Hdeps d0 (or_intror Hd0)) as (Hfly & fd0 & Hfd0). split.
    + eapply inFlight_addPendingDependency; eauto.
    + eexists. eapply addPendingDependency_valid; eauto.
  - eapply lifecycleOk_addPendingDependency; eauto.
Qed.

(** The constructor registers the pending fetch, the promise of its
    subtracted query pending. *)
Lemma lifecycleOk_register this queryID sq st f :
  nth_error (fetches st) this = Some f ->
  _resolvedSubtractedQuery f = false ->
  _fetchedSubtractedQuery f = false ->
  lifecycleOk st ->
  lifecycleOk (finishPendingFetch this queryID (Some sq) st).
Proof.
  intros Hthis Hres Hfet (H1 & H2 & H3 & H4). unfold finishPendingFetch.
  set (g := fun f0 => setAwaiting
                        (setErrors (setFetchedSubtractedQuery f0 false) [])
                        (Some sq)).
  match goal with |- lifecycleOk ?s => set (st' := s) end.
  assert (Hlook : forall n,
            nth_error (fetches st') n
            = if n =? this then option_map g (nth_error (fetches st) n)
              else nth_error (fetches st) n).
  { intros n. unfold st'. simpl. rewrite !nth_error_updateNth.
    destruct (n =? this); [| reflexivity].
    now destruct (nth_error (fetches st) n). }
  assert (Hthis' : nth_error (fetches st') this = Some (g f)).
  { now rewrite Hlook, Nat.eqb_refl, Hthis. }
  assert (Hfly : forall d, inFlight st d -> inFlight st' d).
  { intros d. apply inFlight_kept; [auto|].
    intros f0 Hf0 Ha. rewrite Hlook.
    destruct (d =? this); rewrite Hf0; simpl; eauto.
    eexists. split; [reflexivity | discriminate]. }
  split; [| split; [| split]].
  - intros x f'. rewrite Hlook.
    destruct (Nat.eqb_spec x this) as [-> | Hne].
    + rewrite Hthis. simpl. intros [= <-]. simpl.
      rewrite Hres. repeat split; congruence.
    + intros Hx. exact (H1 x f' Hx).
  - intros t Ht. destruct (H2 t Ht) as (f0 & Hf0 & Hfe).
    rewrite Hlook. destruct (Nat.eqb_spec (taskFetch t) this) as [Heq | Hne].
    + exfalso. rewrite Heq, Hthis in Hf0. injection Hf0 as <-. congruence.
    + eauto.
  - intros x ff' k d. rewrite Hlook.
    destruct (x =? this).
    + destruct (nth_error (fetches st) x) as [ff|] eqn:Hx; [| discriminate].
      simpl. intros [= <-] Hin. simpl in Hin. eauto.
    + intros Hx Hin. eauto.
  - intros r reg k e. unfold st'. simpl. rewrite nth_error_updateNth.
    destruct (r =? pendingFetchMap st).
    + destruct (nth_error (registries st) r) as [reg0|] eqn:Hr0;
        [| discriminate].
      simpl. intros [= <-] Hin. apply In_assocSet in Hin.
      destruct Hin as [[_ ->] | Hin]; [| eauto].
      left. exists (g f). split; [exact Hthis' | discriminate].
    + intros Hr Hin. eauto.
Qed.

(** With nothing left to fetch, the constructor marks the pending fetch
    as resolved. *)
Lemma lifecycleOk_nothing_left this queryID st f :
  nth_error (fetches st) this = Some f ->
  awaiting f = None ->
  registryOk st -> graphOk st ->
  lifecycleOk st ->
  lifecycleOk (finishPendingFetch this queryID None st).
Proof.
  intros Hthis Haw Hreg Hgraph (H1 & H2 & H3 & H4). unfold finishPendingFetch.
  set (g := fun f0 => setErrors (setFetchedSubtractedQuery f0 true) []).
  set (st2 := updateFetch this g st).
  assert (Hlook : forall n,
            nth_error (fetches st2) n
            = if n =? this then option_map g (nth_error (fetches st) n)
              else nth_error (fetches st) n).
  { intros n. unfold st2. simpl. apply nth_error_updateNth. }
  assert (Hfly : forall d, inFlight st d -> inFlight st2 d).
  { intros d. apply inFlight_kept; [auto|].
    intros f0 Hf0 Ha. rewrite Hlook.
    destruct (d =? this); rewrite Hf0; simpl; eauto. }
  assert (Hreg2 : registryOk st2).
  { apply (keepsField_registryOk (updateFetch this g)); auto.
    now apply keepsField_updateFetch. }
  assert (Hgraph2 : graphOk st2).
  { eapply graphOk_core; [| exact Hgraph].
    apply (sameField_keeps _ (updateFetch this g)).
    now apply keepsField_updateFetch. }
  assert (Hbut : lifecycleBut this st2).
  { split; [| split; [| split]].
    - intros x f'. rewrite Hlook.
      destruct (Nat.eqb_spec x this) as [-> | Hne].
      + rewrite Hthis. simpl. intros [= <-]. simpl.
        repeat split; congruence.
      + intros Hx. destruct (H1 x f' Hx) as (Ha & Hb & Hc). auto.
    - intros t Ht. destruct (H2 t Ht) as (f0 & Hf0 & Hfe).
      rewrite Hlook. destruct (taskFetch t =? this); rewrite Hf0; simpl; eauto.
    - intros x ff' k d. rewrite Hlook.
      destruct (x =? this).
      + destruct (nth_error (fetches st) x) as [ff|] eqn:Hx; [| discriminate].
        simpl. intros [= <-] Hin _. simpl in Hin. eauto.
      + intros Hx Hin _. eauto.
    - intros r reg k e Hr Hin _. eauto. }
  apply (lifecycleOk_marked this st2).
  - apply marked_mark_resolved; [exact Hreg2 | exact (proj1 (proj2 (proj2 Hgraph2)))].
  - exact Hbut.
  - intros fm' Hm'.
    assert (Hm2 : nth_error (fetches st2) this = Some (g f)).
    { now rewrite Hlook, Nat.eqb_refl, Hthis. }
    pose proof (resolved_after_mark_resolved this st2 _ Hm2) as Hr.
    rewrite Hm' in Hr. injection Hr as Hr.
    destruct (marked_mark_resolved this st2 Hreg2
                (proj1 (proj2 (proj2 Hgraph2)))) as (_ & Hs & _).
    destruct (sameField_lookup _ _ _ _ _ Hs Hm') as (f2 & Hf2 & Heq).
    rewrite Hm2 in Hf2. injection Hf2 as <-. injection Heq as _ Hfe.
    simpl in Hfe. split; auto.
Qed.

Lemma lifecycleOk_settled_own m st st' fm fm' :
  sameField (fun f => (awaiting f, _fetchedSubtractedQuery f)) st st' ->
  sameField _resolvedSubtractedQuery st st' ->
  nth_error (fetches st) m = Some fm ->
  nth_error (fetches st') m = Some fm' ->
  _errors fm' <> [] ->
  (_resolvedSubtractedQuery fm = true -> _fetchedSubtractedQuery fm = true) ->
  (_fetchedSubtractedQuery fm' = true ->
   _resolvedSubtractedQuery fm' = true \/ _errors fm' <> []) /\
  (_resolvedSubtractedQuery fm' = true -> _fetchedSubtractedQuery fm' = true).
Proof.
  intros Hs Hr Hm Hm' He Hc.
  destruct (sameField_lookup _ _ _ _ _ Hs Hm') as (f1 & Hf1 & Heq1).
  destruct (sameField_lookup _ _ _ _ _ Hr Hm') as (f2 & Hf2 & Heq2).
  rewrite Hm in Hf1, Hf2. injection Hf1 as <-. injection Hf2 as <-.
  injection Heq1 as _ Hfe. rewrite Heq2, Hfe. auto.
Qed.

Lemma lifecycleOk_mark_rejected m error st :
  registryOk st -> dependenciesOk st -> lifecycleBut m st ->
  (forall fm, nth_error (fetches st) m = Some fm ->
     _resolvedSubtractedQuery fm = true -> _fetchedSubtractedQuery fm = true) ->
  lifecycleOk (_markAsRejected m error st).
Proof.
  intros Hreg Hdeps Hbut Hown.
  pose proof (marked_mark_rejected m error st Hreg Hdeps) as Hmarked.
  apply (lifecycleOk_marked m st); [exact Hmarked | exact Hbut |].
  intros fm' Hm'.
  assert (Hr : sameField _resolvedSubtractedQuery st (_markAsRejected m error st)).
  { intros n. now apply field_after_mark_rejected. }
  destruct (sameField_lookup _ _ _ _ _ Hr Hm') as (fm & Hm & _).
  apply (lifecycleOk_settled_own m st (_markAsRejected m error st) fm fm');
    auto.
  - exact (proj1 (proj2 Hmarked)).
  - eapply errors_after_mark_rejected; eauto.
Qed.

Lemma lifecycleOk_mark_resolved m st :
  registryOk st -> dependenciesOk st -> lifecycleBut m st ->
  (forall fm, nth_error (fetches st) m = Some fm ->
     _fetchedSubtractedQuery fm = true) ->
  lifecycleOk (_markSubtractedQueryAsResolved m st).
Proof.
  intros Hreg Hdeps Hbut Hown.
  pose proof (marked_mark_resolved m st Hreg Hdeps) as Hmarked.
  apply (lifecycleOk_marked m st); [exact Hmarked | exact Hbut |].
  intros fm' Hm'.
  destruct (sameField_lookup _ _ _ _ _ (proj1 (proj2 Hmarked)) Hm')
    as (fm & Hm & Heq).
  injection Heq as _ Hfe.
  pose proof (resolved_after_mark_resolved m st _ Hm) as Hr.
  rewrite Hm' in Hr. injection Hr as Hr.
  rewrite Hfe, (Hown fm Hm). auto.
Qed.

Section LifecycleInvariant.

Variable containsRelayQueryRootCall : Node -> Node -> bool.
Variable handleQueryPayload : Node -> nat -> option nat -> option Error.

Lemma lifecycleOk_newPendingFetch fetchMode forceIndex q st this st' :
  allFetches settledOnce st -> registryOk st -> graphOk st ->
  lifecycleOk st ->
  newPendingFetch containsRelayQueryRootCall fetchMode forceIndex q st
  = Ok (this, st') ->
  lifecycleOk st'.
Proof.
  intros Hall Hreg Hok Hlife Hnew.
  destruct (newPendingFetch_inv _ _ _ _ _ _ _ Hnew)
    as (-> & remainder & deps & next' & -> & Hpre & Hwalk).
  set (this := List.length (fetches st)).
  set (all := map (fun kv => fetch (snd kv))
                (getRegistry (pendingFetchMap st) st)).
  set (st1 := setNextRef (allocatePendingFetch forceIndex q st) next').
  assert (Hdeps : forall d, In d deps -> In d all).
  { assert (Hcases : fetchMode = PRELOAD \/ fetchMode <> PRELOAD)
      by (destruct fetchMode; auto; right; discriminate).
    destruct Hcases as [Hm | Hm].
    - destruct (Hpre Hm) as (_ & -> & _). intros d [].
    - intros d Hd.
      destruct (Walk_deps _ _ _ _ _ _ _ d (Hwalk Hm) Hd) as (k & e & Hin & <-).
      unfold all. apply in_map_iff. now exists (k, e). }
  assert (Hc1 : constructing this all st1).
  { eapply constructing_same_fetches;
      [| apply constructing_allocate; [exact Hreg | exact (proj1 Hok)]].
    reflexivity. }
  assert (Hok1 : graphOk st1).
  { eapply graphOk_same_fetches; [| apply graphOk_allocate; exact Hok].
    reflexivity. }
  assert (Hreg1 : registryOk st1).
  { eapply registryOk_same; [| | | apply registryOk_allocate; exact Hreg];
      reflexivity. }
  assert (Hlife1 : lifecycleOk st1).
  { eapply lifecycleOk_same; [| | | apply lifecycleOk_allocate; exact Hlife];
      reflexivity. }
  set (st2 := fold_left (fun st d => _addPendingDependency this d st) deps st1).
  assert (Hlife2 : lifecycleOk st2).
  { apply lifecycleOk_fold_dependencies; [| exact Hlife1].
    intros d Hd. split.
    - specialize (Hdeps d Hd). unfold all in Hdeps.
      apply in_map_iff in Hdeps. destruct Hdeps as ([k e] & <- & Hin).
      unfold getRegistry in Hin.
      destruct (nth_error (registries st) (pendingFetchMap st)) as [reg|]
        eqn:Hr.
      + rewrite (nth_error_nth _ _ _ Hr) in Hin.
        destruct Hlife1 as (_ & _ & _ & H4).
        exact (H4 (pendingFetchMap st) reg k e Hr Hin).
      + apply nth_error_None in Hr. rewrite nth_overflow in Hin by exact Hr.
        contradiction.
    - destruct Hc1 as (_ & Hvalid & _).
      exact (proj2 (Hvalid d (Hdeps d Hd))). }
  set (st3 := request fetchMode (getID q) remainder st2).
  assert (Hlife3 : lifecycleOk st3).
  { eapply lifecycleOk_same; [apply fetches_request | | | exact Hlife2].
    - unfold st3. now destruct fetchMode, remainder.
    - apply pendingFetchMap_request. }
  destruct (this_after_walk
              (fun f => (_resolvedSubtractedQuery f, _fetchedSubtractedQuery f,
                         awaiting f))
              fetchMode forceIndex q remainder deps next' st
              (fun _ _ => eq_refl) (fun _ _ => eq_refl))
    as (f & Hf & Hid).
  injection Hid as Hr Hfe Ha.
  destruct remainder as [sq|].
  - eapply lifecycleOk_register; eauto.
  - eapply lifecycleOk_nothing_left; eauto.
    + apply registryOk_request, registryOk_fold_dependencies. exact Hreg1.
    + eapply graphOk_same_fetches; [apply fetches_request|].
      eapply graphOk_fold_dependencies; eauto.
Qed.

Lemma lifecycleOk_step st st' :
  step containsRelayQueryRootCall handleQueryPayload st st' ->
  allFetches settledOnce st -> registryOk st -> graphOk st ->
  lifecycleOk st -> lifecycleOk st'.
Proof.
  intros Hstep Hall Hreg Hok Hlife.
  destruct Hstep as [fetchMode forceIndex q st this st' Hroot Hnew | st
                    | this f sq result st Hf Ha | this f sq error st Hf Ha
                    | t ts st Ht].
  - eapply lifecycleOk_newPendingFetch; eauto.
  - now apply lifecycleOk_reset.
  - eapply lifecycleOk_fulfilled; eauto.
  - unfold _handleSubtractedQueryFailure.
    set (st1 := updateFetch this (fun f => setAwaiting f None) st).
    assert (Hreg1 : registryOk st1).
    { apply (keepsField_registryOk
               (updateFetch this (fun f => setAwaiting f None)));
        [now apply keepsField_updateFetch | reflexivity | reflexivity |].
      exact Hreg. }
    assert (Hok1 : graphOk st1).
    { eapply graphOk_core; [| exact Hok].
      apply (sameField_keeps _
               (updateFetch this (fun f => setAwaiting f None))).
      now apply keepsField_updateFetch. }
    apply lifecycleOk_mark_rejected;
      [exact Hreg1 | exact (proj1 (proj2 (proj2 Hok1)))
      | now apply lifecycleBut_settle |].
    intros fm Hm Hres. unfold st1 in Hm. simpl in Hm.
    rewrite nth_error_updateNth_same, Hf in Hm. injection Hm as <-.
    simpl in Hres |- *.
    destruct Hlife as (H1 & _). destruct (H1 this f Hf) as (_ & _ & Hc).
    auto.
  - assert (Hreg1 : registryOk (setTasks st ts)).
    { eapply registryOk_same; [| | | exact Hreg]; reflexivity. }
    assert (Hok1 : graphOk (setTasks st ts)).
    { eapply graphOk_same_fetches; [| exact Hok]. reflexivity. }
    pose proof (lifecycleBut_dequeue t ts st Ht Hlife) as Hbut.
    assert (Hfe : forall fm,
              nth_error (fetches (setTasks st ts)) (taskFetch t) = Some fm ->
              _fetchedSubtractedQuery fm = true).
    { intros fm Hm. destruct Hlife as (_ & H2 & _).
      destruct (H2 t) as (f0 & Hf0 & Hfe0); [rewrite Ht; now left|].
      simpl in Hm. congruence. }
    assert (Hrej : forall error st2,
              fetches st2 = fetches (setTasks st ts) ->
              tasks st2 = tasks (setTasks st ts) ->
              registries st2 = registries (setTasks st ts) ->
              pendingFetchMap st2 = pendingFetchMap (setTasks st ts) ->
              lifecycleOk (_markAsRejected (taskFetch t) error st2)).
    { intros error st2 E1 E2 E3 E4. apply lifecycleOk_mark_rejected.
      - eapply registryOk_same; [| | | exact Hreg1]; assumption.
      - refine (proj1 (proj2 (proj2 _))).
        eapply graphOk_same_fetches; [| exact Hok1]. assumption.
      - eapply lifecycleBut_same; [| | | exact Hbut]; assumption.
      - intros fm Hm _. rewrite E1 in Hm. auto. }
    unfold runTask.
    destruct (taskResponse t); [| apply Hrej; reflexivity].
    destruct (handleQueryPayload _ _ _); [apply Hrej; reflexivity|].
    apply lifecycleOk_mark_resolved.
    + eapply registryOk_same; [| | | exact Hreg1]; reflexivity.
    + refine (proj1 (proj2 (proj2 _))).
      eapply graphOk_same_fetches; [| exact Hok1]. reflexivity.
    + eapply lifecycleBut_same; [| | | exact Hbut]; reflexivity.
    + intros fm Hm. apply Hfe. exact Hm.
Qed.

Lemma lifecycleOk_reachable next st :
  reachable containsRelayQueryRootCall handleQueryPayload next st ->
  lifecycleOk st.
Proof.
  induction 1 as [| st st' Hr IH Hstep].
  - split; [| split; [| split]].
    + intros x f Hx. now destruct x.
    + intros t [].
    + intros f ff k d Hf. now destruct f.
    + intros m reg k e Hm. simpl in Hm.
      destruct m as [|m]; [| now destruct m]. injection Hm as <-.
      intros [].
  - eapply lifecycleOk_step; eauto.
    + eapply settledOnce_reachable; eauto.
    + eapply registryOk_reachable; eauto.
    + eapply graphOk_reachable; eauto.
Qed.

End LifecycleInvariant.

(** ** What is resolvable *)

Lemma forallb_In {A} (p : A -> bool) l x :
  forallb p l = true -> In x l -> p x = true.
Proof. intros H Hin. rewrite forallb_forall in H. auto. Qed.

Section Resolvable.

Variable containsRelayQueryRootCall : Node -> Node -> bool.
Variable handleQueryPayload : Node -> nat -> option nat -> option Error.

(** X15.  A resolvable fetch awaits nothing from the network.  In every state
    that the tracker reaches, when [isResolvable] answers true for a pending
    fetch, the promise of its subtracted query is no longer pending, and its
    subtracted query is resolved, or its response is in the task queue, or an
    error is recorded; and each of its pending dependencies is an older
    pending fetch whose promise is no longer pending and whose response is in
    the task queue. *)
Theorem resolvable_awaits_nothing next st this :
  reachable containsRelayQueryRootCall handleQueryPayload next st ->
  isResolvable this st = true ->
  exists f,
    nth_error (fetches st) this = Some f /\
    awaiting f = None /\
    (_resolvedSubtractedQuery f = true \/ queued st this \/ _errors f <> []) /\
    forall k d, In (k, d) (_pendingDependencyMap f) ->
      d < this /\ queued st d /\
      exists fd, nth_error (fetches st) d = Some fd /\ awaiting fd = None.
Proof.
  intros Hr Hres.
  destruct (lifecycleOk_reachable _ _ _ _ Hr) as (H1 & _ & H3 & _).
  destruct (graphOk_reachable _ _ _ _ Hr) as (Hedges & _ & Hdeps & _).
  unfold isResolvable in Hres.
  destruct (nth_error (fetches st) this) as [f|] eqn:Hf; [| discriminate].
  destruct (_fetchedSubtractedQuery f) eqn:Hfe; [| discriminate].
  destruct (H1 this f Hf) as (Ha & Hb & _).
  exists f. split; [reflexivity | split; [| split; [auto|]]].
  - destruct (awaiting f); [| reflexivity].
    assert (Some n <> None) as Hn by discriminate.
    specialize (Ha Hn). congruence.
  - intros k d Hin.
    pose proof (forallb_In _ _ _ Hres Hin) as Hd. simpl in Hd.
    destruct (nth_error (fetches st) d) as [fd|] eqn:Hfd; [| discriminate].
    destruct (Hdeps this f k d Hf Hin) as (fd0 & Hfd0 & _ & Hdep).
    rewrite Hfd in Hfd0. injection Hfd0 as <-.
    assert (Hnone : awaiting fd = None).
    { destruct (awaiting fd) eqn:Hafd; [| reflexivity].
      destruct (H1 d fd Hfd) as (Ha' & _).
      rewrite Ha' in Hd; [discriminate | congruence]. }
    split; [exact (proj1 (Hedges d fd this Hfd Hdep)) | split; [| eauto]].
    destruct (H3 this f k d Hf Hin) as [(fd1 & Hfd1 & Haw) | Hq];
      [| exact Hq].
    rewrite Hfd in Hfd1. injection Hfd1 as <-. contradiction.
Qed.

(** X16.  A resolved fetch is resolvable.  In every state that the tracker
    reaches, [isResolvable] answers true for a pending fetch whose future is
    resolved. *)
Theorem resolved_is_resolvable next st this f :
  reachable containsRelayQueryRootCall handleQueryPayload next st ->
  nth_error (fetches st) this = Some f ->
  settlements (_resolvedDeferred f) = [Resolved] ->
  isResolvable this st = true.
Proof.
  intros Hr Hf Hs.
  pose proof (settledOnce_reachable _ _ _ _ Hr this f Hf) as [Hfired _].
  unfold firedOnce in Hfired. rewrite Hs in Hfired.
  destruct Hfired as (_ & Hres & Hmap).
  destruct (lifecycleOk_reachable _ _ _ _ Hr) as (H1 & _).
  destruct (H1 this f Hf) as (_ & _ & Hc).
  unfold isResolvable. rewrite Hf, (Hc Hres), Hmap. reflexivity.
Qed.

End Resolvable.

Lemma sampleFulfilled'_reachable :
  reachable sampleOverlaps sampleStore 10 sampleFulfilled'.
Proof.
  eapply reachable_step; [apply sampleFulfilled_reachable|].
  eapply step_fulfilled with (this := 1) (sq := sampleRemainder)
                             (result := RObject 8); reflexivity.
Defined.

Lemma resolvable_awaits_nothing_witness :
  reachable sampleOverlaps sampleStore 10 sampleFulfilled' /\
  isResolvable 1 sampleFulfilled' = true /\
  exists f,
    nth_error (fetches sampleFulfilled') 1 = Some f /\
    awaiting f = None /\
    (_resolvedSubtractedQuery f = true \/ queued sampleFulfilled' 1 \/
     _errors f <> []) /\
    forall k d, In (k, d) (_pendingDependencyMap f) ->
      d < 1 /\ queued sampleFulfilled' d /\
      exists fd, nth_error (fetches sampleFulfilled') d = Some fd /\
                 awaiting fd = None.
Proof.
  split; [exact sampleFulfilled'_reachable | split; [reflexivity |]].
  exact (resolvable_awaits_nothing sampleOverlaps sampleStore 10
           sampleFulfilled' 1 sampleFulfilled'_reachable eq_refl).
Defined.

Lemma resolved_is_resolvable_witness :
  let f := nth 1 (fetches sampleResolved') sampleFetch in
  reachable sampleOverlaps sampleStore 10 sampleResolved' /\
  nth_error (fetches sampleResolved') 1 = Some f /\
  settlements (_resolvedDeferred f) = [Resolved] /\
  isResolvable 1 sampleResolved' = true.
Proof.
  intros f.
  split; [exact sampleResolved'_reachable | split;
    [reflexivity | split; [reflexivity |]]].
  exact (resolved_is_resolvable sampleOverlaps sampleStore 10
           sampleResolved' 1 f sampleResolved'_reachable eq_refl eq_refl).
Defined.

(** ** What is pending *)

Section Pending.

Variable containsRelayQueryRootCall : Node -> Node -> bool.
Variable handleQueryPayload : Node -> nat -> option nat -> option Error.

(** X17.  What is pending is in flight.  In every state that the tracker
    reaches, the fetch of an entry of a registry is in flight: the promise of
    its subtracted query is pending, or its response is in the task queue.  So
    when [hasPendingQueries] answers true, there is a pending fetch, created
    with the registry of the tracker and not marked as resolved, that is in
    flight. *)
Theorem pending_queries_are_in_flight next st :
  reachable containsRelayQueryRootCall handleQueryPayload next st ->
  (forall m reg k e,
     nth_error (registries st) m = Some reg -> In (k, e) reg ->
     inFlight st (fetch e)) /\
  (hasPendingQueries st = true ->
   exists x f,
     nth_error (fetches st) x = Some f /\
     _pendingFetchMap f = pendingFetchMap st /\
     _resolvedSubtractedQuery f = false /\ inFlight st x).
Proof.
  intros Hr.
  destruct (lifecycleOk_reachable _ _ _ _ Hr) as (_ & _ & _ & H4).
  split; [exact H4|].
  destruct (registryOk_reachable _ _ _ _ Hr) as (Hp & _ & He).
  unfold hasPendingQueries, getRegistry, hasItems.
  destruct (nth_error (registries st) (pendingFetchMap st)) as [reg|] eqn:Hreg;
    [| apply nth_error_None in Hreg; lia].
  rewrite (nth_error_nth _ _ _ Hreg).
  destruct reg as [|[k e] reg]; [discriminate|]. intros _.
  destruct (He _ _ Hreg) as [_ Hin].
  destruct (Hin k e (in_eq _ _)) as (fe & Hfe & _ & Hmap & Hres & _).
  exists (fetch e), fe. repeat split; auto.
  eapply H4; [exact Hreg | apply in_eq].
Qed.

End Pending.

Lemma pending_queries_are_in_flight_witness :
  reachable sampleOverlaps sampleStore 10 sampleFulfilled /\
  (forall m reg k e,
     nth_error (registries sampleFulfilled) m = Some reg -> In (k, e) reg ->
     inFlight sampleFulfilled (fetch e)) /\
  (hasPendingQueries sampleFulfilled = true ->
   exists x f,
     nth_error (fetches sampleFulfilled) x = Some f /\
     _pendingFetchMap f = pendingFetchMap sampleFulfilled /\
     _resolvedSubtractedQuery f = false /\ inFlight sampleFulfilled x).
Proof.
  split; [exact sampleFulfilled_reachable |].
  exact (pending_queries_are_in_flight sampleOverlaps sampleStore 10
           sampleFulfilled sampleFulfilled_reachable).
Defined.
